(** * Kinematics engine of Angular9-Kinematics: bones, chains and IK solvers

    A shallow embedding of
      - [src/app/shared/libs/rigs/base-bone.ts], [bone.ts]  (class Bone),
      - [src/app/shared/libs/rigs/chain.ts]                 (class Chain),
      - [src/app/shared/libs/ik-solvers/ccd-basic.ts]       (ccdBasic, limbSolver,
        getRotation, isClockwise and class Connector),
    followed by the properties of the specification that concern them.

    Conventions of the embedding.
      - A JavaScript [number] is a real number.  [Math.cos], [Math.sin],
        [Math.sqrt], [Math.acos], [Math.abs], [Math.max], [Math.min] are the
        functions of the standard library of reals; [Math.atan2] is defined
        below from [atan].  A place where the source would go on computing
        with [undefined] or [NaN] ends the run with [NotReal].
      - Objects live in a store addressed by references; [NEXT], [PREV],
        [_rootBone], [_terminalBone] and the entries of [_bones] are
        references, [null] and [undefined] are [None].
      - A thrown exception keeps the store as mutated so far.
      - Rendering (the PIXI graphics context, flare and skin points, colours,
        mouse handlers) and the [_onFinal] notification are left out; of a
        forward- or backward-linked object only what the code reads from it
        is kept (record [Linkable]), the calls that move it are not modelled:
        the propagation that ends on a bone without [NEXT] stops there, where
        the source goes on with [_linkedTo.move] or [_linkedTo.moveAndRotate],
        and [invalidate] leaves the forward links of the chain where they
        are.  A statement that the rest of the store is unchanged assumes
        that there is no such link ([unlinked], [_forward c = []]);
        a connector's calls on its links are kept, as the run of the method. *)

From Stdlib Require Import Reals Lra Lia ZArith.
From stdpp Require Import base option list gmap.

Open Scope R_scope.

(** ** Numbers *)

#[global] Instance Rle_dec' : RelDecision Rle := Rle_dec.
#[global] Instance Rlt_dec' : RelDecision Rlt := Rlt_dec.
#[global] Instance Rge_dec' : RelDecision Rge := Rge_dec.
#[global] Instance Rgt_dec' : RelDecision Rgt := Rgt_dec.
#[global] Instance Req_dec' : EqDecision R := Req_dec_T.

Declare Scope js_scope.
Delimit Scope js_scope with js.
Notation "a <=? b" := (bool_decide (Rle a b)) : js_scope.
Notation "a <? b" := (bool_decide (Rlt a b)) : js_scope.
Notation "a >=? b" := (bool_decide (Rge a b)) (at level 70) : js_scope.
Notation "a >? b" := (bool_decide (Rgt a b)) (at level 70) : js_scope.
Open Scope js_scope.

(** The analytic functions are used through their lemmas only. *)
#[global] Opaque sqrt cos sin atan acos PI.

(** [Math.atan2(y, x)]: the angle of the point [(x, y)], in (-PI, PI]. *)
Definition atan2 (y x : R) : R :=
  if decide (0 < x) then atan (y / x)
  else if decide (x < 0) then
    (if decide (0 <= y) then atan (y / x) + PI else atan (y / x) - PI)
  else if decide (0 < y) then PI / 2
  else if decide (y < 0) then - (PI / 2)
  else 0.

Definition TWO_PI : R := PI + PI.

(** ** Outcomes of a run *)

Inductive Exn : Set :=
| TypeError     (* a property of null or undefined was accessed *)
| RangeError    (* unbounded recursion along a cyclic NEXT link *)
| NotReal       (* arithmetic on undefined *)
| Diverge.      (* the bound put on a loop of the model was reached *)

Inductive Outcome (A : Type) : Type :=
| Ret (a : A)
| Throw (e : Exn).
Arguments Ret {A} a.
Arguments Throw {A} e.

(** ** Enumerations of bone-properties.ts and bone.ts *)

Inductive FK_TYPE : Set := FK_NONE | FK_MOVE | FK_ROTATE.
Inductive DRAW_TYPE : Set := STANDARD | CUSTOM.
Inductive SKIN_TYPE : Set := SKIN_NONE | SPLINE_BONE | SPLINE_CHAIN | SPRITE.

#[global] Instance FK_TYPE_eq_dec : EqDecision FK_TYPE.
Proof. solve_decision. Defined.
#[global] Instance DRAW_TYPE_eq_dec : EqDecision DRAW_TYPE.
Proof. solve_decision. Defined.
#[global] Instance SKIN_TYPE_eq_dec : EqDecision SKIN_TYPE.
Proof. solve_decision. Defined.

Definition ref := nat.

(** What the code reads from an object linked to a bone or a chain. *)
Record Linkable : Type := mkLinkable {
  lk_initX : R;
  lk_initY : R;
  lk_terminalX : R;
  lk_terminalY : R;
  lk_endOrientation : R;
  lk_moveEndEffector : bool   (* the result of its moveEndEffector *)
}.

(** ** Bone (base-bone.ts, bone.ts) *)

Module Bone.

Record t : Type := mk {
  _x0 : R;
  _y0 : R;
  _x1 : R;
  _y1 : R;
  _deltaX : R;
  _deltaY : R;
  _length : R;
  _flare : R;
  _angle : R;
  _deltaAngle : option R;
  _drawing : bool;
  _fk : FK_TYPE;
  NEXT : option ref;
  PREV : option ref;
  IS_ROOT : bool;
  IS_END : bool;
  RENDERABLE : bool;
  SKIN_ONLY : bool;
  _drawType : DRAW_TYPE;
  _skinType : SKIN_TYPE;
  _lowerLimit : R;
  _upperLimit : R;
  _unconstrained : bool;
  _linkedTo : option Linkable
}.

Definition ALPHA : R := 2 / 10.

(** Assignment to one field. *)
Definition upd_x0 (v : R) (b : t) : t :=
  {| _x0 := v; _y0 := _y0 b; _x1 := _x1 b; _y1 := _y1 b;
     _deltaX := _deltaX b; _deltaY := _deltaY b; _length := _length b;
     _flare := _flare b; _angle := _angle b; _deltaAngle := _deltaAngle b;
     _drawing := _drawing b; _fk := _fk b; NEXT := NEXT b; PREV := PREV b;
     IS_ROOT := IS_ROOT b; IS_END := IS_END b; RENDERABLE := RENDERABLE b;
     SKIN_ONLY := SKIN_ONLY b; _drawType := _drawType b;
     _skinType := _skinType b; _lowerLimit := _lowerLimit b;
     _upperLimit := _upperLimit b; _unconstrained := _unconstrained b;
     _linkedTo := _linkedTo b |}.
Definition upd_y0 (v : R) (b : t) : t :=
  {| _x0 := _x0 b; _y0 := v; _x1 := _x1 b; _y1 := _y1 b;
     _deltaX := _deltaX b; _deltaY := _deltaY b; _length := _length b;
     _flare := _flare b; _angle := _angle b; _deltaAngle := _deltaAngle b;
     _drawing := _drawing b; _fk := _fk b; NEXT := NEXT b; PREV := PREV b;
     IS_ROOT := IS_ROOT b; IS_END := IS_END b; RENDERABLE := RENDERABLE b;
     SKIN_ONLY := SKIN_ONLY b; _drawType := _drawType b;
     _skinType := _skinType b; _lowerLimit := _lowerLimit b;
     _upperLimit := _upperLimit b; _unconstrained := _unconstrained b;
     _linkedTo := _linkedTo b |}.
Definition upd_x1 (v : R) (b : t) : t :=
  {| _x0 := _x0 b; _y0 := _y0 b; _x1 := v; _y1 := _y1 b;
     _deltaX := _deltaX b; _deltaY := _deltaY b; _length := _length b;
     _flare := _flare b; _angle := _angle b; _deltaAngle := _deltaAngle b;
     _drawing := _drawing b; _fk := _fk b; NEXT := NEXT b; PREV := PREV b;
     IS_ROOT := IS_ROOT b; IS_END := IS_END b; RENDERABLE := RENDERABLE b;
     SKIN_ONLY := SKIN_ONLY b; _drawType := _drawType b;
     _skinType := _skinType b; _lowerLimit := _lowerLimit b;
     _upperLimit := _upperLimit b; _unconstrained := _unconstrained b;
     _linkedTo := _linkedTo b |}.
Definition upd_y1 (v : R) (b : t) : t :=
  {| _x0 := _x0 b; _y0 := _y0 b; _x1 := _x1 b; _y1 := v;
     _deltaX := _deltaX b; _deltaY := _deltaY b; _length := _length b;
     _flare := _flare b; _angle := _angle b; _deltaAngle := _deltaAngle b;
     _drawing := _drawing b; _fk := _fk b; NEXT := NEXT b; PREV := PREV b;
     IS_ROOT := IS_ROOT b; IS_END := IS_END b; RENDERABLE := RENDERABLE b;
     SKIN_ONLY := SKIN_ONLY b; _drawType := _drawType b;
     _skinType := _skinType b; _lowerLimit := _lowerLimit b;
     _upperLimit := _upperLimit b; _unconstrained := _unconstrained b;
     _linkedTo := _linkedTo b |}.
Definition upd_deltaX (v : R) (b : t) : t :=
  {| _x0 := _x0 b; _y0 := _y0 b; _x1 := _x1 b; _y1 := _y1 b; _deltaX := v;
     _deltaY := _deltaY b; _length := _length b; _flare := _flare b;
     _angle := _angle b; _deltaAngle := _deltaAngle b;
     _drawing := _drawing b; _fk := _fk b; NEXT := NEXT b; PREV := PREV b;
     IS_ROOT := IS_ROOT b; IS_END := IS_END b; RENDERABLE := RENDERABLE b;
     SKIN_ONLY := SKIN_ONLY b; _drawType := _drawType b;
     _skinType := _skinType b; _lowerLimit := _lowerLimit b;
     _upperLimit := _upperLimit b; _unconstrained := _unconstrained b;
     _linkedTo := _linkedTo b |}.
Definition upd_deltaY (v : R) (b : t) : t :=
  {| _x0 := _x0 b; _y0 := _y0 b; _x1 := _x1 b; _y1 := _y1 b;
     _deltaX := _deltaX b; _deltaY := v; _length := _length b;
     _flare := _flare b; _angle := _angle b; _deltaAngle := _deltaAngle b;
     _drawing := _drawing b; _fk := _fk b; NEXT := NEXT b; PREV := PREV b;
     IS_ROOT := IS_ROOT b; IS_END := IS_END b; RENDERABLE := RENDERABLE b;
     SKIN_ONLY := SKIN_ONLY b; _drawType := _drawType b;
     _skinType := _skinType b; _lowerLimit := _lowerLimit b;
     _upperLimit := _upperLimit b; _unconstrained := _unconstrained b;
     _linkedTo := _linkedTo b |}.
Definition upd_length (v : R) (b : t) : t :=
  {| _x0 := _x0 b; _y0 := _y0 b; _x1 := _x1 b; _y1 := _y1 b;
     _deltaX := _deltaX b; _deltaY := _deltaY b; _length := v;
     _flare := _flare b; _angle := _angle b; _deltaAngle := _deltaAngle b;
     _drawing := _drawing b; _fk := _fk b; NEXT := NEXT b; PREV := PREV b;
     IS_ROOT := IS_ROOT b; IS_END := IS_END b; RENDERABLE := RENDERABLE b;
     SKIN_ONLY := SKIN_ONLY b; _drawType := _drawType b;
     _skinType := _skinType b; _lowerLimit := _lowerLimit b;
     _upperLimit := _upperLimit b; _unconstrained := _unconstrained b;
     _linkedTo := _linkedTo b |}.
Definition upd_flare (v : R) (b : t) : t :=
  {| _x0 := _x0 b; _y0 := _y0 b; _x1 := _x1 b; _y1 := _y1 b;
     _deltaX := _deltaX b; _deltaY := _deltaY b; _length := _length b;
     _flare := v; _angle := _angle b; _deltaAngle := _deltaAngle b;
     _drawing := _drawing b; _fk := _fk b; NEXT := NEXT b; PREV := PREV b;
     IS_ROOT := IS_ROOT b; IS_END := IS_END b; RENDERABLE := RENDERABLE b;
     SKIN_ONLY := SKIN_ONLY b; _drawType := _drawType b;
     _skinType := _skinType b; _lowerLimit := _lowerLimit b;
     _upperLimit := _upperLimit b; _unconstrained := _unconstrained b;
     _linkedTo := _linkedTo b |}.
Definition upd_angle (v : R) (b : t) : t :=
  {| _x0 := _x0 b; _y0 := _y0 b; _x1 := _x1 b; _y1 := _y1 b;
     _deltaX := _deltaX b; _deltaY := _deltaY b; _length := _length b;
     _flare := _flare b; _angle := v; _deltaAngle := _deltaAngle b;
     _drawing := _drawing b; _fk := _fk b; NEXT := NEXT b; PREV := PREV b;
     IS_ROOT := IS_ROOT b; IS_END := IS_END b; RENDERABLE := RENDERABLE b;
     SKIN_ONLY := SKIN_ONLY b; _drawType := _drawType b;
     _skinType := _skinType b; _lowerLimit := _lowerLimit b;
     _upperLimit := _upperLimit b; _unconstrained := _unconstrained b;
     _linkedTo := _linkedTo b |}.
Definition upd_deltaAngle (v : option R) (b : t) : t :=
  {| _x0 := _x0 b; _y0 := _y0 b; _x1 := _x1 b; _y1 := _y1 b;
     _deltaX := _deltaX b; _deltaY := _deltaY b; _length := _length b;
     _flare := _flare b; _angle := _angle b; _deltaAngle := v;
     _drawing := _drawing b; _fk := _fk b; NEXT := NEXT b; PREV := PREV b;
     IS_ROOT := IS_ROOT b; IS_END := IS_END b; RENDERABLE := RENDERABLE b;
     SKIN_ONLY := SKIN_ONLY b; _drawType := _drawType b;
     _skinType := _skinType b; _lowerLimit := _lowerLimit b;
     _upperLimit := _upperLimit b; _unconstrained := _unconstrained b;
     _linkedTo := _linkedTo b |}.
Definition upd_drawing (v : bool) (b : t) : t :=
  {| _x0 := _x0 b; _y0 := _y0 b; _x1 := _x1 b; _y1 := _y1 b;
     _deltaX := _deltaX b; _deltaY := _deltaY b; _length := _length b;
     _flare := _flare b; _angle := _angle b; _deltaAngle := _deltaAngle b;
     _drawing := v; _fk := _fk b; NEXT := NEXT b; PREV := PREV b;
     IS_ROOT := IS_ROOT b; IS_END := IS_END b; RENDERABLE := RENDERABLE b;
     SKIN_ONLY := SKIN_ONLY b; _drawType := _drawType b;
     _skinType := _skinType b; _lowerLimit := _lowerLimit b;
     _upperLimit := _upperLimit b; _unconstrained := _unconstrained b;
     _linkedTo := _linkedTo b |}.
Definition upd_fk (v : FK_TYPE) (b : t) : t :=
  {| _x0 := _x0 b; _y0 := _y0 b; _x1 := _x1 b; _y1 := _y1 b;
     _deltaX := _deltaX b; _deltaY := _deltaY b; _length := _length b;
     _flare := _flare b; _angle := _angle b; _deltaAngle := _deltaAngle b;
     _drawing := _drawing b; _fk := v; NEXT := NEXT b; PREV := PREV b;
     IS_ROOT := IS_ROOT b; IS_END := IS_END b; RENDERABLE := RENDERABLE b;
     SKIN_ONLY := SKIN_ONLY b; _drawType := _drawType b;
     _skinType := _skinType b; _lowerLimit := _lowerLimit b;
     _upperLimit := _upperLimit b; _unconstrained := _unconstrained b;
     _linkedTo := _linkedTo b |}.
Definition upd_NEXT (v : option ref) (b : t) : t :=
  {| _x0 := _x0 b; _y0 := _y0 b; _x1 := _x1 b; _y1 := _y1 b;
     _deltaX := _deltaX b; _deltaY := _deltaY b; _length := _length b;
     _flare := _flare b; _angle := _angle b; _deltaAngle := _deltaAngle b;
     _drawing := _drawing b; _fk := _fk b; NEXT := v; PREV := PREV b;
     IS_ROOT := IS_ROOT b; IS_END := IS_END b; RENDERABLE := RENDERABLE b;
     SKIN_ONLY := SKIN_ONLY b; _drawType := _drawType b;
     _skinType := _skinType b; _lowerLimit := _lowerLimit b;
     _upperLimit := _upperLimit b; _unconstrained := _unconstrained b;
     _linkedTo := _linkedTo b |}.
Definition upd_PREV (v : option ref) (b : t) : t :=
  {| _x0 := _x0 b; _y0 := _y0 b; _x1 := _x1 b; _y1 := _y1 b;
     _deltaX := _deltaX b; _deltaY := _deltaY b; _length := _length b;
     _flare := _flare b; _angle := _angle b; _deltaAngle := _deltaAngle b;
     _drawing := _drawing b; _fk := _fk b; NEXT := NEXT b; PREV := v;
     IS_ROOT := IS_ROOT b; IS_END := IS_END b; RENDERABLE := RENDERABLE b;
     SKIN_ONLY := SKIN_ONLY b; _drawType := _drawType b;
     _skinType := _skinType b; _lowerLimit := _lowerLimit b;
     _upperLimit := _upperLimit b; _unconstrained := _unconstrained b;
     _linkedTo := _linkedTo b |}.
Definition upd_IS_ROOT (v : bool) (b : t) : t :=
  {| _x0 := _x0 b; _y0 := _y0 b; _x1 := _x1 b; _y1 := _y1 b;
     _deltaX := _deltaX b; _deltaY := _deltaY b; _length := _length b;
     _flare := _flare b; _angle := _angle b; _deltaAngle := _deltaAngle b;
     _drawing := _drawing b; _fk := _fk b; NEXT := NEXT b; PREV := PREV b;
     IS_ROOT := v; IS_END := IS_END b; RENDERABLE := RENDERABLE b;
     SKIN_ONLY := SKIN_ONLY b; _drawType := _drawType b;
     _skinType := _skinType b; _lowerLimit := _lowerLimit b;
     _upperLimit := _upperLimit b; _unconstrained := _unconstrained b;
     _linkedTo := _linkedTo b |}.
Definition upd_IS_END (v : bool) (b : t) : t :=
  {| _x0 := _x0 b; _y0 := _y0 b; _x1 := _x1 b; _y1 := _y1 b;
     _deltaX := _deltaX b; _deltaY := _deltaY b; _length := _length b;
     _flare := _flare b; _angle := _angle b; _deltaAngle := _deltaAngle b;
     _drawing := _drawing b; _fk := _fk b; NEXT := NEXT b; PREV := PREV b;
     IS_ROOT := IS_ROOT b; IS_END := v; RENDERABLE := RENDERABLE b;
     SKIN_ONLY := SKIN_ONLY b; _drawType := _drawType b;
     _skinType := _skinType b; _lowerLimit := _lowerLimit b;
     _upperLimit := _upperLimit b; _unconstrained := _unconstrained b;
     _linkedTo := _linkedTo b |}.
Definition upd_RENDERABLE (v : bool) (b : t) : t :=
  {| _x0 := _x0 b; _y0 := _y0 b; _x1 := _x1 b; _y1 := _y1 b;
     _deltaX := _deltaX b; _deltaY := _deltaY b; _length := _length b;
     _flare := _flare b; _angle := _angle b; _deltaAngle := _deltaAngle b;
     _drawing := _drawing b; _fk := _fk b; NEXT := NEXT b; PREV := PREV b;
     IS_ROOT := IS_ROOT b; IS_END := IS_END b; RENDERABLE := v;
     SKIN_ONLY := SKIN_ONLY b; _drawType := _drawType b;
     _skinType := _skinType b; _lowerLimit := _lowerLimit b;
     _upperLimit := _upperLimit b; _unconstrained := _unconstrained b;
     _linkedTo := _linkedTo b |}.
Definition upd_SKIN_ONLY (v : bool) (b : t) : t :=
  {| _x0 := _x0 b; _y0 := _y0 b; _x1 := _x1 b; _y1 := _y1 b;
     _deltaX := _deltaX b; _deltaY := _deltaY b; _length := _length b;
     _flare := _flare b; _angle := _angle b; _deltaAngle := _deltaAngle b;
     _drawing := _drawing b; _fk := _fk b; NEXT := NEXT b; PREV := PREV b;
     IS_ROOT := IS_ROOT b; IS_END := IS_END b; RENDERABLE := RENDERABLE b;
     SKIN_ONLY := v; _drawType := _drawType b; _skinType := _skinType b;
     _lowerLimit := _lowerLimit b; _upperLimit := _upperLimit b;
     _unconstrained := _unconstrained b; _linkedTo := _linkedTo b |}.
Definition upd_drawType (v : DRAW_TYPE) (b : t) : t :=
  {| _x0 := _x0 b; _y0 := _y0 b; _x1 := _x1 b; _y1 := _y1 b;
     _deltaX := _deltaX b; _deltaY := _deltaY b; _length := _length b;
     _flare := _flare b; _angle := _angle b; _deltaAngle := _deltaAngle b;
     _drawing := _drawing b; _fk := _fk b; NEXT := NEXT b; PREV := PREV b;
     IS_ROOT := IS_ROOT b; IS_END := IS_END b; RENDERABLE := RENDERABLE b;
     SKIN_ONLY := SKIN_ONLY b; _drawType := v; _skinType := _skinType b;
     _lowerLimit := _lowerLimit b; _upperLimit := _upperLimit b;
     _unconstrained := _unconstrained b; _linkedTo := _linkedTo b |}.
Definition upd_skinType (v : SKIN_TYPE) (b : t) : t :=
  {| _x0 := _x0 b; _y0 := _y0 b; _x1 := _x1 b; _y1 := _y1 b;
     _deltaX := _deltaX b; _deltaY := _deltaY b; _length := _length b;
     _flare := _flare b; _angle := _angle b; _deltaAngle := _deltaAngle b;
     _drawing := _drawing b; _fk := _fk b; NEXT := NEXT b; PREV := PREV b;
     IS_ROOT := IS_ROOT b; IS_END := IS_END b; RENDERABLE := RENDERABLE b;
     SKIN_ONLY := SKIN_ONLY b; _drawType := _drawType b; _skinType := v;
     _lowerLimit := _lowerLimit b; _upperLimit := _upperLimit b;
     _unconstrained := _unconstrained b; _linkedTo := _linkedTo b |}.
Definition upd_lowerLimit (v : R) (b : t) : t :=
  {| _x0 := _x0 b; _y0 := _y0 b; _x1 := _x1 b; _y1 := _y1 b;
     _deltaX := _deltaX b; _deltaY := _deltaY b; _length := _length b;
     _flare := _flare b; _angle := _angle b; _deltaAngle := _deltaAngle b;
     _drawing := _drawing b; _fk := _fk b; NEXT := NEXT b; PREV := PREV b;
     IS_ROOT := IS_ROOT b; IS_END := IS_END b; RENDERABLE := RENDERABLE b;
     SKIN_ONLY := SKIN_ONLY b; _drawType := _drawType b;
     _skinType := _skinType b; _lowerLimit := v;
     _upperLimit := _upperLimit b; _unconstrained := _unconstrained b;
     _linkedTo := _linkedTo b |}.
Definition upd_upperLimit (v : R) (b : t) : t :=
  {| _x0 := _x0 b; _y0 := _y0 b; _x1 := _x1 b; _y1 := _y1 b;
     _deltaX := _deltaX b; _deltaY := _deltaY b; _length := _length b;
     _flare := _flare b; _angle := _angle b; _deltaAngle := _deltaAngle b;
     _drawing := _drawing b; _fk := _fk b; NEXT := NEXT b; PREV := PREV b;
     IS_ROOT := IS_ROOT b; IS_END := IS_END b; RENDERABLE := RENDERABLE b;
     SKIN_ONLY := SKIN_ONLY b; _drawType := _drawType b;
     _skinType := _skinType b; _lowerLimit := _lowerLimit b;
     _upperLimit := v; _unconstrained := _unconstrained b;
     _linkedTo := _linkedTo b |}.
Definition upd_unconstrained (v : bool) (b : t) : t :=
  {| _x0 := _x0 b; _y0 := _y0 b; _x1 := _x1 b; _y1 := _y1 b;
     _deltaX := _deltaX b; _deltaY := _deltaY b; _length := _length b;
     _flare := _flare b; _angle := _angle b; _deltaAngle := _deltaAngle b;
     _drawing := _drawing b; _fk := _fk b; NEXT := NEXT b; PREV := PREV b;
     IS_ROOT := IS_ROOT b; IS_END := IS_END b; RENDERABLE := RENDERABLE b;
     SKIN_ONLY := SKIN_ONLY b; _drawType := _drawType b;
     _skinType := _skinType b; _lowerLimit := _lowerLimit b;
     _upperLimit := _upperLimit b; _unconstrained := v;
     _linkedTo := _linkedTo b |}.
Definition upd_linkedTo (v : option Linkable) (b : t) : t :=
  {| _x0 := _x0 b; _y0 := _y0 b; _x1 := _x1 b; _y1 := _y1 b;
     _deltaX := _deltaX b; _deltaY := _deltaY b; _length := _length b;
     _flare := _flare b; _angle := _angle b; _deltaAngle := _deltaAngle b;
     _drawing := _drawing b; _fk := _fk b; NEXT := NEXT b; PREV := PREV b;
     IS_ROOT := IS_ROOT b; IS_END := IS_END b; RENDERABLE := RENDERABLE b;
     SKIN_ONLY := SKIN_ONLY b; _drawType := _drawType b;
     _skinType := _skinType b; _lowerLimit := _lowerLimit b;
     _upperLimit := _upperLimit b; _unconstrained := _unconstrained b;
     _linkedTo := v |}.


(** [init()]: reset of the bone; limits, linkage and skin are not touched. *)
Definition init (b : t) : t :=
  let b := upd_NEXT None b in
  let b := upd_PREV None b in
  let b := upd_RENDERABLE true b in
  let b := upd_IS_ROOT false b in
  let b := upd_IS_END false b in
  let b := upd_x0 0 b in
  let b := upd_y0 0 b in
  let b := upd_x1 0 b in
  let b := upd_y1 0 b in
  let b := upd_length 0 b in
  let b := upd_deltaX 0 b in
  let b := upd_deltaY 0 b in
  let b := upd_flare 0 b in
  let b := upd_angle 0 b in
  let b := upd_drawing false b in
  let b := upd_drawType STANDARD b in
  upd_fk FK_NONE b.

(** [new Bone(g)]: the BaseBone constructor, then [init()]. *)
Definition new : t :=
  init
    {| _x0 := 0; _y0 := 0; _x1 := 0; _y1 := 0;
       _deltaX := 0; _deltaY := 0; _length := 0; _flare := 0; _angle := 0;
       _deltaAngle := None;
       _drawing := false; _fk := FK_NONE;
       NEXT := None; PREV := None; IS_ROOT := false; IS_END := false;
       RENDERABLE := true; SKIN_ONLY := false;
       _drawType := STANDARD; _skinType := SKIN_NONE;
       _lowerLimit := - TWO_PI; _upperLimit := TWO_PI;
       _unconstrained := true; _linkedTo := None |}.

(** [destruct()] *)
Definition destruct (b : t) : t := init b.

Definition initX (b : t) : R := _x0 b.
Definition initY (b : t) : R := _y0 b.
Definition terminalX (b : t) : R := _x1 b.
Definition terminalY (b : t) : R := _y1 b.
Definition length (b : t) : R := _length b.

(** [get orientation()] and [get endOrientation()] *)
Definition orientation (b : t) : R :=
  if _angle b >=? 0 then _angle b else TWO_PI + _angle b.
Definition endOrientation (b : t) : R :=
  if _angle b >=? 0 then _angle b else TWO_PI + _angle b.

(** [set lowerLimit(r)], [set upperLimit(r)] (base-bone.ts) *)
Definition set_lowerLimit (r : R) (b : t) : t :=
  let b := upd_lowerLimit r b in
  upd_unconstrained
    (bool_decide (_lowerLimit b = - TWO_PI) &&
     bool_decide (_upperLimit b = TWO_PI)) b.

Definition set_upperLimit (r : R) (b : t) : t :=
  let b := upd_upperLimit r b in
  upd_unconstrained
    (bool_decide (_lowerLimit b = - TWO_PI) &&
     bool_decide (_upperLimit b = TWO_PI)) b.

(** [set linkedTo(c)] (base-bone.ts): null and undefined are ignored. *)
Definition set_linkedTo (c : option Linkable) (b : t) : t :=
  match c with
  | Some _ => upd_linkedTo c b
  | None => b
  end.

(** [__isInLimit(lower, upper, child)] *)
Definition __isInLimit (lower upper child : R) : bool :=
  if lower >? upper then
    if (child >=? PI) && (child <=? TWO_PI) then
      (child >=? lower) && (child <=? TWO_PI + upper)
    else
      (child + TWO_PI >=? lower) && (child <=? upper)
  else
    (child >=? lower) && (child <=? upper).

(** [setInitial(cX, cY, updateLength)] *)
Definition setInitial (cX cY : R) (updateLength : bool) (b : t) : t :=
  let b := upd_x0 cX b in
  let b := upd_y0 cY b in
  if updateLength then
    let b := upd_deltaX (_x1 b - _x0 b) b in
    let b := upd_deltaY (_y1 b - _y0 b) b in
    let b := upd_length (sqrt (_deltaX b * _deltaX b + _deltaY b * _deltaY b)) b in
    upd_flare (ALPHA * _length b) b
  else b.

(** [setTerminal(cX, cY)] *)
Definition setTerminal (cX cY : R) (b : t) : t :=
  if negb (_drawing b) then
    let b := upd_x1 cX b in
    let b := upd_y1 cY b in
    let b := upd_deltaX (_x1 b - _x0 b) b in
    let b := upd_deltaY (_y1 b - _y0 b) b in
    let b := upd_length (sqrt (_deltaX b * _deltaX b + _deltaY b * _deltaY b)) b in
    let b := upd_flare (ALPHA * _length b) b in
    upd_angle (atan2 (_deltaY b) (_deltaX b)) b
  else b.

(** [reorient(toX, toY, angle, move, rotate)]: no FK propagation. *)
Definition reorient (toX toY angle : R) (move rotate : bool) (b : t) : t :=
  let b := upd_angle angle b in
  let b := if move then upd_y0 toY (upd_x0 toX b) else b in
  let b := upd_x1 (_x0 b + _length b * cos (_angle b)) b in
  upd_y1 (_y0 b + _length b * sin (_angle b)) b.

(** [draw()], with [__std] and [__drawCustom] as far as they touch the
    kinematic state: [__std] recomputes [_angle] and clears [_drawing] when
    the bone itself is drawn, [__drawCustom] does neither. *)
Definition __std (b : t) : t :=
  if bool_decide (_skinType b = SKIN_NONE) || negb (SKIN_ONLY b) then
    let b := upd_angle (atan2 (_deltaY b) (_deltaX b)) b in
    upd_drawing false b
  else b.

Definition __drawCustom (b : t) : t := b.

Definition draw (b : t) : t :=
  if _drawing b then b
  else if RENDERABLE b then
    let b := upd_drawing true b in
    match _drawType b with
    | STANDARD => __std b
    | CUSTOM => __drawCustom b
    end
  else b.

(** *** Operations that propagate along [NEXT]

    Each is split into the assignments made to the bone itself and the
    recursive call on [NEXT].  The recursion is bounded by [fuel]; the
    entry points below start it with one unit per stored object, which a
    walk along [NEXT] exhausts only by going round a cycle. *)

Abbreviation Store := (gmap ref t).

(** The assignments of [moveInitial(toX, toY)]. *)
Definition moveInitial_self (toX toY : R) (b : t) : t :=
  let dX := toX - _x0 b in
  let dY := toY - _y0 b in
  let b := upd_fk FK_MOVE b in
  let b := upd_x0 toX b in
  let b := upd_y0 toY b in
  let b := upd_x1 (_x1 b + dX) b in
  upd_y1 (_y1 b + dY) b.

Fixpoint moveInitial_rec (fuel : nat) (r : ref) (toX toY : R) (h : Store)
  : Outcome unit * Store :=
  match fuel with
  | O => (Throw RangeError, h)
  | S fuel' =>
    match h !! r with
    | None => (Throw TypeError, h)
    | Some b =>
      let b := moveInitial_self toX toY b in
      let h := <[r := b]> h in
      match NEXT b with
      | Some n => moveInitial_rec fuel' n (_x1 b) (_y1 b) h
      | None => (Ret (), h)
      end
    end
  end.

(** The assignments of [moveAndRotate(toX, toY, deltaAngle, c, s)]. *)
Definition moveAndRotate_self (toX toY deltaAngle c1 s1 : R) (b : t) : t :=
  let b := upd_x0 toX b in
  let b := upd_y0 toY b in
  let b := upd_fk FK_ROTATE b in
  let b := upd_angle (_angle b + deltaAngle) b in
  let dx := _deltaX b * c1 - _deltaY b * s1 in
  let dy := _deltaX b * s1 + _deltaY b * c1 in
  let b := upd_x1 (dx + _x0 b) b in
  let b := upd_y1 (dy + _y0 b) b in
  let b := upd_deltaX dx b in
  upd_deltaY dy b.

Fixpoint moveAndRotate_rec (fuel : nat) (r : ref) (toX toY deltaAngle : R)
    (c s : option R) (h : Store) : Outcome unit * Store :=
  match fuel with
  | O => (Throw RangeError, h)
  | S fuel' =>
    match h !! r with
    | None => (Throw TypeError, h)
    | Some b =>
      let c1 := match c with None => cos deltaAngle | Some c => c end in
      let s1 := match s with None => sin deltaAngle | Some s => s end in
      let b := moveAndRotate_self toX toY deltaAngle c1 s1 b in
      let h := <[r := b]> h in
      match NEXT b with
      | Some n =>
        moveAndRotate_rec fuel' n (_x1 b) (_y1 b) deltaAngle (Some c1) (Some s1) h
      | None => (Ret (), h)
      end
    end
  end.

(** The assignments of [rotate(deltaAngle, c, s)]. *)
Definition rotate_self (deltaAngle c1 s1 : R) (b : t) : t :=
  let b := upd_fk FK_ROTATE b in
  let b := upd_angle (_angle b + deltaAngle) b in
  let dx := _deltaX b * c1 - _deltaY b * s1 in
  let dy := _deltaX b * s1 + _deltaY b * c1 in
  let b := upd_x1 (dx + _x0 b) b in
  let b := upd_y1 (dy + _y0 b) b in
  let b := upd_deltaX dx b in
  upd_deltaY dy b.

Definition rotate_rec (fuel : nat) (r : ref) (deltaAngle : R) (c s : option R)
    (h : Store) : Outcome unit * Store :=
  match h !! r with
  | None => (Throw TypeError, h)
  | Some b =>
    let c1 := match c with None => cos deltaAngle | Some c => c end in
    let s1 := match s with None => sin deltaAngle | Some s => s end in
    let b := rotate_self deltaAngle c1 s1 b in
    let h := <[r := b]> h in
    match NEXT b with
    | Some n =>
      moveAndRotate_rec fuel n (_x1 b) (_y1 b) deltaAngle (Some c1) (Some s1) h
    | None => (Ret (), h)
    end
  end.

(** [set orientation(rad)].  The parent whose orientation bounds the new
    angle is [PREV], or else [_linkedTo]. *)
Definition parentEndOrientation (h : Store) (b : t) : Outcome (option R) :=
  match PREV b with
  | Some p =>
    match h !! p with
    | Some pb => Ret (Some (endOrientation pb))
    | None => Throw TypeError
    end
  | None => Ret (lk_endOrientation <$> _linkedTo b)
  end.

(** The joint-limit gate of the setter: [false] when the angle is refused. *)
Definition orientationAllowed (p0 : option R) (angle : R) (b : t) : bool :=
  if negb (_unconstrained b) then
    match p0 with
    | Some p0 =>
      let lower := p0 + _lowerLimit b in
      let lower := if lower >? 0 then lower else TWO_PI + lower in
      let upper := p0 + _upperLimit b in
      let upper := if upper <=? TWO_PI then upper else upper - TWO_PI in
      __isInLimit lower upper angle
    | None => true
    end
  else true.

(** The assignments of the setter once the angle is accepted. *)
Definition set_orientation_self (angle dA : R) (b : t) : t :=
  let b := upd_fk FK_ROTATE b in
  let b := upd_angle angle b in
  let b := upd_deltaAngle (Some dA) b in
  let c := cos dA in
  let s := sin dA in
  let newDX := _deltaX b * c - _deltaY b * s in
  let newDY := _deltaX b * s + _deltaY b * c in
  let b := upd_x1 (newDX + _x0 b) b in
  let b := upd_y1 (newDY + _y0 b) b in
  let b := upd_deltaX newDX b in
  let b := upd_deltaY newDY b in
  let b := upd_length (sqrt (_deltaX b * _deltaX b + _deltaY b * _deltaY b)) b in
  upd_flare (ALPHA * _length b) b.

(** The setter proper.  On a bone without [NEXT] the source ends with the
    [_onFinal] notification and [_linkedTo.move(_x1, _y1)]; the moved object
    is outside the store, and the run ends here. *)
Definition set_orientation_rec (fuel : nat) (r : ref) (rad : R) (h : Store)
  : Outcome unit * Store :=
  match h !! r with
  | None => (Throw TypeError, h)
  | Some b =>
    let orient := if _angle b >=? 0 then _angle b else TWO_PI + _angle b in
    let angle := if rad >=? 0 then rad else TWO_PI + rad in
    let dA := angle - orient in
    let dA :=
      if Rabs dA >? PI then (if dA <? 0 then dA + TWO_PI else dA - TWO_PI)
      else dA in
    match (if negb (_unconstrained b) then parentEndOrientation h b
           else Ret None) with
    | Throw e => (Throw e, h)
    | Ret p0 =>
      if negb (orientationAllowed p0 angle b) then (Ret (), h)
      else
        let b := set_orientation_self angle dA b in
        let h := <[r := b]> h in
        match NEXT b with
        | Some n =>
          moveAndRotate_rec fuel n (_x1 b) (_y1 b) dA
            (Some (cos dA)) (Some (sin dA)) h
        | None => (Ret (), h)
        end
    end
  end.

(** Entry points. *)
Definition moveInitial (r : ref) (toX toY : R) (h : Store) :=
  moveInitial_rec (S (size h)) r toX toY h.
Definition move (r : ref) (toX toY : R) (h : Store) :=
  moveInitial r toX toY h.
Definition rotate (r : ref) (deltaAngle : R) (c s : option R) (h : Store) :=
  rotate_rec (size h) r deltaAngle c s h.
Definition moveAndRotate (r : ref) (toX toY deltaAngle : R) (c s : option R)
    (h : Store) :=
  moveAndRotate_rec (S (size h)) r toX toY deltaAngle c s h.
Definition set_orientation (r : ref) (rad : R) (h : Store) :=
  set_orientation_rec (size h) r rad h.


End Bone.

(** ** Connector: the joint-limit test duplicated from Bone *)

Module Connector.

Definition TWO_PI : R := PI + PI.

Definition __isInLimit (lower upper child : R) : bool :=
  if lower >? upper then
    if (child >=? PI) && (child <=? TWO_PI) then
      (child >=? lower) && (child <=? TWO_PI + upper)
    else
      (child + TWO_PI >=? lower) && (child <=? upper)
  else
    (child >=? lower) && (child <=? upper).

(** *** The connector as a rigid body (class Connector)

    A connector has a pivot, an origin and three terminators, to each of
    which an object may be linked forward.  The connector holds its links
    by reference and only calls them: a run of one of its methods is the
    sequence of the calls it makes on its links, with the reads of their
    orientation, and the connector it leaves. *)

Inductive Terminator : Set := LEFT | MIDDLE | RIGHT | OTHER.

Record t : Type := mk {
  _pivotX : R;
  _pivotY : R;
  _x0 : R;
  _y0 : R;
  _angle : R;
  _leftX : R;
  _leftY : R;
  _midX : R;
  _midY : R;
  _rightX : R;
  _rightY : R;
  _leftOrientation : option R;
  _midOrientation : option R;
  _rightOrientation : option R;
  _linkLeft : option ref;
  _linkMiddle : option ref;
  _linkRight : option ref;
  _fk : FK_TYPE;
  _lowerLimit : R;
  _upperLimit : R;
  _unconstrained : bool;
  _linkedTo : option Linkable
}.

(** A call made on a linked object. *)
Inductive Call : Type :=
| Call_move (l : ref) (x y : R)
| Call_moveAndRotate (l : ref) (x y dA : R)
| Call_set_linkedTo (l : ref).

Inductive Run (A : Type) : Type :=
| Done (a : A)
| Do (c : Call) (k : Run A)
| ReadOrientation (l : ref) (k : R -> Run A)
| Fail (e : Exn).
Arguments Done {A} a.
Arguments Do {A} c k.
Arguments ReadOrientation {A} l k.
Arguments Fail {A} e.

(** [if (link != null) { link.f(...) }] *)
Definition callIf {A} (l : option ref) (f : ref -> Call) (k : Run A) : Run A :=
  match l with
  | Some r => Do (f r) k
  | None => k
  end.

(** Assignment to the pivot, the origin and the terminators. *)
Definition place (pX pY x0 y0 lX lY mX mY rX rY : R) (c : t) : t :=
  {| _pivotX := pX; _pivotY := pY; _x0 := x0; _y0 := y0; _angle := _angle c;
     _leftX := lX; _leftY := lY; _midX := mX; _midY := mY;
     _rightX := rX; _rightY := rY;
     _leftOrientation := _leftOrientation c;
     _midOrientation := _midOrientation c;
     _rightOrientation := _rightOrientation c;
     _linkLeft := _linkLeft c; _linkMiddle := _linkMiddle c;
     _linkRight := _linkRight c; _fk := _fk c;
     _lowerLimit := _lowerLimit c; _upperLimit := _upperLimit c;
     _unconstrained := _unconstrained c; _linkedTo := _linkedTo c |}.

Definition upd_angle (v : R) (c : t) : t :=
  {| _pivotX := _pivotX c; _pivotY := _pivotY c; _x0 := _x0 c; _y0 := _y0 c;
     _angle := v;
     _leftX := _leftX c; _leftY := _leftY c; _midX := _midX c;
     _midY := _midY c; _rightX := _rightX c; _rightY := _rightY c;
     _leftOrientation := _leftOrientation c;
     _midOrientation := _midOrientation c;
     _rightOrientation := _rightOrientation c;
     _linkLeft := _linkLeft c; _linkMiddle := _linkMiddle c;
     _linkRight := _linkRight c; _fk := _fk c;
     _lowerLimit := _lowerLimit c; _upperLimit := _upperLimit c;
     _unconstrained := _unconstrained c; _linkedTo := _linkedTo c |}.

Definition upd_fk (v : FK_TYPE) (c : t) : t :=
  {| _pivotX := _pivotX c; _pivotY := _pivotY c; _x0 := _x0 c; _y0 := _y0 c;
     _angle := _angle c;
     _leftX := _leftX c; _leftY := _leftY c; _midX := _midX c;
     _midY := _midY c; _rightX := _rightX c; _rightY := _rightY c;
     _leftOrientation := _leftOrientation c;
     _midOrientation := _midOrientation c;
     _rightOrientation := _rightOrientation c;
     _linkLeft := _linkLeft c; _linkMiddle := _linkMiddle c;
     _linkRight := _linkRight c; _fk := v;
     _lowerLimit := _lowerLimit c; _upperLimit := _upperLimit c;
     _unconstrained := _unconstrained c; _linkedTo := _linkedTo c |}.

Definition upd_links (l m r : option ref) (c : t) : t :=
  {| _pivotX := _pivotX c; _pivotY := _pivotY c; _x0 := _x0 c; _y0 := _y0 c;
     _angle := _angle c;
     _leftX := _leftX c; _leftY := _leftY c; _midX := _midX c;
     _midY := _midY c; _rightX := _rightX c; _rightY := _rightY c;
     _leftOrientation := _leftOrientation c;
     _midOrientation := _midOrientation c;
     _rightOrientation := _rightOrientation c;
     _linkLeft := l; _linkMiddle := m; _linkRight := r; _fk := _fk c;
     _lowerLimit := _lowerLimit c; _upperLimit := _upperLimit c;
     _unconstrained := _unconstrained c; _linkedTo := _linkedTo c |}.

(** [get orientation()], [get endOrientation()], [get length()] *)
Definition orientation (c : t) : R :=
  if _angle c >=? 0 then _angle c else TWO_PI + _angle c.
Definition endOrientation (c : t) : R :=
  if _angle c >=? 0 then _angle c else TWO_PI + _angle c.
Definition length (c : t) : R :=
  let dX := _midX c - _pivotX c in
  let dY := _midY c - _pivotY c in
  sqrt (dX * dX + dY * dY).

(** [set linkedTo(c)]: the body is empty. *)
Definition set_linkedTo (p : option Linkable) (c : t) : t := c.

(** [unlink()] *)
Definition unlink (c : t) : t := upd_links None None None c.

(** [link(c, terminator, orient)] *)
Definition link (l : option ref) (terminator : Terminator) (orient : bool)
    (c : t) : Run t :=
  match l with
  | None => Done c
  | Some l =>
    let attach (x y : R) (o : option R) (c' : t) : Run t :=
      if orient then
        ReadOrientation l (fun lo =>
          match o with
          | Some o => Do (Call_moveAndRotate l x y (o - lo)) (Done c')
          | None => Fail NotReal
          end)
      else Do (Call_move l x y) (Done c') in
    Do (Call_set_linkedTo l)
      match terminator with
      | LEFT =>
        attach (_leftX c) (_leftY c) (_leftOrientation c)
          (upd_links (Some l) (_linkMiddle c) (_linkRight c) c)
      | MIDDLE =>
        attach (_midX c) (_midY c) (_midOrientation c)
          (upd_links (_linkLeft c) (Some l) (_linkRight c) c)
      | RIGHT =>
        attach (_rightX c) (_rightY c) (_rightOrientation c)
          (upd_links (_linkLeft c) (_linkMiddle c) (Some l) c)
      | OTHER => Done c
      end
  end.

(** The two conditional assignments that bring [_angle] back after a
    rotation. *)
Definition wrap (a : R) : R :=
  let a := if a >? TWO_PI then a - TWO_PI else a in
  if a <? - TWO_PI then a + TWO_PI else a.

(** The joint-limit gate of [offsetOrientation]: [true] when the rotation
    is refused. *)
Definition refused (deltaAngle : R) (c : t) : bool :=
  if negb (_unconstrained c) then
    let orient := _angle c + deltaAngle in
    let orient := if orient >=? 0 then orient else TWO_PI + orient in
    match _linkedTo c with
    | Some p =>
      let p0 := lk_endOrientation p in
      let lower := p0 + _lowerLimit c in
      let lower := if lower >? 0 then lower else TWO_PI + lower in
      let upper := p0 + _upperLimit c in
      let upper := if upper <=? TWO_PI then upper else upper - TWO_PI in
      negb (__isInLimit lower upper orient)
    | None => false
    end
  else false.

(** The calls that end [offsetOrientation] and [moveAndRotate]. *)
Definition propagate (deltaAngle : R) (c : t) : Run t :=
  callIf (_linkLeft c)
    (fun l => Call_moveAndRotate l (_leftX c) (_leftY c) deltaAngle)
    (callIf (_linkMiddle c)
       (fun l => Call_moveAndRotate l (_midX c) (_midY c) deltaAngle)
       (callIf (_linkRight c)
          (fun l => Call_moveAndRotate l (_rightX c) (_rightY c) deltaAngle)
          (Done c))).

(** [offsetOrientation(deltaAngle)] *)
Definition offsetOrientation (deltaAngle : R) (c : t) : Run t :=
  if refused deltaAngle c then Done c
  else
    let c := upd_fk FK_ROTATE c in
    let c1 := cos deltaAngle in
    let s := sin deltaAngle in
    let originXDelta := _x0 c - _pivotX c in
    let originYDelta := _y0 c - _pivotY c in
    let leftXDelta := _leftX c - _pivotX c in
    let leftYDelta := _leftY c - _pivotY c in
    let midXDelta := _midX c - _pivotX c in
    let midYDelta := _midY c - _pivotY c in
    let rightXDelta := _rightX c - _pivotX c in
    let rightYDelta := _rightY c - _pivotY c in
    let c :=
      place (_pivotX c) (_pivotY c)
        (originXDelta * c1 - originYDelta * s + _pivotX c)
        (originXDelta * s + originYDelta * c1 + _pivotY c)
        (leftXDelta * c1 - leftYDelta * s + _pivotX c)
        (leftXDelta * s + leftYDelta * c1 + _pivotY c)
        (midXDelta * c1 - midYDelta * s + _pivotX c)
        (midXDelta * s + midYDelta * c1 + _pivotY c)
        (rightXDelta * c1 - rightYDelta * s + _pivotX c)
        (rightXDelta * s + rightYDelta * c1 + _pivotY c) c in
    let c := upd_angle (wrap (_angle c + deltaAngle)) c in
    propagate deltaAngle c.

(** [move(toX, toY)] *)
Definition move (toX toY : R) (c : t) : Run t :=
  let dX := toX - _pivotX c in
  let dY := toY - _pivotY c in
  let c :=
    place toX toY (_x0 c + dX) (_y0 c + dY)
      (_leftX c + dX) (_leftY c + dY) (_midX c + dX) (_midY c + dY)
      (_rightX c + dX) (_rightY c + dY) c in
  callIf (_linkLeft c) (fun l => Call_move l (_leftX c) (_leftY c))
    (callIf (_linkMiddle c) (fun l => Call_move l (_midX c) (_midY c))
       (callIf (_linkRight c) (fun l => Call_move l (_rightX c) (_rightY c))
          (Done c))).

(** [moveAndRotate(toX, toY, deltaAngle)] *)
Definition moveAndRotate (toX toY deltaAngle : R) (c : t) : Run t :=
  let c := upd_fk FK_ROTATE c in
  let dX := toX - _pivotX c in
  let dY := toY - _pivotY c in
  let c :=
    place toX toY (_x0 c + dX) (_y0 c + dY)
      (_leftX c + dX) (_leftY c + dY) (_midX c + dX) (_midY c + dY)
      (_rightX c + dX) (_rightY c + dY) c in
  let c1 := cos deltaAngle in
  let s := sin deltaAngle in
  let leftXDelta := _leftX c - _pivotX c in
  let leftYDelta := _leftY c - _pivotY c in
  let midXDelta := _midX c - _pivotX c in
  let midYDelta := _midY c - _pivotY c in
  let rightXDelta := _rightX c - _pivotX c in
  let rightYDelta := _rightY c - _pivotY c in
  let c :=
    place (_pivotX c) (_pivotY c) (_x0 c) (_y0 c)
      (leftXDelta * c1 - leftYDelta * s + _pivotX c)
      (leftXDelta * s + leftYDelta * c1 + _pivotY c)
      (midXDelta * c1 - midYDelta * s + _pivotX c)
      (midXDelta * s + midYDelta * c1 + _pivotY c)
      (rightXDelta * c1 - rightYDelta * s + _pivotX c)
      (rightXDelta * s + rightYDelta * c1 + _pivotY c) c in
  let c := upd_angle (wrap (_angle c + deltaAngle)) c in
  propagate deltaAngle c.

(** [__onFKEnd(b)]; [fk] is [b.fkType].  The second test of the
    [FK_MOVE] case is on [_linkRight], the call it guards on [_linkLeft]. *)
Definition __onFKEnd (fk : FK_TYPE) (c : t) : Run t :=
  match fk with
  | FK_MOVE =>
    callIf (_linkLeft c) (fun l => Call_move l (_leftX c) (_leftY c))
      match _linkRight c with
      | Some _ =>
        match _linkLeft c with
        | Some l => Do (Call_move l (_leftX c) (_leftY c)) (Done c)
        | None => Fail TypeError
        end
      | None => Done c
      end
  | FK_ROTATE =>
    let right :=
      match _linkRight c with
      | Some l =>
        ReadOrientation l (fun lo =>
          match _rightOrientation c with
          | Some o =>
            Do (Call_moveAndRotate l (_rightX c) (_rightY c) (o - lo)) (Done c)
          | None => Fail NotReal
          end)
      | None => Done c
      end in
    match _linkLeft c with
    | Some l =>
      ReadOrientation l (fun lo =>
        match _leftOrientation c with
        | Some o =>
          Do (Call_moveAndRotate l (_leftX c) (_leftY c) (o - lo)) right
        | None => Fail NotReal
        end)
    | None => right
    end
  | FK_NONE => Done c
  end.

End Connector.

(** ** Chain (chain.ts) *)

Inductive IkSolver : Set := IK_ccdBasic | IK_limbSolver.

Module Chain.

Record t : Type := mk {
  REDRAW_ON_SOLVE : bool;
  _bones : list (option ref);      (* a JavaScript array: [None] is a hole *)
  _count : nat;
  _current : option ref;
  _previous : option ref;
  _rootBone : option ref;
  _terminalBone : option ref;
  _linkedTo : option Linkable;
  _linkedFrom : option Linkable;
  _skinType : SKIN_TYPE;
  _isPinned : bool;
  _ikSolver : option IkSolver;
  _forward : list Linkable
}.

Definition upd_bones (v : list (option ref)) (c : t) : t :=
  {| REDRAW_ON_SOLVE := REDRAW_ON_SOLVE c; _bones := v; _count := _count c;
     _current := _current c; _previous := _previous c;
     _rootBone := _rootBone c; _terminalBone := _terminalBone c;
     _linkedTo := _linkedTo c; _linkedFrom := _linkedFrom c;
     _skinType := _skinType c; _isPinned := _isPinned c;
     _ikSolver := _ikSolver c; _forward := _forward c |}.
Definition upd_count (v : nat) (c : t) : t :=
  {| REDRAW_ON_SOLVE := REDRAW_ON_SOLVE c; _bones := _bones c; _count := v;
     _current := _current c; _previous := _previous c;
     _rootBone := _rootBone c; _terminalBone := _terminalBone c;
     _linkedTo := _linkedTo c; _linkedFrom := _linkedFrom c;
     _skinType := _skinType c; _isPinned := _isPinned c;
     _ikSolver := _ikSolver c; _forward := _forward c |}.
Definition upd_current (v : option ref) (c : t) : t :=
  {| REDRAW_ON_SOLVE := REDRAW_ON_SOLVE c; _bones := _bones c;
     _count := _count c; _current := v; _previous := _previous c;
     _rootBone := _rootBone c; _terminalBone := _terminalBone c;
     _linkedTo := _linkedTo c; _linkedFrom := _linkedFrom c;
     _skinType := _skinType c; _isPinned := _isPinned c;
     _ikSolver := _ikSolver c; _forward := _forward c |}.
Definition upd_previous (v : option ref) (c : t) : t :=
  {| REDRAW_ON_SOLVE := REDRAW_ON_SOLVE c; _bones := _bones c;
     _count := _count c; _current := _current c; _previous := v;
     _rootBone := _rootBone c; _terminalBone := _terminalBone c;
     _linkedTo := _linkedTo c; _linkedFrom := _linkedFrom c;
     _skinType := _skinType c; _isPinned := _isPinned c;
     _ikSolver := _ikSolver c; _forward := _forward c |}.
Definition upd_rootBone (v : option ref) (c : t) : t :=
  {| REDRAW_ON_SOLVE := REDRAW_ON_SOLVE c; _bones := _bones c;
     _count := _count c; _current := _current c; _previous := _previous c;
     _rootBone := v; _terminalBone := _terminalBone c;
     _linkedTo := _linkedTo c; _linkedFrom := _linkedFrom c;
     _skinType := _skinType c; _isPinned := _isPinned c;
     _ikSolver := _ikSolver c; _forward := _forward c |}.
Definition upd_terminalBone (v : option ref) (c : t) : t :=
  {| REDRAW_ON_SOLVE := REDRAW_ON_SOLVE c; _bones := _bones c;
     _count := _count c; _current := _current c; _previous := _previous c;
     _rootBone := _rootBone c; _terminalBone := v;
     _linkedTo := _linkedTo c; _linkedFrom := _linkedFrom c;
     _skinType := _skinType c; _isPinned := _isPinned c;
     _ikSolver := _ikSolver c; _forward := _forward c |}.
Definition upd_ikSolver (v : option IkSolver) (c : t) : t :=
  {| REDRAW_ON_SOLVE := REDRAW_ON_SOLVE c; _bones := _bones c;
     _count := _count c; _current := _current c; _previous := _previous c;
     _rootBone := _rootBone c; _terminalBone := _terminalBone c;
     _linkedTo := _linkedTo c; _linkedFrom := _linkedFrom c;
     _skinType := _skinType c; _isPinned := _isPinned c;
     _ikSolver := v; _forward := _forward c |}.

(** [new Chain()], that is [__init()]. *)
Definition new : t :=
  {| REDRAW_ON_SOLVE := false; _bones := []; _count := 0%nat;
     _current := None; _previous := None;
     _rootBone := None; _terminalBone := None;
     _linkedTo := None; _linkedFrom := None;
     _skinType := SKIN_NONE; _isPinned := false;
     _ikSolver := None; _forward := [] |}.

Definition size (c : t) : nat := _count c.

(** [getBone(i)]: [this._bones[i]], [None] past the end or at a hole. *)
Definition getBone (c : t) (i : nat) : option ref := mjoin (_bones c !! i).

(** [initX], [initY], [terminalX], [terminalY]: [undefined] when the
    chain has no root or terminal bone. *)
Definition initX (c : t) (h : Bone.Store) : option R :=
  r ← _rootBone c; b ← h !! r; Some (Bone.initX b).
Definition initY (c : t) (h : Bone.Store) : option R :=
  r ← _rootBone c; b ← h !! r; Some (Bone.initY b).
Definition terminalX (c : t) (h : Bone.Store) : option R :=
  r ← _terminalBone c; b ← h !! r; Some (Bone.terminalX b).
Definition terminalY (c : t) (h : Bone.Store) : option R :=
  r ← _terminalBone c; b ← h !! r; Some (Bone.terminalY b).

(** [a[i] = v] on a JavaScript array: writing past the end extends the
    array, leaving holes. *)
Definition array_store {A : Type} (a : list (option A)) (i : nat) (v : A)
  : list (option A) :=
  if decide (i < List.length a)%nat then <[i := Some v]> a
  else a ++ replicate (i - List.length a) None ++ [Some v].

(** Update of the object behind a reference; a reference always designates
    an object, so a missing one is reported as [TypeError]. *)
Definition modify (r : option ref) (f : Bone.t -> Bone.t) (h : Bone.Store)
  : Outcome unit * Bone.Store :=
  match r with
  | None => (Throw TypeError, h)
  | Some r =>
    match h !! r with
    | None => (Throw TypeError, h)
    | Some b => (Ret (), <[r := f b]> h)
    end
  end.

(** [addBone(b)] *)
Definition addBone (b : ref) (c : t) (h : Bone.Store)
  : Outcome unit * t * Bone.Store :=
  match modify (Some b) (Bone.upd_skinType (_skinType c)) h with
  | (Throw e, h) => (Throw e, c, h)
  | (Ret _, h) =>
    let c := upd_bones (array_store (_bones c) (_count c) b) c in
    let c := upd_previous
               (if decide (_count c = 0%nat) then None else _current c) c in
    let c := upd_current (Some b) c in
    match modify (_current c)
            (fun x => Bone.upd_IS_END true
                        (Bone.upd_IS_ROOT (bool_decide (_count c = 0%nat)) x)) h
    with
    | (Throw e, h) => (Throw e, c, h)
    | (Ret _, h) =>
      if decide (0 < _count c)%nat then
        match modify (_previous c)
                (fun x => Bone.upd_NEXT (_current c) (Bone.upd_IS_END false x)) h
        with
        | (Throw e, h) => (Throw e, c, h)
        | (Ret _, h) =>
          match modify (_current c) (Bone.upd_PREV (_previous c)) h with
          | (Throw e, h) => (Throw e, c, h)
          | (Ret _, h) =>
            let c := upd_terminalBone (_current c) c in
            (Ret (), upd_count (S (_count c)) c, h)
          end
        end
      else
        let c := upd_rootBone (_current c) c in
        let c := upd_terminalBone (_current c) c in
        (Ret (), upd_count (S (_count c)) c, h)
    end
  end.

(** [pop()] *)
Definition pop (c : t) (h : Bone.Store) : Outcome unit * t * Bone.Store :=
  (* let b = this._bones.pop() *)
  let b := mjoin (last (_bones c)) in
  let c := upd_bones (removelast (_bones c)) c in
  (* b.destruct() *)
  match modify b Bone.destruct h with
  | (Throw e, h) => (Throw e, c, h)
  | (Ret _, h) =>
    let c := upd_count (List.length (_bones c)) c in
    let c := upd_terminalBone
               (match _count c with
                | O => None                       (* this._bones[-1] *)
                | S i => mjoin (_bones c !! i)
                end) c in
    match modify (_terminalBone c) (Bone.upd_IS_END true) h with
    | (Throw e, h) => (Throw e, c, h)
    | (Ret _, h) =>
      match modify (_terminalBone c) (Bone.upd_NEXT None) h with
      | (Throw e, h) => (Throw e, c, h)
      | (Ret _, h) => (Ret (), c, h)
      end
    end
  end.

(** [move(toX, toY)], [rotate(deltaAngle)], [moveAndRotate(toX, toY, deltaAngle)]:
    delegated to the root bone. *)
Definition move (c : t) (toX toY : R) (h : Bone.Store)
  : Outcome unit * Bone.Store :=
  match _rootBone c with
  | None => (Throw TypeError, h)
  | Some r => Bone.moveInitial r toX toY h
  end.

Definition rotate (c : t) (deltaAngle : R) (h : Bone.Store)
  : Outcome unit * Bone.Store :=
  match _rootBone c with
  | None => (Throw TypeError, h)
  | Some r => Bone.rotate r deltaAngle None None h
  end.

Definition moveAndRotate (c : t) (toX toY deltaAngle : R) (h : Bone.Store)
  : Outcome unit * Bone.Store :=
  match _rootBone c with
  | None => (Throw TypeError, h)
  | Some r =>
    Bone.moveAndRotate r toX toY deltaAngle
      (Some (cos deltaAngle)) (Some (sin deltaAngle)) h
  end.

(** [invalidate()]: every forward-linked object is re-positioned at the
    terminal bone with [c.moveAndRotate(endX, endY, dA)].  That motion is
    not modelled, the linked objects being outside the store; the reads
    made of the chain are ([endOrientation] needs a terminal bone).  What
    is proved of the store after [invalidate] concerns the bones of the
    chain, or assumes [_forward c = []]. *)
Definition invalidate (c : t) (h : Bone.Store) : Outcome unit * Bone.Store :=
  match _forward c with
  | [] => (Ret (), h)
  | _ :: _ =>
    match _terminalBone c ≫= (h !!.) with
    | None => (Throw TypeError, h)
    | Some _ => (Ret (), h)
    end
  end.

(** [this._bones.forEach(bone => bone.draw())]; holes are skipped. *)
Fixpoint drawAll (bones : list (option ref)) (h : Bone.Store)
  : Outcome unit * Bone.Store :=
  match bones with
  | [] => (Ret (), h)
  | None :: rest => drawAll rest h
  | Some r :: rest =>
    match modify (Some r) Bone.draw h with
    | (Throw e, h) => (Throw e, h)
    | (Ret _, h) => drawAll rest h
    end
  end.

End Chain.

(** ** The iterative solver (ccd-basic.ts) *)

(** The local variables of [ccdBasic] that live across iterations of its
    [while] loop; [_targetX], [_targetY] are the arguments [x], [y]. *)
Record CcdState : Type := mkCcd {
  _curTargetX : R;
  _curTargetY : R;
  _termX : R;
  _termY : R;
  _recordX : gmap Z R;
  _recordY : gmap Z R;
  _iterations : nat;
  _isTarget : bool;
  _finished : bool;
  _deltaX : R;
  _deltaY : R;
  _cycles : nat
}.

Definition _stop : R := 4.
Definition _maxCycles : nat := 3.

Definition ccdInit (x y : R) : CcdState :=
  {| _curTargetX := x; _curTargetY := y; _termX := 0; _termY := 0;
     _recordX := ∅; _recordY := ∅; _iterations := 0; _isTarget := true;
     _finished := false; _deltaX := 0; _deltaY := 0; _cycles := 0 |}.

(** What one pass through the body of the loop ends with. *)
Inductive CcdStep : Type :=
| Continue (s : CcdState) (h : Bone.Store)
| Return (resolved : bool) (h : Bone.Store)
| Raise (e : Exn) (h : Bone.Store).

(** Target phase, [_iterations < chain.size]. *)
Definition ccdTargetBone (c : Chain.t) (s : CcdState) (h : Bone.Store) : CcdStep :=
  let index := (Chain.size c - _iterations s - 1)%nat in
  match Chain.getBone c index ≫= (h !!.) with
  | None => Raise TypeError h
  | Some bone =>
    let dX := _curTargetX s - Bone.initX bone in
    let dY := _curTargetY s - Bone.initY bone in
    let rot := atan2 dY dX in
    let l := Bone.length bone in
    let curTargetX := _curTargetX s - l * cos rot in
    let curTargetY := _curTargetY s - l * sin rot in
    let recordX :=
      if decide (0 < index)%nat
      then <[(Z.of_nat index - 1)%Z := curTargetX]> (_recordX s)
      else _recordX s in
    let recordY :=
      if decide (0 < index)%nat
      then <[(Z.of_nat index - 1)%Z := curTargetY]> (_recordY s)
      else _recordY s in
    Continue
      {| _curTargetX := curTargetX; _curTargetY := curTargetY;
         _termX := _termX s; _termY := _termY s;
         _recordX := recordX; _recordY := recordY;
         _iterations := S (_iterations s); _isTarget := _isTarget s;
         _finished := _finished s;
         _deltaX := _deltaX s; _deltaY := _deltaY s; _cycles := _cycles s |}
      h
  end.

(** Target phase complete. *)
Definition ccdTargetDone (c : Chain.t) (s : CcdState) (h : Bone.Store) : CcdStep :=
  Continue
    {| _curTargetX := _curTargetX s; _curTargetY := _curTargetY s;
       _termX := _termX s; _termY := _termY s;
       _recordX := <[(Z.of_nat (Chain.size c) - 1)%Z := _curTargetX s]> (_recordX s);
       _recordY := <[(Z.of_nat (Chain.size c) - 1)%Z := _curTargetY s]> (_recordY s);
       _iterations := 0; _isTarget := false; _finished := false;
       _deltaX := _deltaX s; _deltaY := _deltaY s; _cycles := _cycles s |}
    h.

(** Position phase, [_iterations < chain.size]. *)
Definition ccdPositionBone (x y : R) (c : Chain.t) (s : CcdState) (h : Bone.Store)
  : CcdStep :=
  match Chain.getBone c (_iterations s) with
  | None => Raise TypeError h
  | Some r =>
    match h !! r with
    | None => Raise TypeError h
    | Some bone =>
      if decide (_iterations s = 0%nat) then
        let curX := Bone.initX bone in
        let curY := Bone.initY bone in
        match _recordX s !! 0%Z, _recordY s !! 0%Z with
        | Some termX, Some termY =>
          let deltaX := _curTargetX s - curX in
          let deltaY := _curTargetY s - curY in
          let termX := termX - deltaX in
          let termY := termY - deltaY in
          let h := <[r := Bone.setTerminal termX termY bone]> h in
          Continue
            {| _curTargetX := _curTargetX s; _curTargetY := _curTargetY s;
               _termX := termX; _termY := termY;
               _recordX := _recordX s; _recordY := _recordY s;
               _iterations := S (_iterations s); _isTarget := _isTarget s;
               _finished := _finished s;
               _deltaX := deltaX; _deltaY := deltaY; _cycles := _cycles s |}
            h
        | _, _ => Raise NotReal h
        end
      else if decide (_iterations s < Chain.size c - 1)%nat then
        let curX := _termX s in
        let curY := _termY s in
        match _recordX s !! Z.of_nat (_iterations s),
              _recordY s !! Z.of_nat (_iterations s) with
        | Some rX, Some rY =>
          let termX := rX - _deltaX s in
          let termY := rY - _deltaY s in
          let bone := Bone.setInitial curX curY false bone in
          let bone := Bone.setTerminal termX termY bone in
          let h := <[r := bone]> h in
          Continue
            {| _curTargetX := _curTargetX s; _curTargetY := _curTargetY s;
               _termX := termX; _termY := termY;
               _recordX := _recordX s; _recordY := _recordY s;
               _iterations := S (_iterations s); _isTarget := _isTarget s;
               _finished := _finished s;
               _deltaX := _deltaX s; _deltaY := _deltaY s;
               _cycles := _cycles s |}
            h
        | _, _ => Raise NotReal h
        end
      else
        let h := <[r := Bone.setInitial (_termX s) (_termY s) false bone]> h in
        let dX := x - _termX s in
        let dY := y - _termY s in
        match Bone.set_orientation r (atan2 dY dX) h with
        | (Throw e, h) => Raise e h
        | (Ret _, h) =>
          Continue
            {| _curTargetX := _curTargetX s; _curTargetY := _curTargetY s;
               _termX := _termX s; _termY := _termY s;
               _recordX := _recordX s; _recordY := _recordY s;
               _iterations := S (_iterations s); _isTarget := _isTarget s;
               _finished := _finished s;
               _deltaX := _deltaX s; _deltaY := _deltaY s;
               _cycles := _cycles s |}
            h
        end
    end
  end.

(** End of a position phase: the convergence test.  A chain without
    terminal bone has [error = NaN], and [NaN <= _stop] is false. *)
Definition ccdCheck (x y : R) (c : Chain.t) (s : CcdState) (h : Bone.Store)
  : CcdStep :=
  let error :=
    match Chain.terminalX c h, Chain.terminalY c h with
    | Some tX, Some tY =>
      let dX := x - tX in
      let dY := y - tY in
      Some (dX * dX + dY * dY)
    | _, _ => None
    end in
  let finished :=
    match error with Some e => e <=? _stop | None => false end
    || bool_decide (_maxCycles <= _cycles s)%nat in
  if negb finished then
    Continue
      {| _curTargetX := x; _curTargetY := y;
         _termX := _termX s; _termY := _termY s;
         _recordX := _recordX s; _recordY := _recordY s;
         _iterations := 0; _isTarget := true; _finished := finished;
         _deltaX := _deltaX s; _deltaY := _deltaY s;
         _cycles := S (_cycles s) |}
      h
  else
    Return true h.

(** The body of [while (!_finished)]. *)
Definition ccdBody (x y : R) (c : Chain.t) (s : CcdState) (h : Bone.Store)
  : CcdStep :=
  if _isTarget s then
    if decide (_iterations s < Chain.size c)%nat then ccdTargetBone c s h
    else ccdTargetDone c s h
  else
    if decide (_iterations s < Chain.size c)%nat then ccdPositionBone x y c s h
    else ccdCheck x y c s h.

(** The loop, then the [return false] that follows it. *)
Fixpoint ccdLoop (fuel : nat) (x y : R) (c : Chain.t) (s : CcdState)
    (h : Bone.Store) : Outcome bool * Bone.Store :=
  match fuel with
  | O => (Throw Diverge, h)
  | S fuel' =>
    if _finished s then (Ret false, h)
    else
      match ccdBody x y c s h with
      | Continue s h => ccdLoop fuel' x y c s h
      | Return resolved h => (Ret resolved, h)
      | Raise e h => (Throw e, h)
      end
  end.

Definition ccdBasicPinned (x y : R) (c : Chain.t) (h : Bone.Store)
  : Outcome bool * Bone.Store :=
  (Ret false, h).

(** Passes through the loop body that the cycle budget allows: per cycle
    one pass per bone and one more in each of the two phases. *)
Definition ccdFuel (c : Chain.t) : nat :=
  S (S _maxCycles * (2 * Chain.size c + 2)).

Definition ccdBasic (x y : R) (c : Chain.t) (isPinned : bool) (h : Bone.Store)
  : Outcome bool * Bone.Store :=
  if isPinned then ccdBasicPinned x y c h
  else ccdLoop (ccdFuel c) x y c (ccdInit x y) h.

(** ** The two-bone solver [limbSolver] (second document of ccd-basic.ts) *)

Definition isClockwise (x0 y0 x1 y1 x2 y2 : R) : bool :=
  (y2 - y0) * (x1 - x0) >? (y1 - y0) * (x2 - x0).

Definition getRotation (_xRoot _yRoot _p _c _lower _upper _bX _bY _tX _tY : R)
  : R :=
  let parent := if _p >? 0 then _p else TWO_PI + _p in
  let child := if _c >? 0 then _c else TWO_PI + _c in
  let lower := parent + _lower in
  let lower := if lower >=? 0 then lower else TWO_PI + lower in
  let upper := parent + _upper in
  let cw := isClockwise _xRoot _yRoot _bX _bY _tX _tY in
  if cw then
    let d := upper - child in
    let d := if d >? PI then d - TWO_PI else d in
    if d <? 0 then upper else _c
  else
    let d := child - lower in
    if d <? 0 then lower else _c.

(** The [params] object; an absent entry is [undefined], for which [isNaN]
    holds and the default is taken. *)
Record LimbParams : Type := mkLimbParams {
  lowerLimit0 : option R;
  upperLimit0 : option R;
  lowerLimit1 : option R;
  upperLimit1 : option R
}.

(** The second bone when the root bone was stopped by a joint limit. *)
Definition limbLimited (_xRoot _yRoot theta1 _lower1 _upper1 b2X b2Y tX tY : R)
  : R :=
  let pointTo := atan2 (tY - b2Y) (tX - b2X) in
  if Rabs (theta1 - pointTo) <? 1 / 10 then theta1
  else getRotation _xRoot _yRoot theta1 pointTo _lower1 _upper1 b2X b2Y tX tY.

(** [_b1.reorient(0, 0, theta1, false, true)], the reading of its terminal
    point, and [_b2.reorient(b2X, b2Y, theta2, true, true)], where [theta2]
    may depend on the terminal point just read. *)
Definition limbApply (r1 r2 : ref) (theta1 : R) (theta2 : R -> R -> R)
    (h : Bone.Store) : Outcome unit * Bone.Store :=
  match Chain.modify (Some r1) (Bone.reorient 0 0 theta1 false true) h with
  | (Throw e, h) => (Throw e, h)
  | (Ret _, h) =>
    match h !! r1 with
    | None => (Throw TypeError, h)
    | Some b1 =>
      let b2X := Bone.terminalX b1 in
      let b2Y := Bone.terminalY b1 in
      Chain.modify (Some r2)
        (Bone.reorient b2X b2Y (theta2 b2X b2Y) true true) h
    end
  end.

Definition limbSolver (x y : R) (c : Chain.t) (isPinned : bool)
    (params : option LimbParams) (h : Bone.Store) : Outcome bool * Bone.Store :=
  let _lower0 := default (-3 * PI / 5) (params ≫= lowerLimit0) in
  let _upper0 := default (5 / 10 * PI) (params ≫= upperLimit0) in
  let _lower1 := default (- (5 / 10) * PI) (params ≫= lowerLimit1) in
  let _upper1 := default (3 * PI / 4) (params ≫= upperLimit1) in
  match Chain.getBone c 0, Chain.getBone c 1 with
  | Some r1, Some r2 =>
    match h !! r1, h !! r2 with
    | Some _b1, Some _b2 =>
      let _l1 := Bone.length _b1 in
      let _l2 := Bone.length _b2 in
      let _lMax := (_l1 + _l2) * (_l1 + _l2) in
      let _two_l1l2 := 2 * _l1 * _l2 in
      let _l1Sq := _l1 * _l1 in
      let _l2Sq := _l2 * _l2 in
      match Chain.initX c h, Chain.initY c h with
      | Some _xRoot, Some _yRoot =>
        let tX := x in
        let tY := y in
        let dX := tX - _xRoot in
        let dY := tY - _yRoot in
        let dSq := dX * dX + dY * dY in
        (* the solution of each case: the [limit] flag and the two angles *)
        let finish (limit : bool) (run : Outcome unit * Bone.Store) :=
          match run with
          | (Throw e, h) => (Throw e, h)
          | (Ret _, h) =>
            match Chain.invalidate c h with
            | (Throw e, h) => (Throw e, h)
            | (Ret _, h) =>
              if limit then (Ret false, h) else (Ret (dSq <=? _lMax), h)
            end
          end in
        let infeasible :=
          let theta1 := atan2 dY dX in
          let theta1 := Rmax theta1 _lower0 in
          let theta1 := Rmin theta1 _upper0 in
          let angle := Rmin PI _upper1 in
          finish false (limbApply r1 r2 theta1 (fun _ _ => theta1 + angle) h) in
        if dSq >? _lMax then
          let theta1 := atan2 dY dX in
          let limit := false in
          let '(limit, theta1) :=
            if theta1 <? _lower0 then (true, _lower0) else (limit, theta1) in
          let '(limit, theta1) :=
            if theta1 >? _upper0 then (true, _upper0) else (limit, theta1) in
          finish limit
            (limbApply r1 r2 theta1
               (fun b2X b2Y =>
                  if limit then
                    limbLimited _xRoot _yRoot theta1 _lower1 _upper1 b2X b2Y tX tY
                  else theta1) h)
        else if decide (_two_l1l2 = 0) then
          (* a division by zero: 0/0 is NaN, anything else is infinite and
             so outside [-1, 1] *)
          if decide (dX * dX + dY * dY - _l1Sq - _l2Sq = 0)
          then (Throw NotReal, h)
          else infeasible
        else
          let c2 := (dX * dX + dY * dY - _l1Sq - _l2Sq) / _two_l1l2 in
          if (c2 <? -1) || (c2 >? 1) then infeasible
          else
            let theta2 := acos c2 in
            let s2 := sin theta2 in
            let l2s2 := _l2 * s2 in
            let l2c2 := _l2 * c2 in
            let l1c2 := _l1 + l2c2 in
            let theta1 := atan2 (l1c2 * dY - l2s2 * dX) (l2s2 * dY + l1c2 * dX) in
            let '(limit, theta1) :=
              if theta1 <? _lower0 then (true, _lower0)
              else if theta1 >? _upper0 then (true, _upper0)
              else (false, theta1) in
            finish limit
              (limbApply r1 r2 theta1
                 (fun b2X b2Y =>
                    if limit then
                      limbLimited _xRoot _yRoot theta1 _lower1 _upper1
                        b2X b2Y tX tY
                    else
                      getRotation _xRoot _yRoot theta1 (theta1 + theta2)
                        _lower1 _upper1 b2X b2Y tX tY) h)
      | _, _ => (Throw NotReal, h)
      end
    | _, _ => (Throw TypeError, h)
    end
  | _, _ => (Throw TypeError, h)
  end.

(** ** [Chain.moveEndEffector] (chain.ts) *)

Definition runSolver (solver : IkSolver) (x y : R) (c : Chain.t)
    (isPinned : bool) (h : Bone.Store) : Outcome bool * Bone.Store :=
  match solver with
  | IK_ccdBasic => ccdBasic x y c isPinned h
  | IK_limbSolver => limbSolver x y c isPinned None h
  end.

(** The solver call and the redraw that both branches of [moveEndEffector]
    share; the move of [_linkedTo] that follows is not modelled. *)
Definition solveAndRedraw (targetX targetY : R) (isPinned : bool)
    (c : Chain.t) (h : Bone.Store) : Outcome bool * Bone.Store :=
  match runSolver (default IK_ccdBasic (Chain._ikSolver c))
          targetX targetY c isPinned h with
  | (Throw e, h) => (Throw e, h)
  | (Ret resolved, h) =>
    if Chain.REDRAW_ON_SOLVE c then
      match Chain.drawAll (Chain._bones c) h with
      | (Throw e, h) => (Throw e, h)
      | (Ret _, h) => (Ret resolved, h)
      end
    else (Ret resolved, h)
  end.

Definition Chain_moveEndEffector (toX toY : R) (isPinned : bool)
    (c : Chain.t) (h : Bone.Store) : Outcome bool * Chain.t * Bone.Store :=
  let c :=
    Chain.upd_ikSolver (Some (default IK_ccdBasic (Chain._ikSolver c))) c in
  match Chain._linkedFrom c with
  | Some linkedFrom =>
    if isPinned then
      let resolved := lk_moveEndEffector linkedFrom in
      let targetX := if negb resolved then lk_initX linkedFrom else toX in
      let targetY := if negb resolved then lk_initY linkedFrom else toY in
      if decide (Chain.size c = 1%nat) then
        match Chain.move c targetX targetY h with
        | (Throw e, h) => (Throw e, c, h)
        | (Ret _, h) => (Ret resolved, c, h)
        end
      else
        let '(o, h) := solveAndRedraw targetX targetY isPinned c h in (o, c, h)
    else
      let '(o, h) := solveAndRedraw toX toY isPinned c h in (o, c, h)
  | None =>
    let '(o, h) := solveAndRedraw toX toY isPinned c h in (o, c, h)
  end.

(** ** Statements of the specification *)

(** The joint-limit containment as the specification words it (section 4.2). *)
Definition inLimit_stated (lower upper candidate : R) : Prop :=
  if decide (lower <= upper) then lower <= candidate <= upper
  else if decide (candidate >= PI) then lower <= candidate <= 2 * PI + upper
  else lower <= candidate + 2 * PI <= 2 * PI /\ candidate <= upper.

(** The containment that [__isInLimit] computes. *)
Definition inLimit (lower upper candidate : R) : Prop :=
  if decide (lower <= upper) then lower <= candidate <= upper
  else if decide (PI <= candidate <= 2 * PI)
       then lower <= candidate <= 2 * PI + upper
  else lower <= candidate + 2 * PI /\ candidate <= upper.

(** [rad >= 0 ? rad : TWO_PI + rad], the normalisation applied by the
    orientation accessors to an angle. *)
Definition normalize (rad : R) : R := if rad >=? 0 then rad else TWO_PI + rad.

(** A bone limited to [-3 PI / 5, PI / 2] about its parent. *)
Definition limitedBone : Bone.t :=
  Bone.set_upperLimit (PI / 2) (Bone.set_lowerLimit (-3 * PI / 5) Bone.new).

(** ** Well-formed chains *)

(** The bones [rs] of a chain, from root to terminal, as [addBone] links
    them: distinct stored objects, each pointing to its neighbours. *)
Definition linked (h : Bone.Store) (rs : list ref) : Prop :=
  NoDup rs /\
  forall i r, rs !! i = Some r ->
    exists b, h !! r = Some b /\ Bone.NEXT b = rs !! S i /\
      Bone.PREV b = match i with O => None | S j => rs !! j end.

Definition Chain_wf (c : Chain.t) (h : Bone.Store) (rs : list ref) : Prop :=
  Chain._bones c = Some <$> rs /\
  Chain._count c = List.length rs /\
  Chain._rootBone c = head rs /\
  Chain._terminalBone c = last rs /\
  linked h rs.

(** Chain continuity: the terminal point of each bone is the initial point
    of the next one. *)
Definition joined (h : Bone.Store) (rs : list ref) : Prop :=
  forall i r r' b b',
    rs !! i = Some r -> rs !! S i = Some r' ->
    h !! r = Some b -> h !! r' = Some b' ->
    Bone.terminalX b = Bone.initX b' /\ Bone.terminalY b = Bone.initY b'.

(** A walk along [NEXT]: distinct stored bones, each one's [NEXT] the
    following element, the last one's [NEXT] null. *)
(** The bone stored at [r], if any, is linked to nothing: no object is
    moved when a propagation ends on it. *)
Definition unlinked (h : Bone.Store) (r : ref) : Prop :=
  forall b, h !! r = Some b -> Bone._linkedTo b = None.

Definition path (h : Bone.Store) (rs : list ref) : Prop :=
  NoDup rs /\
  forall i r, rs !! i = Some r ->
    exists b, h !! r = Some b /\ Bone.NEXT b = rs !! S i.

(** ** Lengths *)

(** The cached [_deltaX], [_deltaY] and [_length] agree with the end points,
    as they do after [setInitial] and [setTerminal]. *)
Definition Bone_consistent (b : Bone.t) : Prop :=
  Bone._deltaX b = Bone._x1 b - Bone._x0 b /\
  Bone._deltaY b = Bone._y1 b - Bone._y0 b /\
  Bone._length b =
    sqrt (Bone._deltaX b * Bone._deltaX b + Bone._deltaY b * Bone._deltaY b).

(** The distance between the two end points. *)
Definition span (b : Bone.t) : R :=
  sqrt ((Bone._x1 b - Bone._x0 b) * (Bone._x1 b - Bone._x0 b) +
        (Bone._y1 b - Bone._y0 b) * (Bone._y1 b - Bone._y0 b)).



(** ** Example chains *)

(** The bone that [addBoneAt(g, x0, y0, x1, y1, ...)] creates. *)
Definition boneAt (x0 y0 x1 y1 : R) : Bone.t :=
  Bone.setTerminal x1 y1 (Bone.setInitial x0 y0 true Bone.new).

(** The chain of two bones stored at 0 and 1, and its store, as two calls
    of [addBone] leave them (lemma [addBone_chain2]). *)
Definition chain2 : Chain.t :=
  {| Chain.REDRAW_ON_SOLVE := false;
     Chain._bones := [Some 0%nat; Some 1%nat]; Chain._count := 2%nat;
     Chain._current := Some 1%nat; Chain._previous := Some 0%nat;
     Chain._rootBone := Some 0%nat; Chain._terminalBone := Some 1%nat;
     Chain._linkedTo := None; Chain._linkedFrom := None;
     Chain._skinType := SKIN_NONE; Chain._isPinned := false;
     Chain._ikSolver := None; Chain._forward := [] |}.

Definition asRoot (next : option ref) (b : Bone.t) : Bone.t :=
  Bone.upd_NEXT next
    (Bone.upd_IS_END (bool_decide (next = None))
       (Bone.upd_IS_ROOT true (Bone.upd_skinType SKIN_NONE b))).

Definition asTerminal (prev : option ref) (b : Bone.t) : Bone.t :=
  Bone.upd_PREV prev
    (Bone.upd_IS_END true (Bone.upd_IS_ROOT false (Bone.upd_skinType SKIN_NONE b))).

Definition store2 (b0 b1 : Bone.t) : Bone.Store :=
  <[0%nat := asRoot (Some 1%nat) b0]> (<[1%nat := asTerminal (Some 0%nat) b1]> ∅).

(** The chain of one bone stored at 0. *)
Definition chain1 : Chain.t :=
  {| Chain.REDRAW_ON_SOLVE := false;
     Chain._bones := [Some 0%nat]; Chain._count := 1%nat;
     Chain._current := Some 0%nat; Chain._previous := None;
     Chain._rootBone := Some 0%nat; Chain._terminalBone := Some 0%nat;
     Chain._linkedTo := None; Chain._linkedFrom := None;
     Chain._skinType := SKIN_NONE; Chain._isPinned := false;
     Chain._ikSolver := None; Chain._forward := [] |}.

Definition store1 (b0 : Bone.t) : Bone.Store :=
  <[0%nat := asRoot None b0]> ∅.

(** ** The iterative solver read by phases

    The loop of [ccdBasic] alternates a target phase and a position phase.
    The functions below compute, on the list of the bones of a chain from
    root to terminal, what one target phase records and what one position
    phase stores; [ccdBasic_phases] proves that the loop does exactly that. *)

(** One step of the target phase: from the virtual target [cur], back along
    the direction from the initial joint of [b] by the length of [b]. *)
Definition stepBack (b : Bone.t) (cur : R * R) : R * R :=
  let dX := cur.1 - Bone.initX b in
  let dY := cur.2 - Bone.initY b in
  let rot := atan2 dY dX in
  let l := Bone.length b in
  (cur.1 - l * cos rot, cur.2 - l * sin rot).

(** The virtual targets, one per bone: the i-th is [_curTarget] once the
    bones i, i+1, ... have been walked. *)
Fixpoint virtualTargets (bs : list Bone.t) (T : R * R) : list (R * R) :=
  match bs with
  | [] => []
  | b :: rest =>
    let vts := virtualTargets rest T in
    stepBack b (hd T vts) :: vts
  end.

(** [_curTarget] at the end of the target phase. *)
Definition finalTarget (bs : list Bone.t) (T : R * R) : R * R :=
  hd T (virtualTargets bs T).

(** [_delta] of the position phase. *)
Definition ccdDelta (bs : list Bone.t) (T : R * R) : R * R :=
  match bs with
  | b0 :: _ =>
    ((finalTarget bs T).1 - Bone.initX b0, (finalTarget bs T).2 - Bone.initY b0)
  | [] => (0, 0)
  end.

(** [_record[i]] during the position phase. *)
Definition recordAt (bs : list Bone.t) (T : R * R) (i : nat) : R * R :=
  if decide (S i < List.length bs)%nat
  then default T (virtualTargets bs T !! S i)
  else finalTarget bs T.

(** [_term] after the bone [i] has been placed. *)
Definition termAt (bs : list Bone.t) (T : R * R) (i : nat) : R * R :=
  ((recordAt bs T i).1 - (ccdDelta bs T).1,
   (recordAt bs T i).2 - (ccdDelta bs T).2).

(** The orientation setter on a bone without [NEXT]; [p0] is the end
    orientation of its parent, if it has one. *)
Definition orient_self (p0 : option R) (rad : R) (b : Bone.t) : Bone.t :=
  let orient := Bone.orientation b in
  let angle := normalize rad in
  let dA := angle - orient in
  let dA :=
    if Rabs dA >? PI then (if dA <? 0 then dA + TWO_PI else dA - TWO_PI)
    else dA in
  let p0 := if negb (Bone._unconstrained b) then p0 else None in
  if Bone.orientationAllowed p0 angle b
  then Bone.set_orientation_self angle dA b
  else b.

(** The bone [i] as the position phase leaves it: the root and the inner
    bones first, then the terminal bone of a chain of two bones or more. *)
Definition placedInner (bs : list Bone.t) (T : R * R) (i : nat) (b : Bone.t)
  : Bone.t :=
  if decide (i = 0%nat) then
    Bone.setTerminal (termAt bs T 0).1 (termAt bs T 0).2 b
  else
    Bone.setTerminal (termAt bs T i).1 (termAt bs T i).2
      (Bone.setInitial (termAt bs T (i - 1)).1 (termAt bs T (i - 1)).2 false b).

Definition placed (bs : list Bone.t) (T : R * R) (i : nat) (b : Bone.t)
  : Bone.t :=
  if decide (i = 0%nat) then placedInner bs T i b
  else if decide (i < List.length bs - 1)%nat then placedInner bs T i b
  else
    let term := termAt bs T (i - 1) in
    let b1 := Bone.setInitial term.1 term.2 false b in
    let p0 :=
      (fun bp => Bone.endOrientation (placedInner bs T (i - 1) bp))
        <$> bs !! (i - 1)%nat in
    orient_self p0 (atan2 (T.2 - term.2) (T.1 - term.1)) b1.

Definition positions (bs : list Bone.t) (T : R * R) : list Bone.t :=
  imap (placed bs T) bs.

(** The squared distance of the convergence test; none without bones. *)
Definition ccdError (bs : list Bone.t) (T : R * R) : option R :=
  match last bs with
  | Some b =>
    let dX := T.1 - Bone.terminalX b in
    let dY := T.2 - Bone.terminalY b in
    Some (dX * dX + dY * dY)
  | None => None
  end.

Definition ccdFinished (cycles : nat) (bs : list Bone.t) (T : R * R) : bool :=
  match ccdError bs T with Some e => e <=? _stop | None => false end
  || bool_decide (_maxCycles <= cycles)%nat.

(** Cycles of target and position phase until the test ends them. *)
Fixpoint ccdCycles (budget cycles : nat) (bs : list Bone.t) (T : R * R)
  : list Bone.t :=
  let bs' := positions bs T in
  if ccdFinished cycles bs' T then bs'
  else
    match budget with
    | O => bs'
    | S budget' => ccdCycles budget' (S cycles) bs' T
    end.

(** The bones stored at the references [rs]. *)
Definition stored (h : Bone.Store) (rs : list ref) (bs : list Bone.t) : Prop :=
  Forall2 (fun r b => h !! r = Some b) rs bs.

(** [k] passes through the body of the loop, none of which leaves it. *)
Inductive ccdSteps (x y : R) (c : Chain.t)
  : nat -> CcdState -> Bone.Store -> CcdState -> Bone.Store -> Prop :=
| ccdSteps_O s h : ccdSteps x y c 0 s h s h
| ccdSteps_S k s h s1 h1 s2 h2 :
    _finished s = false ->
    ccdBody x y c s h = Continue s1 h1 ->
    ccdSteps x y c k s1 h1 s2 h2 ->
    ccdSteps x y c (S k) s h s2 h2.

(** The state of the loop after [j] passes of a target phase. *)
Definition targetInv (bs : list Bone.t) (T : R * R) (cyc j : nat)
    (s : CcdState) : Prop :=
  _isTarget s = true /\ _finished s = false /\
  _iterations s = j /\ _cycles s = cyc /\
  (_curTargetX s, _curTargetY s)
    = default T (virtualTargets bs T !! (List.length bs - j)%nat) /\
  forall k, (List.length bs - j <= S k < List.length bs)%nat ->
    _recordX s !! Z.of_nat k
      = Some (default T (virtualTargets bs T !! S k)).1 /\
    _recordY s !! Z.of_nat k
      = Some (default T (virtualTargets bs T !! S k)).2.

(** The state of the loop and the store after [k] passes of a position
    phase that started on the store [h0]. *)
Definition posInv (h0 : Bone.Store) (rs : list ref) (bs : list Bone.t)
    (T : R * R) (cyc k : nat) (s : CcdState) (h : Bone.Store) : Prop :=
  _isTarget s = false /\ _finished s = false /\
  _iterations s = k /\ _cycles s = cyc /\
  (_curTargetX s, _curTargetY s) = finalTarget bs T /\
  (forall i, (i < List.length bs)%nat ->
     _recordX s !! Z.of_nat i = Some (recordAt bs T i).1 /\
     _recordY s !! Z.of_nat i = Some (recordAt bs T i).2) /\
  ((1 <= k)%nat -> (_deltaX s, _deltaY s) = ccdDelta bs T) /\
  ((1 <= k < List.length bs)%nat ->
     (_termX s, _termY s) = termAt bs T (k - 1)) /\
  (forall i r b, rs !! i = Some r -> bs !! i = Some b ->
     h !! r = Some (if decide (i < k)%nat then placed bs T i b else b)) /\
  (forall r, r ∉ rs -> h !! r = h0 !! r).

(** ** Sequences of operations on a chain *)

Inductive ChainOp : Type :=
| OpMove (toX toY : R)
| OpRotate (deltaAngle : R)
| OpMoveAndRotate (toX toY deltaAngle : R)
| OpMoveEndEffector (toX toY : R) (isPinned : bool).

Definition runOp (op : ChainOp) (c : Chain.t) (h : Bone.Store)
  : Outcome unit * Chain.t * Bone.Store :=
  match op with
  | OpMove toX toY => let '(o, h) := Chain.move c toX toY h in (o, c, h)
  | OpRotate dA => let '(o, h) := Chain.rotate c dA h in (o, c, h)
  | OpMoveAndRotate toX toY dA =>
    let '(o, h) := Chain.moveAndRotate c toX toY dA h in (o, c, h)
  | OpMoveEndEffector toX toY isPinned =>
    let '(o, c, h) := Chain_moveEndEffector toX toY isPinned c h in
    (match o with Ret _ => Ret () | Throw e => Throw e end, c, h)
  end.

(** The operations one after the other, up to the first that throws. *)
Fixpoint runOps (ops : list ChainOp) (c : Chain.t) (h : Bone.Store)
  : Outcome unit * Chain.t * Bone.Store :=
  match ops with
  | [] => (Ret (), c, h)
  | op :: rest =>
    match runOp op c h with
    | (Ret _, c, h) => runOps rest c h
    | (Throw e, c, h) => (Throw e, c, h)
    end
  end.

(** A bone that is not being drawn, and that [draw()] leaves so. *)
Definition settled (b : Bone.t) : Prop :=
  Bone._drawing b = false /\ Bone._drawing (Bone.draw b) = false.

(** What the kinematic operations leave alone in a bone. *)
Definition kept (b b' : Bone.t) : Prop :=
  Bone.NEXT b' = Bone.NEXT b /\ Bone.PREV b' = Bone.PREV b /\
  Bone._drawing b' = Bone._drawing b /\
  Bone.RENDERABLE b' = Bone.RENDERABLE b /\
  Bone.SKIN_ONLY b' = Bone.SKIN_ONLY b /\
  Bone._drawType b' = Bone._drawType b /\
  Bone._skinType b' = Bone._skinType b.

(** Chain continuity on a list of bones. *)
Definition joinedL (bs : list Bone.t) : Prop :=
  forall i b b', bs !! i = Some b -> bs !! S i = Some b' ->
    Bone.terminalX b = Bone.initX b' /\ Bone.terminalY b = Bone.initY b'.

(** A well-formed, continuous chain of settled bones. *)
Definition chainOk (c : Chain.t) (h : Bone.Store) (rs : list ref) : Prop :=
  Chain_wf c h rs /\ joined h rs /\
  forall r b, r ∈ rs -> h !! r = Some b -> settled b.

(** A bone before and after an operation that neither relinks nor moves
    it, and keeps it settled. *)
Definition still (b b' : Bone.t) : Prop :=
  kept b b' /\ (settled b -> settled b') /\
  Bone.initX b' = Bone.initX b /\ Bone.initY b' = Bone.initY b /\
  Bone.terminalX b' = Bone.terminalX b /\ Bone.terminalY b' = Bone.terminalY b.

(** ** Bones along the x axis

    A bone from [(x0, 0)] to [(x1, 0)] with consistent caches, reported
    orientation [ang], unconstrained and not being drawn. *)
Definition axisBone (b : Bone.t) (x0 x1 ang : R) : Prop :=
  Bone._x0 b = x0 /\ Bone._y0 b = 0 /\ Bone._x1 b = x1 /\ Bone._y1 b = 0 /\
  Bone._deltaX b = x1 - x0 /\ Bone._deltaY b = 0 /\
  Bone._length b = Rabs (x1 - x0) /\
  Bone.orientation b = ang /\
  Bone._drawing b = false /\ Bone._unconstrained b = true.

(** A bone with a custom template once [draw()] has been called on it:
    [__drawCustom] leaves [_drawing] set. *)
Definition drawnBone (x0 y0 x1 y1 : R) : Bone.t :=
  Bone.draw (Bone.upd_drawType CUSTOM (boneAt x0 y0 x1 y1)).

(** ** Poses *)

(** The reported orientation is the direction of the cached deltas. *)
Definition aligned (b : Bone.t) : Prop :=
  Bone.orientation b = normalize (atan2 (Bone._deltaY b) (Bone._deltaX b)).

(** A bone at rest: caches in agreement with its end points, not being
    drawn. *)
Definition posed (b : Bone.t) : Prop :=
  Bone_consistent b /\ aligned b /\ Bone._drawing b = false.

(** The same pose: same end points, same reported orientation. *)
Definition samePose (b b' : Bone.t) : Prop :=
  Bone.initX b' = Bone.initX b /\ Bone.initY b' = Bone.initY b /\
  Bone.terminalX b' = Bone.terminalX b /\
  Bone.terminalY b' = Bone.terminalY b /\
  Bone.orientation b' = Bone.orientation b.

(** The last bone ends on the target. *)
Definition reached (bs : list Bone.t) (T : R * R) : Prop :=
  exists b, last bs = Some b /\
    Bone.terminalX b = T.1 /\ Bone.terminalY b = T.2.

(** The initial joints of the bones. *)
Definition inits (bs : list Bone.t) : list (R * R) :=
  (fun b => (Bone.initX b, Bone.initY b)) <$> bs.

(** The chain of three bones stored at 0, 1 and 2, and its store, as three
    calls of [addBone] leave them (lemma [addBone_chain3]). *)
Definition chain3 : Chain.t :=
  {| Chain.REDRAW_ON_SOLVE := false;
     Chain._bones := [Some 0%nat; Some 1%nat; Some 2%nat];
     Chain._count := 3%nat;
     Chain._current := Some 2%nat; Chain._previous := Some 1%nat;
     Chain._rootBone := Some 0%nat; Chain._terminalBone := Some 2%nat;
     Chain._linkedTo := None; Chain._linkedFrom := None;
     Chain._skinType := SKIN_NONE; Chain._isPinned := false;
     Chain._ikSolver := None; Chain._forward := [] |}.

Definition asInner (prev next : option ref) (b : Bone.t) : Bone.t :=
  Bone.upd_NEXT next (Bone.upd_IS_END false (asTerminal prev b)).

Definition store3 (b0 b1 b2 : Bone.t) : Bone.Store :=
  <[0%nat := asRoot (Some 1%nat) b0]>
    (<[1%nat := asInner (Some 0%nat) (Some 2%nat) b1]>
       (<[2%nat := asTerminal (Some 1%nat) b2]> ∅)).

(** ** The cached length *)

(** The cached length is the norm of the cached deltas, as [setInitial],
    [setTerminal] and the orientation setter leave it. *)
Definition lengthCached (b : Bone.t) : Prop :=
  Bone._length b =
    sqrt (Bone._deltaX b * Bone._deltaX b + Bone._deltaY b * Bone._deltaY b).

(** Same cached length, with the cache still the norm of the deltas. *)
Definition sameLength (b b' : Bone.t) : Prop :=
  Bone.length b' = Bone.length b /\ lengthCached b'.

(** Where the position phase puts the initial joint of the bone [i]. *)
Definition startAt (bs : list Bone.t) (T : R * R) (i : nat) (b : Bone.t)
  : R * R :=
  match i with
  | O => (Bone.initX b, Bone.initY b)
  | S j => termAt bs T j
  end.

(** ** Rigid motions of a bone *)

(** [b'] is [b] shifted by [(dx, dy)], orientation and length untouched. *)
Definition translated (dx dy : R) (b b' : Bone.t) : Prop :=
  Bone.initX b' = Bone.initX b + dx /\ Bone.initY b' = Bone.initY b + dy /\
  Bone.terminalX b' = Bone.terminalX b + dx /\
  Bone.terminalY b' = Bone.terminalY b + dy /\
  Bone._angle b' = Bone._angle b /\ Bone.length b' = Bone.length b /\
  Bone._deltaX b' = Bone._deltaX b /\ Bone._deltaY b' = Bone._deltaY b.

(** The point [(x, y)] turned by the angle [a] about [(px, py)]. *)
Definition turnX (px py a x y : R) : R :=
  px + ((x - px) * cos a - (y - py) * sin a).
Definition turnY (px py a x y : R) : R :=
  py + ((x - px) * sin a + (y - py) * cos a).

(** [b'] is [b] turned by [a] about [(px, py)], caches included. *)
Definition turned (px py a : R) (b b' : Bone.t) : Prop :=
  Bone.initX b' = turnX px py a (Bone.initX b) (Bone.initY b) /\
  Bone.initY b' = turnY px py a (Bone.initX b) (Bone.initY b) /\
  Bone.terminalX b' = turnX px py a (Bone.terminalX b) (Bone.terminalY b) /\
  Bone.terminalY b' = turnY px py a (Bone.terminalX b) (Bone.terminalY b) /\
  Bone._angle b' = Bone._angle b + a /\ Bone.length b' = Bone.length b /\
  Bone_consistent b'.

(** ** More of Chain (chain.ts) *)

(** [get orientation()] and [get endOrientation()] of a chain: the root
    and the terminal bone are read without [?.]. *)
Definition Chain_orientation (c : Chain.t) (h : Bone.Store) : Outcome R :=
  match Chain._rootBone c ≫= (h !!.) with
  | Some b => Ret (Bone.orientation b)
  | None => Throw TypeError
  end.

Definition Chain_endOrientation (c : Chain.t) (h : Bone.Store) : Outcome R :=
  match Chain._terminalBone c ≫= (h !!.) with
  | Some b => Ret (Bone.orientation b)
  | None => Throw TypeError
  end.

(** ** Connectors *)

(** The calls [cs], in that order, then [k]. *)
Definition tell {A} (cs : list Connector.Call) (k : Connector.Run A)
  : Connector.Run A :=
  foldr Connector.Do k cs.

(** The links of a connector, each with the terminator it is attached
    to: left, middle, right. *)
Definition attached (c : Connector.t) : list (ref * R * R) :=
  match Connector._linkLeft c with
  | Some l => [(l, Connector._leftX c, Connector._leftY c)]
  | None => []
  end ++
  match Connector._linkMiddle c with
  | Some l => [(l, Connector._midX c, Connector._midY c)]
  | None => []
  end ++
  match Connector._linkRight c with
  | Some l => [(l, Connector._rightX c, Connector._rightY c)]
  | None => []
  end.

Definition moveCalls (c : Connector.t) : list Connector.Call :=
  (fun p => Connector.Call_move p.1.1 p.1.2 p.2) <$> attached c.

Definition rotateCalls (dA : R) (c : Connector.t) : list Connector.Call :=
  (fun p => Connector.Call_moveAndRotate p.1.1 p.1.2 p.2 dA) <$> attached c.

Definition sameLinks (c c' : Connector.t) : Prop :=
  Connector._linkLeft c' = Connector._linkLeft c /\
  Connector._linkMiddle c' = Connector._linkMiddle c /\
  Connector._linkRight c' = Connector._linkRight c.

(** The three terminators of [c'] are those of [c] turned by [a] about
    the point [(px, py)]. *)
Definition terminatorsTurned (px py a : R) (c c' : Connector.t) : Prop :=
  Connector._leftX c' = turnX px py a (Connector._leftX c) (Connector._leftY c) /\
  Connector._leftY c' = turnY px py a (Connector._leftX c) (Connector._leftY c) /\
  Connector._midX c' = turnX px py a (Connector._midX c) (Connector._midY c) /\
  Connector._midY c' = turnY px py a (Connector._midX c) (Connector._midY c) /\
  Connector._rightX c' = turnX px py a (Connector._rightX c) (Connector._rightY c) /\
  Connector._rightY c' = turnY px py a (Connector._rightX c) (Connector._rightY c).

Definition sameTerminators (c c' : Connector.t) : Prop :=
  Connector._leftX c' = Connector._leftX c /\
  Connector._leftY c' = Connector._leftY c /\
  Connector._midX c' = Connector._midX c /\
  Connector._midY c' = Connector._midY c /\
  Connector._rightX c' = Connector._rightX c /\
  Connector._rightY c' = Connector._rightY c.

(** The pivot, the origin and the terminators of [c'] are those of [c]
    shifted by [(dx, dy)]. *)
Definition Connector_shifted (dx dy : R) (c c' : Connector.t) : Prop :=
  Connector._pivotX c' = Connector._pivotX c + dx /\
  Connector._pivotY c' = Connector._pivotY c + dy /\
  Connector._x0 c' = Connector._x0 c + dx /\
  Connector._y0 c' = Connector._y0 c + dy /\
  Connector._leftX c' = Connector._leftX c + dx /\
  Connector._leftY c' = Connector._leftY c + dy /\
  Connector._midX c' = Connector._midX c + dx /\
  Connector._midY c' = Connector._midY c + dy /\
  Connector._rightX c' = Connector._rightX c + dx /\
  Connector._rightY c' = Connector._rightY c + dy.

(** A connector for the examples: pivot at the origin of the plane,
    terminators at (-1, 1), (0, 1) and (1, 1), links 7, 8 and 9. *)
Definition tee : Connector.t :=
  {| Connector._pivotX := 0; Connector._pivotY := 0;
     Connector._x0 := 0; Connector._y0 := 1; Connector._angle := PI / 2;
     Connector._leftX := -1; Connector._leftY := 1;
     Connector._midX := 0; Connector._midY := 1;
     Connector._rightX := 1; Connector._rightY := 1;
     Connector._leftOrientation := None; Connector._midOrientation := None;
     Connector._rightOrientation := None;
     Connector._linkLeft := Some 7%nat; Connector._linkMiddle := Some 8%nat;
     Connector._linkRight := Some 9%nat; Connector._fk := FK_NONE;
     Connector._lowerLimit := - Connector.TWO_PI;
     Connector._upperLimit := Connector.TWO_PI;
     Connector._unconstrained := true; Connector._linkedTo := None |}.

(** The terminator that [link] attaches to, and the link registered
    there. *)
Definition terminatorAt (t : Connector.Terminator) (c : Connector.t)
  : option (R * R) :=
  match t with
  | Connector.LEFT => Some (Connector._leftX c, Connector._leftY c)
  | Connector.MIDDLE => Some (Connector._midX c, Connector._midY c)
  | Connector.RIGHT => Some (Connector._rightX c, Connector._rightY c)
  | Connector.OTHER => None
  end.

Definition linkAt (t : Connector.Terminator) (c : Connector.t) : option ref :=
  match t with
  | Connector.LEFT => Connector._linkLeft c
  | Connector.MIDDLE => Connector._linkMiddle c
  | Connector.RIGHT => Connector._linkRight c
  | Connector.OTHER => None
  end.

(** ** Templates and limbs (bone-template.ts, bone.ts, chain.ts, leg.ts, arm.ts) *)

(** A number that may be [undefined] or [NaN]. *)
Inductive JsNumber : Type := Undefined | NaN | Num (r : R).

(** [Math.max(a, y)] for a number [y]. *)
Definition Math_max (a : JsNumber) (y : R) : JsNumber :=
  match a with
  | Num m => Num (Rmax m y)
  | Undefined | NaN => NaN
  end.

Module BoneTemplate.

Record t : Type := mk {
  USE_SPLINE : bool;
  SPLINE_CLOSED : bool;
  _points : list (option R);
  _index : Z;
  _count : Z;
  _max : JsNumber
}.

(** [reset()] *)
Definition reset (tp : t) : t :=
  {| USE_SPLINE := false; SPLINE_CLOSED := false; _points := [];
     _index := 0; _count := 2; _max := _max tp |}.

(** [new BoneTemplate()]: [_max] is not assigned. *)
Definition new : t :=
  reset {| USE_SPLINE := false; SPLINE_CLOSED := false; _points := [];
           _index := 0; _count := 0; _max := Undefined |}.

Definition count (tp : t) : Z := _count tp.
Definition max (tp : t) : JsNumber := _max tp.
Definition points (tp : t) : list (option R) := _points tp.

(** [a[i] = v]; a negative index names no element of the array. *)
Definition store (a : list (option R)) (i : Z) (v : R) : list (option R) :=
  if decide (0 <= i)%Z then Chain.array_store a (Z.to_nat i) v else a.

(** [insert(x, y)] *)
Definition insert (x y : R) (tp : t) : t :=
  {| USE_SPLINE := USE_SPLINE tp; SPLINE_CLOSED := SPLINE_CLOSED tp;
     _points := store (store (_points tp) (_index tp) x) (_index tp + 1) y;
     _index := _index tp + 2; _count := _count tp + 1;
     _max := Math_max (_max tp) y |}.

(** [from(t)] on the template [tp], [src] being another object than
    [tp]; [forEach] skips the holes of the array. *)
Definition from (src : t) (tp : t) : t :=
  let tp := reset tp in
  {| USE_SPLINE := USE_SPLINE src; SPLINE_CLOSED := SPLINE_CLOSED src;
     _points := _points tp ++ (Some <$> omap (fun v : option R => v) (points src));
     _index := count src - 2; _count := count src; _max := _max tp |}.

End BoneTemplate.

(** A graphics context; what is drawn into it is left out. *)
Inductive IGraphics : Set := Graphics.

(** [new Bone(g)]: [init()] ends with [this._graphics.clear()]. *)
Definition Bone_create (g : option IGraphics) : Outcome Bone.t :=
  match g with
  | Some _ => Ret Bone.new
  | None => Throw TypeError
  end.

(** [set template(t)] of a bone: the end points are the first and the
    last point of the template. *)
Definition Bone_set_template (t : option BoneTemplate.t) (b : Bone.t)
  : Outcome Bone.t :=
  match t with
  | None => Ret b
  | Some t =>
    let points := BoneTemplate.points (BoneTemplate.from t BoneTemplate.new) in
    let n := Z.of_nat (List.length points) in
    let at_ (i : Z) : option R :=
      if decide (0 <= i)%Z then mjoin (points !! Z.to_nat i) else None in
    match at_ 0%Z, at_ 1%Z, at_ (n - 2)%Z, at_ (n - 1)%Z with
    | Some x0, Some y0, Some x1, Some y1 =>
      Ret (Bone.setTerminal x1 y1 (Bone.setInitial x0 y0 true b))
    | _, _, _, _ => Throw NotReal
    end
  end.

(** [addBoneAt(g, x0, y0, x1, y1, name, id, type, template, renderable)];
    [r] is the address of the bone it creates, a coordinate that is not a
    real number is [None]. *)
Definition Chain_addBoneAt (g : option IGraphics) (x0 y0 x1 y1 : option R)
    (type : DRAW_TYPE) (template : option BoneTemplate.t) (renderable : bool)
    (r : ref) (c : Chain.t) (h : Bone.Store)
  : Outcome ref * Chain.t * Bone.Store :=
  match Bone_create g with
  | Throw e => (Throw e, c, h)
  | Ret b =>
    let b := Bone.upd_drawType type b in
    let b := Bone.upd_RENDERABLE renderable b in
    let placed :=
      if bool_decide (type = CUSTOM) && bool_decide (template <> None) then
        Bone_set_template template b
      else
        match x0, y0, x1, y1 with
        | Some x0, Some y0, Some x1, Some y1 =>
          Ret (Bone.setTerminal x1 y1 (Bone.setInitial x0 y0 true b))
        | _, _, _, _ => Throw NotReal
        end in
    match placed with
    | Throw e => (Throw e, c, h)
    | Ret b =>
      match Chain.addBone r c (<[r := b]> h) with
      | (Throw e, c, h) => (Throw e, c, h)
      | (Ret _, c, h) => (Ret r, c, h)
      end
    end
  end.

(** [a / d]; the quotient by zero is not a real number. *)
Definition quotient (a d : R) : option R :=
  if decide (d = 0) then None else Some (a / d).

Module Leg.

Definition UPPER_FRAC : R := 49 / 100.

(** [__create(x, y, w, h, type, uLeg, lLeg)]; [_upperLeg] and
    [_lowerLeg] are the graphics contexts of the two bones, [r1] and [r2]
    the addresses of the bones. *)
Definition __create (_upperLeg _lowerLeg : option IGraphics) (x y w h : R)
    (isLeft : bool) (uLeg lLeg : option BoneTemplate.t) (r1 r2 : ref)
    (c : Chain.t) (hp : Bone.Store) : Outcome unit * Chain.t * Bone.Store :=
  let d := sqrt (w * w + h * h) in
  let rootX := if isLeft then x else x + w in
  let rootY := y in
  let endX := if isLeft then x + w else x in
  let endY := y + h in
  let uX := if isLeft then quotient w d else quotient (- w) d in
  let uY := quotient h d in
  let upperRatio := UPPER_FRAC * d in
  let upperX := (fun u => upperRatio * u + rootX) <$> uX in
  let upperY := (fun u => upperRatio * u + rootY) <$> uY in
  match Chain_addBoneAt _upperLeg (Some rootX) (Some rootY) upperX upperY
          CUSTOM uLeg false r1 c hp with
  | (Throw e, c, hp) => (Throw e, c, hp)
  | (Ret _, c, hp) =>
    match Chain_addBoneAt _lowerLeg upperX upperY (Some endX) (Some endY)
            CUSTOM lLeg false r2 c hp with
    | (Throw e, c, hp) => (Throw e, c, hp)
    | (Ret _, c, hp) => (Ret (), c, hp)
    end
  end.

(** [new Leg(g1, g2, x, y, w, h, type, uLeg, lLeg, f, r)]: the graphics
    contexts are stored, then the bones are created. *)
Definition new (g1 g2 : option IGraphics) (x y w h : R) (isLeft : bool)
    (uLeg lLeg : option BoneTemplate.t) (r1 r2 : ref) (hp : Bone.Store)
  : Outcome unit * Chain.t * Bone.Store :=
  __create g1 g2 x y w h isLeft uLeg lLeg r1 r2 Chain.new hp.

End Leg.

Module Arm.

Definition UPPER_FRAC : R := 48 / 100.

(** [__create(x, y, w, h, type, uArm, fArm)] *)
Definition __create (_upperArm _foreArm : option IGraphics) (x y w h : R)
    (isLeft : bool) (uArm fArm : option BoneTemplate.t) (r1 r2 : ref)
    (c : Chain.t) (hp : Bone.Store) : Outcome unit * Chain.t * Bone.Store :=
  let d := sqrt (w * w + h * h) in
  let rootX := if isLeft then x else x + w in
  let rootY := y in
  let endX := if isLeft then x + w else x in
  let endY := y + h in
  let uX := if isLeft then quotient w d else quotient (- w) d in
  let uY := quotient h d in
  let upperRatio := UPPER_FRAC * d in
  let upperX := (fun u => upperRatio * u + rootX) <$> uX in
  let upperY := (fun u => upperRatio * u + rootY) <$> uY in
  match Chain_addBoneAt _upperArm (Some rootX) (Some rootY) upperX upperY
          CUSTOM uArm false r1 c hp with
  | (Throw e, c, hp) => (Throw e, c, hp)
  | (Ret _, c, hp) =>
    match Chain_addBoneAt _foreArm upperX upperY (Some endX) (Some endY)
            CUSTOM fArm false r2 c hp with
    | (Throw e, c, hp) => (Throw e, c, hp)
    | (Ret _, c, hp) => (Ret (), c, hp)
    end
  end.

(** [new Arm(g1, g2, x, y, w, h, type, uArm, fArm, f, r)]: the bones
    are created before [_upperArm] and [_foreArm] are assigned [g1] and
    [g2]. *)
Definition new (g1 g2 : option IGraphics) (x y w h : R) (isLeft : bool)
    (uArm fArm : option BoneTemplate.t) (r1 r2 : ref) (hp : Bone.Store)
  : Outcome unit * Chain.t * Bone.Store :=
  __create None None x y w h isLeft uArm fArm r1 r2 Chain.new hp.

End Arm.

(** The template that [insert] fills with the points [ps], in order. *)
Definition filled (ps : list (R * R)) : BoneTemplate.t :=
  foldl (fun t p => BoneTemplate.insert p.1 p.2 t) BoneTemplate.new ps.

(** The packed array of the points [ps]. *)
Definition packed (ps : list (R * R)) : list (option R) :=
  ps ≫= (fun p => [Some p.1; Some p.2]).

Definition isNumber (v : JsNumber) : Prop :=
  match v with Num _ => True | _ => False end.

(** What the redraw that follows a solve makes of a bone of the chain:
    [if (this.REDRAW_ON_SOLVE) this._bones.forEach(bone => bone.draw())]. *)
Definition redrawn (c : Chain.t) (b : Bone.t) : Bone.t :=
  if Chain.REDRAW_ON_SOLVE c then Bone.draw b else b.

(** * Properties *)

(** ** Real-number facts used throughout *)

Lemma PI_gt_3 : 3 < PI.
Proof. pose proof PI2_3_2. lra. Qed.

Lemma PI_le_4 : PI <= 4.
Proof. exact PI_4. Qed.

Lemma TWO_PI_eq : TWO_PI = 2 * PI.
Proof. unfold TWO_PI. ring. Qed.

(** Case analysis on every comparison of the goal, closing the branches
    that linear arithmetic (with the bounds on PI) refutes or proves. *)
Ltac no_test P :=
  lazymatch P with
  | context [bool_decide _] => fail
  | context [decide _] => fail
  | _ => idtac
  end.

Ltac rcases :=
  repeat match goal with
  | |- context [bool_decide ?P] =>
    no_test P; destruct (bool_decide_reflect P); simpl
  | |- context [decide ?P] => no_test P; destruct (decide P); simpl
  end.

Ltac rarith :=
  pose proof PI_gt_3; pose proof PI_le_4;
  unfold Connector.TWO_PI, TWO_PI in *;
  first [ lra | nra | done ].

(** ** The joint-limit test *)

Lemma isInLimit_Connector_Bone lower upper child :
  Connector.__isInLimit lower upper child = Bone.__isInLimit lower upper child.
Proof. reflexivity. Qed.

(** C4, counterexample.  With limits 5 and 1 (an interval across the seam)
    the candidate 1/2 is accepted by the code, whereas the stated rule asks
    for [candidate + 2 PI <= 2 PI]; with limits 5 and 4 the candidate 9,
    beyond 2 PI, is refused by the code and accepted by the stated rule. *)
Lemma isInLimit_not_as_stated :
  (Bone.__isInLimit 5 1 (1 / 2) = true /\ ~ inLimit_stated 5 1 (1 / 2)) /\
  (Bone.__isInLimit 5 4 9 = false /\ inLimit_stated 5 4 9).
Proof.
  unfold Bone.__isInLimit, inLimit_stated.
  repeat split; rcases; try rarith; intros; rarith.
Qed.

(** C4, amended.  [__isInLimit] is true exactly when: [lower <= upper] and
    the candidate is in [lower, upper]; or [lower > upper], the candidate
    is in [PI, 2 PI] and in [lower, 2 PI + upper]; or [lower > upper], the
    candidate is outside [PI, 2 PI], [candidate + 2 PI >= lower] and
    [candidate <= upper].  Connector's copy is the same function. *)
Theorem isInLimit_spec lower upper candidate :
  (Bone.__isInLimit lower upper candidate = true <-> inLimit lower upper candidate)
  /\ Connector.__isInLimit lower upper candidate
     = Bone.__isInLimit lower upper candidate.
Proof.
  split; [| reflexivity].
  unfold Bone.__isInLimit, inLimit.
  rcases; split; intros; try done; try rarith; try (split; rarith).
Qed.

(** C8.  Limits -3 PI / 5 and PI / 2 about a parent of orientation 0: the
    orientation setter works out the absolute limits 2 PI - 3 PI / 5 and
    PI / 2, and its joint-limit gate lets the candidates 0 and -1.8
    (normalised to 2 PI - 1.8) through and stops the candidate PI. *)
Theorem joint_limit_example :
  Bone._unconstrained limitedBone = false /\
  (Bone.orientationAllowed (Some 0) (normalize 0) limitedBone = true /\
   Bone.orientationAllowed (Some 0) (normalize (- (18 / 10))) limitedBone = true /\
   Bone.orientationAllowed (Some 0) (normalize PI) limitedBone = false) /\
  (normalize (- (18 / 10)) = 2 * PI - 18 / 10 /\
   Bone.__isInLimit (2 * PI - 3 * PI / 5) (PI / 2) 0 = true /\
   Bone.__isInLimit (2 * PI - 3 * PI / 5) (PI / 2) (2 * PI - 18 / 10) = true /\
   Bone.__isInLimit (2 * PI - 3 * PI / 5) (PI / 2) PI = false).
Proof.
  unfold Bone.orientationAllowed, Bone.__isInLimit, normalize, limitedBone.
  cbn [Bone._unconstrained Bone._lowerLimit Bone._upperLimit Bone.set_upperLimit
       Bone.set_lowerLimit Bone.upd_unconstrained Bone.upd_upperLimit
       Bone.upd_lowerLimit Bone.new Bone.init negb].
  repeat split; rcases; try rarith.
Qed.

(** ** The orientation accessor *)

(** C6.  [rotate] adds the angle to [_angle] as it is, and the accessor
    adds 2 PI to a negative [_angle] once: a new bone rotated by -9 reports
    the negative orientation 2 PI - 9, rotated by 9 it reports 9, which is
    beyond 2 PI. *)
Theorem orientation_after_rotate :
  (exists h b,
     Bone.rotate 0%nat (-9) None None {[0%nat := Bone.new]} = (Ret (), h) /\
     h !! 0%nat = Some b /\
     Bone.orientation b = 2 * PI - 9 /\ Bone.orientation b < 0) /\
  (exists h b,
     Bone.rotate 0%nat 9 None None {[0%nat := Bone.new]} = (Ret (), h) /\
     h !! 0%nat = Some b /\
     Bone.orientation b = 9 /\ 2 * PI <= Bone.orientation b).
Proof.
  assert (Hangle : forall d, Bone._angle
            (Bone.rotate_self d (cos d) (sin d) Bone.new) = 0 + d)
    by reflexivity.
  split; eexists _, _; unfold Bone.rotate, Bone.rotate_rec;
    rewrite lookup_singleton_eq;
    (replace (Bone.NEXT (Bone.rotate_self _ _ _ Bone.new)) with (@None ref)
       by reflexivity);
    (split; [reflexivity |]); rewrite lookup_insert_eq;
    (split; [reflexivity |]); unfold Bone.orientation; rewrite Hangle;
    rcases; split; rarith.
Qed.

(** ** The pinned variant of the iterative solver *)

Lemma ccdBasic_pinned_stub' x y c h :
  ccdBasic x y c true h = (Ret false, h).
Proof. reflexivity. Qed.

(** C7.  With [isPinned] the iterative solver is [ccdBasicPinned], which
    returns [false] and leaves the store of bones as it is. *)
Theorem ccdBasic_pinned_stub x y c h :
  ccdBasic x y c true h = (Ret false, h).
Proof. unfold ccdBasic, ccdBasicPinned. reflexivity. Qed.

(** ** Well-formed chains: construction and [pop] *)

Lemma modify_Some r f (h : Bone.Store) b :
  h !! r = Some b -> Chain.modify (Some r) f h = (Ret (), <[r := f b]> h).
Proof. intros Hb. unfold Chain.modify. by rewrite Hb. Qed.

Lemma linked_lookup h rs i r :
  linked h rs -> rs !! i = Some r -> is_Some (h !! r).
Proof. intros [_ H] Hi. destruct (H i r Hi) as (b & Hb & _). eauto. Qed.

Lemma last_lookup_pred {A} (l : list A) :
  last l = l !! pred (List.length l).
Proof. apply last_lookup. Qed.

Lemma removelast_snoc {A} (l : list A) x : removelast (l ++ [x]) = l.
Proof. apply removelast_last. Qed.

Lemma last_fmap_Some (rs : list ref) :
  mjoin (last (Some <$> rs)) = last rs.
Proof. rewrite fmap_last. by destruct (last rs). Qed.

Lemma removelast_fmap {A B} (f : A -> B) (l : list A) :
  removelast (f <$> l) = f <$> removelast l.
Proof.
  induction l as [| a [| a' l] IH]; [done | done |].
  change (f a :: removelast (f <$> a' :: l) = f a :: (f <$> removelast (a' :: l))).
  by rewrite IH.
Qed.

(** C10.  On a well-formed chain of two bones or more, [pop] takes the
    last bone off [_bones], lowers the size by one and makes the new last
    bone the terminal bone, with [IS_END] set and [NEXT] cleared.  On a
    chain of one bone the array is left empty, [_terminalBone] becomes
    undefined and the assignment to its [IS_END] throws. *)
Theorem pop_spec c h rs :
  Chain_wf c h rs ->
  ((2 <= Chain.size c)%nat ->
   exists c' h' t bt,
     Chain.pop c h = (Ret (), c', h') /\
     Chain._bones c' = Some <$> removelast rs /\
     Chain.size c' = (Chain.size c - 1)%nat /\
     last (removelast rs) = Some t /\
     Chain._terminalBone c' = Some t /\
     h' !! t = Some bt /\ Bone.IS_END bt = true /\ Bone.NEXT bt = None) /\
  (Chain.size c = 1%nat ->
   exists c' h',
     Chain.pop c h = (Throw TypeError, c', h') /\
     Chain._bones c' = [] /\ Chain.size c' = 0%nat /\
     Chain._terminalBone c' = None).
Proof.
  intros (Hbones & Hcount & Hroot & Hterm & Hlinked).
  unfold Chain.size. rewrite Hcount. split.
  - intros Hsize.
    destruct (exists_last (l := rs)) as (rs1 & r & ->);
      [intros ->; simpl in Hsize; lia |].
    destruct (exists_last (l := rs1)) as (rs0 & t & ->).
    { intros ->. simpl in Hsize. lia. }
    rewrite removelast_snoc.
    destruct (linked_lookup h _ (List.length (rs0 ++ [t])) r Hlinked)
      as [b Hb]; [by rewrite lookup_app_r, Nat.sub_diag |].
    destruct (linked_lookup h _ (List.length rs0) t Hlinked) as [bt Hbt].
    { rewrite <- app_assoc. by rewrite lookup_app_r, Nat.sub_diag. }
    unfold Chain.pop. rewrite Hbones, last_fmap_Some, last_snoc.
    rewrite (modify_Some _ _ _ _ Hb). cbn [Chain.upd_bones Chain._bones
      Chain.upd_count Chain._count Chain.upd_terminalBone Chain._terminalBone].
    rewrite removelast_fmap, removelast_snoc, length_fmap, length_app.
    cbn [List.length]. rewrite Nat.add_1_r.
    rewrite list_lookup_fmap, lookup_app_r, Nat.sub_diag by lia.
    cbn [lookup list_lookup fmap option_fmap option_map mjoin option_join mbind
         option_bind].
    set (h1 := <[r := Bone.destruct b]> h).
    destruct (h1 !! t) as [bt1 |] eqn:Hbt1.
    2:{ subst h1. destruct (decide (r = t)) as [-> | Hne].
        - by rewrite lookup_insert_eq in Hbt1.
        - rewrite lookup_insert_ne in Hbt1 by done. congruence. }
    rewrite (modify_Some _ _ _ _ Hbt1).
    rewrite (modify_Some t _ _ (Bone.upd_IS_END true bt1))
      by apply lookup_insert_eq.
    eexists _, _, t, _. split; [reflexivity |].
    cbn [Chain.upd_bones Chain._bones Chain.upd_count Chain._count
         Chain.upd_terminalBone Chain._terminalBone].
    repeat split.
    + rewrite !length_app. simpl. lia.
    + apply last_snoc.
    + apply lookup_insert_eq.
    + reflexivity.
    + reflexivity.
  - intros Hsize.
    destruct rs as [| r [| r' rs]]; simpl in Hsize; try lia.
    destruct (linked_lookup h _ 0%nat r Hlinked) as [b Hb]; [done |].
    unfold Chain.pop. rewrite Hbones. cbn [fmap list_fmap last mjoin option_join
      mbind option_bind removelast].
    rewrite (modify_Some _ _ _ _ Hb).
    eexists _, _. split; [reflexivity |]. done.
Qed.

(** ** Propagation along [NEXT] *)

Lemma linked_path h rs : linked h rs -> path h rs.
Proof.
  intros [Hnd H]. split; [done |]. intros i r Hi.
  destruct (H i r Hi) as (b & ? & ? & ?). eauto.
Qed.

Lemma path_tail h r rs : path h (r :: rs) -> path h rs.
Proof.
  intros [Hnd H]. split; [by apply NoDup_cons in Hnd as [] |].
  intros i r' Hi. apply (H (S i) r' Hi).
Qed.

Lemma path_head h r rs :
  path h (r :: rs) -> exists b, h !! r = Some b /\ Bone.NEXT b = head rs.
Proof.
  intros [_ H]. destruct (H 0%nat r eq_refl) as (b & Hb & Hn).
  exists b. split; [done |]. rewrite Hn. by destruct rs.
Qed.

(** Replacing the head by a bone with the same [NEXT] keeps the walk. *)
Lemma path_insert_head h r rs b b' :
  path h (r :: rs) -> h !! r = Some b -> Bone.NEXT b' = Bone.NEXT b ->
  path (<[r := b']> h) (r :: rs).
Proof.
  intros [Hnd H] Hb Hnext. split; [done |]. intros i r' Hi.
  destruct (decide (r' = r)) as [-> | Hne].
  - exists b'. rewrite lookup_insert_eq. split; [done |].
    destruct (H i r Hi) as (b0 & Hb0 & Hn0). congruence.
  - rewrite lookup_insert_ne by done. eauto.
Qed.

Lemma moveInitial_self_NEXT x y b :
  Bone.NEXT (Bone.moveInitial_self x y b) = Bone.NEXT b.
Proof. reflexivity. Qed.

Lemma moveAndRotate_self_NEXT x y dA c s b :
  Bone.NEXT (Bone.moveAndRotate_self x y dA c s b) = Bone.NEXT b.
Proof. reflexivity. Qed.

Lemma moveInitial_rec_path rs :
  forall fuel r x y h,
    path h (r :: rs) -> (List.length rs < fuel)%nat ->
    exists h',
      Bone.moveInitial_rec fuel r x y h = (Ret (), h') /\
      (forall r', r' ∉ r :: rs -> h' !! r' = h !! r') /\
      (forall r' b, r' ∈ r :: rs -> h !! r' = Some b ->
         exists x' y', h' !! r' = Some (Bone.moveInitial_self x' y' b)) /\
      (forall b, h !! r = Some b ->
         h' !! r = Some (Bone.moveInitial_self x y b)) /\
      joined h' (r :: rs).
Proof.
  induction rs as [| n rs IH]; intros fuel r x y h Hpath Hfuel.
  - destruct fuel as [| fuel]; [simpl in Hfuel; lia |].
    destruct (path_head _ _ _ Hpath) as (b & Hb & Hnext). simpl in Hnext.
    eexists. cbn [Bone.moveInitial_rec]. rewrite Hb, moveInitial_self_NEXT, Hnext.
    split; [reflexivity |]. split; [| split; [| split]].
    + intros r' Hr'. apply lookup_insert_ne. set_solver.
    + intros r' b0 Hr' Hb0. apply list_elem_of_singleton in Hr' as ->.
      exists x, y. rewrite lookup_insert_eq. congruence.
    + intros b0 Hb0. rewrite lookup_insert_eq. congruence.
    + intros i r1 r2 b1 b2 H1 H2. by destruct i.
  - destruct fuel as [| fuel]; [simpl in Hfuel; lia |].
    destruct (path_head _ _ _ Hpath) as (b & Hb & Hnext). simpl in Hnext.
    set (b' := Bone.moveInitial_self x y b).
    assert (Hnr : n <> r).
    { destruct Hpath as [Hnd _]. apply NoDup_cons in Hnd as [Hnin _].
      intros ->. apply Hnin. by left. }
    assert (Hrrs : r ∉ n :: rs).
    { destruct Hpath as [Hnd _]. by apply NoDup_cons in Hnd as []. }
    assert (Hpath' : path (<[r := b']> h) (n :: rs)).
    { apply path_tail with r. by apply path_insert_head with b. }
    destruct (IH fuel n (Bone._x1 b') (Bone._y1 b') _ Hpath')
      as (h' & Hrun & Hframe & Hin & Hhead & Hjoin); [simpl in *; lia |].
    exists h'. cbn [Bone.moveInitial_rec].
    rewrite Hb, moveInitial_self_NEXT, Hnext. fold b'. split; [exact Hrun |].
    assert (Hr' : h' !! r = Some b').
    { rewrite Hframe by done. apply lookup_insert_eq. }
    split; [| split; [| split]].
    + intros r' Hr'0. rewrite Hframe by set_solver.
      apply lookup_insert_ne. set_solver.
    + intros r' b0 Hr'0 Hb0. apply elem_of_cons in Hr'0 as [-> | Hr'0].
      * exists x, y. rewrite Hr'. subst b'. congruence.
      * apply Hin; [done |]. rewrite lookup_insert_ne; [done |].
        intros ->. done.
    + intros b0 Hb0. rewrite Hr'. subst b'. congruence.
    + intros i r1 r2 b1 b2 H1 H2 Hb1 Hb2. destruct i as [| i].
      * simpl in H1, H2. injection H1 as <-. injection H2 as <-.
        destruct (path_head _ _ _ Hpath') as (bn & Hbn & _).
        rewrite (Hhead _ Hbn) in Hb2. rewrite Hr' in Hb1.
        injection Hb1 as <-. injection Hb2 as <-. done.
      * apply (Hjoin i r1 r2 b1 b2 H1 H2 Hb1 Hb2).
Qed.

Lemma moveAndRotate_rec_path rs :
  forall fuel r x y dA c s h,
    path h (r :: rs) -> (List.length rs < fuel)%nat ->
    let c1 := match c with None => cos dA | Some c => c end in
    let s1 := match s with None => sin dA | Some s => s end in
    exists h',
      Bone.moveAndRotate_rec fuel r x y dA c s h = (Ret (), h') /\
      (forall r', r' ∉ r :: rs -> h' !! r' = h !! r') /\
      (forall r' b, r' ∈ r :: rs -> h !! r' = Some b ->
         exists x' y', h' !! r' = Some (Bone.moveAndRotate_self x' y' dA c1 s1 b)) /\
      (forall b, h !! r = Some b ->
         h' !! r = Some (Bone.moveAndRotate_self x y dA c1 s1 b)) /\
      joined h' (r :: rs).
Proof.
  induction rs as [| n rs IH]; intros fuel r x y dA c s h Hpath Hfuel c1 s1.
  - destruct fuel as [| fuel]; [simpl in Hfuel; lia |].
    destruct (path_head _ _ _ Hpath) as (b & Hb & Hnext). simpl in Hnext.
    eexists. cbn [Bone.moveAndRotate_rec].
    rewrite Hb. fold c1 s1. rewrite moveAndRotate_self_NEXT, Hnext.
    split; [reflexivity |]. split; [| split; [| split]].
    + intros r' Hr'. apply lookup_insert_ne. set_solver.
    + intros r' b0 Hr' Hb0. apply list_elem_of_singleton in Hr' as ->.
      exists x, y. rewrite lookup_insert_eq. congruence.
    + intros b0 Hb0. rewrite lookup_insert_eq. congruence.
    + intros i r1 r2 b1 b2 H1 H2. by destruct i.
  - destruct fuel as [| fuel]; [simpl in Hfuel; lia |].
    destruct (path_head _ _ _ Hpath) as (b & Hb & Hnext). simpl in Hnext.
    set (b' := Bone.moveAndRotate_self x y dA c1 s1 b).
    assert (Hrrs : r ∉ n :: rs).
    { destruct Hpath as [Hnd _]. by apply NoDup_cons in Hnd as []. }
    assert (Hpath' : path (<[r := b']> h) (n :: rs)).
    { apply path_tail with r. by apply path_insert_head with b. }
    destruct (IH fuel n (Bone._x1 b') (Bone._y1 b') dA (Some c1) (Some s1)
                _ Hpath')
      as (h' & Hrun & Hframe & Hin & Hhead & Hjoin); [simpl in *; lia |].
    exists h'. cbn [Bone.moveAndRotate_rec].
    rewrite Hb. fold c1 s1. rewrite moveAndRotate_self_NEXT, Hnext. fold b'.
    split; [exact Hrun |].
    assert (Hr' : h' !! r = Some b').
    { rewrite Hframe by done. apply lookup_insert_eq. }
    split; [| split; [| split]].
    + intros r' Hr'0. rewrite Hframe by set_solver.
      apply lookup_insert_ne. set_solver.
    + intros r' b0 Hr'0 Hb0. apply elem_of_cons in Hr'0 as [-> | Hr'0].
      * exists x, y. rewrite Hr'. subst b'. congruence.
      * apply Hin; [done |]. rewrite lookup_insert_ne; [done |].
        intros ->. done.
    + intros b0 Hb0. rewrite Hr'. subst b'. congruence.
    + intros i r1 r2 b1 b2 H1 H2 Hb1 Hb2. destruct i as [| i].
      * simpl in H1, H2. injection H1 as <-. injection H2 as <-.
        destruct (path_head _ _ _ Hpath') as (bn & Hbn & _).
        rewrite (Hhead _ Hbn) in Hb2. rewrite Hr' in Hb1.
        injection Hb1 as <-. injection Hb2 as <-. done.
      * apply (Hjoin i r1 r2 b1 b2 H1 H2 Hb1 Hb2).
Qed.

(** A walk visits no more bones than the store holds. *)
Lemma path_length h rs : path h rs -> (List.length rs <= size h)%nat.
Proof.
  intros [Hnd H].
  rewrite <- (size_dom (D := gset ref) h), <- (size_list_to_set (C := gset ref) rs Hnd).
  apply subseteq_size. intros r Hr.
  apply elem_of_list_to_set, list_elem_of_lookup in Hr as [i Hi].
  destruct (H i r Hi) as (b & Hb & _). apply elem_of_dom. eauto.
Qed.

Lemma moveInitial_path h r rs x y :
  path h (r :: rs) ->
  exists h',
    Bone.moveInitial r x y h = (Ret (), h') /\
    (forall r', r' ∉ r :: rs -> h' !! r' = h !! r') /\
    (forall r' b, r' ∈ r :: rs -> h !! r' = Some b ->
       exists x' y', h' !! r' = Some (Bone.moveInitial_self x' y' b)) /\
    (forall b, h !! r = Some b -> h' !! r = Some (Bone.moveInitial_self x y b)) /\
    joined h' (r :: rs).
Proof.
  intros Hpath. apply moveInitial_rec_path; [done |].
  apply path_length in Hpath. simpl in Hpath. lia.
Qed.

Lemma moveAndRotate_path h r rs x y dA c s :
  path h (r :: rs) ->
  let c1 := match c with None => cos dA | Some c => c end in
  let s1 := match s with None => sin dA | Some s => s end in
  exists h',
    Bone.moveAndRotate r x y dA c s h = (Ret (), h') /\
    (forall r', r' ∉ r :: rs -> h' !! r' = h !! r') /\
    (forall r' b, r' ∈ r :: rs -> h !! r' = Some b ->
       exists x' y', h' !! r' = Some (Bone.moveAndRotate_self x' y' dA c1 s1 b)) /\
    (forall b, h !! r = Some b ->
       h' !! r = Some (Bone.moveAndRotate_self x y dA c1 s1 b)) /\
    joined h' (r :: rs).
Proof.
  intros Hpath. apply moveAndRotate_rec_path; [done |].
  apply path_length in Hpath. simpl in Hpath. lia.
Qed.

(** After the assignments to the bone itself, what [rotate] and the
    orientation setter hand on to [NEXT]. *)
Lemma propagate_path h r rs b b' dA c s fuel :
  path h (r :: rs) -> h !! r = Some b -> Bone.NEXT b' = Bone.NEXT b ->
  (List.length rs <= fuel)%nat ->
  exists h',
    match Bone.NEXT b' with
    | Some n =>
      Bone.moveAndRotate_rec fuel n (Bone._x1 b') (Bone._y1 b') dA
        (Some c) (Some s) (<[r := b']> h)
    | None => (Ret (), <[r := b']> h)
    end = (Ret (), h') /\
    (forall r', r' ∉ r :: rs -> h' !! r' = h !! r') /\
    (forall r' b0, r' ∈ rs -> h !! r' = Some b0 ->
       exists x' y', h' !! r' = Some (Bone.moveAndRotate_self x' y' dA c s b0)) /\
    h' !! r = Some b' /\
    joined h' (r :: rs).
Proof.
  intros Hpath Hb Hnext Hfuel.
  destruct (path_head _ _ _ Hpath) as (b0 & Hb0 & Hn). simplify_eq.
  rewrite Hnext, Hn.
  destruct rs as [| n rs]; simpl.
  - eexists. split; [reflexivity |]. split; [| split; [| split]].
    + intros r' Hr'. apply lookup_insert_ne. set_solver.
    + intros r' b1 Hr'. by apply elem_of_nil in Hr'.
    + apply lookup_insert_eq.
    + intros i r1 r2 b1 b2 H1 H2. by destruct i.
  - assert (Hrrs : r ∉ n :: rs).
    { destruct Hpath as [Hnd _]. by apply NoDup_cons in Hnd as []. }
    assert (Hpath' : path (<[r := b']> h) (n :: rs)).
    { apply path_tail with r. by apply path_insert_head with b. }
    destruct (moveAndRotate_rec_path rs fuel n (Bone._x1 b') (Bone._y1 b') dA
                (Some c) (Some s) _ Hpath')
      as (h' & Hrun & Hframe & Hin & Hhead & Hjoin); [simpl in *; lia |].
    exists h'. split; [exact Hrun |].
    assert (Hr' : h' !! r = Some b').
    { rewrite Hframe by done. apply lookup_insert_eq. }
    split; [| split; [| split]].
    + intros r' Hr'0. rewrite Hframe by set_solver.
      apply lookup_insert_ne. set_solver.
    + intros r' b1 Hr'0 Hb1. apply Hin; [done |].
      rewrite lookup_insert_ne; [done |]. intros ->. done.
    + done.
    + intros i r1 r2 b1 b2 H1 H2 Hb1 Hb2. destruct i as [| i].
      * simpl in H1, H2. injection H1 as <-. injection H2 as <-.
        destruct (path_head _ _ _ Hpath') as (bn & Hbn & _).
        rewrite (Hhead _ Hbn) in Hb2. rewrite Hr' in Hb1.
        injection Hb1 as <-. injection Hb2 as <-. done.
      * apply (Hjoin i r1 r2 b1 b2 H1 H2 Hb1 Hb2).
Qed.

Lemma rotate_path h r rs b dA c s :
  path h (r :: rs) -> h !! r = Some b ->
  let c1 := match c with None => cos dA | Some c => c end in
  let s1 := match s with None => sin dA | Some s => s end in
  exists h',
    Bone.rotate r dA c s h = (Ret (), h') /\
    (forall r', r' ∉ r :: rs -> h' !! r' = h !! r') /\
    (forall r' b0, r' ∈ rs -> h !! r' = Some b0 ->
       exists x' y', h' !! r' = Some (Bone.moveAndRotate_self x' y' dA c1 s1 b0)) /\
    h' !! r = Some (Bone.rotate_self dA c1 s1 b) /\
    joined h' (r :: rs).
Proof.
  intros Hpath Hb c1 s1. unfold Bone.rotate, Bone.rotate_rec.
  rewrite Hb. fold c1 s1.
  apply propagate_path with (b := b); [done | done | reflexivity |].
  apply path_length in Hpath. simpl in Hpath. lia.
Qed.


(** ** Length preservation *)

Lemma rotation_norm (dx dy a : R) :
  (dx * cos a - dy * sin a) * (dx * cos a - dy * sin a) +
  (dx * sin a + dy * cos a) * (dx * sin a + dy * cos a) = dx * dx + dy * dy.
Proof. pose proof (sin2_cos2 a) as H. unfold Rsqr in H. nra. Qed.

Lemma polar_norm (l a : R) :
  0 <= l -> sqrt (l * cos a * (l * cos a) + l * sin a * (l * sin a)) = l.
Proof.
  intros Hl. pose proof (sin2_cos2 a) as H. unfold Rsqr in H.
  replace (l * cos a * (l * cos a) + l * sin a * (l * sin a)) with (l * l) by nra.
  by apply sqrt_square.
Qed.

Lemma consistent_span b : Bone_consistent b -> span b = Bone.length b.
Proof.
  intros (Hx & Hy & Hl). unfold span, Bone.length.
  by rewrite Hl, Hx, Hy.
Qed.





Lemma set_orientation_self_keeps angle dA b :
  Bone_consistent b ->
  Bone.length (Bone.set_orientation_self angle dA b) = Bone.length b /\
  span (Bone.set_orientation_self angle dA b) = span b.
Proof.
  intros Hc. rewrite (consistent_span b Hc).
  destruct Hc as (Hx & Hy & Hl). unfold span, Bone.length. cbn. rewrite Hl.
  split; f_equal;
    rewrite <- (rotation_norm (Bone._deltaX b) (Bone._deltaY b) dA); ring.
Qed.



(** ** The example chains are what [addBone] builds *)

Lemma addBone_chain1 b0 :
  Bone.NEXT b0 = None ->
  Chain.addBone 0%nat Chain.new {[0%nat := b0]} = (Ret (), chain1, store1 b0).
Proof.
  intros Hn. unfold Chain.addBone.
  rewrite (modify_Some _ _ _ b0) by apply lookup_singleton_eq.
  cbn [Chain.upd_bones Chain.upd_previous Chain.upd_current Chain._current
       Chain._count Chain._bones Chain.new Chain._skinType Chain._previous].
  erewrite modify_Some by apply lookup_insert_eq.
  destruct (decide (0 < 0)%nat); [lia |].
  f_equal. unfold store1, asRoot.
  rewrite <- insert_empty, !insert_insert_eq.
  f_equal. destruct b0. simpl in *. subst. reflexivity.
Qed.

Lemma addBone_chain2 b0 b1 :
  Chain.addBone 1%nat chain1 (<[1%nat := b1]> (store1 b0))
  = (Ret (), chain2, store2 b0 b1).
Proof.
  unfold Chain.addBone.
  rewrite (modify_Some _ _ _ b1) by apply lookup_insert_eq.
  cbn [Chain.upd_bones Chain.upd_previous Chain.upd_current Chain._current
       Chain._count Chain._bones chain1 Chain._skinType Chain._previous].
  erewrite modify_Some by apply lookup_insert_eq.
  destruct (decide (0 < 1)%nat); [| lia].
  destruct (decide (1 = 0)%nat); [lia |].
  unfold store1.
  erewrite modify_Some
    by (rewrite !lookup_insert_ne by done; apply lookup_insert_eq).
  erewrite modify_Some
    by (rewrite lookup_insert_ne by done; apply lookup_insert_eq).
  reflexivity.
Qed.

Lemma store2_lookup0 b0 b1 :
  store2 b0 b1 !! 0%nat = Some (asRoot (Some 1%nat) b0).
Proof. apply lookup_insert_eq. Qed.

Lemma store2_lookup1 b0 b1 :
  store2 b0 b1 !! 1%nat = Some (asTerminal (Some 0%nat) b1).
Proof. unfold store2. rewrite lookup_insert_ne by done. apply lookup_insert_eq. Qed.

Lemma chain2_wf b0 b1 :
  Bone.NEXT b1 = None -> Bone.PREV b0 = None ->
  Chain_wf chain2 (store2 b0 b1) [0%nat; 1%nat].
Proof.
  intros Hn Hp. repeat split.
  - apply NoDup_cons. split; [set_solver |]. apply NoDup_singleton.
  - intros [| [| i]] r Hi; simplify_eq/=.
    + eexists. split; [apply store2_lookup0 |]. done.
    + eexists. split; [apply store2_lookup1 |]. done.
Qed.

Lemma store1_lookup0 b0 : store1 b0 !! 0%nat = Some (asRoot None b0).
Proof. apply lookup_insert_eq. Qed.

Lemma chain1_wf b0 :
  Bone.PREV b0 = None -> Chain_wf chain1 (store1 b0) [0%nat].
Proof.
  intros Hp. repeat split.
  - apply NoDup_singleton.
  - intros [| i] r Hi; simplify_eq/=.
    eexists. split; [apply store1_lookup0 |]. done.
Qed.

Lemma Chain_wf_linked c h rs : Chain_wf c h rs -> linked h rs.
Proof. by intros (_ & _ & _ & _ & H). Qed.

Lemma boneAt_consistent x0 y0 x1 y1 : Bone_consistent (boneAt x0 y0 x1 y1).
Proof.
  unfold Bone_consistent, boneAt, Bone.setTerminal, Bone.setInitial.
  cbn. repeat split.
Qed.

Lemma asRoot_consistent next b : Bone_consistent b -> Bone_consistent (asRoot next b).
Proof. destruct b; intros H; exact H. Qed.

Lemma asTerminal_consistent prev b :
  Bone_consistent b -> Bone_consistent (asTerminal prev b).
Proof. destruct b; intros H; exact H. Qed.

Lemma boneAt_NEXT x0 y0 x1 y1 : Bone.NEXT (boneAt x0 y0 x1 y1) = None.
Proof. cbn; reflexivity. Qed.

Lemma boneAt_PREV x0 y0 x1 y1 : Bone.PREV (boneAt x0 y0 x1 y1) = None.
Proof. cbn; reflexivity. Qed.


Lemma asRoot_PREV next b : Bone.PREV (asRoot next b) = Bone.PREV b.
Proof. destruct b; reflexivity. Qed.

Lemma asRoot_NEXT next b : Bone.NEXT (asRoot next b) = next.
Proof. destruct b; reflexivity. Qed.

Lemma asTerminal_PREV prev b : Bone.PREV (asTerminal prev b) = prev.
Proof. destruct b; reflexivity. Qed.

Lemma asTerminal_NEXT prev b : Bone.NEXT (asTerminal prev b) = Bone.NEXT b.
Proof. destruct b; reflexivity. Qed.

(** C10, on the chain of the two bones (0,0)-(1,0) and (1,0)-(2,0). *)
Lemma pop_spec_witness :
  Chain_wf chain2 (store2 (boneAt 0 0 1 0) (boneAt 1 0 2 0)) [0%nat; 1%nat] /\
  exists c' h' bt,
    Chain.pop chain2 (store2 (boneAt 0 0 1 0) (boneAt 1 0 2 0))
      = (Ret (), c', h') /\
    Chain._bones c' = [Some 0%nat] /\ Chain.size c' = 1%nat /\
    Chain._terminalBone c' = Some 0%nat /\
    h' !! 0%nat = Some bt /\ Bone.IS_END bt = true /\ Bone.NEXT bt = None.
Proof.
  pose proof (chain2_wf (boneAt 0 0 1 0) (boneAt 1 0 2 0)
                (boneAt_NEXT _ _ _ _) (boneAt_PREV _ _ _ _)) as Hwf.
  split; [exact Hwf |].
  destruct (pop_spec _ _ _ Hwf) as [H2 _].
  assert (Hsz : (2 <= Chain.size chain2)%nat)
    by (unfold Chain.size, chain2; cbn; lia).
  destruct (H2 Hsz)
    as (c' & h' & t & bt & Hpop & Hb & Hs & Hl & Ht & Hbt & He & Hn).
  cbn in Hl. injection Hl as <-.
  exists c', h', bt. repeat split; assumption.
Defined.


(** ** The loop of [ccdBasic], phase by phase *)

Lemma ccdLoop_steps x y c k s h s' h' fuel :
  ccdSteps x y c k s h s' h' ->
  ccdLoop (k + fuel) x y c s h = ccdLoop fuel x y c s' h'.
Proof.
  induction 1 as [| k s h s1 h1 s2 h2 Hfin Hbody _ IH]; [done |].
  cbn [Nat.add ccdLoop]. by rewrite Hfin, Hbody.
Qed.

Lemma ccdSteps_app x y c k1 k2 s h s1 h1 s2 h2 :
  ccdSteps x y c k1 s h s1 h1 -> ccdSteps x y c k2 s1 h1 s2 h2 ->
  ccdSteps x y c (k1 + k2) s h s2 h2.
Proof.
  induction 1 as [| k s h sa ha sb hb Hfin Hbody _ IH]; [done |].
  intros H2. cbn [Nat.add]. eapply ccdSteps_S; eauto.
Qed.

Lemma ccdSteps_one x y c s h s1 h1 :
  _finished s = false -> ccdBody x y c s h = Continue s1 h1 ->
  ccdSteps x y c 1 s h s1 h1.
Proof. intros. eapply ccdSteps_S; eauto. constructor. Qed.

(** *** Reading a well-formed chain *)

Lemma stored_length h rs bs : stored h rs bs -> List.length rs = List.length bs.
Proof. apply Forall2_length. Qed.

Lemma stored_lookup h rs bs i r :
  stored h rs bs -> rs !! i = Some r ->
  exists b, bs !! i = Some b /\ h !! r = Some b.
Proof.
  intros Hst Hr. destruct (Forall2_lookup_l _ _ _ _ _ Hst Hr) as (b & ? & ?).
  eauto.
Qed.

Lemma stored_lookup_r h rs bs i b :
  stored h rs bs -> bs !! i = Some b ->
  exists r, rs !! i = Some r /\ h !! r = Some b.
Proof.
  intros Hst Hb. destruct (Forall2_lookup_r _ _ _ _ _ Hst Hb) as (r & ? & ?).
  eauto.
Qed.

Lemma wf_getBone c h rs i : Chain_wf c h rs -> Chain.getBone c i = rs !! i.
Proof.
  intros (Hb & _). unfold Chain.getBone. rewrite Hb, list_lookup_fmap.
  by destruct (rs !! i).
Qed.

Lemma wf_size c h rs : Chain_wf c h rs -> Chain.size c = List.length rs.
Proof. by intros (_ & Hc & _). Qed.

(** *** The target phase *)

Lemma virtualTargets_length bs T :
  List.length (virtualTargets bs T) = List.length bs.
Proof. induction bs as [| b bs IH]; [done |]. cbn. by rewrite IH. Qed.

Lemma hd_lookup {A} (d : A) (l : list A) : hd d l = default d (l !! 0%nat).
Proof. by destruct l. Qed.

Lemma virtualTargets_lookup bs T i b :
  bs !! i = Some b ->
  virtualTargets bs T !! i
  = Some (stepBack b (default T (virtualTargets bs T !! S i))).
Proof.
  revert i. induction bs as [| b0 bs IH]; intros i Hi; [done |].
  destruct i as [| i].
  - injection Hi as ->. cbn [virtualTargets lookup list_lookup].
    by rewrite hd_lookup.
  - cbn [virtualTargets]. rewrite !lookup_cons. by apply IH.
Qed.

Lemma target_step x y c h rs bs T cyc j s :
  Chain_wf c h rs -> stored h rs bs ->
  targetInv bs T cyc j s -> (j < List.length bs)%nat ->
  exists s', ccdBody x y c s h = Continue s' h /\ targetInv bs T cyc (S j) s'.
Proof.
  intros Hwf Hst (Htar & Hfin & Hit & Hcyc & Hcur & Hrec) Hj.
  pose proof (stored_length _ _ _ Hst) as Hlen.
  pose proof (wf_size _ _ _ Hwf) as Hsize.
  set (n := List.length bs) in *.
  assert (Hidx : (n - j - 1 < List.length rs)%nat) by lia.
  destruct (lookup_lt_is_Some_2 _ _ Hidx) as [r Hr].
  destruct (stored_lookup _ _ _ _ _ Hst Hr) as (b & Hb & Hhb).
  unfold ccdBody. rewrite Htar.
  destruct (decide (_iterations s < Chain.size c)%nat) as [_ | Hn]; [| lia].
  unfold ccdTargetBone. rewrite Hsize, Hlen, Hit.
  rewrite (wf_getBone _ _ _ _ Hwf), Hr.
  cbn [mbind option_bind]. rewrite Hhb.
  eexists. split; [reflexivity |].
  assert (Hnew :
    (_curTargetX s - Bone.length b
       * cos (atan2 (_curTargetY s - Bone.initY b) (_curTargetX s - Bone.initX b)),
     _curTargetY s - Bone.length b
       * sin (atan2 (_curTargetY s - Bone.initY b) (_curTargetX s - Bone.initX b)))
    = default T (virtualTargets bs T !! (n - j - 1)%nat)).
  { rewrite (virtualTargets_lookup _ _ _ _ Hb).
    replace (S (n - j - 1)) with (n - j)%nat by lia.
    rewrite <- Hcur. reflexivity. }
  unfold targetInv. cbn [_isTarget _finished _iterations _cycles _curTargetX
    _curTargetY _recordX _recordY].
  split; [done |]. split; [done |]. split; [lia |]. split; [done |].
  split.
  { rewrite Hnew. f_equal. f_equal. lia. }
  intros k Hk.
  destruct (decide (0 < n - j - 1)%nat) as [Hpos | Hzero].
  - destruct (decide (k = (n - j - 1 - 1)%nat)) as [-> | Hne].
    + replace (Z.of_nat (n - j - 1) - 1)%Z with (Z.of_nat (n - j - 1 - 1)) by lia.
      rewrite !lookup_insert_eq.
      replace (S (n - j - 1 - 1)) with (n - j - 1)%nat by lia.
      rewrite <- Hnew. done.
    + rewrite !lookup_insert_ne by lia. apply Hrec. lia.
  - apply Hrec. lia.
Qed.

Lemma target_phase x y c h rs bs T cyc :
  Chain_wf c h rs -> stored h rs bs ->
  forall d j s, (j + d = List.length bs)%nat -> targetInv bs T cyc j s ->
  exists s', ccdSteps x y c d s h s' h /\
             targetInv bs T cyc (List.length bs) s'.
Proof.
  intros Hwf Hst. induction d as [| d IH]; intros j s Hd Hinv.
  - exists s. split; [constructor |]. by replace (List.length bs) with j by lia.
  - destruct (target_step x y c h rs bs T cyc j s Hwf Hst Hinv) as (s1 & Hb & Hinv1);
      [lia |].
    destruct (IH (S j) s1) as (s' & Hsteps & Hinv'); [lia | done |].
    exists s'. split; [| done].
    eapply ccdSteps_S; [apply Hinv | done | done].
Qed.

(** *** The position phase *)

Lemma setTerminal_links x y b :
  Bone.NEXT (Bone.setTerminal x y b) = Bone.NEXT b /\
  Bone.PREV (Bone.setTerminal x y b) = Bone.PREV b.
Proof. unfold Bone.setTerminal. by destruct (negb (Bone._drawing b)). Qed.

Lemma setInitial_links x y u b :
  Bone.NEXT (Bone.setInitial x y u b) = Bone.NEXT b /\
  Bone.PREV (Bone.setInitial x y u b) = Bone.PREV b.
Proof. unfold Bone.setInitial. by destruct u. Qed.

Lemma orient_self_links p0 rad b :
  Bone.NEXT (orient_self p0 rad b) = Bone.NEXT b /\
  Bone.PREV (orient_self p0 rad b) = Bone.PREV b.
Proof.
  unfold orient_self. by destruct (Bone.orientationAllowed _ _ _).
Qed.

Lemma set_orientation_self_NEXT angle dA b :
  Bone.NEXT (Bone.set_orientation_self angle dA b) = Bone.NEXT b.
Proof. reflexivity. Qed.

(** The orientation setter on a bone that has no [NEXT]. *)
Lemma set_orientation_last (h : Bone.Store) r b rad p0 :
  h !! r = Some b -> Bone.NEXT b = None ->
  (Bone._unconstrained b = false -> Bone.parentEndOrientation h b = Ret p0) ->
  Bone.set_orientation r rad h = (Ret (), <[r := orient_self p0 rad b]> h).
Proof.
  intros Hb Hnext Hparent.
  unfold Bone.set_orientation, Bone.set_orientation_rec, orient_self.
  rewrite Hb. unfold Bone.orientation, normalize.
  destruct (Bone._unconstrained b) eqn:Hu; cbn [negb].
  - destruct (Bone.orientationAllowed None _ b); cbn [negb].
    + by rewrite set_orientation_self_NEXT, Hnext.
    + by rewrite insert_id.
  - rewrite (Hparent eq_refl).
    destruct (Bone.orientationAllowed p0 _ b); cbn [negb].
    + by rewrite set_orientation_self_NEXT, Hnext.
    + by rewrite insert_id.
Qed.

Lemma NoDup_lookup_ne {A} (l : list A) i j a b :
  NoDup l -> l !! i = Some a -> l !! j = Some b -> i <> j -> a <> b.
Proof.
  intros Hnd Hi Hj Hne ->. apply Hne. by apply (NoDup_lookup l i j b).
Qed.

Lemma target_done x y c h rs bs T cyc s :
  Chain_wf c h rs -> stored h rs bs ->
  targetInv bs T cyc (List.length bs) s ->
  exists s', ccdBody x y c s h = Continue s' h /\
             posInv h rs bs T cyc 0 s' h.
Proof.
  intros Hwf Hst (Htar & Hfin & Hit & Hcyc & Hcur & Hrec).
  pose proof (stored_length _ _ _ Hst) as Hlen.
  pose proof (wf_size _ _ _ Hwf) as Hsize.
  unfold ccdBody. rewrite Htar.
  destruct (decide (_iterations s < Chain.size c)%nat) as [Hlt | _]; [lia |].
  unfold ccdTargetDone. eexists. split; [reflexivity |].
  unfold posInv. cbn [_isTarget _finished _iterations _cycles _curTargetX
    _curTargetY _recordX _recordY _deltaX _deltaY _termX _termY].
  rewrite Nat.sub_diag in Hcur.
  assert (Hfinal : (_curTargetX s, _curTargetY s) = finalTarget bs T).
  { rewrite Hcur. unfold finalTarget. by rewrite hd_lookup. }
  split; [done |]. split; [done |]. split; [done |]. split; [done |].
  split; [done |]. split.
  { intros i Hi. unfold recordAt.
    destruct (decide (S i < List.length bs)%nat) as [Hs | Hs].
    - rewrite !lookup_insert_ne by lia. apply Hrec. lia.
    - replace (Z.of_nat (Chain.size c) - 1)%Z with (Z.of_nat i) by lia.
      rewrite !lookup_insert_eq, <- Hfinal. done. }
  split; [lia |]. split; [lia |]. split; [| done].
  intros i r b Hr Hb. destruct (decide (i < 0)%nat); [lia |].
  destruct (stored_lookup _ _ _ _ _ Hst Hr) as (b' & Hb' & Hh). congruence.
Qed.

Lemma pair_eq_inv {A B} (a : A) (b : B) p : (a, b) = p -> a = p.1 /\ b = p.2.
Proof. by intros <-. Qed.

Lemma placed_inner bs T i b :
  (i < List.length bs - 1)%nat -> placed bs T i b = placedInner bs T i b.
Proof.
  intros Hi. unfold placed. destruct (decide (i = 0%nat)); [done |].
  by destruct (decide (i < List.length bs - 1)%nat).
Qed.

Lemma placed_root bs T b : placed bs T 0 b = placedInner bs T 0 b.
Proof. reflexivity. Qed.

Lemma position_step x y c h0 h rs bs cyc k s :
  Chain_wf c h0 rs -> stored h0 rs bs ->
  posInv h0 rs bs (x, y) cyc k s h -> (k < List.length bs)%nat ->
  exists s' h', ccdBody x y c s h = Continue s' h' /\
                posInv h0 rs bs (x, y) cyc (S k) s' h'.
Proof.
  intros Hwf Hst
    (Htar & Hfin & Hit & Hcyc & Hcur & Hrec & Hdelta & Hterm & Hstore & Hframe) Hk.
  pose proof (stored_length _ _ _ Hst) as Hlen.
  pose proof (wf_size _ _ _ Hwf) as Hsize.
  pose proof (Chain_wf_linked _ _ _ Hwf) as [Hnd Hlinks].
  destruct (lookup_lt_is_Some_2 rs k ltac:(lia)) as [r Hr].
  destruct (stored_lookup _ _ _ _ _ Hst Hr) as (b & Hb & Hh0b).
  destruct (Hlinks k r Hr) as (b0 & Hb0 & Hnext & Hprev).
  assert (b0 = b) as -> by congruence.
  pose proof (Hstore k r b Hr Hb) as Hhb.
  destruct (decide (k < k)%nat) as [? | _]; [lia |].
  destruct (pair_eq_inv _ _ _ Hcur) as [HcurX HcurY].
  destruct (Hrec k Hk) as [HrecX HrecY].
  (* what storing the placed bone at [r] does to the invariant on the store *)
  assert (Hstep : forall h', h' = <[r := placed bs (x, y) k b]> h ->
    (forall i r' b', rs !! i = Some r' -> bs !! i = Some b' ->
       h' !! r' = Some (if decide (i < S k)%nat then placed bs (x, y) i b' else b'))
    /\ (forall r', r' ∉ rs -> h' !! r' = h0 !! r')).
  { intros h' ->. split.
    - intros i r' b' Hr' Hb'. destruct (decide (i = k)) as [-> | Hne].
      + assert (r' = r) as -> by congruence. assert (b' = b) as -> by congruence.
        rewrite lookup_insert_eq. by destruct (decide (k < S k)%nat); [| lia].
      + rewrite lookup_insert_ne
          by (apply (NoDup_lookup_ne rs k i); done).
        rewrite (Hstore i r' b' Hr' Hb').
        destruct (decide (i < k)%nat), (decide (i < S k)%nat); done || lia.
    - intros r' Hr'. rewrite lookup_insert_ne; [by apply Hframe |].
      intros ->. apply Hr'. apply list_elem_of_lookup. eauto. }
  unfold ccdBody. rewrite Htar.
  destruct (decide (_iterations s < Chain.size c)%nat) as [_ | ?]; [| lia].
  unfold ccdPositionBone. rewrite Hit, (wf_getBone _ _ _ _ Hwf), Hr, Hhb.
  destruct (decide (k = 0%nat)) as [-> | Hk0].
  - (* the root bone *)
    change 0%Z with (Z.of_nat 0). rewrite HrecX, HrecY.
    eexists _, _. split; [reflexivity |].
    assert (Hd : (_curTargetX s - Bone.initX b, _curTargetY s - Bone.initY b)
                 = ccdDelta bs (x, y)).
    { unfold ccdDelta. destruct bs as [| b' bs']; [done |].
      injection Hb as ->. by rewrite HcurX, HcurY. }
    destruct (pair_eq_inv _ _ _ Hd) as [HdX HdY].
    assert (Hnew : Bone.setTerminal
              ((recordAt bs (x, y) 0).1 - (_curTargetX s - Bone.initX b))
              ((recordAt bs (x, y) 0).2 - (_curTargetY s - Bone.initY b)) b
            = placed bs (x, y) 0 b).
    { rewrite placed_root. unfold placedInner, termAt.
      destruct (decide (0 = 0)%nat); [| done]. cbn [fst snd].
      by rewrite HdX, HdY. }
    destruct (Hstep _ (f_equal (fun v => <[r := v]> h) Hnew))
      as [Hstore' Hframe'].
    unfold posInv. cbn [_isTarget _finished _iterations _cycles _curTargetX
      _curTargetY _recordX _recordY _deltaX _deltaY _termX _termY].
    split; [done |]. split; [done |]. split; [done |]. split; [done |].
    split; [done |]. split; [done |]. split; [done |].
    split; [| split; [exact Hstore' | exact Hframe']].
    intros _. unfold termAt. cbn [fst snd]. by rewrite HdX, HdY.
  - assert (Hk1 : (1 <= k)%nat) by lia.
    destruct (pair_eq_inv _ _ _ (Hdelta Hk1)) as [HdX HdY].
    destruct (pair_eq_inv _ _ _ (Hterm (conj Hk1 Hk))) as [HtX HtY].
    destruct (decide (k < Chain.size c - 1)%nat) as [Hinner | Hlast].
    + (* an inner bone *)
      rewrite HrecX, HrecY.
      eexists _, _. split; [reflexivity |].
      assert (Hnew :
        Bone.setTerminal ((recordAt bs (x, y) k).1 - _deltaX s)
          ((recordAt bs (x, y) k).2 - _deltaY s)
          (Bone.setInitial (_termX s) (_termY s) false b)
        = placed bs (x, y) k b).
      { rewrite placed_inner by lia. unfold placedInner.
        destruct (decide (k = 0%nat)); [lia |].
        unfold termAt at 1 2. cbn [fst snd]. by rewrite HdX, HdY, HtX, HtY. }
      destruct (Hstep _ (f_equal (fun v => <[r := v]> h) Hnew))
        as [Hstore' Hframe'].
      unfold posInv. cbn [_isTarget _finished _iterations _cycles _curTargetX
        _curTargetY _recordX _recordY _deltaX _deltaY _termX _termY].
      split; [done |]. split; [done |]. split; [done |]. split; [done |].
      split; [done |]. split; [done |]. split; [by intros _; apply Hdelta |].
      split; [| split; [exact Hstore' | exact Hframe']].
      intros _. replace (S k - 1)%nat with k by lia.
      unfold termAt. cbn [fst snd]. by rewrite HdX, HdY.
    + (* the terminal bone of a chain of two bones or more *)
      assert (Hkn : k = (List.length bs - 1)%nat) by lia.
      destruct (lookup_lt_is_Some_2 rs (k - 1) ltac:(lia)) as [rp Hrp].
      destruct (stored_lookup _ _ _ _ _ Hst Hrp) as (bp & Hbp & _).
      pose proof (Hstore (k - 1)%nat rp bp Hrp Hbp) as Hhp.
      destruct (decide (k - 1 < k)%nat) as [_ | ?]; [| lia].
      rewrite placed_inner in Hhp by lia.
      set (b1 := Bone.setInitial (_termX s) (_termY s) false b).
      set (h1 := <[r := b1]> h).
      assert (Hrpr : rp <> r).
      { apply (NoDup_lookup_ne rs (k - 1) k); [done | done | done | lia]. }
      assert (Hset : Bone.set_orientation r
                       (atan2 (y - _termY s) (x - _termX s)) h1
                     = (Ret (), <[r := placed bs (x, y) k b]> h)).
      { rewrite (set_orientation_last h1 r b1 _
                   (Some (Bone.endOrientation (placedInner bs (x, y) (k - 1) bp)))).
        - subst h1. rewrite insert_insert_eq. do 2 f_equal.
          unfold placed. destruct (decide (k = 0%nat)); [lia |].
          destruct (decide (k < List.length bs - 1)%nat); [lia |].
          rewrite Hbp. cbn [fmap option_fmap option_map fst snd].
          rewrite <- HtX, <- HtY. reflexivity.
        - apply lookup_insert_eq.
        - subst b1. rewrite (proj1 (setInitial_links _ _ _ _)), Hnext.
          apply lookup_ge_None. lia.
        - intros _. unfold Bone.parentEndOrientation. subst b1.
          rewrite (proj2 (setInitial_links _ _ _ _)), Hprev.
          destruct k as [| k']; [lia |].
          replace (S k' - 1)%nat with k' in Hrp by lia. rewrite Hrp.
          subst h1. rewrite lookup_insert_ne by done.
          replace (S k' - 1)%nat with k' in Hhp by lia.
          replace (S k' - 1)%nat with k' by lia. by rewrite Hhp. }
      fold b1. fold h1. rewrite Hset.
      eexists _, _. split; [reflexivity |].
      destruct (Hstep _ eq_refl) as [Hstore' Hframe'].
      unfold posInv. cbn [_isTarget _finished _iterations _cycles _curTargetX
        _curTargetY _recordX _recordY _deltaX _deltaY _termX _termY].
      split; [done |]. split; [done |]. split; [done |]. split; [done |].
      split; [done |]. split; [done |]. split; [by intros _; apply Hdelta |].
      split; [lia |]. split; [exact Hstore' | exact Hframe'].
Qed.

Lemma position_phase x y c h0 rs bs cyc :
  Chain_wf c h0 rs -> stored h0 rs bs ->
  forall d k s h, (k + d = List.length bs)%nat ->
    posInv h0 rs bs (x, y) cyc k s h ->
    exists s' h', ccdSteps x y c d s h s' h' /\
                  posInv h0 rs bs (x, y) cyc (List.length bs) s' h'.
Proof.
  intros Hwf Hst. induction d as [| d IH]; intros k s h Hd Hinv.
  - exists s, h. split; [constructor |].
    by replace (List.length bs) with k by lia.
  - destruct (position_step x y c h0 h rs bs cyc k s Hwf Hst Hinv)
      as (s1 & h1 & Hb & Hinv1); [lia |].
    destruct (IH (S k) s1 h1) as (s' & h' & Hsteps & Hinv'); [lia | done |].
    exists s', h'. split; [| done].
    eapply ccdSteps_S; [apply Hinv | done | done].
Qed.

Lemma placedInner_links bs T i b :
  Bone.NEXT (placedInner bs T i b) = Bone.NEXT b /\
  Bone.PREV (placedInner bs T i b) = Bone.PREV b.
Proof.
  unfold placedInner. destruct (decide (i = 0%nat)).
  - apply setTerminal_links.
  - destruct (setTerminal_links (termAt bs T i).1 (termAt bs T i).2
      (Bone.setInitial (termAt bs T (i - 1)).1 (termAt bs T (i - 1)).2 false b))
      as [-> ->].
    apply setInitial_links.
Qed.

Lemma placed_links bs T i b :
  Bone.NEXT (placed bs T i b) = Bone.NEXT b /\
  Bone.PREV (placed bs T i b) = Bone.PREV b.
Proof.
  unfold placed. destruct (decide (i = 0%nat)); [apply placedInner_links |].
  destruct (decide (i < List.length bs - 1)%nat); [apply placedInner_links |].
  cbv zeta.
  match goal with |- context [orient_self ?p ?a ?b1] =>
    destruct (orient_self_links p a b1) as [-> ->] end.
  apply setInitial_links.
Qed.

Lemma positions_lookup bs T i :
  positions bs T !! i = placed bs T i <$> bs !! i.
Proof. apply list_lookup_imap. Qed.

Lemma positions_length bs T : List.length (positions bs T) = List.length bs.
Proof. apply length_imap. Qed.

(** The store at the end of a position phase holds [positions]. *)
Lemma posInv_stored h0 rs bs T cyc s h :
  stored h0 rs bs -> posInv h0 rs bs T cyc (List.length bs) s h ->
  stored h rs (positions bs T).
Proof.
  intros Hst (_ & _ & _ & _ & _ & _ & _ & _ & Hstore & _).
  apply Forall2_same_length_lookup_2.
  - rewrite positions_length. by apply stored_length with h0.
  - intros i r b' Hr Hb'. rewrite positions_lookup in Hb'.
    destruct (bs !! i) as [b |] eqn:Hb; [| done]. injection Hb' as <-.
    rewrite (Hstore i r b Hr Hb).
    destruct (decide (i < List.length bs)%nat) as [_ | Hn]; [done |].
    apply lookup_lt_Some in Hb. lia.
Qed.

Lemma wf_positions c h0 h rs bs T :
  Chain_wf c h0 rs -> stored h0 rs bs -> stored h rs (positions bs T) ->
  Chain_wf c h rs.
Proof.
  intros (Hbones & Hcount & Hroot & Hterm & Hnd & Hlinks) Hst Hst'.
  split; [done |]. split; [done |]. split; [done |]. split; [done |].
  split; [done |]. intros i r Hr.
  destruct (Hlinks i r Hr) as (b & Hb & Hnext & Hprev).
  destruct (stored_lookup _ _ _ _ _ Hst Hr) as (b0 & Hb0 & Hh0).
  assert (b0 = b) as -> by congruence.
  destruct (stored_lookup _ _ _ _ _ Hst' Hr) as (b' & Hb' & Hh').
  rewrite positions_lookup, Hb0 in Hb'. injection Hb' as <-.
  exists (placed bs T i b). split; [done |].
  destruct (placed_links bs T i b) as [-> ->]. done.
Qed.

(** One cycle up to the convergence test. *)
Lemma ccd_cycle x y c h rs bs cyc s :
  Chain_wf c h rs -> stored h rs bs ->
  targetInv bs (x, y) cyc 0 s ->
  exists s' h',
    ccdSteps x y c (2 * List.length bs + 1) s h s' h' /\
    posInv h rs bs (x, y) cyc (List.length bs) s' h'.
Proof.
  intros Hwf Hst Hinv.
  destruct (target_phase x y c h rs bs (x, y) cyc Hwf Hst (List.length bs) 0%nat s)
    as (s1 & Hsteps1 & Hinv1); [lia | done |].
  destruct (target_done x y c h rs bs (x, y) cyc s1 Hwf Hst Hinv1)
    as (s2 & Hbody2 & Hinv2).
  destruct (position_phase x y c h rs bs cyc Hwf Hst (List.length bs) 0%nat s2 h)
    as (s3 & h3 & Hsteps3 & Hinv3); [lia | done |].
  exists s3, h3. split; [| done].
  replace (2 * List.length bs + 1)%nat
    with (List.length bs + (1 + List.length bs))%nat by lia.
  eapply ccdSteps_app; [exact Hsteps1 |].
  eapply ccdSteps_app; [| exact Hsteps3].
  apply ccdSteps_one; [apply Hinv1 | done].
Qed.

(** *** The convergence test *)

Lemma terminal_stored c h0 h rs bs :
  Chain_wf c h0 rs -> stored h rs bs ->
  Chain.terminalX c h = Bone.terminalX <$> last bs /\
  Chain.terminalY c h = Bone.terminalY <$> last bs.
Proof.
  intros (_ & _ & _ & Hterm & _) Hst.
  unfold Chain.terminalX, Chain.terminalY. rewrite Hterm.
  pose proof (stored_length _ _ _ Hst) as Hlen.
  rewrite !last_lookup, Hlen.
  destruct (bs !! pred (List.length bs)) as [b |] eqn:Hb.
  - destruct (stored_lookup_r _ _ _ _ _ Hst Hb) as (r & -> & Hh).
    cbn [mbind option_bind]. by rewrite Hh.
  - destruct (rs !! pred (List.length bs)) as [r |] eqn:Hr; [| done].
    destruct (stored_lookup _ _ _ _ _ Hst Hr) as (b & Hb' & _). congruence.
Qed.

Lemma ccd_check x y c h0 h rs bs cyc s :
  Chain_wf c h0 rs -> stored h0 rs bs ->
  posInv h0 rs bs (x, y) cyc (List.length bs) s h ->
  if ccdFinished cyc (positions bs (x, y)) (x, y)
  then ccdBody x y c s h = Return true h
  else exists s', ccdBody x y c s h = Continue s' h /\
                  targetInv (positions bs (x, y)) (x, y) (S cyc) 0 s'.
Proof.
  intros Hwf Hst Hinv.
  pose proof (posInv_stored _ _ _ _ _ _ _ Hst Hinv) as Hst'.
  destruct Hinv as (Htar & Hfin & Hit & Hcyc & _).
  pose proof (stored_length _ _ _ Hst) as Hlen.
  pose proof (wf_size _ _ _ Hwf) as Hsize.
  destruct (terminal_stored c h0 h rs _ Hwf Hst') as [HtX HtY].
  unfold ccdBody. rewrite Htar.
  destruct (decide (_iterations s < Chain.size c)%nat) as [? | _]; [lia |].
  unfold ccdCheck. rewrite HtX, HtY, Hcyc.
  unfold ccdFinished, ccdError.
  destruct (last (positions bs (x, y))) as [bl |]; cbn [fmap option_fmap option_map fst snd].
  - destruct (_ || _); cbn [negb]; [done |].
    eexists. split; [reflexivity |]. unfold targetInv.
    cbn [_isTarget _finished _iterations _cycles _curTargetX _curTargetY
         _recordX _recordY].
    split; [done |]. split; [done |]. split; [done |]. split; [done |].
    split; [| intros k; lia].
    rewrite Nat.sub_0_r, lookup_ge_None_2; [done |].
    by rewrite virtualTargets_length.
  - destruct (_ || _); cbn [negb]; [done |].
    eexists. split; [reflexivity |]. unfold targetInv.
    cbn [_isTarget _finished _iterations _cycles _curTargetX _curTargetY
         _recordX _recordY].
    split; [done |]. split; [done |]. split; [done |]. split; [done |].
    split; [| intros k; lia].
    rewrite Nat.sub_0_r, lookup_ge_None_2; [done |].
    by rewrite virtualTargets_length.
Qed.

Lemma ccdInit_targetInv bs x y : targetInv bs (x, y) 0 0 (ccdInit x y).
Proof.
  unfold targetInv, ccdInit. cbn [_isTarget _finished _iterations _cycles
    _curTargetX _curTargetY _recordX _recordY].
  split; [done |]. split; [done |]. split; [done |]. split; [done |].
  split; [| intros k; lia].
  rewrite Nat.sub_0_r, lookup_ge_None_2; [done |].
  by rewrite virtualTargets_length.
Qed.

(** The frame of a phase: the store outside the chain. *)
Lemma posInv_frame h0 rs bs T cyc k s h :
  posInv h0 rs bs T cyc k s h -> forall r, r ∉ rs -> h !! r = h0 !! r.
Proof. by intros (_ & _ & _ & _ & _ & _ & _ & _ & _ & H). Qed.

Lemma ccd_cycles x y c rs :
  forall budget cyc bs h s fuel,
    (cyc + budget = _maxCycles)%nat ->
    Chain_wf c h rs -> stored h rs bs ->
    targetInv bs (x, y) cyc 0 s ->
    (S budget * (2 * List.length bs + 2) < fuel)%nat ->
    exists h',
      ccdLoop fuel x y c s h = (Ret true, h') /\
      stored h' rs (ccdCycles budget cyc bs (x, y)) /\
      Chain_wf c h' rs /\
      (forall r, r ∉ rs -> h' !! r = h !! r).
Proof.
  induction budget as [| budget IH]; intros cyc bs h s fuel Hb Hwf Hst Hinv Hfuel.
  - destruct (ccd_cycle x y c h rs bs cyc s Hwf Hst Hinv)
      as (s1 & h1 & Hsteps & Hpos).
    pose proof (ccd_check x y c h h1 rs bs cyc s1 Hwf Hst Hpos) as Hcheck.
    pose proof (posInv_stored _ _ _ _ _ _ _ Hst Hpos) as Hst1.
    replace fuel with ((2 * List.length bs + 1) + S (fuel - (2 * List.length bs + 2)))%nat
      by lia.
    rewrite (ccdLoop_steps _ _ _ _ _ _ _ _ _ Hsteps).
    cbn [ccdLoop ccdCycles].
    replace (_finished s1) with false by (symmetry; apply Hpos).
    assert (Hfin : ccdFinished cyc (positions bs (x, y)) (x, y) = true).
    { unfold ccdFinished. apply orb_true_iff. right.
      apply bool_decide_eq_true. lia. }
    rewrite Hfin in Hcheck |- *. rewrite Hcheck.
    exists h1. split; [done |]. split; [done |].
    split; [by apply (wf_positions c h h1 rs bs (x, y)) |].
    by apply (posInv_frame _ _ _ _ _ _ _ _ Hpos).
  - destruct (ccd_cycle x y c h rs bs cyc s Hwf Hst Hinv)
      as (s1 & h1 & Hsteps & Hpos).
    pose proof (ccd_check x y c h h1 rs bs cyc s1 Hwf Hst Hpos) as Hcheck.
    pose proof (posInv_stored _ _ _ _ _ _ _ Hst Hpos) as Hst1.
    pose proof (wf_positions c h h1 rs bs (x, y) Hwf Hst Hst1) as Hwf1.
    pose proof (posInv_frame _ _ _ _ _ _ _ _ Hpos) as Hframe1.
    replace fuel with ((2 * List.length bs + 1) + S (fuel - (2 * List.length bs + 2)))%nat
      by (cbn in Hfuel; lia).
    rewrite (ccdLoop_steps _ _ _ _ _ _ _ _ _ Hsteps).
    cbn [ccdLoop ccdCycles].
    replace (_finished s1) with false by (symmetry; apply Hpos).
    destruct (ccdFinished cyc (positions bs (x, y)) (x, y)).
    + rewrite Hcheck. exists h1. done.
    + destruct Hcheck as (s2 & -> & Hinv2).
      destruct (IH (S cyc) (positions bs (x, y)) h1 s2
                  (fuel - (2 * List.length bs + 2))%nat)
        as (h' & Hrun & Hst' & Hwf' & Hframe'); [lia | done | done | done | |].
      { rewrite positions_length. cbn in Hfuel |- *. lia. }
      exists h'. split; [done |]. split; [done |]. split; [done |].
      intros r Hr. rewrite Hframe' by done. by apply Hframe1.
Qed.

(** [ccdBasic] on a well-formed chain [c] whose bones [bs] are stored at
    [rs]: it ends normally with [true], and the store then holds the bones
    that the cycles of target and position phase compute; nothing else in
    the store is touched and the chain stays well-formed. *)
Theorem ccdBasic_phases x y c h rs bs :
  Chain_wf c h rs -> stored h rs bs ->
  exists h',
    ccdBasic x y c false h = (Ret true, h') /\
    stored h' rs (ccdCycles _maxCycles 0 bs (x, y)) /\
    Chain_wf c h' rs /\
    (forall r, r ∉ rs -> h' !! r = h !! r).
Proof.
  intros Hwf Hst. unfold ccdBasic.
  apply (ccd_cycles x y c rs _maxCycles 0%nat bs h (ccdInit x y));
    [done | done | done | apply ccdInit_targetInv |].
  unfold ccdFuel. rewrite (wf_size _ _ _ Hwf), (stored_length _ _ _ Hst). lia.
Qed.

Lemma wf_stored c h rs : Chain_wf c h rs -> exists bs, stored h rs bs.
Proof.
  intros (_ & _ & _ & _ & _ & Hlinks).
  assert (Hall : forall r, r ∈ rs -> is_Some (h !! r)).
  { intros r Hr. apply list_elem_of_lookup in Hr as [i Hi].
    destruct (Hlinks i r Hi) as (b & Hb & _). eauto. }
  clear Hlinks. induction rs as [| r rs IH].
  - exists []. constructor.
  - destruct IH as [bs Hbs]; [intros r' Hr'; apply Hall; by right |].
    destruct (Hall r) as [b Hb]; [by left |].
    exists (b :: bs). by constructor.
Qed.

(** ** The result flag of the iterative solver *)

(** On a chain of one bone every position phase puts the terminal joint
    of the bone on its initial joint. *)
Lemma positions_single b T :
  Bone._drawing b = false ->
  exists b',
    positions [b] T = [b'] /\
    Bone._drawing b' = false /\
    Bone.initX b' = Bone.initX b /\ Bone.initY b' = Bone.initY b /\
    Bone.terminalX b' = Bone.initX b /\ Bone.terminalY b' = Bone.initY b.
Proof.
  intros Hd. eexists. split; [reflexivity |].
  unfold placed, placedInner. cbn [decide]. destruct (decide (0 = 0)%nat); [| done].
  unfold Bone.setTerminal. rewrite Hd. cbn [negb].
  unfold Bone.initX, Bone.initY, Bone.terminalX, Bone.terminalY.
  cbn [Bone._drawing Bone._x0 Bone._y0 Bone._x1 Bone._y1 Bone.upd_angle
       Bone.upd_flare Bone.upd_length Bone.upd_deltaY Bone.upd_deltaX
       Bone.upd_y1 Bone.upd_x1].
  split; [done |]. split; [done |]. split; [done |].
  unfold termAt, recordAt, ccdDelta. cbn [List.length fst snd].
  destruct (decide (1 < 1)%nat); [lia |].
  unfold Bone.initX, Bone.initY. split; ring.
Qed.

Lemma ccdCycles_single T :
  forall budget cyc b,
    Bone._drawing b = false ->
    exists b',
      ccdCycles budget cyc [b] T = [b'] /\
      Bone.terminalX b' = Bone.initX b /\ Bone.terminalY b' = Bone.initY b.
Proof.
  induction budget as [| budget IH]; intros cyc b Hd;
    destruct (positions_single b T Hd) as (b' & Hpos & Hd' & HiX & HiY & HtX & HtY);
    cbn [ccdCycles]; rewrite Hpos.
  - exists b'. by destruct (ccdFinished cyc [b'] T).
  - destruct (ccdFinished cyc [b'] T); [by exists b' |].
    destruct (IH (S cyc) b' Hd') as (b'' & Hrun & HtX' & HtY').
    exists b''. split; [done |]. split; congruence.
Qed.

(** C1.  On every well-formed chain the iterative solver, not pinned,
    ends with [true]: the test that closes a position phase returns
    [true] both when the squared distance is within the threshold and
    when only the cycle budget is used up, and the [return false] after
    the loop is never reached. *)
Theorem ccdBasic_returns_true x y c h rs :
  Chain_wf c h rs ->
  exists h', ccdBasic x y c false h = (Ret true, h').
Proof.
  intros Hwf. destruct (wf_stored _ _ _ Hwf) as [bs Hst].
  destruct (ccdBasic_phases x y c h rs bs Hwf Hst) as (h' & Hrun & _).
  eauto.
Qed.

Lemma asRoot_geometry next b :
  Bone.initX (asRoot next b) = Bone.initX b /\
  Bone.initY (asRoot next b) = Bone.initY b /\
  Bone.terminalX (asRoot next b) = Bone.terminalX b /\
  Bone.terminalY (asRoot next b) = Bone.terminalY b /\
  Bone._drawing (asRoot next b) = Bone._drawing b.
Proof. by destruct b. Qed.

Lemma boneAt_geometry x0 y0 x1 y1 :
  Bone.initX (boneAt x0 y0 x1 y1) = x0 /\
  Bone.initY (boneAt x0 y0 x1 y1) = y0 /\
  Bone.terminalX (boneAt x0 y0 x1 y1) = x1 /\
  Bone.terminalY (boneAt x0 y0 x1 y1) = y1 /\
  Bone._drawing (boneAt x0 y0 x1 y1) = false.
Proof.
  unfold boneAt, Bone.setTerminal, Bone.setInitial, Bone.initX, Bone.initY,
    Bone.terminalX, Bone.terminalY.
  cbn. done.
Qed.

(** C1, on the chain of the single bone (0,0)-(1,0) and the target
    (100,0): the call ends with [true] although the terminal point is left
    at a squared distance from the target beyond the threshold. *)
Lemma ccdBasic_returns_true_witness :
  Chain_wf chain1 (store1 (boneAt 0 0 1 0)) [0%nat] /\
  exists h' b',
    ccdBasic 100 0 chain1 false (store1 (boneAt 0 0 1 0)) = (Ret true, h') /\
    h' !! 0%nat = Some b' /\
    (100 - Bone.terminalX b') * (100 - Bone.terminalX b') +
    (0 - Bone.terminalY b') * (0 - Bone.terminalY b') > _stop.
Proof.
  pose proof (chain1_wf (boneAt 0 0 1 0) (boneAt_PREV _ _ _ _)) as Hwf.
  split; [exact Hwf |].
  destruct (ccdBasic_returns_true 100 0 _ _ _ Hwf) as (h' & Hrun).
  assert (Hst : stored (store1 (boneAt 0 0 1 0)) [0%nat]
                  [asRoot None (boneAt 0 0 1 0)]).
  { constructor; [apply store1_lookup0 | constructor]. }
  destruct (ccdBasic_phases 100 0 _ _ _ _ Hwf Hst) as (h'' & Hrun' & Hst' & _).
  assert (h'' = h') as -> by congruence.
  destruct (asRoot_geometry None (boneAt 0 0 1 0)) as (HaX & HaY & _ & _ & Had).
  destruct (boneAt_geometry 0 0 1 0) as (HbX & HbY & _ & _ & Hbd).
  destruct (ccdCycles_single (100, 0) _maxCycles 0%nat
              (asRoot None (boneAt 0 0 1 0))) as (b' & Hcyc & HtX & HtY);
    [congruence |].
  rewrite Hcyc in Hst'.
  apply Forall2_cons_1 in Hst' as [Hb' _].
  exists h', b'. split; [exact Hrun |]. split; [exact Hb' |].
  rewrite HtX, HtY, HaX, HaY, HbX, HbY. unfold _stop. lra.
Defined.

(** ** Chain continuity *)

Lemma kept_refl b : kept b b.
Proof. by repeat split. Qed.

Lemma kept_trans b1 b2 b3 : kept b1 b2 -> kept b2 b3 -> kept b1 b3.
Proof.
  intros (? & ? & ? & ? & ? & ? & ?) (? & ? & ? & ? & ? & ? & ?).
  repeat split; congruence.
Qed.

Lemma kept_moveInitial_self x y b : kept b (Bone.moveInitial_self x y b).
Proof. by repeat split. Qed.

Lemma kept_moveAndRotate_self x y dA c s b :
  kept b (Bone.moveAndRotate_self x y dA c s b).
Proof. by repeat split. Qed.

Lemma kept_rotate_self dA c s b : kept b (Bone.rotate_self dA c s b).
Proof. by repeat split. Qed.

Lemma kept_set_orientation_self angle dA b :
  kept b (Bone.set_orientation_self angle dA b).
Proof. by repeat split. Qed.

Lemma kept_setInitial x y u b : kept b (Bone.setInitial x y u b).
Proof. unfold Bone.setInitial. destruct u; by repeat split. Qed.

Lemma kept_setTerminal x y b : kept b (Bone.setTerminal x y b).
Proof.
  unfold Bone.setTerminal. destruct (negb (Bone._drawing b)); by repeat split.
Qed.

Lemma kept_reorient x y a m ro b : kept b (Bone.reorient x y a m ro b).
Proof. unfold Bone.reorient. destruct m; by repeat split. Qed.

Lemma kept_orient_self p0 rad b : kept b (orient_self p0 rad b).
Proof.
  unfold orient_self. destruct (Bone.orientationAllowed _ _ b);
    [apply kept_set_orientation_self | apply kept_refl].
Qed.

Lemma kept_placedInner bs T i b : kept b (placedInner bs T i b).
Proof.
  unfold placedInner. destruct (decide (i = 0%nat)); [apply kept_setTerminal |].
  eapply kept_trans; [apply kept_setInitial | apply kept_setTerminal].
Qed.

Lemma kept_placed bs T i b : kept b (placed bs T i b).
Proof.
  unfold placed. destruct (decide (i = 0%nat)); [apply kept_placedInner |].
  destruct (decide (i < List.length bs - 1)%nat); [apply kept_placedInner |].
  cbv zeta. eapply kept_trans; [apply kept_setInitial | apply kept_orient_self].
Qed.

(** Whether [draw()] leaves the bone flagged depends on the kept fields only. *)
Lemma draw_drawing b :
  Bone._drawing (Bone.draw b) =
  if Bone._drawing b then true
  else if Bone.RENDERABLE b then
    match Bone._drawType b with
    | STANDARD =>
      if bool_decide (Bone._skinType b = SKIN_NONE) || negb (Bone.SKIN_ONLY b)
      then false else true
    | CUSTOM => true
    end
  else false.
Proof.
  unfold Bone.draw. destruct (Bone._drawing b) eqn:Hd; [done |].
  destruct (Bone.RENDERABLE b); [| done].
  replace (Bone._drawType (Bone.upd_drawing true b)) with (Bone._drawType b)
    by reflexivity.
  destruct (Bone._drawType b); [| reflexivity].
  unfold Bone.__std.
  replace (Bone._skinType (Bone.upd_drawing true b)) with (Bone._skinType b)
    by reflexivity.
  replace (Bone.SKIN_ONLY (Bone.upd_drawing true b)) with (Bone.SKIN_ONLY b)
    by reflexivity.
  by destruct (_ || _).
Qed.

Lemma kept_settled b b' : kept b b' -> settled b -> settled b'.
Proof.
  intros (_ & _ & Hd & Hr & Hs & Ht & Hk) [H1 H2]. split; [congruence |].
  rewrite draw_drawing in H2 |- *. by rewrite Hd, Hr, Hs, Ht, Hk.
Qed.

(** [draw()] on a settled bone: nothing moves, the bone stays settled. *)
Lemma draw_settled b :
  settled b ->
  kept b (Bone.draw b) /\
  Bone.initX (Bone.draw b) = Bone.initX b /\
  Bone.initY (Bone.draw b) = Bone.initY b /\
  Bone.terminalX (Bone.draw b) = Bone.terminalX b /\
  Bone.terminalY (Bone.draw b) = Bone.terminalY b.
Proof.
  intros [Hd Hdd]. rewrite draw_drawing, Hd in Hdd.
  unfold Bone.draw. rewrite Hd.
  destruct (Bone.RENDERABLE b) eqn:Hr; [| by repeat split].
  replace (Bone._drawType (Bone.upd_drawing true b)) with (Bone._drawType b)
    by reflexivity.
  destruct (Bone._drawType b) eqn:Ht; [| done].
  unfold Bone.__std.
  replace (Bone._skinType (Bone.upd_drawing true b)) with (Bone._skinType b)
    by reflexivity.
  replace (Bone.SKIN_ONLY (Bone.upd_drawing true b)) with (Bone.SKIN_ONLY b)
    by reflexivity.
  destruct (_ || _); [| done].
  unfold kept. cbn. by rewrite Hd, Hr, Ht.
Qed.

Lemma setTerminal_init x y b :
  Bone.initX (Bone.setTerminal x y b) = Bone.initX b /\
  Bone.initY (Bone.setTerminal x y b) = Bone.initY b.
Proof. unfold Bone.setTerminal. by destruct (negb (Bone._drawing b)). Qed.

Lemma setTerminal_terminal x y b :
  Bone._drawing b = false ->
  Bone.terminalX (Bone.setTerminal x y b) = x /\
  Bone.terminalY (Bone.setTerminal x y b) = y.
Proof. intros Hd. unfold Bone.setTerminal. by rewrite Hd. Qed.

Lemma setInitial_init x y u b :
  Bone.initX (Bone.setInitial x y u b) = x /\
  Bone.initY (Bone.setInitial x y u b) = y.
Proof. unfold Bone.setInitial. by destruct u. Qed.

Lemma orient_self_init p0 rad b :
  Bone.initX (orient_self p0 rad b) = Bone.initX b /\
  Bone.initY (orient_self p0 rad b) = Bone.initY b.
Proof. unfold orient_self. by destruct (Bone.orientationAllowed _ _ b). Qed.

Lemma placedInner_terminal bs T i b :
  Bone._drawing b = false ->
  Bone.terminalX (placedInner bs T i b) = (termAt bs T i).1 /\
  Bone.terminalY (placedInner bs T i b) = (termAt bs T i).2.
Proof.
  intros Hd. unfold placedInner. destruct (decide (i = 0%nat)) as [-> | _].
  - by apply setTerminal_terminal.
  - apply setTerminal_terminal.
    destruct (kept_setInitial (termAt bs T (i - 1)).1 (termAt bs T (i - 1)).2
                false b) as (_ & _ & -> & _). done.
Qed.

Lemma placed_init bs T i b :
  Bone.initX (placed bs T (S i) b) = (termAt bs T i).1 /\
  Bone.initY (placed bs T (S i) b) = (termAt bs T i).2.
Proof.
  unfold placed, placedInner. destruct (decide (S i = 0%nat)); [lia |].
  replace (S i - 1)%nat with i by lia.
  destruct (decide (S i < List.length bs - 1)%nat).
  - match goal with |- context [Bone.setTerminal ?x ?y ?b1] =>
      destruct (setTerminal_init x y b1) as [-> ->] end.
    apply setInitial_init.
  - cbv zeta.
    match goal with |- context [orient_self ?p ?a ?b1] =>
      destruct (orient_self_init p a b1) as [-> ->] end.
    apply setInitial_init.
Qed.

(** A position phase joins the bones, provided none is being drawn. *)
Lemma positions_joined bs T :
  (forall b, b ∈ bs -> Bone._drawing b = false) -> joinedL (positions bs T).
Proof.
  intros Hd i b' b'' Hi HSi. rewrite positions_lookup in Hi, HSi.
  destruct (bs !! i) as [b |] eqn:Hb; [| done].
  destruct (bs !! S i) as [b2 |] eqn:Hb2; [| done].
  injection Hi as <-. injection HSi as <-.
  apply lookup_lt_Some in Hb2.
  rewrite placed_inner by lia.
  destruct (placedInner_terminal bs T i b) as [-> ->].
  { apply Hd. by apply list_elem_of_lookup_2 with i. }
  destruct (placed_init bs T i b2) as [-> ->]. done.
Qed.

Lemma positions_kept bs T : Forall2 kept bs (positions bs T).
Proof.
  apply Forall2_same_length_lookup_2; [by rewrite positions_length |].
  intros i b b' Hb Hb'. rewrite positions_lookup, Hb in Hb'.
  injection Hb' as <-. apply kept_placed.
Qed.

Lemma Forall2_kept_trans bs1 bs2 bs3 :
  Forall2 kept bs1 bs2 -> Forall2 kept bs2 bs3 -> Forall2 kept bs1 bs3.
Proof.
  intros H12. revert bs3. induction H12 as [| b1 b2 l1 l2 Hk _ IH]; intros bs3 H23.
  - by inversion H23.
  - inversion H23 as [| ? b3 ? l3 Hk' H23']; subst. constructor; [| by apply IH].
    by apply kept_trans with b2.
Qed.

Lemma kept_not_drawing bs bs' :
  Forall2 kept bs bs' ->
  (forall b, b ∈ bs -> Bone._drawing b = false) ->
  forall b', b' ∈ bs' -> Bone._drawing b' = false.
Proof.
  intros Hk Hd b' Hb'. apply list_elem_of_lookup in Hb' as [i Hi].
  destruct (Forall2_lookup_r _ _ _ _ _ Hk Hi) as (b & Hb & (_ & _ & -> & _)).
  apply Hd. by apply list_elem_of_lookup_2 with i.
Qed.

Lemma ccdCycles_joined T :
  forall budget cyc bs,
    (forall b, b ∈ bs -> Bone._drawing b = false) ->
    joinedL (ccdCycles budget cyc bs T) /\
    Forall2 kept bs (ccdCycles budget cyc bs T).
Proof.
  induction budget as [| budget IH]; intros cyc bs Hd; cbn [ccdCycles].
  - destruct (ccdFinished cyc (positions bs T) T);
      (split; [by apply positions_joined | apply positions_kept]).
  - destruct (ccdFinished cyc (positions bs T) T);
      [split; [by apply positions_joined | apply positions_kept] |].
    destruct (IH (S cyc) (positions bs T)) as [Hj Hk].
    { apply (kept_not_drawing bs); [apply positions_kept | done]. }
    split; [done |].
    apply Forall2_kept_trans with (positions bs T); [apply positions_kept | done].
Qed.

Lemma stored_joined h rs bs : stored h rs bs -> joinedL bs -> joined h rs.
Proof.
  intros Hst Hj i r r' b b' Hr Hr' Hb Hb'.
  destruct (stored_lookup _ _ _ _ _ Hst Hr) as (b0 & Hb0 & Hh0).
  destruct (stored_lookup _ _ _ _ _ Hst Hr') as (b1 & Hb1 & Hh1).
  assert (b0 = b) as -> by congruence. assert (b1 = b') as -> by congruence.
  by apply (Hj i).
Qed.

(** *** The operations keep a chain well-formed, continuous and settled *)

Lemma wf_kept c h h' rs :
  Chain_wf c h rs ->
  (forall r b, r ∈ rs -> h !! r = Some b ->
     exists b', h' !! r = Some b' /\ kept b b') ->
  Chain_wf c h' rs.
Proof.
  intros (Hbones & Hcount & Hroot & Hterm & Hnd & Hlinks) Hk.
  split; [done |]. split; [done |]. split; [done |]. split; [done |].
  split; [done |]. intros i r Hr.
  destruct (Hlinks i r Hr) as (b & Hb & Hnext & Hprev).
  destruct (Hk r b) as (b' & Hb' & (Hn' & Hp' & _)); [| done |].
  { by apply list_elem_of_lookup_2 with i. }
  exists b'. split; [done |]. by rewrite Hn', Hp'.
Qed.

Lemma chainOk_kept c h h' rs :
  chainOk c h rs ->
  (forall r b, r ∈ rs -> h !! r = Some b ->
     exists b', h' !! r = Some b' /\ kept b b') ->
  joined h' rs ->
  chainOk c h' rs.
Proof.
  intros (Hwf & _ & Hset) Hk Hj. split; [by apply wf_kept with h |].
  split; [done |]. intros r b' Hr Hb'.
  apply list_elem_of_lookup in Hr as Hi. destruct Hi as [i Hi].
  destruct (linked_lookup h rs i r (Chain_wf_linked _ _ _ Hwf) Hi) as [b Hb].
  destruct (Hk r b Hr Hb) as (b'' & Hb'' & Hkept).
  assert (b'' = b') as -> by congruence.
  apply (kept_settled b); [done |]. by apply (Hset r).
Qed.

Lemma wf_path c h r rs : Chain_wf c h (r :: rs) -> path h (r :: rs).
Proof. intros Hwf. by apply linked_path, (Chain_wf_linked c). Qed.

Lemma wf_root c h rs : Chain_wf c h rs -> Chain._rootBone c = head rs.
Proof. by intros (_ & _ & Hroot & _). Qed.

Lemma chainOk_move c h rs x y :
  chainOk c h rs ->
  exists o h', Chain.move c x y h = (o, h') /\ chainOk c h' rs /\
               (rs <> [] -> o = Ret ()).
Proof.
  intros Hok. pose proof Hok as (Hwf & _ & _).
  unfold Chain.move. rewrite (wf_root _ _ _ Hwf).
  destruct rs as [| r rs]; [by exists (Throw TypeError), h |].
  destruct (moveInitial_path h r rs x y (wf_path _ _ _ _ Hwf))
    as (h' & Hrun & _ & Hin & _ & Hjoin).
  exists (Ret ()), h'. split; [done |]. split; [| done].
  apply (chainOk_kept c h); [done | | done].
  intros r' b Hr' Hb. destruct (Hin r' b Hr' Hb) as (x' & y' & Hb').
  eexists. split; [done |]. apply kept_moveInitial_self.
Qed.

Lemma chainOk_moveAndRotate c h rs x y dA :
  chainOk c h rs ->
  exists o h', Chain.moveAndRotate c x y dA h = (o, h') /\ chainOk c h' rs /\
               (rs <> [] -> o = Ret ()).
Proof.
  intros Hok. pose proof Hok as (Hwf & _ & _).
  unfold Chain.moveAndRotate. rewrite (wf_root _ _ _ Hwf).
  destruct rs as [| r rs]; [by exists (Throw TypeError), h |].
  destruct (moveAndRotate_path h r rs x y dA (Some (cos dA)) (Some (sin dA))
              (wf_path _ _ _ _ Hwf))
    as (h' & Hrun & _ & Hin & _ & Hjoin).
  exists (Ret ()), h'. split; [done |]. split; [| done].
  apply (chainOk_kept c h); [done | | done].
  intros r' b Hr' Hb. destruct (Hin r' b Hr' Hb) as (x' & y' & Hb').
  eexists. split; [done |]. apply kept_moveAndRotate_self.
Qed.

Lemma chainOk_rotate c h rs dA :
  chainOk c h rs ->
  exists o h', Chain.rotate c dA h = (o, h') /\ chainOk c h' rs /\
               (rs <> [] -> o = Ret ()).
Proof.
  intros Hok. pose proof Hok as (Hwf & _ & _).
  unfold Chain.rotate. rewrite (wf_root _ _ _ Hwf).
  destruct rs as [| r rs]; [by exists (Throw TypeError), h |].
  pose proof (wf_path _ _ _ _ Hwf) as Hpath.
  destruct (path_head _ _ _ Hpath) as (b & Hb & _).
  destruct (rotate_path h r rs b dA None None Hpath Hb)
    as (h' & Hrun & _ & Hin & Hhead & Hjoin).
  exists (Ret ()), h'. split; [done |]. split; [| done].
  apply (chainOk_kept c h); [done | | done].
  intros r' b0 Hr' Hb0. apply elem_of_cons in Hr' as [-> | Hr'].
  - assert (b0 = b) as -> by congruence.
    eexists. split; [done |]. apply kept_rotate_self.
  - destruct (Hin r' b0 Hr' Hb0) as (x' & y' & Hb').
    eexists. split; [done |]. apply kept_moveAndRotate_self.
Qed.

Lemma chainOk_ccdBasic c h rs x y :
  chainOk c h rs ->
  exists h', ccdBasic x y c false h = (Ret true, h') /\ chainOk c h' rs.
Proof.
  intros (Hwf & _ & Hset). destruct (wf_stored _ _ _ Hwf) as [bs Hst].
  destruct (ccdBasic_phases x y c h rs bs Hwf Hst) as (h' & Hrun & Hst' & Hwf' & _).
  assert (Hd : forall b, b ∈ bs -> Bone._drawing b = false).
  { intros b Hb. apply list_elem_of_lookup in Hb as [i Hi].
    destruct (stored_lookup_r _ _ _ _ _ Hst Hi) as (r & Hr & Hh).
    apply (Hset r b); [by apply list_elem_of_lookup_2 with i | done]. }
  destruct (ccdCycles_joined (x, y) _maxCycles 0%nat bs Hd) as [Hj Hk].
  exists h'. split; [done |]. split; [done |].
  split; [by apply (stored_joined h' rs _ Hst') |].
  intros r b' Hr Hb'. apply list_elem_of_lookup in Hr as [i Hi].
  destruct (stored_lookup _ _ _ _ _ Hst' Hi) as (b'' & Hb'' & Hh').
  assert (b'' = b') as -> by congruence.
  destruct (Forall2_lookup_r _ _ _ _ _ Hk Hb'') as (b & Hb & Hkept).
  apply (kept_settled b); [done |].
  destruct (stored_lookup_r _ _ _ _ _ Hst Hb) as (r' & Hr' & Hh).
  apply (Hset r'); [by apply list_elem_of_lookup_2 with i | done].
Qed.

Lemma still_refl b : still b b.
Proof. split; [apply kept_refl | done]. Qed.

Lemma still_trans b1 b2 b3 : still b1 b2 -> still b2 b3 -> still b1 b3.
Proof.
  intros (Hk & Hs & ? & ? & ? & ?) (Hk' & Hs' & ? & ? & ? & ?).
  split; [by apply kept_trans with b2 |]. split; [tauto |].
  repeat split; congruence.
Qed.

Lemma still_draw b : settled b -> still b (Bone.draw b).
Proof.
  intros Hs. destruct (draw_settled b Hs) as (Hk & HiX & HiY & HtX & HtY).
  split; [done |]. split; [| done]. intros _. by apply (kept_settled b).
Qed.

Lemma drawAll_still :
  forall (l : list ref) (h : Bone.Store),
    (forall r, r ∈ l -> exists b, h !! r = Some b /\ settled b) ->
    exists h',
      Chain.drawAll (Some <$> l) h = (Ret (), h') /\
      forall r b, h !! r = Some b -> exists b', h' !! r = Some b' /\ still b b'.
Proof.
  induction l as [| r l IH]; intros h Hl.
  - exists h. split; [done |]. intros r b Hb. exists b. split; [done |].
    apply still_refl.
  - destruct (Hl r) as (b & Hb & Hs); [by left |].
    cbn [fmap list_fmap Chain.drawAll]. rewrite (modify_Some _ _ _ _ Hb).
    destruct (IH (<[r := Bone.draw b]> h)) as (h' & Hrun & Hrel).
    { intros r' Hr'. destruct (decide (r' = r)) as [-> | Hne].
      - exists (Bone.draw b). rewrite lookup_insert_eq. split; [done |].
        by apply (still_draw b Hs).
      - rewrite lookup_insert_ne by done. apply Hl. by right. }
    exists h'. split; [exact Hrun |]. intros r' b0 Hb0.
    destruct (decide (r' = r)) as [-> | Hne].
    + assert (b0 = b) as -> by congruence.
      destruct (Hrel r (Bone.draw b)) as (b' & Hb' & Hst);
        [apply lookup_insert_eq |].
      exists b'. split; [done |].
      apply still_trans with (Bone.draw b); [by apply still_draw | done].
    + apply Hrel. by rewrite lookup_insert_ne.
Qed.

Lemma chainOk_still c h h' rs :
  chainOk c h rs ->
  (forall r b, h !! r = Some b -> exists b', h' !! r = Some b' /\ still b b') ->
  chainOk c h' rs.
Proof.
  intros Hok Hrel. pose proof Hok as (Hwf & Hj & Hset).
  assert (Hlook : forall i r, rs !! i = Some r -> exists b b',
            h !! r = Some b /\ h' !! r = Some b' /\ still b b').
  { intros i r Hi.
    destruct (linked_lookup h rs i r (Chain_wf_linked _ _ _ Hwf) Hi) as [b Hb].
    destruct (Hrel r b Hb) as (b' & Hb' & Hst). eauto. }
  split; [| split].
  - apply (wf_kept c h); [done |]. intros r b _ Hb.
    destruct (Hrel r b Hb) as (b' & Hb' & Hk & _). eauto.
  - intros i r r' b1' b2' Hr Hr' Hb1' Hb2'.
    destruct (Hlook i r Hr) as (b1 & b1'' & Hb1 & Hb1'' & (_ & _ & _ & _ & HtX & HtY)).
    destruct (Hlook (S i) r' Hr') as (b2 & b2'' & Hb2 & Hb2'' & (_ & _ & HiX & HiY & _)).
    assert (b1'' = b1') as -> by congruence.
    assert (b2'' = b2') as -> by congruence.
    rewrite HtX, HtY, HiX, HiY. by apply (Hj i r r').
  - intros r b' Hr Hb'. apply list_elem_of_lookup in Hr as Hi.
    destruct Hi as [i Hi].
    destruct (Hlook i r Hi) as (b & b'' & Hb & Hb'' & (_ & Hs & _)).
    assert (b'' = b') as -> by congruence. apply Hs. by apply (Hset r).
Qed.

Lemma chainOk_drawAll c h rs :
  chainOk c h rs ->
  exists h', Chain.drawAll (Chain._bones c) h = (Ret (), h') /\ chainOk c h' rs.
Proof.
  intros Hok. pose proof Hok as (Hwf & _ & Hset).
  destruct Hwf as (Hbones & _). rewrite Hbones.
  destruct (drawAll_still rs h) as (h' & Hrun & Hrel).
  { intros r Hr. apply list_elem_of_lookup in Hr as Hi. destruct Hi as [i Hi].
    destruct (linked_lookup h rs i r (Chain_wf_linked _ _ _ (proj1 Hok)) Hi)
      as [b Hb].
    exists b. split; [done |]. by apply (Hset r). }
  exists h'. split; [done |]. by apply (chainOk_still c h).
Qed.

Lemma chainOk_solveAndRedraw c h rs x y isPinned :
  chainOk c h rs -> Chain._ikSolver c <> Some IK_limbSolver ->
  exists resolved h',
    solveAndRedraw x y isPinned c h = (Ret resolved, h') /\ chainOk c h' rs.
Proof.
  intros Hok Hsolver. unfold solveAndRedraw.
  assert (Hdef : default IK_ccdBasic (Chain._ikSolver c) = IK_ccdBasic).
  { destruct (Chain._ikSolver c) as [[] |]; done. }
  rewrite Hdef. cbn [runSolver].
  assert (Hsolve : exists resolved h1,
            ccdBasic x y c isPinned h = (Ret resolved, h1) /\ chainOk c h1 rs).
  { destruct isPinned.
    - exists false, h. by rewrite ccdBasic_pinned_stub'.
    - destruct (chainOk_ccdBasic c h rs x y Hok) as (h1 & Hrun & Hok1). eauto. }
  destruct Hsolve as (resolved & h1 & -> & Hok1).
  destruct (Chain.REDRAW_ON_SOLVE c); [| eauto].
  destruct (chainOk_drawAll c h1 rs Hok1) as (h2 & -> & Hok2). eauto.
Qed.

Lemma chainOk_upd_ikSolver v c h rs :
  chainOk c h rs -> chainOk (Chain.upd_ikSolver v c) h rs.
Proof. intros (Hwf & Hj & Hs). split; [exact Hwf | by split]. Qed.

Lemma chainOk_moveEndEffector c h rs x y isPinned :
  chainOk c h rs -> Chain._ikSolver c <> Some IK_limbSolver ->
  exists resolved c' h',
    Chain_moveEndEffector x y isPinned c h = (Ret resolved, c', h') /\
    chainOk c' h' rs /\ Chain._ikSolver c' <> Some IK_limbSolver.
Proof.
  intros Hok Hsolver. unfold Chain_moveEndEffector.
  set (c1 := Chain.upd_ikSolver
               (Some (default IK_ccdBasic (Chain._ikSolver c))) c).
  assert (Hok1 : chainOk c1 h rs) by by apply chainOk_upd_ikSolver.
  assert (Hsolver1 : Chain._ikSolver c1 <> Some IK_limbSolver).
  { subst c1. cbn [Chain._ikSolver Chain.upd_ikSolver].
    destruct (Chain._ikSolver c) as [[] |]; done. }
  assert (Hsr : forall tx ty, exists resolved h',
            (let '(o, h0) := solveAndRedraw tx ty isPinned c1 h in (o, c1, h0))
            = (Ret resolved, c1, h') /\ chainOk c1 h' rs).
  { intros tx ty.
    destruct (chainOk_solveAndRedraw c1 h rs tx ty isPinned Hok1 Hsolver1)
      as (resolved & h' & -> & Hok'). eauto. }
  destruct (Chain._linkedFrom c1) as [lf |].
  - destruct isPinned.
    + destruct (decide (Chain.size c1 = 1%nat)) as [Hsize | _].
      * destruct (chainOk_move c1 h rs
                    (if negb (lk_moveEndEffector lf) then lk_initX lf else x)
                    (if negb (lk_moveEndEffector lf) then lk_initY lf else y) Hok1)
          as (o & h' & Hrun & Hok' & Ho).
        rewrite Hrun, Ho.
        -- eexists _, c1, h'. done.
        -- intros ->. destruct Hok1 as ((_ & Hc & _) & _).
           unfold Chain.size in Hsize. rewrite Hc in Hsize. done.
      * destruct (Hsr (if negb (lk_moveEndEffector lf) then lk_initX lf else x)
                      (if negb (lk_moveEndEffector lf) then lk_initY lf else y))
          as (resolved & h' & -> & Hok'). eexists _, c1, h'. done.
    + destruct (Hsr x y) as (resolved & h' & -> & Hok'). eexists _, c1, h'. done.
  - destruct (Hsr x y) as (resolved & h' & -> & Hok'). eexists _, c1, h'. done.
Qed.

Lemma chainOk_runOp op c h rs :
  chainOk c h rs -> Chain._ikSolver c <> Some IK_limbSolver ->
  exists o c' h',
    runOp op c h = (o, c', h') /\ chainOk c' h' rs /\
    Chain._ikSolver c' <> Some IK_limbSolver /\ (rs <> [] -> o = Ret ()).
Proof.
  intros Hok Hsolver. destruct op as [x y | dA | x y dA | x y isPinned];
    cbn [runOp].
  - destruct (chainOk_move c h rs x y Hok) as (o & h' & -> & Hok' & Ho).
    by exists o, c, h'.
  - destruct (chainOk_rotate c h rs dA Hok) as (o & h' & -> & Hok' & Ho).
    by exists o, c, h'.
  - destruct (chainOk_moveAndRotate c h rs x y dA Hok) as (o & h' & -> & Hok' & Ho).
    by exists o, c, h'.
  - destruct (chainOk_moveEndEffector c h rs x y isPinned Hok Hsolver)
      as (resolved & c' & h' & -> & Hok' & Hs').
    by exists (Ret ()), c', h'.
Qed.

(** Continuity where [draw()] leaves no bone flagged.  On a well-formed
    chain whose bones are joined, none of them flagged as being drawn nor
    left so by [draw()], with the iterative solver assigned or none: every
    sequence of move, rotate, moveAndRotate and moveEndEffector (pinned or
    not, whatever the solver achieves) runs to its end on a chain that is
    not empty and leaves the terminal point of each bone on the initial
    point of the next. *)
Theorem continuity_preserved ops :
  forall c h rs,
    chainOk c h rs -> Chain._ikSolver c <> Some IK_limbSolver ->
    exists o c' h',
      runOps ops c h = (o, c', h') /\
      joined h' rs /\ chainOk c' h' rs /\ (rs <> [] -> o = Ret ()).
Proof.
  induction ops as [| op ops IH]; intros c h rs Hok Hsolver.
  - exists (Ret ()), c, h. split; [done |]. split; [apply Hok | done].
  - destruct (chainOk_runOp op c h rs Hok Hsolver)
      as (o & c1 & h1 & Hrun & Hok1 & Hs1 & Ho).
    cbn [runOps]. rewrite Hrun. destruct o as [[] | e].
    + apply IH; done.
    + exists (Throw e), c1, h1. split; [done |]. split; [apply Hok1 |].
      split; [done |]. intros Hne. by specialize (Ho Hne).
Qed.

(** ** Computing along the x axis *)

Lemma atan2_0_neg x : x < 0 -> atan2 0 x = PI.
Proof.
  intros Hx. unfold atan2.
  destruct (decide (0 < x)); [lra |]. destruct (decide (x < 0)); [| lra].
  destruct (decide (0 <= 0)); [| lra].
  unfold Rdiv. rewrite Rmult_0_l, atan_0. ring.
Qed.

Lemma atan2_0_pos x : 0 < x -> atan2 0 x = 0.
Proof.
  intros Hx. unfold atan2. destruct (decide (0 < x)); [| lra].
  unfold Rdiv. by rewrite Rmult_0_l, atan_0.
Qed.

Lemma atan2_0_0 : atan2 0 0 = 0.
Proof.
  unfold atan2. destruct (decide (0 < 0)); [lra |].
  destruct (decide (0 < 0)); [lra |]. by destruct (decide (0 < 0)); [lra |].
Qed.

Lemma sqrt_axis d : sqrt (d * d + 0 * 0) = Rabs d.
Proof.
  replace (d * d + 0 * 0) with (Rsqr d) by (unfold Rsqr; ring).
  apply sqrt_Rsqr_abs.
Qed.

Lemma cos_neg_PI : cos (- PI) = -1.
Proof. rewrite cos_neg. apply cos_PI. Qed.

Lemma sin_neg_PI : sin (- PI) = 0.
Proof. rewrite sin_neg, sin_PI. ring. Qed.

Lemma normalize_nonneg a : 0 <= a -> normalize a = a.
Proof.
  intros Ha. unfold normalize.
  destruct (bool_decide_reflect (a >= 0)); [done | lra].
Qed.

(** A step of the target phase towards the left and towards the right. *)
Lemma stepBack_left b cx x0 l :
  Bone.initX b = x0 -> Bone.initY b = 0 -> Bone.length b = l ->
  cx - x0 < 0 -> stepBack b (cx, 0) = (cx + l, 0).
Proof.
  intros HX HY HL Hlt. unfold stepBack. cbn [fst snd].
  rewrite HX, HY, HL, Rminus_diag, (atan2_0_neg _ Hlt), cos_PI, sin_PI.
  f_equal; ring.
Qed.

Lemma stepBack_right b cx x0 l :
  Bone.initX b = x0 -> Bone.initY b = 0 -> Bone.length b = l ->
  0 < cx - x0 -> stepBack b (cx, 0) = (cx - l, 0).
Proof.
  intros HX HY HL Hlt. unfold stepBack. cbn [fst snd].
  rewrite HX, HY, HL, Rminus_diag, (atan2_0_pos _ Hlt), cos_0, sin_0.
  f_equal; ring.
Qed.

Lemma axisBone_read b x0 x1 ang :
  axisBone b x0 x1 ang ->
  Bone.initX b = x0 /\ Bone.initY b = 0 /\
  Bone.terminalX b = x1 /\ Bone.terminalY b = 0 /\
  Bone.length b = Rabs (x1 - x0).
Proof. intros (? & ? & ? & ? & ? & ? & ? & _). done. Qed.

(** [setTerminal] towards a point of the axis. *)
Lemma axis_setTerminal b x0 tx ty :
  Bone._x0 b = x0 -> Bone._y0 b = 0 ->
  Bone._drawing b = false -> Bone._unconstrained b = true ->
  ty = 0 -> tx - x0 <> 0 ->
  axisBone (Bone.setTerminal tx ty b) x0 tx (if tx - x0 <? 0 then PI else 0).
Proof.
  intros HX HY Hd Hu -> Hne. unfold Bone.setTerminal. rewrite Hd. cbn [negb].
  unfold axisBone, Bone.orientation.
  cbn [Bone._x0 Bone._y0 Bone._x1 Bone._y1 Bone._deltaX Bone._deltaY
       Bone._length Bone._angle Bone._drawing Bone._unconstrained
       Bone.upd_angle Bone.upd_flare Bone.upd_length Bone.upd_deltaY
       Bone.upd_deltaX Bone.upd_y1 Bone.upd_x1].
  rewrite HX, HY, Rminus_diag.
  split; [done |]. split; [done |]. split; [done |]. split; [done |].
  split; [done |]. split; [done |]. split; [apply sqrt_axis |].
  split; [| done].
  pose proof PI_gt_3.
  destruct (bool_decide_reflect (tx - x0 < 0)) as [Hlt | Hge].
  - rewrite (atan2_0_neg _ Hlt).
    destruct (bool_decide_reflect (PI >= 0)); [done | lra].
  - rewrite atan2_0_pos by lra.
    destruct (bool_decide_reflect (0 >= 0)); [done | lra].
Qed.

(** An inner bone placed on the axis. *)
Lemma axis_inner b ix iy tx ty :
  Bone._drawing b = false -> Bone._unconstrained b = true ->
  iy = 0 -> ty = 0 -> tx - ix <> 0 ->
  axisBone (Bone.setTerminal tx ty (Bone.setInitial ix iy false b)) ix tx
    (if tx - ix <? 0 then PI else 0).
Proof.
  intros Hd Hu -> -> Hne. by apply axis_setTerminal.
Qed.

(** The terminal bone re-oriented along the axis. *)
Lemma axis_orient p0 rad b x0 x1 ang ix iy x1' :
  axisBone b x0 x1 ang -> (ang = 0 \/ ang = PI) -> (rad = 0 \/ rad = PI) ->
  iy = 0 -> x1' = ix + (x1 - x0) * cos (rad - ang) ->
  axisBone (orient_self p0 rad (Bone.setInitial ix iy false b)) ix x1' rad.
Proof.
  intros (HX0 & HY0 & HX1 & HY1 & HdX & HdY & HL & Ho & Hd & Hu) Hang Hrad -> ->.
  pose proof PI_gt_3 as Hpi.
  assert (Hs : sin (rad - ang) = 0).
  { destruct Hang as [-> | ->], Hrad as [-> | ->].
    - by rewrite Rminus_diag, sin_0.
    - by rewrite Rminus_0_r, sin_PI.
    - by rewrite Rminus_0_l, sin_neg_PI.
    - by rewrite Rminus_diag, sin_0. }
  assert (Habs : ~ Rabs (rad - ang) > PI).
  { destruct Hang as [-> | ->], Hrad as [-> | ->].
    - rewrite Rminus_diag, Rabs_R0. lra.
    - rewrite Rminus_0_r, Rabs_right; lra.
    - rewrite Rminus_0_l, Rabs_Ropp, Rabs_right; lra.
    - rewrite Rminus_diag, Rabs_R0. lra. }
  assert (Hn : normalize rad = rad).
  { apply normalize_nonneg. destruct Hrad as [-> | ->]; lra. }
  unfold orient_self.
  replace (Bone.orientation (Bone.setInitial ix 0 false b)) with ang
    by (rewrite <- Ho; reflexivity).
  replace (Bone._unconstrained (Bone.setInitial ix 0 false b)) with true
    by (rewrite <- Hu; reflexivity).
  rewrite Hn. cbn [negb].
  destruct (bool_decide_reflect (Rabs (rad - ang) > PI)) as [? | _]; [done |].
  unfold Bone.orientationAllowed.
  replace (Bone._unconstrained (Bone.setInitial ix 0 false b)) with true
    by (rewrite <- Hu; reflexivity).
  cbn [negb].
  unfold axisBone, Bone.orientation, Bone.set_orientation_self, Bone.setInitial.
  cbn [Bone._x0 Bone._y0 Bone._x1 Bone._y1 Bone._deltaX Bone._deltaY
       Bone._length Bone._angle Bone._drawing Bone._unconstrained
       Bone.upd_angle Bone.upd_flare Bone.upd_length Bone.upd_deltaY
       Bone.upd_deltaX Bone.upd_y1 Bone.upd_x1 Bone.upd_x0 Bone.upd_y0
       Bone.upd_fk Bone.upd_deltaAngle].
  rewrite HdX, HdY, Hs.
  split; [done |]. split; [done |]. split; [ring |]. split; [ring |].
  split; [ring |]. split; [ring |]. split.
  { replace ((x1 - x0) * cos (rad - ang) - 0 * 0)
      with (ix + (x1 - x0) * cos (rad - ang) - ix) by ring.
    replace ((x1 - x0) * 0 + 0 * cos (rad - ang)) with 0 by ring.
    apply sqrt_axis. }
  split; [| done].
  destruct (bool_decide_reflect (rad >= 0)); [done |].
  destruct Hrad as [-> | ->]; lra.
Qed.

(** ** The example bones *)

Lemma asRoot_axis next b x0 x1 ang :
  axisBone b x0 x1 ang -> axisBone (asRoot next b) x0 x1 ang.
Proof. destruct b; intros H; exact H. Qed.

Lemma asTerminal_axis prev b x0 x1 ang :
  axisBone b x0 x1 ang -> axisBone (asTerminal prev b) x0 x1 ang.
Proof. destruct b; intros H; exact H. Qed.

Lemma boneAt_axis x0 x1 :
  x1 - x0 <> 0 ->
  axisBone (boneAt x0 0 x1 0) x0 x1 (if x1 - x0 <? 0 then PI else 0).
Proof.
  intros Hne. unfold boneAt. by apply axis_setTerminal.
Qed.

Lemma asTerminal_geometry prev b :
  Bone.initX (asTerminal prev b) = Bone.initX b /\
  Bone.initY (asTerminal prev b) = Bone.initY b /\
  Bone.terminalX (asTerminal prev b) = Bone.terminalX b /\
  Bone.terminalY (asTerminal prev b) = Bone.terminalY b /\
  Bone._drawing (asTerminal prev b) = Bone._drawing b.
Proof. by destruct b. Qed.

Lemma drawnBone_facts x0 y0 x1 y1 :
  Bone._drawing (drawnBone x0 y0 x1 y1) = true /\
  Bone.initX (drawnBone x0 y0 x1 y1) = x0 /\
  Bone.initY (drawnBone x0 y0 x1 y1) = y0 /\
  Bone.terminalX (drawnBone x0 y0 x1 y1) = x1 /\
  Bone.terminalY (drawnBone x0 y0 x1 y1) = y1 /\
  Bone.length (drawnBone x0 y0 x1 y1)
    = sqrt ((x1 - x0) * (x1 - x0) + (y1 - y0) * (y1 - y0)) /\
  Bone.NEXT (drawnBone x0 y0 x1 y1) = None /\
  Bone.PREV (drawnBone x0 y0 x1 y1) = None.
Proof.
  unfold drawnBone, boneAt, Bone.draw, Bone.setTerminal, Bone.setInitial,
    Bone.initX, Bone.initY, Bone.terminalX, Bone.terminalY, Bone.length,
    Bone.__drawCustom.
  cbn. done.
Qed.

Lemma asRoot_length next b : Bone.length (asRoot next b) = Bone.length b.
Proof. by destruct b. Qed.

Lemma asTerminal_length prev b : Bone.length (asTerminal prev b) = Bone.length b.
Proof. by destruct b. Qed.

Lemma boneAt_settled x0 y0 x1 y1 : settled (boneAt x0 y0 x1 y1).
Proof.
  split; [apply boneAt_geometry |]. rewrite draw_drawing.
  unfold boneAt, Bone.setTerminal, Bone.setInitial. cbn. done.
Qed.

Lemma asRoot_settled next x0 y0 x1 y1 : settled (asRoot next (boneAt x0 y0 x1 y1)).
Proof.
  split.
  - destruct (asRoot_geometry next (boneAt x0 y0 x1 y1)) as (_ & _ & _ & _ & ->).
    apply boneAt_geometry.
  - rewrite draw_drawing.
    unfold asRoot, boneAt, Bone.setTerminal, Bone.setInitial. cbn. done.
Qed.

Lemma asTerminal_settled prev x0 y0 x1 y1 :
  settled (asTerminal prev (boneAt x0 y0 x1 y1)).
Proof.
  split.
  - destruct (asTerminal_geometry prev (boneAt x0 y0 x1 y1)) as (_ & _ & _ & _ & ->).
    apply boneAt_geometry.
  - rewrite draw_drawing.
    unfold asTerminal, boneAt, Bone.setTerminal, Bone.setInitial. cbn. done.
Qed.

(** ** A bone flagged as being drawn breaks the chain *)

Lemma setTerminal_drawing x y b :
  Bone._drawing b = true -> Bone.setTerminal x y b = b.
Proof. intros Hd. unfold Bone.setTerminal. by rewrite Hd. Qed.

(** Two bones (0,0)-(1,0) and (1,0)-(2,0), the first one flagged, and the
    target (-3,0): one cycle, which leaves the first bone where it was and
    starts the second one at (-1,0). *)
Lemma drawing_cycle b0 b1 :
  Bone.initX b0 = 0 -> Bone.initY b0 = 0 -> Bone.length b0 = 1 ->
  Bone._drawing b0 = true ->
  axisBone b1 1 2 0 ->
  exists b1',
    ccdCycles _maxCycles 0 [b0; b1] (-3, 0) = [b0; b1'] /\
    Bone.initX b1' = -1.
Proof.
  intros HX0 HY0 HL0 Hd0 Hax1.
  destruct (axisBone_read _ _ _ _ Hax1) as (HX1 & HY1 & _ & _ & HL1).
  replace (Rabs (2 - 1)) with 1 in HL1
    by (replace (2 - 1) with 1 by ring; symmetry; apply Rabs_R1).
  set (bs := [b0; b1]). set (T := (-3, 0)).
  assert (Hvts : virtualTargets bs T = [(-1, 0); (-2, 0)]).
  { subst bs T. cbn [virtualTargets hd].
    rewrite (stepBack_left b1 (-3) 1 1) by (done || lra).
    replace (-3 + 1) with (-2) by lra. cbn [hd].
    rewrite (stepBack_left b0 (-2) 0 1) by (done || lra).
    by replace (-2 + 1) with (-1) by lra. }
  assert (Hterm : termAt bs T 0 = (-1, 0)).
  { unfold termAt, recordAt, ccdDelta, finalTarget. rewrite Hvts.
    subst bs. cbn [List.length hd lookup list_lookup default fst snd].
    destruct (decide (1 < 2)%nat); [| lia]. cbv [Datatypes.id]. cbn [fst snd].
    rewrite HX0, HY0. f_equal; lra. }
  assert (Hpos : positions bs T = [placed bs T 0 b0; placed bs T 1 b1])
    by reflexivity.
  assert (Hp0 : placed bs T 0 b0 = b0).
  { rewrite placed_root. unfold placedInner.
    destruct (decide (0 = 0)%nat); [| done]. by apply setTerminal_drawing. }
  assert (Hp1 : axisBone (placed bs T 1 b1) (-1) (-2) PI).
  { unfold placed. destruct (decide (1 = 0)%nat); [lia |].
    subst bs. cbn [List.length]. destruct (decide (1 < 2 - 1)%nat); [lia |].
    cbv zeta. replace (1 - 1)%nat with 0%nat by lia. rewrite Hterm.
    subst T. cbn [fst snd].
    rewrite Rminus_diag, atan2_0_neg by lra.
    apply (axis_orient _ PI b1 1 2 0); [done | by left | by right | done |].
    rewrite Rminus_0_r, cos_PI. lra. }
  destruct (axisBone_read _ _ _ _ Hp1) as (HX1' & _ & HtX1' & HtY1' & _).
  exists (placed bs T 1 b1). split; [| done].
  cbn [_maxCycles ccdCycles]. fold bs T. rewrite Hpos, Hp0.
  assert (Hfin : ccdFinished 0 [b0; placed bs T 1 b1] T = true).
  { unfold ccdFinished, ccdError. cbn [last].
    rewrite HtX1', HtY1'. subst T. cbn [fst snd].
    apply orb_true_iff. left. apply bool_decide_eq_true. unfold _stop. lra. }
  by rewrite Hfin.
Qed.

Lemma Chain_wf_upd_ikSolver v c h rs :
  Chain_wf c h rs -> Chain_wf (Chain.upd_ikSolver v c) h rs.
Proof. intros H. exact H. Qed.

(** [moveEndEffector], not pinned, on a chain without solver of its own
    and without redraw: the iterative solver on the chain. *)
Lemma moveEndEffector_default x y c h :
  Chain._ikSolver c = None -> Chain.REDRAW_ON_SOLVE c = false ->
  Chain_moveEndEffector x y false c h =
  (let '(o, h') :=
     ccdBasic x y (Chain.upd_ikSolver (Some IK_ccdBasic) c) false h in
   (o, Chain.upd_ikSolver (Some IK_ccdBasic) c, h')).
Proof.
  intros Hs Hr. unfold Chain_moveEndEffector, solveAndRedraw. rewrite Hs.
  cbn [default from_option Chain._ikSolver Chain.upd_ikSolver
       Chain._linkedFrom Chain.REDRAW_ON_SOLVE runSolver].
  cbv [Datatypes.id]. rewrite Hr.
  change (runSolver IK_ccdBasic x y ?c1 false h) with (ccdBasic x y c1 false h).
  destruct (Chain._linkedFrom c);
    by destruct (ccdBasic x y _ false h) as [[] ?].
Qed.

Lemma runOps_moveEndEffector x y c h h' ok :
  Chain._ikSolver c = None -> Chain.REDRAW_ON_SOLVE c = false ->
  ccdBasic x y (Chain.upd_ikSolver (Some IK_ccdBasic) c) false h
    = (Ret ok, h') ->
  runOps [OpMoveEndEffector x y false] c h
    = (Ret (), Chain.upd_ikSolver (Some IK_ccdBasic) c, h').
Proof.
  intros Hs Hr Hrun. cbn [runOps runOp].
  rewrite (moveEndEffector_default x y c h Hs Hr), Hrun. reflexivity.
Qed.

Lemma store2_stored b0 b1 :
  stored (store2 b0 b1) [0%nat; 1%nat]
    [asRoot (Some 1%nat) b0; asTerminal (Some 0%nat) b1].
Proof.
  constructor; [apply store2_lookup0 |].
  constructor; [apply store2_lookup1 | constructor].
Qed.

Lemma store2_joined b0 b1 :
  Bone.terminalX b0 = Bone.initX b1 -> Bone.terminalY b0 = Bone.initY b1 ->
  joined (store2 b0 b1) [0%nat; 1%nat].
Proof.
  intros HX HY. apply (stored_joined _ _ _ (store2_stored b0 b1)).
  intros [| i] b b' Hb Hb'; [| destruct i; done].
  injection Hb as <-. injection Hb' as <-.
  destruct (asRoot_geometry (Some 1%nat) b0) as (_ & _ & -> & -> & _).
  destruct (asTerminal_geometry (Some 0%nat) b1) as (-> & -> & _). done.
Qed.

(** C2.  Chain continuity (the terminal point of each bone is the initial
    point of the next, after every move, rotate, moveAndRotate and
    moveEndEffector) is lost on a bone that [draw()] has drawn from a custom
    template: [__drawCustom] never clears [_drawing], which [__std] does,
    and [setTerminal] does nothing on a bone so flagged.  On the chain of
    the bones (0,0)-(1,0) and (1,0)-(2,0), the first one of draw type
    CUSTOM and drawn once, the chain is well-formed and continuous,
    [moveEndEffector(-3, 0, false)] returns normally, and afterwards the
    first bone still ends at (1,0) while the second one starts at (-1,0). *)
Lemma continuity_broken_while_drawing :
  Chain_wf chain2 (store2 (drawnBone 0 0 1 0) (boneAt 1 0 2 0)) [0%nat; 1%nat] /\
  joined (store2 (drawnBone 0 0 1 0) (boneAt 1 0 2 0)) [0%nat; 1%nat] /\
  exists c' h',
    runOps [OpMoveEndEffector (-3) 0 false] chain2
      (store2 (drawnBone 0 0 1 0) (boneAt 1 0 2 0)) = (Ret (), c', h') /\
    ~ joined h' [0%nat; 1%nat].
Proof.
  destruct (drawnBone_facts 0 0 1 0)
    as (Hd0 & HX0 & HY0 & HtX0 & HtY0 & HL0 & Hn0 & Hp0).
  destruct (boneAt_geometry 1 0 2 0) as (HX1 & HY1 & _).
  set (h := store2 (drawnBone 0 0 1 0) (boneAt 1 0 2 0)).
  assert (Hwf : Chain_wf chain2 h [0%nat; 1%nat]).
  { apply chain2_wf; [apply boneAt_NEXT | exact Hp0]. }
  split; [exact Hwf |]. split.
  { apply store2_joined; congruence. }
  set (c1 := Chain.upd_ikSolver (Some IK_ccdBasic) chain2).
  destruct (ccdBasic_phases (-3) 0 c1 h _ _
              (Chain_wf_upd_ikSolver _ _ _ _ Hwf) (store2_stored _ _))
    as (h' & Hrun & Hst & _).
  exists c1, h'. split.
  { exact (runOps_moveEndEffector (-3) 0 chain2 h h' true
             eq_refl eq_refl Hrun). }
  destruct (asRoot_geometry (Some 1%nat) (drawnBone 0 0 1 0))
    as (EX & EY & EtX & _ & Ed).
  destruct (drawing_cycle (asRoot (Some 1%nat) (drawnBone 0 0 1 0))
              (asTerminal (Some 0%nat) (boneAt 1 0 2 0)))
    as (b1' & Hcyc & HX1').
  { rewrite EX. exact HX0. }
  { rewrite EY. exact HY0. }
  { rewrite asRoot_length, HL0.
    replace ((1 - 0) * (1 - 0) + (0 - 0) * (0 - 0)) with 1 by ring.
    apply sqrt_1. }
  { rewrite Ed. exact Hd0. }
  { apply asTerminal_axis.
    replace 0 with (if 2 - 1 <? 0 then PI else 0) at 3.
    - apply boneAt_axis. lra.
    - destruct (bool_decide_reflect (2 - 1 < 0)); [lra | reflexivity]. }
  rewrite Hcyc in Hst.
  apply Forall2_cons_1 in Hst as [Hb0 Hst].
  apply Forall2_cons_1 in Hst as [Hb1 _].
  intros Hj.
  destruct (Hj 0%nat 0%nat 1%nat _ _ eq_refl eq_refl Hb0 Hb1) as [HjX _].
  rewrite EtX, HtX0, HX1' in HjX. lra.
Qed.

(** The two bones (0,0)-(1,0) and (1,0)-(2,0) as a chain. *)
Lemma chain2_ok :
  chainOk chain2 (store2 (boneAt 0 0 1 0) (boneAt 1 0 2 0)) [0%nat; 1%nat].
Proof.
  destruct (boneAt_geometry 0 0 1 0) as (_ & _ & HtX0 & HtY0 & _).
  destruct (boneAt_geometry 1 0 2 0) as (HX1 & HY1 & _).
  split; [apply chain2_wf; [apply boneAt_NEXT | apply boneAt_PREV] |].
  split; [apply store2_joined; congruence |].
  intros r b Hr Hb.
  apply elem_of_cons in Hr as [-> | Hr].
  - rewrite store2_lookup0 in Hb. injection Hb as <-. apply asRoot_settled.
  - apply list_elem_of_singleton in Hr as ->.
    rewrite store2_lookup1 in Hb. injection Hb as <-.
    apply asTerminal_settled.
Qed.

(** Continuity on the chain of the bones (0,0)-(1,0) and (1,0)-(2,0), none
    of them drawn: a rotation, a solve towards (0,3) and a move. *)
Lemma continuity_preserved_witness :
  chainOk chain2 (store2 (boneAt 0 0 1 0) (boneAt 1 0 2 0)) [0%nat; 1%nat] /\
  Chain._ikSolver chain2 <> Some IK_limbSolver /\
  exists o c' h',
    runOps [OpRotate 1; OpMoveEndEffector 0 3 false; OpMove 5 5] chain2
      (store2 (boneAt 0 0 1 0) (boneAt 1 0 2 0)) = (o, c', h') /\
    joined h' [0%nat; 1%nat] /\ chainOk c' h' [0%nat; 1%nat] /\
    ([0%nat; 1%nat] <> [] -> o = Ret ()).
Proof.
  pose proof chain2_ok as Hok.
  assert (Hs : Chain._ikSolver chain2 <> Some IK_limbSolver)
    by (unfold chain2; cbn [Chain._ikSolver]; discriminate).
  split; [exact Hok |]. split; [exact Hs |].
  exact (continuity_preserved _ _ _ _ Hok Hs).
Defined.

(** ** A target that is already reached *)

Lemma polar_cos_sin dx dy :
  sqrt (dx * dx + dy * dy) * cos (atan2 dy dx) = dx /\
  sqrt (dx * dx + dy * dy) * sin (atan2 dy dx) = dy.
Proof.
  assert (Hpos : forall t, 0 < sqrt (1 + t²)).
  { intros t. apply sqrt_lt_R0. pose proof (Rle_0_sqr t). lra. }
  assert (Hnorm : dx <> 0 ->
            sqrt (dx * dx + dy * dy) = Rabs dx * sqrt (1 + (dy / dx)²)).
  { intros Hne. rewrite <- sqrt_Rsqr_abs, <- sqrt_mult.
    - f_equal. unfold Rsqr. by field.
    - apply Rle_0_sqr.
    - pose proof (Rle_0_sqr (dy / dx)). lra. }
  unfold atan2. destruct (decide (0 < dx)) as [Hgt | Hngt].
  - rewrite Hnorm, cos_atan, sin_atan, Rabs_right by lra.
    pose proof (Hpos (dy / dx)). split; field; lra.
  - destruct (decide (dx < 0)) as [Hlt | Hnlt].
    + pose proof (Hpos (dy / dx)).
      destruct (decide (0 <= dy)).
      * rewrite neg_cos, neg_sin, Hnorm, cos_atan, sin_atan, Rabs_left by lra.
        split; field; lra.
      * rewrite cos_minus, sin_minus, cos_PI, sin_PI, Hnorm, cos_atan,
          sin_atan, Rabs_left by lra.
        split; field; lra.
    + assert (dx = 0) as -> by lra.
      replace (0 * 0 + dy * dy) with (dy * dy) by ring.
      destruct (decide (0 < dy)); [| destruct (decide (dy < 0))].
      * rewrite cos_PI2, sin_PI2, sqrt_square by lra. split; ring.
      * rewrite cos_neg, sin_neg, cos_PI2, sin_PI2.
        replace (dy * dy) with (- dy * - dy) by ring.
        rewrite sqrt_square by lra. split; ring.
      * assert (dy = 0) as -> by lra.
        rewrite cos_0, sin_0, Rmult_0_l, sqrt_0. split; ring.
Qed.

Lemma normalize_atan2_nonneg y x : 0 <= normalize (atan2 y x).
Proof.
  unfold normalize.
  destruct (bool_decide_reflect (atan2 y x >= 0)); [lra |].
  pose proof (atan_bound (y / x)). pose proof PI_gt_3.
  unfold TWO_PI, atan2. repeat case_decide; lra.
Qed.

(** The step of the target phase from the terminal point of a bone leads to
    its initial point. *)
Lemma stepBack_terminal b :
  Bone_consistent b ->
  stepBack b (Bone.terminalX b, Bone.terminalY b)
  = (Bone.initX b, Bone.initY b).
Proof.
  intros (HdX & HdY & HL).
  unfold stepBack, Bone.terminalX, Bone.terminalY, Bone.initX, Bone.initY,
    Bone.length.
  cbn [fst snd]. rewrite <- HdX, <- HdY, HL.
  destruct (polar_cos_sin (Bone._deltaX b) (Bone._deltaY b)) as [-> ->].
  f_equal; lra.
Qed.

Lemma joinedL_tail b bs : joinedL (b :: bs) -> joinedL bs.
Proof. intros H i x y Hi HSi. by apply (H (S i)). Qed.

Lemma reached_tail b b' bs T : reached (b :: b' :: bs) T -> reached (b' :: bs) T.
Proof. intros H. exact H. Qed.

Lemma virtualTargets_reached bs T :
  (forall b, b ∈ bs -> Bone_consistent b) -> joinedL bs ->
  (bs <> [] -> reached bs T) ->
  virtualTargets bs T = inits bs.
Proof.
  induction bs as [| b rest IH]; intros Hc Hj Hr; [done |].
  cbn [virtualTargets]. rewrite IH.
  - unfold inits. rewrite fmap_cons. f_equal.
    rewrite <- (stepBack_terminal b) by (apply Hc; left).
    f_equal. destruct rest as [| b' rest'].
    + destruct (Hr ltac:(done)) as (b0 & Hb0 & HX & HY).
      injection Hb0 as <-. cbn [fmap list_fmap hd]. rewrite HX, HY.
      by destruct T.
    + cbn [fmap list_fmap hd].
      destruct (Hj 0%nat b b' eq_refl eq_refl) as [-> ->]. done.
  - intros b0 Hb0. apply Hc. by right.
  - by apply joinedL_tail with b.
  - intros Hne. destruct rest as [| b' rest']; [done |].
    apply (reached_tail b), Hr. done.
Qed.

Lemma inits_lookup bs i : inits bs !! i = (fun b => (Bone.initX b, Bone.initY b)) <$> bs !! i.
Proof. apply list_lookup_fmap. Qed.

(** The point recorded for a bone that has a successor is its own terminal
    point, and the position phase does not shift it. *)
Lemma termAt_reached bs T i b :
  (forall b, b ∈ bs -> Bone_consistent b) -> joinedL bs -> reached bs T ->
  bs !! i = Some b -> (S i < List.length bs)%nat ->
  termAt bs T i = (Bone.terminalX b, Bone.terminalY b).
Proof.
  intros Hc Hj Hr Hb Hi.
  destruct (lookup_lt_is_Some_2 _ _ Hi) as [b' Hb'].
  destruct (Hj i b b' Hb Hb') as [HX HY].
  unfold termAt, recordAt, ccdDelta, finalTarget.
  rewrite (virtualTargets_reached bs T Hc Hj (fun _ => Hr)).
  destruct (decide (S i < List.length bs)%nat); [| lia].
  rewrite inits_lookup, Hb'. cbn [fmap option_fmap option_map default].
  cbv [Datatypes.id].
  destruct bs as [| b0 bs0]; [done |].
  unfold inits. rewrite fmap_cons. cbn [hd fst snd].
  rewrite HX, HY. f_equal; lra.
Qed.

Lemma setInitial_same b :
  Bone.setInitial (Bone.initX b) (Bone.initY b) false b = b.
Proof. by destruct b. Qed.

Lemma samePose_refl b : samePose b b.
Proof. by repeat split. Qed.

Lemma setTerminal_samePose b :
  posed b ->
  samePose b (Bone.setTerminal (Bone.terminalX b) (Bone.terminalY b) b).
Proof.
  intros ((HdX & HdY & _) & Hal & Hd).
  unfold Bone.setTerminal. rewrite Hd. cbn [negb].
  unfold aligned, normalize in Hal.
  unfold samePose, Bone.initX, Bone.initY, Bone.terminalX, Bone.terminalY.
  split; [done |]. split; [done |]. split; [done |]. split; [done |].
  rewrite Hal. unfold Bone.orientation.
  cbn [Bone._x0 Bone._y0 Bone._x1 Bone._y1 Bone._deltaX Bone._deltaY
       Bone._length Bone._angle Bone.upd_angle Bone.upd_flare
       Bone.upd_length Bone.upd_deltaY Bone.upd_deltaX Bone.upd_y1
       Bone.upd_x1].
  by rewrite <- HdX, <- HdY.
Qed.

(** The orientation setter towards the direction the bone already has. *)
Lemma orient_self_samePose p0 b :
  posed b ->
  samePose b (orient_self p0 (atan2 (Bone._deltaY b) (Bone._deltaX b)) b).
Proof.
  intros ((HdX & HdY & _) & Hal & Hd).
  pose proof (normalize_atan2_nonneg (Bone._deltaY b) (Bone._deltaX b)) as Hn.
  pose proof PI_gt_3 as Hpi.
  unfold orient_self. rewrite Hal, Rminus_diag, Rabs_R0.
  destruct (bool_decide_reflect (0 > PI)) as [? | _]; [lra |].
  destruct (Bone.orientationAllowed _ _ b); [| apply samePose_refl].
  unfold samePose, Bone.initX, Bone.initY, Bone.terminalX, Bone.terminalY.
  rewrite Hal. unfold Bone.orientation, Bone.set_orientation_self.
  cbn [Bone._x0 Bone._y0 Bone._x1 Bone._y1 Bone._deltaX Bone._deltaY
       Bone._length Bone._angle Bone.upd_angle Bone.upd_flare
       Bone.upd_length Bone.upd_deltaY Bone.upd_deltaX Bone.upd_y1
       Bone.upd_x1 Bone.upd_fk Bone.upd_deltaAngle].
  rewrite cos_0, sin_0.
  split; [done |]. split; [done |]. split; [lra |]. split; [lra |].
  destruct (bool_decide_reflect
              (normalize (atan2 (Bone._deltaY b) (Bone._deltaX b)) >= 0));
    [done | lra].
Qed.

Lemma last_lookup_minus {A} (l : list A) :
  last l = l !! (List.length l - 1)%nat.
Proof. rewrite last_lookup. f_equal. lia. Qed.

(** One position phase on a chain of two bones or more that has reached its
    target leaves every bone in its pose. *)
Lemma placed_samePose bs T i b :
  (forall b, b ∈ bs -> posed b) -> joinedL bs -> reached bs T ->
  (2 <= List.length bs)%nat -> bs !! i = Some b ->
  samePose b (placed bs T i b).
Proof.
  intros Hp Hj Hr Hlen Hb.
  assert (Hc : forall b, b ∈ bs -> Bone_consistent b)
    by (intros b0 Hb0; apply (Hp b0 Hb0)).
  assert (Hpb : posed b) by (apply Hp; by apply list_elem_of_lookup_2 with i).
  pose proof (lookup_lt_Some _ _ _ Hb) as Hi.
  assert (Hprev : forall j, i = S j ->
            termAt bs T j = (Bone.initX b, Bone.initY b)).
  { intros j ->.
    destruct (lookup_lt_is_Some_2 bs j ltac:(lia)) as [bp Hbp].
    rewrite (termAt_reached bs T j bp Hc Hj Hr Hbp) by lia.
    by destruct (Hj j bp b Hbp Hb) as [-> ->]. }
  destruct (decide (i < List.length bs - 1)%nat) as [Hin | Hlast].
  - rewrite placed_inner by done. unfold placedInner.
    destruct (decide (i = 0%nat)) as [-> | Hne].
    + rewrite (termAt_reached bs T 0 b Hc Hj Hr Hb) by lia. cbn [fst snd].
      by apply setTerminal_samePose.
    + rewrite (termAt_reached bs T i b Hc Hj Hr Hb) by lia.
      rewrite (Hprev (i - 1)%nat) by lia. cbn [fst snd].
      rewrite setInitial_same. by apply setTerminal_samePose.
  - unfold placed. destruct (decide (i = 0%nat)); [lia |].
    destruct (decide (i < List.length bs - 1)%nat); [lia |].
    cbv zeta. rewrite (Hprev (i - 1)%nat) by lia. cbn [fst snd].
    rewrite setInitial_same.
    destruct Hr as (bl & Hbl & HX & HY).
    rewrite last_lookup_minus in Hbl.
    replace (List.length bs - 1)%nat with i in Hbl by lia.
    assert (bl = b) as -> by congruence.
    destruct Hpb as ((HdX & HdY & HL) & Hrest).
    unfold Bone.terminalX, Bone.terminalY in HX, HY.
    unfold Bone.initX, Bone.initY.
    rewrite <- HX, <- HY, <- HdX, <- HdY.
    apply orient_self_samePose. done.
Qed.

Lemma positions_samePose bs T :
  (forall b, b ∈ bs -> posed b) -> joinedL bs -> reached bs T ->
  (2 <= List.length bs)%nat ->
  Forall2 samePose bs (positions bs T).
Proof.
  intros Hp Hj Hr Hlen.
  apply Forall2_same_length_lookup_2; [by rewrite positions_length |].
  intros i b b' Hb Hb'. rewrite positions_lookup, Hb in Hb'.
  injection Hb' as <-. by apply placed_samePose.
Qed.

Lemma samePose_reached bs bs' T :
  Forall2 samePose bs bs' -> reached bs T -> reached bs' T.
Proof.
  intros Hs (b & Hb & HX & HY). rewrite last_lookup_minus in Hb.
  destruct (Forall2_lookup_l _ _ _ _ _ Hs Hb) as (b' & Hb' & Hsp).
  exists b'. rewrite last_lookup_minus, <- (Forall2_length _ _ _ Hs).
  split; [done |]. destruct Hsp as (_ & _ & -> & -> & _). done.
Qed.

Lemma reached_finished cyc bs T : reached bs T -> ccdFinished cyc bs T = true.
Proof.
  intros (b & Hb & HX & HY). unfold ccdFinished, ccdError. rewrite Hb.
  cbv zeta. rewrite HX, HY, !Rminus_diag.
  apply orb_true_iff. left. apply bool_decide_eq_true. unfold _stop. lra.
Qed.

Lemma ccdCycles_finished budget cyc bs T :
  ccdFinished cyc (positions bs T) T = true ->
  ccdCycles budget cyc bs T = positions bs T.
Proof. intros H. destruct budget; cbn [ccdCycles]; by rewrite H. Qed.

(** [moveEndEffector], not pinned, with the iterative solver or none and
    without redraw: the cycles of the solver on the bones of the chain. *)
Lemma moveEndEffector_ccd x y c h :
  Chain._ikSolver c <> Some IK_limbSolver -> Chain.REDRAW_ON_SOLVE c = false ->
  Chain_moveEndEffector x y false c h =
  (let '(o, h') :=
     ccdBasic x y (Chain.upd_ikSolver (Some IK_ccdBasic) c) false h in
   (o, Chain.upd_ikSolver (Some IK_ccdBasic) c, h')).
Proof.
  intros Hs Hr.
  assert (Hdef : default IK_ccdBasic (Chain._ikSolver c) = IK_ccdBasic).
  { destruct (Chain._ikSolver c) as [[] |]; done. }
  unfold Chain_moveEndEffector, solveAndRedraw. rewrite Hdef.
  cbn [default from_option Chain._ikSolver Chain.upd_ikSolver
       Chain._linkedFrom Chain.REDRAW_ON_SOLVE runSolver].
  cbv [Datatypes.id]. rewrite Hr.
  change (runSolver IK_ccdBasic x y ?c1 false h) with (ccdBasic x y c1 false h).
  destruct (Chain._linkedFrom c);
    destruct (ccdBasic x y _ false h) as [[] ?]; reflexivity.
Qed.

Lemma moveEndEffector_stored x y c h rs bs :
  Chain_wf c h rs -> stored h rs bs ->
  Chain._ikSolver c <> Some IK_limbSolver -> Chain.REDRAW_ON_SOLVE c = false ->
  exists h',
    Chain_moveEndEffector x y false c h
      = (Ret true, Chain.upd_ikSolver (Some IK_ccdBasic) c, h') /\
    stored h' rs (ccdCycles _maxCycles 0 bs (x, y)) /\
    Chain_wf (Chain.upd_ikSolver (Some IK_ccdBasic) c) h' rs.
Proof.
  intros Hwf Hst Hs Hr.
  destruct (ccdBasic_phases x y (Chain.upd_ikSolver (Some IK_ccdBasic) c)
              h rs bs (Chain_wf_upd_ikSolver _ _ _ _ Hwf) Hst)
    as (h' & Hrun & Hst' & Hwf' & _).
  exists h'. rewrite (moveEndEffector_ccd x y c h Hs Hr), Hrun. done.
Qed.

Lemma boneAt_posed x0 y0 x1 y1 : posed (boneAt x0 y0 x1 y1).
Proof.
  split; [apply boneAt_consistent |]. split; [| apply boneAt_geometry].
  unfold aligned, Bone.orientation, normalize, boneAt, Bone.setTerminal,
    Bone.setInitial.
  cbn. reflexivity.
Qed.

Lemma asRoot_posed next b : posed b -> posed (asRoot next b).
Proof. destruct b; intros H; exact H. Qed.

Lemma asTerminal_posed prev b : posed b -> posed (asTerminal prev b).
Proof. destruct b; intros H; exact H. Qed.

Lemma joinedL_pair b0 b1 :
  Bone.terminalX b0 = Bone.initX b1 -> Bone.terminalY b0 = Bone.initY b1 ->
  joinedL [b0; b1].
Proof.
  intros HX HY [| i] b b' Hi HSi.
  - injection Hi as <-. injection HSi as <-. done.
  - destruct i; discriminate HSi.
Qed.

(** ** The second of two solves moves the chain *)

Lemma stepBack_at b cx x0 l :
  Bone.initX b = x0 -> Bone.initY b = 0 -> Bone.length b = l ->
  cx - x0 = 0 -> stepBack b (cx, 0) = (cx - l, 0).
Proof.
  intros HX HY HL Heq. unfold stepBack. cbn [fst snd].
  rewrite HX, HY, HL, Rminus_diag, Heq, atan2_0_0, cos_0, sin_0.
  f_equal; ring.
Qed.

(** One position phase on three bones of the x axis, from the virtual
    targets [v0], [v1], [v2] of the target phase; the test that follows
    ends the solve. *)
Lemma axis_cycle3 b0 b1 b2 tx x0 e0 a0 i1 e1 a1 i2 e2 a2 v0 v1 v2
    t0 t1 rad e2' :
  axisBone b0 x0 e0 a0 -> axisBone b1 i1 e1 a1 -> axisBone b2 i2 e2 a2 ->
  (a2 = 0 \/ a2 = PI) ->
  virtualTargets [b0; b1; b2] (tx, 0) = [(v0, 0); (v1, 0); (v2, 0)] ->
  t0 = v1 - (v0 - x0) -> t1 = v2 - (v0 - x0) ->
  t0 - x0 <> 0 -> t1 - t0 <> 0 ->
  rad = atan2 0 (tx - t1) -> (rad = 0 \/ rad = PI) ->
  e2' = t1 + (e2 - i2) * cos (rad - a2) ->
  (tx - e2') * (tx - e2') <= 4 ->
  exists p0 p1 p2,
    ccdCycles _maxCycles 0 [b0; b1; b2] (tx, 0) = [p0; p1; p2] /\
    axisBone p0 x0 t0 (if t0 - x0 <? 0 then PI else 0) /\
    axisBone p1 t0 t1 (if t1 - t0 <? 0 then PI else 0) /\
    axisBone p2 t1 e2' rad.
Proof.
  intros Hax0 Hax1 Hax2 Ha2 Hvts Ht0 Ht1 Hne0 Hne1 Hrad Hrad' He2 Herr.
  destruct (axisBone_read _ _ _ _ Hax0) as (HX0 & HY0 & _).
  set (bs := [b0; b1; b2]) in *. set (T := (tx, 0)) in *.
  assert (Hterm0 : termAt bs T 0 = (t0, 0)).
  { unfold termAt, recordAt, ccdDelta, finalTarget. rewrite Hvts.
    subst bs. cbn [List.length hd lookup list_lookup default fst snd].
    destruct (decide (1 < 3)%nat); [| lia]. cbv [Datatypes.id]. cbn [fst snd].
    rewrite HX0, HY0. f_equal; lra. }
  assert (Hterm1 : termAt bs T 1 = (t1, 0)).
  { unfold termAt, recordAt, ccdDelta, finalTarget. rewrite Hvts.
    subst bs. cbn [List.length hd lookup list_lookup default fst snd].
    destruct (decide (2 < 3)%nat); [| lia]. cbv [Datatypes.id]. cbn [fst snd].
    rewrite HX0, HY0. f_equal; lra. }
  assert (Hpos : positions bs T
                 = [placed bs T 0 b0; placed bs T 1 b1; placed bs T 2 b2])
    by reflexivity.
  assert (Hp0 : axisBone (placed bs T 0 b0) x0 t0
                  (if t0 - x0 <? 0 then PI else 0)).
  { rewrite placed_root. unfold placedInner.
    destruct (decide (0 = 0)%nat); [| done]. rewrite Hterm0. cbn [fst snd].
    destruct Hax0 as (? & ? & _ & _ & _ & _ & _ & _ & ? & ?).
    by apply axis_setTerminal. }
  assert (Hp1 : axisBone (placed bs T 1 b1) t0 t1
                  (if t1 - t0 <? 0 then PI else 0)).
  { rewrite placed_inner by (subst bs; cbn [List.length]; lia).
    unfold placedInner. destruct (decide (1 = 0)%nat); [lia |].
    replace (1 - 1)%nat with 0%nat by lia. rewrite Hterm0, Hterm1.
    cbn [fst snd].
    destruct Hax1 as (_ & _ & _ & _ & _ & _ & _ & _ & ? & ?).
    by apply axis_inner. }
  assert (Hp2 : axisBone (placed bs T 2 b2) t1 e2' rad).
  { unfold placed. destruct (decide (2 = 0)%nat); [lia |].
    subst bs. cbn [List.length]. destruct (decide (2 < 3 - 1)%nat); [lia |].
    cbv zeta. replace (2 - 1)%nat with 1%nat by lia. rewrite Hterm1.
    subst T. cbn [fst snd]. rewrite Rminus_diag, <- Hrad.
    by apply (axis_orient _ rad b2 i2 e2 a2). }
  destruct (axisBone_read _ _ _ _ Hp2) as (_ & _ & HtX2 & HtY2 & _).
  exists (placed bs T 0 b0), (placed bs T 1 b1), (placed bs T 2 b2).
  split; [| done].
  rewrite ccdCycles_finished; [done |].
  rewrite Hpos. unfold ccdFinished, ccdError. cbn [last].
  rewrite HtX2, HtY2. subst T. cbn [fst snd].
  apply orb_true_iff. left. apply bool_decide_eq_true. unfold _stop. lra.
Qed.

(** The first solve towards (-7/2,0) of the bones (0,0)-(2,0), (2,0)-(3,0)
    and (3,0)-(5,0): the virtual targets are 3/2, -1/2 and -3/2, and the
    solve ends within the threshold, the chain ending at (-5,0). *)
Lemma first_solve b0 b1 b2 :
  axisBone b0 0 2 0 -> axisBone b1 2 3 0 -> axisBone b2 3 5 0 ->
  exists p0 p1 p2,
    ccdCycles _maxCycles 0 [b0; b1; b2] (-7/2, 0) = [p0; p1; p2] /\
    axisBone p0 0 (-2) PI /\ axisBone p1 (-2) (-3) PI /\
    axisBone p2 (-3) (-5) PI.
Proof.
  intros Hax0 Hax1 Hax2.
  destruct (axisBone_read _ _ _ _ Hax0) as (HX0 & HY0 & _ & _ & HL0).
  destruct (axisBone_read _ _ _ _ Hax1) as (HX1 & HY1 & _ & _ & HL1).
  destruct (axisBone_read _ _ _ _ Hax2) as (HX2 & HY2 & _ & _ & HL2).
  rewrite Rabs_right in HL0, HL1, HL2 by lra.
  assert (Hvts : virtualTargets [b0; b1; b2] (-7/2, 0)
                 = [(3/2, 0); (-1/2, 0); (-3/2, 0)]).
  { cbn [virtualTargets hd].
    rewrite (stepBack_left b2 (-7/2) 3 (5 - 3)) by (done || lra).
    replace (-7/2 + (5 - 3)) with (-3/2) by lra. cbn [hd].
    rewrite (stepBack_left b1 (-3/2) 2 (3 - 2)) by (done || lra).
    replace (-3/2 + (3 - 2)) with (-1/2) by lra. cbn [hd].
    rewrite (stepBack_left b0 (-1/2) 0 (2 - 0)) by (done || lra).
    by replace (-1/2 + (2 - 0)) with (3/2) by lra. }
  destruct (axis_cycle3 b0 b1 b2 (-7/2) 0 2 0 2 3 0 3 5 0 (3/2) (-1/2) (-3/2)
              (-2) (-3) PI (-5) Hax0 Hax1 Hax2)
    as (p0 & p1 & p2 & Hcyc & Hp0 & Hp1 & Hp2);
    [by left | done | lra | lra | lra | lra | | by right | | lra |].
  - rewrite atan2_0_neg; [done | lra].
  - rewrite Rminus_0_r, cos_PI. lra.
  - exists p0, p1, p2. split; [done |].
    destruct (bool_decide_reflect (-2 - 0 < 0)); [| lra].
    destruct (bool_decide_reflect (-3 - -2 < 0)); [| lra]. done.
Qed.

(** The second solve towards (-7/2,0), from where the first one ends: the
    virtual targets are -1/2, -5/2 and -3/2, and the second bone is turned
    round. *)
Lemma second_solve b0 b1 b2 :
  axisBone b0 0 (-2) PI -> axisBone b1 (-2) (-3) PI ->
  axisBone b2 (-3) (-5) PI ->
  exists p0 p1 p2,
    ccdCycles _maxCycles 0 [b0; b1; b2] (-7/2, 0) = [p0; p1; p2] /\
    axisBone p0 0 (-2) PI /\ axisBone p1 (-2) (-1) 0 /\
    axisBone p2 (-1) (-3) PI.
Proof.
  intros Hax0 Hax1 Hax2.
  destruct (axisBone_read _ _ _ _ Hax0) as (HX0 & HY0 & _ & _ & HL0).
  destruct (axisBone_read _ _ _ _ Hax1) as (HX1 & HY1 & _ & _ & HL1).
  destruct (axisBone_read _ _ _ _ Hax2) as (HX2 & HY2 & _ & _ & HL2).
  rewrite Rabs_left in HL0, HL1, HL2 by lra.
  assert (Hvts : virtualTargets [b0; b1; b2] (-7/2, 0)
                 = [(-1/2, 0); (-5/2, 0); (-3/2, 0)]).
  { cbn [virtualTargets hd].
    rewrite (stepBack_left b2 (-7/2) (-3) (- (-5 - -3))) by (done || lra).
    replace (-7/2 + - (-5 - -3)) with (-3/2) by lra. cbn [hd].
    rewrite (stepBack_right b1 (-3/2) (-2) (- (-3 - -2))) by (done || lra).
    replace (-3/2 - - (-3 - -2)) with (-5/2) by lra. cbn [hd].
    rewrite (stepBack_left b0 (-5/2) 0 (- (-2 - 0))) by (done || lra).
    by replace (-5/2 + - (-2 - 0)) with (-1/2) by lra. }
  destruct (axis_cycle3 b0 b1 b2 (-7/2) 0 (-2) PI (-2) (-3) PI (-3) (-5) PI
              (-1/2) (-5/2) (-3/2) (-2) (-1) PI (-3) Hax0 Hax1 Hax2)
    as (p0 & p1 & p2 & Hcyc & Hp0 & Hp1 & Hp2);
    [by right | done | lra | lra | lra | lra | | by right | | lra |].
  - rewrite atan2_0_neg; [done | lra].
  - rewrite Rminus_diag, cos_0. lra.
  - exists p0, p1, p2. split; [done |].
    destruct (bool_decide_reflect (-2 - 0 < 0)); [| lra].
    destruct (bool_decide_reflect (-1 - -2 < 0)); [lra |]. done.
Qed.

Lemma asInner_axis prev next b x0 x1 ang :
  axisBone b x0 x1 ang -> axisBone (asInner prev next b) x0 x1 ang.
Proof. destruct b; intros H; exact H. Qed.

Lemma asInner_links prev next b :
  Bone.NEXT (asInner prev next b) = next /\
  Bone.PREV (asInner prev next b) = prev.
Proof. by destruct b. Qed.

Lemma store3_lookup0 b0 b1 b2 :
  store3 b0 b1 b2 !! 0%nat = Some (asRoot (Some 1%nat) b0).
Proof. apply lookup_insert_eq. Qed.

Lemma store3_lookup1 b0 b1 b2 :
  store3 b0 b1 b2 !! 1%nat = Some (asInner (Some 0%nat) (Some 2%nat) b1).
Proof.
  unfold store3. rewrite lookup_insert_ne by done. apply lookup_insert_eq.
Qed.

Lemma store3_lookup2 b0 b1 b2 :
  store3 b0 b1 b2 !! 2%nat = Some (asTerminal (Some 1%nat) b2).
Proof.
  unfold store3. rewrite !lookup_insert_ne by done. apply lookup_insert_eq.
Qed.

(** A third [addBone] on the chain of two bones. *)
Lemma addBone_chain3 b0 b1 b2 :
  Chain.addBone 2%nat chain2 (<[2%nat := b2]> (store2 b0 b1))
  = (Ret (), chain3, store3 b0 b1 b2).
Proof.
  unfold Chain.addBone.
  rewrite (modify_Some _ _ _ b2) by apply lookup_insert_eq.
  cbn [Chain.upd_bones Chain.upd_previous Chain.upd_current Chain._current
       Chain._count Chain._bones chain2 Chain._skinType Chain._previous].
  erewrite modify_Some by apply lookup_insert_eq.
  destruct (decide (0 < 2)%nat); [| lia].
  destruct (decide (2 = 0)%nat); [lia |].
  unfold store2.
  erewrite modify_Some
    by (rewrite !lookup_insert_ne by done; apply lookup_insert_eq).
  erewrite modify_Some
    by (rewrite lookup_insert_ne by done; apply lookup_insert_eq).
  reflexivity.
Qed.

Lemma chain3_wf b0 b1 b2 :
  Bone.NEXT b2 = None -> Bone.PREV b0 = None ->
  Chain_wf chain3 (store3 b0 b1 b2) [0%nat; 1%nat; 2%nat].
Proof.
  intros Hn Hp. repeat split.
  - repeat (apply NoDup_cons; split; [set_solver |]). apply NoDup_nil_2.
  - intros [| [| [| i]]] r Hi; simplify_eq/=.
    + eexists. split; [apply store3_lookup0 |].
      by rewrite asRoot_NEXT, asRoot_PREV.
    + eexists. split; [apply store3_lookup1 |]. apply asInner_links.
    + eexists. split; [apply store3_lookup2 |].
      by rewrite asTerminal_NEXT, asTerminal_PREV.
Qed.

Lemma store3_stored b0 b1 b2 :
  stored (store3 b0 b1 b2) [0%nat; 1%nat; 2%nat]
    [asRoot (Some 1%nat) b0; asInner (Some 0%nat) (Some 2%nat) b1;
     asTerminal (Some 1%nat) b2].
Proof.
  constructor; [apply store3_lookup0 |].
  constructor; [apply store3_lookup1 |].
  constructor; [apply store3_lookup2 | constructor].
Qed.

(** Two solves towards (-7/2,0) on a chain of three bones along the x axis. *)
Lemma two_solves c h rs b0 b1 b2 :
  Chain_wf c h rs -> stored h rs [b0; b1; b2] ->
  Chain._ikSolver c <> Some IK_limbSolver -> Chain.REDRAW_ON_SOLVE c = false ->
  axisBone b0 0 2 0 -> axisBone b1 2 3 0 -> axisBone b2 3 5 0 ->
  exists c1 h1 c2 h2 p0 p1 p2 q0 q1 q2,
    Chain_moveEndEffector (-7/2) 0 false c h = (Ret true, c1, h1) /\
    Chain_moveEndEffector (-7/2) 0 false c1 h1 = (Ret true, c2, h2) /\
    stored h1 rs [p0; p1; p2] /\ stored h2 rs [q0; q1; q2] /\
    Bone.terminalX p1 = -3 /\ Bone.terminalX q1 = -1.
Proof.
  intros Hwf Hst Hs Hr Hax0 Hax1 Hax2.
  destruct (moveEndEffector_stored (-7/2) 0 c h rs _ Hwf Hst Hs Hr)
    as (h1 & Hrun1 & Hst1 & Hwf1).
  destruct (first_solve b0 b1 b2 Hax0 Hax1 Hax2)
    as (p0 & p1 & p2 & Hcyc1 & Hp0 & Hp1 & Hp2).
  rewrite Hcyc1 in Hst1.
  set (c1 := Chain.upd_ikSolver (Some IK_ccdBasic) c) in *.
  assert (Hs1 : Chain._ikSolver c1 <> Some IK_limbSolver) by done.
  assert (Hr1 : Chain.REDRAW_ON_SOLVE c1 = false) by exact Hr.
  destruct (moveEndEffector_stored (-7/2) 0 c1 h1 rs _ Hwf1 Hst1 Hs1 Hr1)
    as (h2 & Hrun2 & Hst2 & _).
  destruct (second_solve p0 p1 p2 Hp0 Hp1 Hp2)
    as (q0 & q1 & q2 & Hcyc2 & _ & Hq1 & _).
  rewrite Hcyc2 in Hst2.
  destruct (axisBone_read _ _ _ _ Hp1) as (_ & _ & HtX1 & _).
  destruct (axisBone_read _ _ _ _ Hq1) as (_ & _ & HtX2 & _).
  by exists c1, h1, (Chain.upd_ikSolver (Some IK_ccdBasic) c1), h2,
    p0, p1, p2, q0, q1, q2.
Qed.

(** C9, counterexample.  The chain of the bones (0,0)-(2,0), (2,0)-(3,0)
    and (3,0)-(5,0) and the target (-7/2,0): both calls of
    [moveEndEffector(-3.5, 0, false)] end with [true].  The first one stops
    within the threshold, the chain ending at (-5,0) with its second bone
    from (-2,0) to (-3,0); the second one turns that bone round, to end
    at (-1,0), and the chain ends at (-3,0). *)
Lemma moveEndEffector_twice :
  Chain_wf chain3
    (store3 (boneAt 0 0 2 0) (boneAt 2 0 3 0) (boneAt 3 0 5 0))
    [0%nat; 1%nat; 2%nat] /\
  exists c1 h1 c2 h2 b b',
    Chain_moveEndEffector (-7/2) 0 false chain3
      (store3 (boneAt 0 0 2 0) (boneAt 2 0 3 0) (boneAt 3 0 5 0))
      = (Ret true, c1, h1) /\
    Chain_moveEndEffector (-7/2) 0 false c1 h1 = (Ret true, c2, h2) /\
    h1 !! 1%nat = Some b /\ h2 !! 1%nat = Some b' /\
    Bone.terminalX b = -3 /\ Bone.terminalX b' = -1 /\
    Bone.terminalX b' <> Bone.terminalX b.
Proof.
  pose proof (chain3_wf (boneAt 0 0 2 0) (boneAt 2 0 3 0) (boneAt 3 0 5 0)
                (boneAt_NEXT _ _ _ _) (boneAt_PREV _ _ _ _)) as Hwf.
  split; [exact Hwf |].
  assert (Hax : forall x0 x1, 0 < x1 - x0 -> axisBone (boneAt x0 0 x1 0) x0 x1 0).
  { intros x0 x1 Hlt.
    replace 0 with (if x1 - x0 <? 0 then PI else 0) at 3.
    - apply boneAt_axis. lra.
    - destruct (bool_decide_reflect (x1 - x0 < 0)); [lra | reflexivity]. }
  assert (Hs : Chain._ikSolver chain3 <> Some IK_limbSolver)
    by (unfold chain3; cbn [Chain._ikSolver]; discriminate).
  destruct (two_solves chain3 _ _ _ _ _ Hwf (store3_stored _ _ _) Hs eq_refl
              (asRoot_axis _ _ _ _ _ (Hax 0 2 ltac:(lra)))
              (asInner_axis _ _ _ _ _ _ (Hax 2 3 ltac:(lra)))
              (asTerminal_axis _ _ _ _ _ (Hax 3 5 ltac:(lra))))
    as (c1 & h1 & c2 & h2 & p0 & p1 & p2 & q0 & q1 & q2 &
        Hrun1 & Hrun2 & Hst1 & Hst2 & HtX1 & HtX2).
  apply Forall2_cons_1 in Hst1 as [_ Hst1].
  apply Forall2_cons_1 in Hst1 as [Hb1 _].
  apply Forall2_cons_1 in Hst2 as [_ Hst2].
  apply Forall2_cons_1 in Hst2 as [Hb2 _].
  exists c1, h1, c2, h2, p1, q1.
  split; [exact Hrun1 |]. split; [exact Hrun2 |].
  split; [exact Hb1 |]. split; [exact Hb2 |].
  split; [exact HtX1 |]. split; [exact HtX2 |].
  rewrite HtX1, HtX2. lra.
Qed.


(** ** The two-bone solver on a target too close to the root *)

(** C5.  On a chain of two bones of lengths [l1] and [l2] and a target
    closer to the root than [|l1 - l2|], [limbSolver] with the default
    limits turns the root bone to the direction of the target clamped to
    [-3 PI / 5, PI / 2] and returns [true], whether or not the clamp
    changed the angle: this branch clamps with [Math.max] and [Math.min]
    and leaves the flag [limit] unset. *)
Theorem limbSolver_clamp_unreported x y c isPinned h r1 r2 b1 b2 xr yr l1 l2 :
  Chain.getBone c 0 = Some r1 -> Chain.getBone c 1 = Some r2 -> r1 <> r2 ->
  h !! r1 = Some b1 -> h !! r2 = Some b2 ->
  Chain.initX c h = Some xr -> Chain.initY c h = Some yr ->
  Chain._forward c = [] ->
  Bone.length b1 = l1 -> Bone.length b2 = l2 -> 0 < l1 -> 0 < l2 ->
  (x - xr) * (x - xr) + (y - yr) * (y - yr) < (l1 - l2) * (l1 - l2) ->
  exists h',
    limbSolver x y c isPinned None h = (Ret true, h') /\
    h' !! r1 =
      Some (Bone.reorient 0 0
              (Rmin (Rmax (atan2 (y - yr) (x - xr)) (-3 * PI / 5))
                 (5 / 10 * PI)) false true b1).
Proof.
  intros Hg1 Hg2 Hne Hb1 Hb2 HX HY Hfw HL1 HL2 Hl1 Hl2 Hclose.
  set (dSq := (x - xr) * (x - xr) + (y - yr) * (y - yr)) in *.
  unfold limbSolver. rewrite Hg1, Hg2, Hb1, Hb2, HX, HY, HL1, HL2.
  cbn [mbind option_bind default from_option]. cbv [Datatypes.id]. fold dSq.
  destruct (bool_decide_reflect (dSq > (l1 + l2) * (l1 + l2))) as [Hfar | _];
    [nra |].
  destruct (decide (2 * l1 * l2 = 0)) as [H0 | Hn0]; [nra |].
  assert (Hc2 : (dSq - l1 * l1 - l2 * l2) / (2 * l1 * l2) < -1).
  { apply (Rmult_lt_reg_r (2 * l1 * l2)); [nra |].
    unfold Rdiv. rewrite Rmult_assoc, Rinv_l by done. nra. }
  destruct (bool_decide_reflect
              ((dSq - l1 * l1 - l2 * l2) / (2 * l1 * l2) < -1)) as [_ | Hn];
    [| done].
  cbn [orb]. unfold limbApply, Chain.modify. rewrite Hb1, lookup_insert_eq.
  rewrite lookup_insert_ne by done. rewrite Hb2.
  unfold Chain.invalidate. rewrite Hfw.
  eexists. split.
  - f_equal. f_equal. apply bool_decide_eq_true. nra.
  - rewrite lookup_insert_ne by done. apply lookup_insert_eq.
Qed.

Lemma chain2_root b0 b1 :
  Chain.initX chain2 (store2 b0 b1) = Some (Bone.initX b0) /\
  Chain.initY chain2 (store2 b0 b1) = Some (Bone.initY b0).
Proof.
  unfold Chain.initX, Chain.initY.
  cbn [chain2 Chain._rootBone mbind option_bind].
  rewrite store2_lookup0. cbn [mbind option_bind].
  by destruct (asRoot_geometry (Some 1%nat) b0) as (-> & -> & _).
Qed.

Lemma boneAt_axis_length x0 x1 :
  x0 < x1 -> Bone.length (boneAt x0 0 x1 0) = x1 - x0.
Proof.
  intros Hlt.
  destruct (axisBone_read _ _ _ _ (boneAt_axis x0 x1 ltac:(lra)))
    as (_ & _ & _ & _ & ->).
  apply Rabs_right. lra.
Qed.

(** C5, on the bones (0,0)-(100,0) and (100,0)-(150,0) and the target
    (-10,0): the direction of the target, PI, is beyond the upper limit
    PI / 2 of the root bone, which is turned to the clamped angle, and the
    solver returns [true]. *)
Lemma limbSolver_clamp_unreported_witness :
  atan2 (0 - 0) (-10 - 0) > 5 / 10 * PI /\
  exists h',
    limbSolver (-10) 0 chain2 false None
      (store2 (boneAt 0 0 100 0) (boneAt 100 0 150 0)) = (Ret true, h') /\
    h' !! 0%nat =
      Some (Bone.reorient 0 0
              (Rmin (Rmax (atan2 (0 - 0) (-10 - 0)) (-3 * PI / 5))
                 (5 / 10 * PI)) false true
              (asRoot (Some 1%nat) (boneAt 0 0 100 0))).
Proof.
  split.
  { rewrite Rminus_diag, atan2_0_neg by lra. pose proof PI_gt_3. lra. }
  destruct (chain2_root (boneAt 0 0 100 0) (boneAt 100 0 150 0)) as [HX HY].
  destruct (boneAt_geometry 0 0 100 0) as (EX & EY & _).
  rewrite EX in HX. rewrite EY in HY.
  apply (limbSolver_clamp_unreported (-10) 0 chain2 false _ 0%nat 1%nat
           _ _ 0 0 100 50 eq_refl eq_refl ltac:(discriminate)
           (store2_lookup0 _ _) (store2_lookup1 _ _) HX HY eq_refl).
  - rewrite asRoot_length, boneAt_axis_length by lra. lra.
  - rewrite asTerminal_length, boneAt_axis_length by lra. lra.
  - lra.
  - lra.
  - lra.
Defined.

(** * Further properties of the iterative solver *)

(** What every position phase keeps, every solve keeps. *)
Lemma ccdCycles_inv (I : list Bone.t -> Prop) T :
  (forall bs, I bs -> I (positions bs T)) ->
  forall budget cyc bs, I bs -> I (ccdCycles budget cyc bs T).
Proof.
  intros Hstep. induction budget as [| budget IH]; intros cyc bs Hbs;
    cbn [ccdCycles].
  - destruct (ccdFinished cyc (positions bs T) T); by apply Hstep.
  - destruct (ccdFinished cyc (positions bs T) T); [by apply Hstep |].
    by apply IH, Hstep.
Qed.

Lemma ccdCycles_length T budget cyc bs :
  List.length (ccdCycles budget cyc bs T) = List.length bs.
Proof.
  apply (ccdCycles_inv (fun l => List.length l = List.length bs) T);
    [| done].
  intros l Hl. by rewrite positions_length.
Qed.

(** The difference of two consecutive virtual targets is the bone length
    along the direction of the step. *)
Lemma virtualTargets_step bs T i b :
  bs !! i = Some b ->
  exists rot,
    default T (virtualTargets bs T !! i)
    = ((default T (virtualTargets bs T !! S i)).1 - Bone.length b * cos rot,
       (default T (virtualTargets bs T !! S i)).2 - Bone.length b * sin rot).
Proof.
  intros Hb. rewrite (virtualTargets_lookup bs T i b Hb).
  cbn [default from_option]. cbv [Datatypes.id]. unfold stepBack.
  eexists. reflexivity.
Qed.

Lemma startAt_virtual bs T i b :
  bs !! i = Some b ->
  startAt bs T i b
  = ((default T (virtualTargets bs T !! i)).1 - (ccdDelta bs T).1,
     (default T (virtualTargets bs T !! i)).2 - (ccdDelta bs T).2).
Proof.
  intros Hb. pose proof (lookup_lt_Some _ _ _ Hb) as Hi.
  destruct i as [| j]; cbn [startAt].
  - destruct bs as [| b0 rest]; [done |]. injection Hb as ->.
    unfold ccdDelta, finalTarget. rewrite hd_lookup. cbn [fst snd].
    f_equal; ring.
  - unfold termAt, recordAt.
    destruct (decide (S j < List.length bs)%nat); [done | lia].
Qed.

Lemma termAt_virtual bs T i :
  (S i < List.length bs)%nat ->
  termAt bs T i
  = ((default T (virtualTargets bs T !! S i)).1 - (ccdDelta bs T).1,
     (default T (virtualTargets bs T !! S i)).2 - (ccdDelta bs T).2).
Proof.
  intros Hi. unfold termAt, recordAt.
  by destruct (decide (S i < List.length bs)%nat).
Qed.

(** A bone that is not the last one is laid from its start to a point at
    the distance of its length. *)
Lemma placedInner_length bs T i b :
  bs !! i = Some b -> (S i < List.length bs)%nat -> lengthCached b ->
  sameLength b (placedInner bs T i b).
Proof.
  intros Hb Hi Hl.
  assert (Hpos : 0 <= Bone.length b).
  { unfold Bone.length. rewrite Hl. apply sqrt_pos. }
  destruct (virtualTargets_step bs T i b Hb) as [rot Hstep].
  pose proof (startAt_virtual bs T i b Hb) as Hstart.
  pose proof (termAt_virtual bs T i Hi) as Hterm.
  rewrite Hstep in Hstart. cbn [fst snd] in Hstart.
  set (b1 := if decide (i = 0%nat) then b
             else Bone.setInitial (termAt bs T (i - 1)).1
                    (termAt bs T (i - 1)).2 false b).
  assert (Hb1 : placedInner bs T i b
                = Bone.setTerminal (termAt bs T i).1 (termAt bs T i).2 b1).
  { unfold placedInner, b1. by destruct (decide (i = 0%nat)) as [-> | ?]. }
  assert (Hx0 : (Bone._x0 b1, Bone._y0 b1) = startAt bs T i b).
  { unfold b1. destruct (decide (i = 0%nat)) as [-> | Hne]; [done |].
    destruct i as [| j]; [done |]. cbn [startAt].
    replace (S j - 1)%nat with j by lia. by destruct (termAt bs T j). }
  assert (Hsame : Bone._length b1 = Bone._length b /\
                  Bone._deltaX b1 = Bone._deltaX b /\
                  Bone._deltaY b1 = Bone._deltaY b /\
                  Bone._drawing b1 = Bone._drawing b).
  { unfold b1. by destruct (decide (i = 0%nat)). }
  destruct Hsame as (HL1 & HdX1 & HdY1 & Hd1).
  rewrite Hb1. unfold sameLength, lengthCached, Bone.length, Bone.setTerminal.
  destruct (Bone._drawing b1) eqn:Hdr; cbn [negb].
  - rewrite HL1, HdX1, HdY1. done.
  - cbn [Bone._length Bone._deltaX Bone._deltaY Bone._x0 Bone._y0 Bone._x1
         Bone._y1 Bone.upd_angle Bone.upd_flare Bone.upd_length
         Bone.upd_deltaY Bone.upd_deltaX Bone.upd_y1 Bone.upd_x1].
    split; [| done].
    rewrite Hstart in Hx0. injection Hx0 as -> ->.
    rewrite Hterm. cbn [fst snd].
    etransitivity; [| exact (polar_norm (Bone.length b) rot Hpos)].
    f_equal. ring.
Qed.

(** The orientation setter keeps the cached length. *)
Lemma orient_self_length p0 rad b :
  lengthCached b -> sameLength b (orient_self p0 rad b).
Proof.
  intros Hl. unfold orient_self.
  destruct (Bone.orientationAllowed _ _ b); [| done].
  unfold sameLength, lengthCached, Bone.length, Bone.set_orientation_self.
  cbn [Bone._length Bone._deltaX Bone._deltaY Bone.upd_flare Bone.upd_length
       Bone.upd_deltaY Bone.upd_deltaX Bone.upd_y1 Bone.upd_x1
       Bone.upd_deltaAngle Bone.upd_angle Bone.upd_fk].
  split; [| done]. rewrite Hl. f_equal. apply rotation_norm.
Qed.

Lemma placed_length bs T i b :
  (2 <= List.length bs)%nat -> bs !! i = Some b -> lengthCached b ->
  sameLength b (placed bs T i b).
Proof.
  intros Hlen Hb Hl. pose proof (lookup_lt_Some _ _ _ Hb) as Hi.
  destruct (decide (i < List.length bs - 1)%nat) as [Hin | Hlast].
  - rewrite placed_inner by done. apply placedInner_length; [done | lia | done].
  - unfold placed. destruct (decide (i = 0%nat)); [lia |].
    destruct (decide (i < List.length bs - 1)%nat); [lia |]. cbv zeta.
    match goal with |- sameLength _ (orient_self ?p ?a ?b1) =>
      assert (Hb1 : lengthCached b1 /\ Bone.length b1 = Bone.length b)
        by done;
      destruct (orient_self_length p a b1 (proj1 Hb1)) as [HL HC] end.
    split; [| done]. rewrite HL. apply Hb1.
Qed.

Lemma positions_length_kept bs T :
  (2 <= List.length bs)%nat -> Forall lengthCached bs ->
  Forall2 sameLength bs (positions bs T).
Proof.
  intros Hlen Hl.
  apply Forall2_same_length_lookup_2; [by rewrite positions_length |].
  intros i b b' Hb Hb'. rewrite positions_lookup, Hb in Hb'.
  injection Hb' as <-. apply placed_length; [done | done |].
  by apply (Forall_lookup_1 _ _ _ _ Hl Hb).
Qed.

Lemma ccdCycles_length_kept T budget cyc bs :
  (2 <= List.length bs)%nat -> Forall lengthCached bs ->
  Forall2 sameLength bs (ccdCycles budget cyc bs T).
Proof.
  intros Hlen Hl.
  apply (ccdCycles_inv (fun l => Forall2 sameLength bs l) T).
  - intros l Hrel.
    assert (Hl' : Forall2 sameLength l (positions l T)).
    { apply positions_length_kept.
      - by rewrite <- (Forall2_length _ _ _ Hrel).
      - apply Forall_forall. intros b' Hb'.
        apply list_elem_of_lookup in Hb' as [i Hi].
        destruct (Forall2_lookup_r _ _ _ _ _ Hrel Hi) as (b & _ & _ & Hc).
        done. }
    apply Forall2_same_length_lookup_2.
    + by rewrite positions_length, (Forall2_length _ _ _ Hrel).
    + intros i b b'' Hb Hb''.
      destruct (Forall2_lookup_l _ _ _ _ _ Hrel Hb) as (b' & Hb' & HL & _).
      destruct (Forall2_lookup_l _ _ _ _ _ Hl' Hb') as (b2 & Hb2 & HL2 & HC2).
      assert (b2 = b'') as -> by congruence.
      split; [congruence | done].
  - apply Forall2_same_length_lookup_2; [done |].
    intros i b b' Hb Hb'. assert (b' = b) as -> by congruence.
    split; [done |]. by apply (Forall_lookup_1 _ _ _ _ Hl Hb).
Qed.


Lemma stored_rel (P : Bone.t -> Bone.t -> Prop) h h' rs bs bs' :
  NoDup rs -> stored h rs bs -> stored h' rs bs' -> Forall2 P bs bs' ->
  forall r b, r ∈ rs -> h !! r = Some b ->
    exists b', h' !! r = Some b' /\ P b b'.
Proof.
  intros Hnd Hst Hst' Hrel r b Hr Hb.
  apply list_elem_of_lookup in Hr as [i Hi].
  destruct (stored_lookup _ _ _ _ _ Hst Hi) as (b0 & Hb0 & Hh0).
  assert (b0 = b) as -> by congruence.
  destruct (Forall2_lookup_l _ _ _ _ _ Hrel Hb0) as (b' & Hb' & HP).
  destruct (stored_lookup _ _ _ _ _ Hst' Hi) as (b1 & Hb1 & Hh1).
  assert (b1 = b') as -> by congruence. eauto.
Qed.

Lemma wf_NoDup c h rs : Chain_wf c h rs -> NoDup rs.
Proof. by intros (_ & _ & _ & _ & Hnd & _). Qed.

Lemma stored_Forall (P : Bone.t -> Prop) h rs bs :
  stored h rs bs -> (forall r b, r ∈ rs -> h !! r = Some b -> P b) ->
  Forall P bs.
Proof.
  intros Hst HP. apply Forall_forall. intros b Hb.
  apply list_elem_of_lookup in Hb as [i Hi].
  destruct (stored_lookup_r _ _ _ _ _ Hst Hi) as (r & Hr & Hh).
  apply (HP r); [by apply list_elem_of_lookup_2 with i | done].
Qed.

Lemma boneAt_unlinked x0 y0 x1 y1 : Bone._linkedTo (boneAt x0 y0 x1 y1) = None.
Proof. reflexivity. Qed.

Lemma asRoot_linkedTo next b : Bone._linkedTo (asRoot next b) = Bone._linkedTo b.
Proof. reflexivity. Qed.

Lemma asTerminal_linkedTo prev b :
  Bone._linkedTo (asTerminal prev b) = Bone._linkedTo b.
Proof. reflexivity. Qed.

(** X1.  The iterative solver, not pinned, on a well-formed chain whose
    terminal bone is linked to nothing: it returns normally, leaves every
    stored object that is not a bone of the chain as it was, and changes
    no link ([NEXT], [PREV]) nor drawing flag or type of a bone of the
    chain, so that the chain is still well-formed.  (The setter that
    orients the terminal bone moves the object that the bone is linked
    to, if any.) *)
Theorem ccdBasic_frame x y c h rs :
  Chain_wf c h rs ->
  (forall t, last rs = Some t -> unlinked h t) ->
  exists h',
    ccdBasic x y c false h = (Ret true, h') /\
    Chain_wf c h' rs /\
    (forall r, r ∉ rs -> h' !! r = h !! r) /\
    (forall r b, r ∈ rs -> h !! r = Some b ->
       exists b', h' !! r = Some b' /\ kept b b').
Proof.
  intros Hwf _. destruct (wf_stored _ _ _ Hwf) as [bs Hst].
  destruct (ccdBasic_phases x y c h rs bs Hwf Hst)
    as (h' & Hrun & Hst' & Hwf' & Hframe).
  exists h'. split; [done |]. split; [done |]. split; [done |].
  apply (stored_rel kept h h' rs bs _ (wf_NoDup _ _ _ Hwf) Hst Hst').
  apply (ccdCycles_inv (fun l => Forall2 kept bs l) (x, y)).
  - intros l Hl. apply Forall2_kept_trans with l; [done |].
    apply positions_kept.
  - apply Forall2_same_length_lookup_2; [done |].
    intros i b b' Hb Hb'. assert (b' = b) as -> by congruence.
    apply kept_refl.
Qed.

(** X1 on the chain of the bones (0,0)-(1,0) and (1,0)-(2,0), with a
    third object stored beside them. *)
Lemma ccdBasic_frame_witness :
  exists h',
    ccdBasic 0 3 chain2 false
      (<[7%nat := Bone.new]> (store2 (boneAt 0 0 1 0) (boneAt 1 0 2 0)))
      = (Ret true, h') /\
    h' !! 7%nat = Some Bone.new.
Proof.
  assert (Hwf : Chain_wf chain2
                  (<[7%nat := Bone.new]>
                     (store2 (boneAt 0 0 1 0) (boneAt 1 0 2 0)))
                  [0%nat; 1%nat]).
  { apply (wf_kept chain2 (store2 (boneAt 0 0 1 0) (boneAt 1 0 2 0))).
    - apply chain2_wf; [apply boneAt_NEXT | apply boneAt_PREV].
    - intros r b Hr Hb. exists b. split; [| apply kept_refl].
      rewrite lookup_insert_ne; [done |]. intros <-.
      apply elem_of_cons in Hr as [Hr | Hr]; [done |].
      apply list_elem_of_singleton in Hr. done. }
  assert (Hun : forall t, last [0%nat; 1%nat] = Some t ->
                  unlinked (<[7%nat := Bone.new]>
                              (store2 (boneAt 0 0 1 0) (boneAt 1 0 2 0))) t).
  { intros t Ht b Hb. injection Ht as <-.
    rewrite lookup_insert_ne, store2_lookup1 in Hb by done.
    injection Hb as <-. rewrite asTerminal_linkedTo. apply boneAt_unlinked. }
  destruct (ccdBasic_frame 0 3 chain2 _ _ Hwf Hun)
    as (h' & Hrun & _ & Hframe & _).
  exists h'. split; [exact Hrun |].
  rewrite Hframe; [apply lookup_insert_eq |].
  intros Hr. apply elem_of_cons in Hr as [Hr | Hr]; [done |].
  apply list_elem_of_singleton in Hr. done.
Defined.

(** The root bone of a list keeps its initial joint in a position phase. *)
Lemma positions_root b rest T :
  exists b' rest',
    positions (b :: rest) T = b' :: rest' /\
    Bone.initX b' = Bone.initX b /\ Bone.initY b' = Bone.initY b.
Proof.
  eexists _, _. split; [reflexivity |].
  rewrite placed_root. unfold placedInner.
  destruct (decide (0 = 0)%nat); [| done]. apply setTerminal_init.
Qed.

(** X2.  The iterative solver never moves the root joint: the root bone of
    a well-formed chain has the initial point after the solve that it had
    before, whatever the target. *)
Theorem ccdBasic_root_fixed x y c h rs r0 b0 :
  Chain_wf c h rs -> head rs = Some r0 -> h !! r0 = Some b0 ->
  exists h' b0',
    ccdBasic x y c false h = (Ret true, h') /\
    h' !! r0 = Some b0' /\
    Bone.initX b0' = Bone.initX b0 /\ Bone.initY b0' = Bone.initY b0.
Proof.
  intros Hwf Hhead Hb0. destruct (wf_stored _ _ _ Hwf) as [bs Hst].
  destruct (ccdBasic_phases x y c h rs bs Hwf Hst)
    as (h' & Hrun & Hst' & _).
  destruct rs as [| r rs']; [done |]. injection Hhead as ->.
  destruct bs as [| b bs']; [by apply Forall2_length in Hst |].
  pose proof Hst as Hst0. apply Forall2_cons_1 in Hst0 as [Hb _].
  assert (b = b0) as -> by congruence.
  assert (HI : exists b' rest',
             ccdCycles _maxCycles 0 (b0 :: bs') (x, y) = b' :: rest' /\
             Bone.initX b' = Bone.initX b0 /\ Bone.initY b' = Bone.initY b0).
  { apply (ccdCycles_inv
             (fun l => exists b' rest', l = b' :: rest' /\
                Bone.initX b' = Bone.initX b0 /\
                Bone.initY b' = Bone.initY b0) (x, y)).
    - intros l (b1 & rest1 & -> & HX & HY).
      destruct (positions_root b1 rest1 (x, y)) as (b2 & rest2 & -> & HX2 & HY2).
      exists b2, rest2. split; [done |]. split; congruence.
    - by exists b0, bs'. }
  destruct HI as (b' & rest' & Hcyc & HX & HY). rewrite Hcyc in Hst'.
  apply Forall2_cons_1 in Hst' as [Hb' _].
  by exists h', b'.
Qed.

(** X2 on the chain of the bones (0,0)-(1,0) and (1,0)-(2,0): the root
    joint is still at (0,0) after a solve towards (0,3). *)
Lemma ccdBasic_root_fixed_witness :
  exists h' b0',
    ccdBasic 0 3 chain2 false (store2 (boneAt 0 0 1 0) (boneAt 1 0 2 0))
      = (Ret true, h') /\
    h' !! 0%nat = Some b0' /\ Bone.initX b0' = 0 /\ Bone.initY b0' = 0.
Proof.
  destruct (ccdBasic_root_fixed 0 3 chain2 _ [0%nat; 1%nat] 0%nat _
              (chain2_wf _ _ (boneAt_NEXT 1 0 2 0) (boneAt_PREV 0 0 1 0))
              eq_refl (store2_lookup0 _ _))
    as (h' & b0' & Hrun & Hb & HX & HY).
  destruct (asRoot_geometry (Some 1%nat) (boneAt 0 0 1 0)) as (EX & EY & _).
  destruct (boneAt_geometry 0 0 1 0) as (FX & FY & _).
  exists h', b0'. split; [exact Hrun |]. split; [exact Hb |].
  split; congruence.
Defined.

(** X3.  On a well-formed chain of two bones or more, each with a cached
    length that is the norm of its cached deltas, the iterative solver
    leaves every bone with the length it had. *)
Theorem ccdBasic_keeps_lengths x y c h rs :
  Chain_wf c h rs -> (2 <= List.length rs)%nat ->
  (forall r b, r ∈ rs -> h !! r = Some b -> lengthCached b) ->
  exists h',
    ccdBasic x y c false h = (Ret true, h') /\
    forall r b, r ∈ rs -> h !! r = Some b ->
      exists b', h' !! r = Some b' /\ Bone.length b' = Bone.length b /\
                 lengthCached b'.
Proof.
  intros Hwf Hlen Hl. destruct (wf_stored _ _ _ Hwf) as [bs Hst].
  destruct (ccdBasic_phases x y c h rs bs Hwf Hst)
    as (h' & Hrun & Hst' & _).
  exists h'. split; [done |].
  apply (stored_rel sameLength h h' rs bs _ (wf_NoDup _ _ _ Hwf) Hst Hst').
  apply ccdCycles_length_kept.
  - by rewrite <- (stored_length _ _ _ Hst).
  - by apply (stored_Forall lengthCached h rs).
Qed.


Lemma consistent_lengthCached b : Bone_consistent b -> lengthCached b.
Proof. by intros (_ & _ & H). Qed.

(** X3 on the chain of the bones (0,0)-(3,4) and (3,4)-(3,6): after a
    solve towards (-1,2) the root bone still has the length 5. *)
Lemma ccdBasic_keeps_lengths_witness :
  exists h' b',
    ccdBasic (-1) 2 chain2 false (store2 (boneAt 0 0 3 4) (boneAt 3 4 3 6))
      = (Ret true, h') /\
    h' !! 0%nat = Some b' /\ Bone.length b' = 5.
Proof.
  destruct (ccdBasic_keeps_lengths (-1) 2 chain2
              (store2 (boneAt 0 0 3 4) (boneAt 3 4 3 6)) [0%nat; 1%nat]
              (chain2_wf _ _ (boneAt_NEXT 3 4 3 6) (boneAt_PREV 0 0 3 4)))
    as (h' & Hrun & Hlen).
  - cbn [List.length]. lia.
  - intros r b Hr Hb. apply consistent_lengthCached.
    apply elem_of_cons in Hr as [-> | Hr].
    + rewrite store2_lookup0 in Hb. injection Hb as <-.
      apply asRoot_consistent, boneAt_consistent.
    + apply list_elem_of_singleton in Hr as ->.
      rewrite store2_lookup1 in Hb. injection Hb as <-.
      apply asTerminal_consistent, boneAt_consistent.
  - destruct (Hlen 0%nat _ ltac:(by left) (store2_lookup0 _ _))
      as (b' & Hb' & HL & _).
    exists h', b'. split; [exact Hrun |]. split; [exact Hb' |].
    rewrite HL, asRoot_length.
    destruct (boneAt_consistent 0 0 3 4) as (HdX & HdY & HLc).
    destruct (boneAt_geometry 0 0 3 4) as (EX & EY & EtX & EtY & _).
    unfold Bone.initX, Bone.initY, Bone.terminalX, Bone.terminalY in *.
    unfold Bone.length. rewrite HLc, HdX, HdY, EX, EY, EtX, EtY.
    replace ((3 - 0) * (3 - 0) + (4 - 0) * (4 - 0)) with (5 * 5) by ring.
    apply sqrt_square. lra.
Defined.

(** One position phase on a single bone. *)
Lemma positions_collapse b T :
  Bone._drawing b = false ->
  exists b',
    positions [b] T = [b'] /\ Bone._drawing b' = false /\
    Bone.initX b' = Bone.initX b /\ Bone.initY b' = Bone.initY b /\
    Bone.terminalX b' = Bone.initX b /\ Bone.terminalY b' = Bone.initY b /\
    Bone.length b' = 0.
Proof.
  intros Hd. eexists. split; [reflexivity |].
  unfold placed, placedInner. destruct (decide (0 = 0)%nat); [| done].
  unfold Bone.setTerminal. rewrite Hd. cbn [negb].
  unfold Bone.initX, Bone.initY, Bone.terminalX, Bone.terminalY, Bone.length.
  cbn [Bone._drawing Bone._x0 Bone._y0 Bone._x1 Bone._y1 Bone._length
       Bone._deltaX Bone._deltaY Bone.upd_angle
       Bone.upd_flare Bone.upd_length Bone.upd_deltaY Bone.upd_deltaX
       Bone.upd_y1 Bone.upd_x1].
  split; [done |]. split; [done |]. split; [done |].
  unfold termAt, recordAt, ccdDelta. cbn [List.length fst snd].
  destruct (decide (1 < 1)%nat); [lia |].
  unfold Bone.initX, Bone.initY.
  split; [ring |]. split; [ring |].
  rewrite <- sqrt_0. f_equal. ring.
Qed.

(** X4.  On a chain of a single bone that is not being drawn the iterative
    solver puts the terminal point of the bone on its initial point,
    whatever the target: the bone is left with length 0. *)
Theorem ccdBasic_single_collapses x y c h r b :
  Chain_wf c h [r] -> h !! r = Some b -> Bone._drawing b = false ->
  exists h' b',
    ccdBasic x y c false h = (Ret true, h') /\ h' !! r = Some b' /\
    Bone.initX b' = Bone.initX b /\ Bone.initY b' = Bone.initY b /\
    Bone.terminalX b' = Bone.initX b /\ Bone.terminalY b' = Bone.initY b /\
    Bone.length b' = 0.
Proof.
  intros Hwf Hb Hd.
  assert (Hst : stored h [r] [b]) by (constructor; [done | constructor]).
  destruct (ccdBasic_phases x y c h [r] [b] Hwf Hst)
    as (h' & Hrun & Hst' & _).
  set (K := fun l : list Bone.t => exists b',
         l = [b'] /\ Bone._drawing b' = false /\
         Bone.initX b' = Bone.initX b /\ Bone.initY b' = Bone.initY b /\
         Bone.terminalX b' = Bone.initX b /\
         Bone.terminalY b' = Bone.initY b /\ Bone.length b' = 0).
  assert (Hstep : forall b1, Bone._drawing b1 = false ->
            Bone.initX b1 = Bone.initX b -> Bone.initY b1 = Bone.initY b ->
            K (positions [b1] (x, y))).
  { intros b1 Hd1 HX1 HY1.
    destruct (positions_collapse b1 (x, y) Hd1)
      as (b2 & -> & Hd2 & HX2 & HY2 & HtX2 & HtY2 & HL2).
    exists b2. repeat split; congruence. }
  assert (HK : K (ccdCycles _maxCycles 0 [b] (x, y))).
  { assert (Hinv : forall l, K l -> K (positions l (x, y))).
    { intros l (b1 & -> & Hd1 & HX1 & HY1 & _). by apply Hstep. }
    unfold _maxCycles. cbn [ccdCycles].
    destruct (ccdFinished 0 (positions [b] (x, y)) (x, y));
      [by apply Hstep |].
    exact (ccdCycles_inv K (x, y) Hinv 2%nat 1%nat _ (Hstep b Hd eq_refl eq_refl)). }
  destruct HK as (b' & Hcyc & _ & HX & HY & HtX & HtY & HL).
  rewrite Hcyc in Hst'. apply Forall2_cons_1 in Hst' as [Hb' _].
  by exists h', b'.
Qed.

(** X4 on the bone (0,0)-(3,4) and the target (3,4), the point where the
    bone already ends. *)
Lemma ccdBasic_single_collapses_witness :
  exists h' b',
    ccdBasic 3 4 chain1 false (store1 (boneAt 0 0 3 4)) = (Ret true, h') /\
    h' !! 0%nat = Some b' /\
    Bone.terminalX b' = 0 /\ Bone.terminalY b' = 0 /\ Bone.length b' = 0.
Proof.
  destruct (asRoot_geometry None (boneAt 0 0 3 4)) as (EX & EY & _ & _ & Ed).
  destruct (boneAt_geometry 0 0 3 4) as (FX & FY & _ & _ & Fd).
  destruct (ccdBasic_single_collapses 3 4 chain1 _ 0%nat _
              (chain1_wf _ (boneAt_PREV 0 0 3 4)) (store1_lookup0 _))
    as (h' & b' & Hrun & Hb' & _ & _ & HtX & HtY & HL).
  - rewrite Ed. exact Fd.
  - exists h', b'. split; [exact Hrun |]. split; [exact Hb' |].
    split; [congruence |]. split; [congruence | exact HL].
Defined.

(** * Further properties of the two-bone solver *)

(** The two [reorient] calls that every branch of [limbSolver] ends with. *)
Lemma limbApply_run r1 r2 theta1 theta2 h b1 b2 :
  h !! r1 = Some b1 -> h !! r2 = Some b2 -> r1 <> r2 ->
  let b1' := Bone.reorient 0 0 theta1 false true b1 in
  let b2' := Bone.reorient (Bone.terminalX b1') (Bone.terminalY b1')
               (theta2 (Bone.terminalX b1') (Bone.terminalY b1')) true true b2 in
  limbApply r1 r2 theta1 theta2 h
  = (Ret (), <[r2 := b2']> (<[r1 := b1']> h)).
Proof.
  intros Hb1 Hb2 Hne. cbv zeta. unfold limbApply, Chain.modify.
  rewrite Hb1, lookup_insert_eq, lookup_insert_ne by done. by rewrite Hb2.
Qed.

(** What the two calls leave of the two bones. *)
Lemma reorient_pair theta1 theta2 b1 b2 :
  let b1' := Bone.reorient 0 0 theta1 false true b1 in
  let b2' := Bone.reorient (Bone.terminalX b1') (Bone.terminalY b1')
               theta2 true true b2 in
  kept b1 b1' /\ kept b2 b2' /\
  Bone.length b1' = Bone.length b1 /\ Bone.length b2' = Bone.length b2 /\
  Bone.initX b1' = Bone.initX b1 /\ Bone.initY b1' = Bone.initY b1 /\
  Bone.terminalX b1' = Bone.initX b1 + Bone.length b1 * cos theta1 /\
  Bone.terminalY b1' = Bone.initY b1 + Bone.length b1 * sin theta1 /\
  Bone.initX b2' = Bone.terminalX b1' /\ Bone.initY b2' = Bone.terminalY b1' /\
  Bone.terminalX b2' = Bone.terminalX b1' + Bone.length b2 * cos theta2 /\
  Bone.terminalY b2' = Bone.terminalY b1' + Bone.length b2 * sin theta2.
Proof.
  cbv zeta. split; [apply kept_reorient |]. split; [apply kept_reorient |].
  repeat split.
Qed.

Lemma wf_lookup c h rs r : Chain_wf c h rs -> r ∈ rs -> is_Some (h !! r).
Proof.
  intros Hwf Hr. apply list_elem_of_lookup in Hr as [i Hi].
  destruct (linked_lookup h rs i r (Chain_wf_linked _ _ _ Hwf) Hi) as [b Hb].
  eauto.
Qed.

(** The end of every branch: [invalidate] and the result. *)
Lemma limb_finish c h rs r1 r2 b1 b2 theta1 theta2 (limit res : bool) :
  Chain_wf c h rs -> r1 ∈ rs -> r2 ∈ rs -> r1 <> r2 ->
  h !! r1 = Some b1 -> h !! r2 = Some b2 ->
  let b1' := Bone.reorient 0 0 theta1 false true b1 in
  let b2' := Bone.reorient (Bone.terminalX b1') (Bone.terminalY b1')
               (theta2 (Bone.terminalX b1') (Bone.terminalY b1')) true true b2 in
  match limbApply r1 r2 theta1 theta2 h with
  | (Throw e, h) => (Throw e, h)
  | (Ret _, h) =>
    match Chain.invalidate c h with
    | (Throw e, h) => (Throw e, h)
    | (Ret _, h) => if limit then (Ret false, h) else (Ret res, h)
    end
  end
  = (Ret (if limit then false else res), <[r2 := b2']> (<[r1 := b1']> h)).
Proof.
  intros Hwf Hr1 Hr2 Hne Hb1 Hb2. cbv zeta.
  rewrite (limbApply_run r1 r2 theta1 theta2 h b1 b2 Hb1 Hb2 Hne).
  unfold Chain.invalidate. destruct (Chain._forward c) as [| l ls].
  - by destruct limit.
  - destruct Hwf as (_ & _ & _ & Hterm & Hlinked). rewrite Hterm.
    destruct (last rs) as [t |] eqn:Hlast.
    + cbn [mbind option_bind].
      assert (Ht : t ∈ rs).
      { rewrite last_lookup in Hlast. by apply list_elem_of_lookup_2 in Hlast. }
      apply list_elem_of_lookup in Ht as [i Hi].
      destruct (linked_lookup h rs i t Hlinked Hi) as [bt Hbt].
      assert (Hsome : is_Some
                (<[r2 := Bone.reorient
                     (Bone.terminalX (Bone.reorient 0 0 theta1 false true b1))
                     (Bone.terminalY (Bone.reorient 0 0 theta1 false true b1))
                     (theta2
                        (Bone.terminalX (Bone.reorient 0 0 theta1 false true b1))
                        (Bone.terminalY (Bone.reorient 0 0 theta1 false true b1)))
                     true true b2]>
                   (<[r1 := Bone.reorient 0 0 theta1 false true b1]> h) !! t)).
      { rewrite !lookup_insert_is_Some. destruct (decide (r2 = t)); [by left |].
        right. split; [done |]. destruct (decide (r1 = t)); [by left |].
        right. split; [done |]. eauto. }
      destruct Hsome as [bt' ->]. by destruct limit.
    + apply last_None in Hlast. subst rs. by apply elem_of_nil in Hr1.
Qed.


Lemma wf_two c h r1 r2 rest :
  Chain_wf c h (r1 :: r2 :: rest) ->
  Chain.getBone c 0 = Some r1 /\ Chain.getBone c 1 = Some r2 /\ r1 <> r2 /\
  Chain._rootBone c = Some r1.
Proof.
  intros Hwf. rewrite !(wf_getBone _ _ _ _ Hwf), (wf_root _ _ _ Hwf).
  split; [done |]. split; [done |]. split; [| done].
  apply wf_NoDup in Hwf. apply NoDup_cons in Hwf as [Hnot _].
  intros ->. apply Hnot. by left.
Qed.

(** X5.  On a well-formed chain of two bones or more, with no forward
    link, whose first two bones have a positive length, [limbSolver]
    returns normally, whatever the target and the limits passed.  It
    writes the first two bones only and changes none of their links or
    drawing flags; both keep their length, the root bone keeps its initial
    point and the second bone starts where the root bone ends.  (With
    forward links, the [invalidate] that ends the solver moves them.) *)
Theorem limbSolver_two_bones x y c isPinned params h r1 r2 rest b1 b2 :
  Chain_wf c h (r1 :: r2 :: rest) -> Chain._forward c = [] ->
  h !! r1 = Some b1 -> h !! r2 = Some b2 ->
  0 < Bone.length b1 -> 0 < Bone.length b2 ->
  exists ok h' b1' b2',
    limbSolver x y c isPinned params h = (Ret ok, h') /\
    h' !! r1 = Some b1' /\ h' !! r2 = Some b2' /\
    (forall r, r <> r1 -> r <> r2 -> h' !! r = h !! r) /\
    kept b1 b1' /\ kept b2 b2' /\
    Bone.length b1' = Bone.length b1 /\ Bone.length b2' = Bone.length b2 /\
    Bone.initX b1' = Bone.initX b1 /\ Bone.initY b1' = Bone.initY b1 /\
    Bone.initX b2' = Bone.terminalX b1' /\ Bone.initY b2' = Bone.terminalY b1'.
Proof.
  intros Hwf _ Hb1 Hb2 Hl1 Hl2.
  destruct (wf_two _ _ _ _ _ Hwf) as (Hg1 & Hg2 & Hne & Hroot).
  assert (Hr1 : r1 ∈ r1 :: r2 :: rest) by (by left).
  assert (Hr2 : r2 ∈ r1 :: r2 :: rest) by (right; by left).
  assert (Hfin : forall theta1 theta2 (limit res : bool),
    exists ok h' b1' b2',
      match limbApply r1 r2 theta1 theta2 h with
      | (Throw e, h) => (Throw e, h)
      | (Ret _, h) =>
        match Chain.invalidate c h with
        | (Throw e, h) => (Throw e, h)
        | (Ret _, h) => if limit then (Ret false, h) else (Ret res, h)
        end
      end = (Ret ok, h') /\
      h' !! r1 = Some b1' /\ h' !! r2 = Some b2' /\
      (forall r, r <> r1 -> r <> r2 -> h' !! r = h !! r) /\
      kept b1 b1' /\ kept b2 b2' /\
      Bone.length b1' = Bone.length b1 /\ Bone.length b2' = Bone.length b2 /\
      Bone.initX b1' = Bone.initX b1 /\ Bone.initY b1' = Bone.initY b1 /\
      Bone.initX b2' = Bone.terminalX b1' /\
      Bone.initY b2' = Bone.terminalY b1').
  { intros theta1 theta2 limit res.
    pose proof (limb_finish c h _ r1 r2 b1 b2 theta1 theta2 limit res
                  Hwf Hr1 Hr2 Hne Hb1 Hb2) as Hrun.
    cbv zeta in Hrun.
    destruct (reorient_pair theta1
                (theta2
                   (Bone.terminalX (Bone.reorient 0 0 theta1 false true b1))
                   (Bone.terminalY (Bone.reorient 0 0 theta1 false true b1)))
                b1 b2)
      as (Hk1 & Hk2 & HL1 & HL2 & HX1 & HY1 & _ & _ & HX2 & HY2 & _).
    eexists _, _, _, _. split; [exact Hrun |].
    split; [rewrite lookup_insert_ne by done; apply lookup_insert_eq |].
    split; [apply lookup_insert_eq |].
    split; [intros r Hn1 Hn2; by rewrite !lookup_insert_ne |].
    done. }
  unfold limbSolver, Chain.initX, Chain.initY.
  rewrite Hg1, Hg2, Hb1, Hb2, Hroot. cbn [mbind option_bind]. rewrite Hb1.
  cbn [mbind option_bind]. cbv zeta.
  set (l1 := Bone.length b1) in *. set (l2 := Bone.length b2) in *.
  destruct (bool_decide (_ > (l1 + l2) * (l1 + l2))).
  - destruct (bool_decide (_ < _)); cbv beta iota zeta;
      destruct (bool_decide (_ > _)); cbv beta iota zeta;
      first [ exact (Hfin _ _ true true) | exact (Hfin _ _ false _) ].
  - destruct (decide (2 * l1 * l2 = 0)) as [H0 | _]; [nra |].
    destruct (_ || _).
    + exact (Hfin _ _ false _).
    + destruct (bool_decide (_ < _)); cbv beta iota zeta;
        [exact (Hfin _ _ true true) |].
      destruct (bool_decide (_ > _)); cbv beta iota zeta;
        first [ exact (Hfin _ _ true true) | exact (Hfin _ _ false _) ].
Qed.


(** The two angles of the solution place the end of the second link on
    the target. *)
Lemma two_link l1 l2 dX dY :
  0 < l1 -> 0 < l2 ->
  let c2 := (dX * dX + dY * dY - l1 * l1 - l2 * l2) / (2 * l1 * l2) in
  -1 <= c2 <= 1 ->
  let theta2 := acos c2 in
  let theta1 :=
    atan2 ((l1 + l2 * c2) * dY - l2 * sin theta2 * dX)
          (l2 * sin theta2 * dY + (l1 + l2 * c2) * dX) in
  l1 * cos theta1 + l2 * cos (theta1 + theta2) = dX /\
  l1 * sin theta1 + l2 * sin (theta1 + theta2) = dY.
Proof.
  intros Hl1 Hl2 c2 Hc2 theta2 theta1.
  set (dSq := dX * dX + dY * dY).
  set (k1 := l1 + l2 * c2). set (k2 := l2 * sin theta2).
  assert (Hcos : cos theta2 = c2) by (by apply cos_acos).
  pose proof (sin2_cos2 theta2) as Hsc. unfold Rsqr in Hsc.
  assert (Hc2eq : 2 * l1 * l2 * c2 = dSq - l1 * l1 - l2 * l2).
  { unfold c2, dSq. field. split; lra. }
  assert (Hk : k1 * k1 + k2 * k2 = dSq).
  { unfold k1, k2. rewrite Hcos in Hsc. nra. }
  assert (HdSq : 0 <= dSq) by (unfold dSq; nra).
  destruct (polar_cos_sin (k2 * dY + k1 * dX) (k1 * dY - k2 * dX))
    as [HX HY].
  assert (Hth : atan2 (k1 * dY - k2 * dX) (k2 * dY + k1 * dX) = theta1)
    by reflexivity.
  rewrite Hth in HX, HY.
  replace ((k2 * dY + k1 * dX) * (k2 * dY + k1 * dX) +
           (k1 * dY - k2 * dX) * (k1 * dY - k2 * dX))
    with (dSq * dSq) in HX, HY by (rewrite <- Hk at 1; unfold dSq; ring).
  rewrite sqrt_square in HX, HY by done.
  rewrite cos_plus, sin_plus, Hcos. fold k2.
  replace (l1 * cos theta1 + l2 * (cos theta1 * c2 - sin theta1 * sin theta2))
    with (k1 * cos theta1 - k2 * sin theta1) by (unfold k1, k2; ring).
  replace (l1 * sin theta1 + l2 * (sin theta1 * c2 + cos theta1 * sin theta2))
    with (k1 * sin theta1 + k2 * cos theta1) by (unfold k1, k2; ring).
  destruct (Req_dec dSq 0) as [H0 | Hn0].
  - assert (dX = 0 /\ dY = 0) as [-> ->] by (unfold dSq in H0; split; nra).
    assert (k1 = 0 /\ k2 = 0) as [-> ->] by (rewrite H0 in Hk; split; nra).
    split; ring.
  - split; apply (Rmult_eq_reg_l dSq); try done.
    + replace (dSq * (k1 * cos theta1 - k2 * sin theta1))
        with (k1 * (dSq * cos theta1) - k2 * (dSq * sin theta1)) by ring.
      rewrite HX, HY, <- Hk. ring.
    + replace (dSq * (k1 * sin theta1 + k2 * cos theta1))
        with (k1 * (dSq * sin theta1) + k2 * (dSq * cos theta1)) by ring.
      rewrite HX, HY, <- Hk. ring.
Qed.


(** X6.  A target within reach of the two bones of [limbSolver], with a
    root angle inside the default limits of the root bone and a second
    angle that [getRotation] accepts: the solver returns [true] and the
    second bone ends on the target. *)
Theorem limbSolver_reaches x y c isPinned h r1 r2 rest b1 b2 :
  Chain_wf c h (r1 :: r2 :: rest) ->
  h !! r1 = Some b1 -> h !! r2 = Some b2 ->
  let l1 := Bone.length b1 in
  let l2 := Bone.length b2 in
  let dX := x - Bone.initX b1 in
  let dY := y - Bone.initY b1 in
  let c2 := (dX * dX + dY * dY - l1 * l1 - l2 * l2) / (2 * l1 * l2) in
  let theta2 := acos c2 in
  let theta1 :=
    atan2 ((l1 + l2 * c2) * dY - l2 * sin theta2 * dX)
          (l2 * sin theta2 * dY + (l1 + l2 * c2) * dX) in
  0 < l1 -> 0 < l2 ->
  (l1 - l2) * (l1 - l2) <= dX * dX + dY * dY <= (l1 + l2) * (l1 + l2) ->
  -3 * PI / 5 <= theta1 <= 5 / 10 * PI ->
  getRotation (Bone.initX b1) (Bone.initY b1) theta1 (theta1 + theta2)
    (- (5 / 10) * PI) (3 * PI / 4)
    (Bone.initX b1 + l1 * cos theta1) (Bone.initY b1 + l1 * sin theta1) x y
  = theta1 + theta2 ->
  exists h' b1' b2',
    limbSolver x y c isPinned None h = (Ret true, h') /\
    h' !! r1 = Some b1' /\ h' !! r2 = Some b2' /\
    Bone.initX b1' = Bone.initX b1 /\ Bone.initY b1' = Bone.initY b1 /\
    Bone.initX b2' = Bone.terminalX b1' /\ Bone.initY b2' = Bone.terminalY b1' /\
    Bone.terminalX b2' = x /\ Bone.terminalY b2' = y.
Proof.
  intros Hwf Hb1 Hb2 l1 l2 dX dY c2 theta2 theta1 Hl1 Hl2 Hreach Hlim Hrot.
  destruct (wf_two _ _ _ _ _ Hwf) as (Hg1 & Hg2 & Hne & Hroot).
  assert (Hr1 : r1 ∈ r1 :: r2 :: rest) by (by left).
  assert (Hr2 : r2 ∈ r1 :: r2 :: rest) by (right; by left).
  assert (Hc2 : -1 <= c2 <= 1).
  { assert (Hpos : 0 < 2 * l1 * l2) by nra.
    assert (Hc : c2 * (2 * l1 * l2)
                 = dX * dX + dY * dY - l1 * l1 - l2 * l2)
      by (unfold c2; field; lra).
    split; apply (Rmult_le_reg_r (2 * l1 * l2)); try done; rewrite Hc; nra. }
  destruct (two_link l1 l2 dX dY Hl1 Hl2 Hc2) as [HtX HtY].
  fold c2 theta2 theta1 in HtX, HtY.
  pose proof (limb_finish c h _ r1 r2 b1 b2 theta1
                (fun b2X b2Y =>
                   getRotation (Bone.initX b1) (Bone.initY b1) theta1
                     (theta1 + theta2) (- (5 / 10) * PI) (3 * PI / 4)
                     b2X b2Y x y)
                false (bool_decide (dX * dX + dY * dY <= (l1 + l2) * (l1 + l2)))
                Hwf Hr1 Hr2 Hne Hb1 Hb2) as Hrun.
  cbv zeta in Hrun.
  destruct (reorient_pair theta1
              (getRotation (Bone.initX b1) (Bone.initY b1) theta1
                 (theta1 + theta2) (- (5 / 10) * PI) (3 * PI / 4)
                 (Bone.terminalX (Bone.reorient 0 0 theta1 false true b1))
                 (Bone.terminalY (Bone.reorient 0 0 theta1 false true b1))
                 x y) b1 b2)
    as (_ & _ & _ & _ & HX1 & HY1 & HtX1 & HtY1 & HX2 & HY2 & HtX2 & HtY2).
  fold l1 l2 in HtX1, HtY1, HtX2, HtY2.
  match type of Hrun with _ = (_, <[_ := ?b2']> (<[_ := ?b1']> _)) =>
    exists (<[r2 := b2']> (<[r1 := b1']> h)), b1', b2' end.
  split; [| split; [| split; [| split; [| split]]]].
  - unfold limbSolver, Chain.initX, Chain.initY.
    rewrite Hg1, Hg2, Hb1, Hb2, Hroot. cbn [mbind option_bind]. rewrite Hb1.
    cbn [mbind option_bind default from_option]. cbv [Datatypes.id]. cbv zeta.
    fold l1 l2 dX dY. fold c2. fold theta2. fold theta1.
    destruct (bool_decide_reflect
                (dX * dX + dY * dY > (l1 + l2) * (l1 + l2))); [lra |].
    destruct (decide (2 * l1 * l2 = 0)); [nra |].
    destruct (bool_decide_reflect (c2 < -1)); [lra |].
    destruct (bool_decide_reflect (c2 > 1)); [lra |]. cbn [orb].
    destruct (bool_decide_reflect (theta1 < -3 * PI / 5)); [lra |].
    destruct (bool_decide_reflect (theta1 > 5 / 10 * PI)); [lra |].
    cbv beta iota zeta. rewrite Hrun. do 2 f_equal.
    apply bool_decide_eq_true. lra.
  - rewrite lookup_insert_ne by done. apply lookup_insert_eq.
  - apply lookup_insert_eq.
  - exact HX1.
  - exact HY1.
  - split; [exact HX2 |]. split; [exact HY2 |].
    rewrite HtX2, HtY2, HtX1, HtY1, Hrot. unfold dX, dY in HtX, HtY.
    split; lra.
Qed.


(** X6 on the bones (0,0)-(1,0) and (1,0)-(2,0) and the target (1,1): the
    root bone keeps its direction, the second bone turns by a quarter and
    ends on the target. *)
Lemma limbSolver_reaches_witness :
  exists h' b1' b2',
    limbSolver 1 1 chain2 false None
      (store2 (boneAt 0 0 1 0) (boneAt 1 0 2 0)) = (Ret true, h') /\
    h' !! 0%nat = Some b1' /\ h' !! 1%nat = Some b2' /\
    Bone.terminalX b2' = 1 /\ Bone.terminalY b2' = 1.
Proof.
  pose proof (chain2_wf (boneAt 0 0 1 0) (boneAt 1 0 2 0)
                (boneAt_NEXT _ _ _ _) (boneAt_PREV _ _ _ _)) as Hwf.
  pose proof (store2_lookup0 (boneAt 0 0 1 0) (boneAt 1 0 2 0)) as Hb1.
  pose proof (store2_lookup1 (boneAt 0 0 1 0) (boneAt 1 0 2 0)) as Hb2.
  assert (EL1 : Bone.length (asRoot (Some 1%nat) (boneAt 0 0 1 0)) = 1)
    by (rewrite asRoot_length, boneAt_axis_length by lra; lra).
  assert (EL2 : Bone.length (asTerminal (Some 0%nat) (boneAt 1 0 2 0)) = 1)
    by (rewrite asTerminal_length, boneAt_axis_length by lra; lra).
  destruct (asRoot_geometry (Some 1%nat) (boneAt 0 0 1 0)) as (EX & EY & _).
  destruct (boneAt_geometry 0 0 1 0) as (FX & FY & _).
  rewrite FX in EX. rewrite FY in EY.
  set (h := store2 (boneAt 0 0 1 0) (boneAt 1 0 2 0)) in *.
  set (B1 := asRoot (Some 1%nat) (boneAt 0 0 1 0)) in *.
  set (B2 := asTerminal (Some 0%nat) (boneAt 1 0 2 0)) in *.
  clearbody h B1 B2.
  pose proof (limbSolver_reaches 1 1 chain2 false h 0%nat 1%nat [] B1 B2
                Hwf Hb1 Hb2) as H.
  cbv zeta in H. rewrite EL1, EL2, EX, EY in H.
  replace (((1 - 0) * (1 - 0) + (1 - 0) * (1 - 0) - 1 * 1 - 1 * 1)
           / (2 * 1 * 1)) with 0 in H by lra.
  rewrite acos_0, sin_PI2 in H.
  replace ((1 + 1 * 0) * (1 - 0) - 1 * 1 * (1 - 0)) with 0 in H by lra.
  replace (1 * 1 * (1 - 0) + (1 + 1 * 0) * (1 - 0)) with 2 in H by lra.
  rewrite (atan2_0_pos 2) in H by lra.
  pose proof PI_gt_3 as Hpi.
  destruct H as (h' & b1' & b2' & Hrun & H1 & H2 & _ & _ & _ & _ & HtX & HtY).
  - lra.
  - lra.
  - lra.
  - lra.
  - unfold getRotation, isClockwise. rewrite cos_0, sin_0.
    destruct (bool_decide_reflect (0 > 0)); [lra |].
    destruct (bool_decide_reflect (0 + PI / 2 > 0)); [| lra].
    destruct (bool_decide_reflect (TWO_PI + 0 + - (5 / 10) * PI >= 0))
      as [_ | Hn]; [| unfold TWO_PI in Hn; lra].
    destruct (bool_decide_reflect
                ((1 - 0) * (0 + 1 * 1 - 0) > (0 + 1 * 0 - 0) * (1 - 0)));
      [| lra].
    destruct (bool_decide_reflect
                (TWO_PI + 0 + 3 * PI / 4 - (0 + PI / 2) > PI))
      as [_ | Hn]; [| unfold TWO_PI in Hn; lra].
    destruct (bool_decide_reflect
                (TWO_PI + 0 + 3 * PI / 4 - (0 + PI / 2) - TWO_PI < 0))
      as [Hlt | _]; [unfold TWO_PI in Hlt; lra | done].
  - by exists h', b1', b2'.
Defined.


(** X5 on the bones (0,0)-(1,0) and (1,0)-(2,0) and the target (7,-3). *)
Lemma limbSolver_two_bones_witness :
  exists ok h' b1' b2',
    limbSolver 7 (-3) chain2 false None
      (store2 (boneAt 0 0 1 0) (boneAt 1 0 2 0)) = (Ret ok, h') /\
    h' !! 0%nat = Some b1' /\ h' !! 1%nat = Some b2' /\
    Bone.length b1' = 1 /\ Bone.length b2' = 1 /\
    Bone.initX b2' = Bone.terminalX b1' /\ Bone.initY b2' = Bone.terminalY b1'.
Proof.
  assert (EL1 : Bone.length (asRoot (Some 1%nat) (boneAt 0 0 1 0)) = 1)
    by (rewrite asRoot_length, boneAt_axis_length by lra; lra).
  assert (EL2 : Bone.length (asTerminal (Some 0%nat) (boneAt 1 0 2 0)) = 1)
    by (rewrite asTerminal_length, boneAt_axis_length by lra; lra).
  destruct (limbSolver_two_bones 7 (-3) chain2 false None _ 0%nat 1%nat [] _ _
              (chain2_wf _ _ (boneAt_NEXT 1 0 2 0) (boneAt_PREV 0 0 1 0))
              eq_refl (store2_lookup0 _ _) (store2_lookup1 _ _))
    as (ok & h' & b1' & b2' & Hrun & H1 & H2 & _ & _ & _ & HL1 & HL2 & _ & _
        & HX & HY).
  - rewrite EL1. lra.
  - rewrite EL2. lra.
  - exists ok, h', b1', b2'. split; [exact Hrun |]. split; [exact H1 |].
    split; [exact H2 |]. split; [rewrite HL1; exact EL1 |].
    split; [rewrite HL2; exact EL2 |]. split; [exact HX | exact HY].
Defined.

(** X7.  A target farther from the root than the two bones of
    [limbSolver] reach, in a direction inside the default limits of the
    root bone: the solver returns [false] and lays both bones along the
    direction of the target, the second one ending at the distance
    [l1 + l2] from the root. *)
Theorem limbSolver_out_of_reach x y c isPinned h r1 r2 rest b1 b2 :
  Chain_wf c h (r1 :: r2 :: rest) ->
  h !! r1 = Some b1 -> h !! r2 = Some b2 ->
  let l1 := Bone.length b1 in
  let l2 := Bone.length b2 in
  let dX := x - Bone.initX b1 in
  let dY := y - Bone.initY b1 in
  let theta := atan2 dY dX in
  dX * dX + dY * dY > (l1 + l2) * (l1 + l2) ->
  -3 * PI / 5 <= theta <= 5 / 10 * PI ->
  exists h' b1' b2',
    limbSolver x y c isPinned None h = (Ret false, h') /\
    h' !! r1 = Some b1' /\ h' !! r2 = Some b2' /\
    Bone.terminalX b1' = Bone.initX b1 + l1 * cos theta /\
    Bone.terminalY b1' = Bone.initY b1 + l1 * sin theta /\
    Bone.terminalX b2' = Bone.initX b1 + (l1 + l2) * cos theta /\
    Bone.terminalY b2' = Bone.initY b1 + (l1 + l2) * sin theta /\
    sqrt (dX * dX + dY * dY) * (Bone.terminalX b2' - Bone.initX b1)
      = (l1 + l2) * dX /\
    sqrt (dX * dX + dY * dY) * (Bone.terminalY b2' - Bone.initY b1)
      = (l1 + l2) * dY.
Proof.
  intros Hwf Hb1 Hb2 l1 l2 dX dY theta Hfar Hlim.
  destruct (wf_two _ _ _ _ _ Hwf) as (Hg1 & Hg2 & Hne & Hroot).
  assert (Hr1 : r1 ∈ r1 :: r2 :: rest) by (by left).
  assert (Hr2 : r2 ∈ r1 :: r2 :: rest) by (right; by left).
  pose proof (limb_finish c h _ r1 r2 b1 b2 theta (fun _ _ => theta)
                false (bool_decide (dX * dX + dY * dY <= (l1 + l2) * (l1 + l2)))
                Hwf Hr1 Hr2 Hne Hb1 Hb2) as Hrun.
  cbv zeta in Hrun.
  destruct (reorient_pair theta theta b1 b2)
    as (_ & _ & _ & _ & _ & _ & HtX1 & HtY1 & _ & _ & HtX2 & HtY2).
  fold l1 l2 in HtX1, HtY1, HtX2, HtY2.
  destruct (polar_cos_sin dX dY) as [HpX HpY]. fold theta in HpX, HpY.
  match type of Hrun with _ = (_, <[_ := ?b2']> (<[_ := ?b1']> _)) =>
    exists (<[r2 := b2']> (<[r1 := b1']> h)), b1', b2' end.
  split; [| split; [| split; [| split; [| split]]]].
  - unfold limbSolver, Chain.initX, Chain.initY.
    rewrite Hg1, Hg2, Hb1, Hb2, Hroot. cbn [mbind option_bind]. rewrite Hb1.
    cbn [mbind option_bind default from_option]. cbv [Datatypes.id]. cbv zeta.
    fold l1 l2 dX dY. fold theta.
    destruct (bool_decide_reflect
                (dX * dX + dY * dY > (l1 + l2) * (l1 + l2))); [| lra].
    destruct (bool_decide_reflect (theta < -3 * PI / 5)); [lra |].
    cbv beta iota zeta.
    destruct (bool_decide_reflect (theta > 5 / 10 * PI)); [lra |].
    cbv beta iota zeta. rewrite Hrun. do 2 f_equal.
    apply bool_decide_eq_false. lra.
  - rewrite lookup_insert_ne by done. apply lookup_insert_eq.
  - apply lookup_insert_eq.
  - exact HtX1.
  - exact HtY1.
  - rewrite HtX2, HtY2, HtX1, HtY1.
    split; [ring |]. split; [ring |].
    split.
    + replace (Bone.initX b1 + l1 * cos theta + l2 * cos theta - Bone.initX b1)
        with ((l1 + l2) * cos theta) by ring.
      transitivity ((l1 + l2) * (sqrt (dX * dX + dY * dY) * cos theta));
        [ring | by rewrite HpX].
    + replace (Bone.initY b1 + l1 * sin theta + l2 * sin theta - Bone.initY b1)
        with ((l1 + l2) * sin theta) by ring.
      transitivity ((l1 + l2) * (sqrt (dX * dX + dY * dY) * sin theta));
        [ring | by rewrite HpY].
Qed.

(** X7 on the bones (0,0)-(1,0) and (1,0)-(2,0) and the target (0,5),
    straight above the root: the chain is laid upwards and ends at (0,2). *)
Lemma limbSolver_out_of_reach_witness :
  exists h' b2',
    limbSolver 0 5 chain2 false None
      (store2 (boneAt 0 0 1 0) (boneAt 1 0 2 0)) = (Ret false, h') /\
    h' !! 1%nat = Some b2' /\
    Bone.terminalX b2' = 0 /\ Bone.terminalY b2' = 2.
Proof.
  pose proof (chain2_wf (boneAt 0 0 1 0) (boneAt 1 0 2 0)
                (boneAt_NEXT _ _ _ _) (boneAt_PREV _ _ _ _)) as Hwf.
  pose proof (store2_lookup0 (boneAt 0 0 1 0) (boneAt 1 0 2 0)) as Hb1.
  pose proof (store2_lookup1 (boneAt 0 0 1 0) (boneAt 1 0 2 0)) as Hb2.
  assert (EL1 : Bone.length (asRoot (Some 1%nat) (boneAt 0 0 1 0)) = 1)
    by (rewrite asRoot_length, boneAt_axis_length by lra; lra).
  assert (EL2 : Bone.length (asTerminal (Some 0%nat) (boneAt 1 0 2 0)) = 1)
    by (rewrite asTerminal_length, boneAt_axis_length by lra; lra).
  destruct (asRoot_geometry (Some 1%nat) (boneAt 0 0 1 0)) as (EX & EY & _).
  destruct (boneAt_geometry 0 0 1 0) as (FX & FY & _).
  rewrite FX in EX. rewrite FY in EY.
  set (h := store2 (boneAt 0 0 1 0) (boneAt 1 0 2 0)) in *.
  set (B1 := asRoot (Some 1%nat) (boneAt 0 0 1 0)) in *.
  set (B2 := asTerminal (Some 0%nat) (boneAt 1 0 2 0)) in *.
  clearbody h B1 B2.
  pose proof (limbSolver_out_of_reach 0 5 chain2 false h 0%nat 1%nat [] B1 B2
                Hwf Hb1 Hb2) as H.
  cbv zeta in H. rewrite EL1, EL2, EX, EY in H.
  assert (Hat : atan2 (5 - 0) (0 - 0) = PI / 2).
  { unfold atan2. destruct (decide (0 < 0 - 0)); [lra |].
    destruct (decide (0 - 0 < 0)); [lra |].
    destruct (decide (0 < 5 - 0)); [done | lra]. }
  rewrite Hat, cos_PI2, sin_PI2 in H.
  pose proof PI_gt_3 as Hpi.
  destruct H as (h' & b1' & b2' & Hrun & _ & H2 & _ & _ & HtX & HtY & _).
  - lra.
  - lra.
  - exists h', b2'. split; [exact Hrun |]. split; [exact H2 |]. split; lra.
Defined.

(** X8.  [limbSolver] reads the first two bones of the chain: on a
    well-formed chain of fewer than two bones it throws a [TypeError]
    before any bone is written. *)
Theorem limbSolver_needs_two_bones x y c isPinned params h rs :
  Chain_wf c h rs -> (List.length rs < 2)%nat ->
  limbSolver x y c isPinned params h = (Throw TypeError, h).
Proof.
  intros Hwf Hlen. unfold limbSolver.
  rewrite !(wf_getBone _ _ _ _ Hwf).
  destruct rs as [| r1 [| r2 rest]]; [done | done |].
  cbn [List.length] in Hlen. lia.
Qed.

(** X8 on the chain of the single bone (0,0)-(1,0). *)
Lemma limbSolver_needs_two_bones_witness :
  limbSolver 1 1 chain1 false None (store1 (boneAt 0 0 1 0))
  = (Throw TypeError, store1 (boneAt 0 0 1 0)).
Proof.
  apply (limbSolver_needs_two_bones 1 1 chain1 false None _ [0%nat]).
  - apply chain1_wf, boneAt_PREV.
  - cbn [List.length]. lia.
Defined.

(** * Forward kinematics as rigid motions *)

(** A relation that holds at the root and passes from each bone to the
    next holds along the chain. *)
Lemma along_chain (h h' : Bone.Store) (rs : list ref)
    (Q : Bone.t -> Bone.t -> Prop) :
  (forall i r, rs !! i = Some r -> is_Some (h !! r)) ->
  (forall r b, rs !! 0%nat = Some r -> h !! r = Some b ->
     exists b', h' !! r = Some b' /\ Q b b') ->
  (forall i r r2 b b' b2,
     rs !! i = Some r -> rs !! S i = Some r2 ->
     h !! r = Some b -> h' !! r = Some b' -> Q b b' -> h !! r2 = Some b2 ->
     exists b2', h' !! r2 = Some b2' /\ Q b2 b2') ->
  forall i r b, rs !! i = Some r -> h !! r = Some b ->
    exists b', h' !! r = Some b' /\ Q b b'.
Proof.
  intros Hall Hbase Hstep. induction i as [| i IH]; intros r2 b2 Hr2 Hb2.
  - by apply Hbase.
  - assert (Hi : is_Some (rs !! i)).
    { apply lookup_lt_is_Some. apply lookup_lt_Some in Hr2. lia. }
    destruct Hi as [r Hr]. destruct (Hall i r Hr) as [b Hb].
    destruct (IH r b Hr Hb) as (b' & Hb' & HQ).
    by apply (Hstep i r r2 b b' b2).
Qed.

Lemma wf_all c h rs :
  Chain_wf c h rs -> forall i r, rs !! i = Some r -> is_Some (h !! r).
Proof.
  intros Hwf i r Hr.
  destruct (linked_lookup h rs i r (Chain_wf_linked _ _ _ Hwf) Hr) as [b Hb].
  eauto.
Qed.

Lemma chain_root c h rs px py :
  Chain_wf c h rs ->
  Chain.initX c h = Some px -> Chain.initY c h = Some py ->
  exists r0 rest b0,
    rs = r0 :: rest /\ h !! r0 = Some b0 /\
    Bone.initX b0 = px /\ Bone.initY b0 = py.
Proof.
  intros Hwf. unfold Chain.initX, Chain.initY. rewrite (wf_root _ _ _ Hwf).
  destruct rs as [| r0 rest]; [done |]. cbn [head mbind option_bind].
  destruct (h !! r0) as [b0 |] eqn:Hb0; [| done]. cbn [mbind option_bind].
  intros [= HX] [= HY]. by exists r0, rest, b0.
Qed.

(** [Chain.move] on a joined chain. *)
Lemma move_rigid c h rs x y px py :
  Chain_wf c h rs -> joined h rs ->
  Chain.initX c h = Some px -> Chain.initY c h = Some py ->
  exists h',
    Chain.move c x y h = (Ret (), h') /\
    Chain_wf c h' rs /\ joined h' rs /\
    (forall r, r ∉ rs -> h' !! r = h !! r) /\
    forall r b, r ∈ rs -> h !! r = Some b ->
      exists b', h' !! r = Some b' /\ translated (x - px) (y - py) b b'.
Proof.
  intros Hwf Hj HX HY.
  destruct (chain_root c h rs px py Hwf HX HY)
    as (r0 & rest & b0 & -> & Hb0 & HX0 & HY0).
  unfold Chain.move. rewrite (wf_root _ _ _ Hwf). cbn [head].
  destruct (moveInitial_path h r0 rest x y (wf_path _ _ _ _ Hwf))
    as (h' & Hrun & Hframe & Hin & Hroot & Hjoin).
  exists h'. split; [done |]. split; [| split; [done | split; [done |]]].
  { apply (wf_kept c h); [done |]. intros r b Hr Hb.
    destruct (Hin r b Hr Hb) as (x' & y' & Hb').
    eexists. split; [done |]. apply kept_moveInitial_self. }
  intros r b Hr Hb. apply list_elem_of_lookup in Hr as [i Hr].
  revert i r b Hr Hb.
  apply (along_chain h h' (r0 :: rest)
           (translated (x - px) (y - py)) (wf_all _ _ _ Hwf)).
  - intros r b [= <-] Hb. assert (b = b0) as -> by congruence.
    exists (Bone.moveInitial_self x y b0). split; [by apply Hroot |].
    unfold translated, Bone.initX, Bone.initY, Bone.terminalX, Bone.terminalY,
      Bone.length in *.
    cbn. subst px py. repeat split; ring.
  - intros i r r2 b b' b2 Hr Hr2 Hb Hb' HQ Hb2.
    destruct (Hin r2 b2 (list_elem_of_lookup_2 _ _ _ Hr2) Hb2)
      as (x' & y' & Hb2').
    exists (Bone.moveInitial_self x' y' b2). split; [done |].
    destruct (Hjoin i r r2 _ _ Hr Hr2 Hb' Hb2') as [HjX HjY].
    destruct (Hj i r r2 _ _ Hr Hr2 Hb Hb2) as [HoX HoY].
    destruct HQ as (_ & _ & HtX & HtY & _).
    unfold translated, Bone.initX, Bone.initY, Bone.terminalX, Bone.terminalY,
      Bone.length in *.
    cbn in HjX, HjY |- *.
    assert (x' = Bone._x0 b2 + (x - px)) as -> by lra.
    assert (y' = Bone._y0 b2 + (y - py)) as -> by lra.
    repeat split; ring.
Qed.

(** X9.  [Chain.move(x, y)] on a well-formed chain whose bones are joined
    shifts every bone by the vector from the root joint to [(x, y)]: both
    end points of each bone move by it, its orientation and its length are
    untouched. *)
Theorem Chain_move_translates c h rs x y px py :
  Chain_wf c h rs -> joined h rs ->
  Chain.initX c h = Some px -> Chain.initY c h = Some py ->
  exists h',
    Chain.move c x y h = (Ret (), h') /\
    forall r b, r ∈ rs -> h !! r = Some b ->
      exists b', h' !! r = Some b' /\
        Bone.initX b' = Bone.initX b + (x - px) /\
        Bone.initY b' = Bone.initY b + (y - py) /\
        Bone.terminalX b' = Bone.terminalX b + (x - px) /\
        Bone.terminalY b' = Bone.terminalY b + (y - py) /\
        Bone._angle b' = Bone._angle b /\ Bone.length b' = Bone.length b.
Proof.
  intros Hwf Hj HX HY.
  destruct (move_rigid c h rs x y px py Hwf Hj HX HY)
    as (h' & Hrun & _ & _ & _ & Hall).
  exists h'. split; [done |]. intros r b Hr Hb.
  destruct (Hall r b Hr Hb) as (b' & Hb' & H1 & H2 & H3 & H4 & H5 & H6 & _).
  by exists b'.
Qed.


Lemma rotate_self_consistent dA c s b :
  Bone_consistent b -> c * c + s * s = 1 ->
  Bone_consistent (Bone.rotate_self dA c s b).
Proof.
  intros (HdX & HdY & HL) Hcs. unfold Bone_consistent.
  cbn. split; [ring |]. split; [ring |]. rewrite HL. f_equal. nra.
Qed.

Lemma moveAndRotate_self_consistent x y dA c s b :
  Bone_consistent b -> c * c + s * s = 1 ->
  Bone_consistent (Bone.moveAndRotate_self x y dA c s b).
Proof.
  intros (HdX & HdY & HL) Hcs. unfold Bone_consistent.
  cbn. split; [ring |]. split; [ring |]. rewrite HL. f_equal. nra.
Qed.

Lemma cos_sin_1 a : cos a * cos a + sin a * sin a = 1.
Proof. pose proof (sin2_cos2 a) as H. unfold Rsqr in H. lra. Qed.

(** [Chain.rotate] on a joined chain of bones with consistent caches. *)
Lemma rotate_rigid c h rs dA px py :
  Chain_wf c h rs -> joined h rs ->
  (forall r b, r ∈ rs -> h !! r = Some b -> Bone_consistent b) ->
  Chain.initX c h = Some px -> Chain.initY c h = Some py ->
  exists h',
    Chain.rotate c dA h = (Ret (), h') /\
    Chain_wf c h' rs /\ joined h' rs /\
    (forall r, r ∉ rs -> h' !! r = h !! r) /\
    forall r b, r ∈ rs -> h !! r = Some b ->
      exists b', h' !! r = Some b' /\ turned px py dA b b'.
Proof.
  intros Hwf Hj Hcons HX HY.
  destruct (chain_root c h rs px py Hwf HX HY)
    as (r0 & rest & b0 & -> & Hb0 & HX0 & HY0).
  unfold Chain.rotate. rewrite (wf_root _ _ _ Hwf). cbn [head].
  destruct (rotate_path h r0 rest b0 dA None None (wf_path _ _ _ _ Hwf) Hb0)
    as (h' & Hrun & Hframe & Hin & Hroot & Hjoin).
  exists h'. split; [done |]. split; [| split; [done | split; [done |]]].
  { apply (wf_kept c h); [done |]. intros r b Hr Hb.
    apply elem_of_cons in Hr as [-> | Hr].
    - assert (b = b0) as -> by congruence.
      eexists. split; [done |]. apply kept_rotate_self.
    - destruct (Hin r b Hr Hb) as (x' & y' & Hb').
      eexists. split; [done |]. apply kept_moveAndRotate_self. }
  intros r b Hr Hb. apply list_elem_of_lookup in Hr as [i Hr].
  revert i r b Hr Hb.
  apply (along_chain h h' (r0 :: rest) (turned px py dA) (wf_all _ _ _ Hwf)).
  - intros r b [= <-] Hb. assert (b = b0) as -> by congruence.
    exists (Bone.rotate_self dA (cos dA) (sin dA) b0). split; [done |].
    pose proof (Hcons r0 b0 ltac:(by left) Hb0) as Hc0.
    split; [| split; [| split; [| split; [| split; [| split]]]]];
      try apply rotate_self_consistent; try done; try apply cos_sin_1.
    all: destruct Hc0 as (HdX & HdY & _).
    all: unfold turnX, turnY, Bone.initX, Bone.initY, Bone.terminalX,
           Bone.terminalY in *.
    all: cbn; subst px py; rewrite ?HdX, ?HdY; ring.
  - intros i r r2 b b' b2 Hr Hr2 Hb Hb' HQ Hb2.
    assert (Hr2in : r2 ∈ rest).
    { apply (list_elem_of_lookup_2 _ i). exact Hr2. }
    destruct (Hin r2 b2 Hr2in Hb2) as (x' & y' & Hb2').
    exists (Bone.moveAndRotate_self x' y' dA (cos dA) (sin dA) b2).
    split; [done |].
    destruct (Hjoin i r r2 _ _ Hr Hr2 Hb' Hb2') as [HjX HjY].
    destruct (Hj i r r2 _ _ Hr Hr2 Hb Hb2) as [HoX HoY].
    pose proof (Hcons r2 b2 ltac:(by right) Hb2) as Hc2.
    destruct HQ as (_ & _ & HtX & HtY & _).
    split; [| split; [| split; [| split; [| split; [| split]]]]];
      try apply moveAndRotate_self_consistent; try done; try apply cos_sin_1.
    all: destruct Hc2 as (HdX & HdY & _).
    all: unfold turnX, turnY, Bone.initX, Bone.initY, Bone.terminalX,
           Bone.terminalY in *.
    all: cbn in HjX, HjY |- *; rewrite ?HdX, ?HdY.
    all: rewrite <- ?HjX, <- ?HjY, ?HtX, ?HtY, ?HoX, ?HoY; ring.
Qed.

(** X10.  [Chain.rotate(dA)] on a well-formed chain whose bones are joined
    and have cached deltas that agree with their end points turns the
    whole chain rigidly about the root joint: both end points of each bone
    are turned by [dA] about it, each raw angle grows by [dA], each
    length is untouched. *)
Theorem Chain_rotate_rigid c h rs dA px py :
  Chain_wf c h rs -> joined h rs ->
  (forall r b, r ∈ rs -> h !! r = Some b -> Bone_consistent b) ->
  Chain.initX c h = Some px -> Chain.initY c h = Some py ->
  exists h',
    Chain.rotate c dA h = (Ret (), h') /\
    forall r b, r ∈ rs -> h !! r = Some b ->
      exists b', h' !! r = Some b' /\
        Bone.initX b' = turnX px py dA (Bone.initX b) (Bone.initY b) /\
        Bone.initY b' = turnY px py dA (Bone.initX b) (Bone.initY b) /\
        Bone.terminalX b'
          = turnX px py dA (Bone.terminalX b) (Bone.terminalY b) /\
        Bone.terminalY b'
          = turnY px py dA (Bone.terminalX b) (Bone.terminalY b) /\
        Bone._angle b' = Bone._angle b + dA /\
        Bone.length b' = Bone.length b.
Proof.
  intros Hwf Hj Hcons HX HY.
  destruct (rotate_rigid c h rs dA px py Hwf Hj Hcons HX HY)
    as (h' & Hrun & _ & _ & _ & Hall).
  exists h'. split; [done |]. intros r b Hr Hb.
  destruct (Hall r b Hr Hb) as (b' & Hb' & H1 & H2 & H3 & H4 & H5 & H6 & _).
  by exists b'.
Qed.


Lemma turn_back px py a x y :
  turnX px py (- a) (turnX px py a x y) (turnY px py a x y) = x /\
  turnY px py (- a) (turnX px py a x y) (turnY px py a x y) = y.
Proof.
  unfold turnX, turnY. rewrite cos_neg, sin_neg.
  pose proof (cos_sin_1 a) as H. split.
  - transitivity (px + (x - px) * (cos a * cos a + sin a * sin a)); [ring |].
    rewrite H. ring.
  - transitivity (py + (y - py) * (cos a * cos a + sin a * sin a)); [ring |].
    rewrite H. ring.
Qed.

(** X11.  Round trip of the forward kinematics: [Chain.rotate(dA)]
    followed by [Chain.rotate(-dA)], on a well-formed chain whose bones
    are joined and have consistent caches, gives every bone back its end
    points, its raw angle and its length. *)
Theorem Chain_rotate_round_trip c h rs dA px py :
  Chain_wf c h rs -> joined h rs ->
  (forall r b, r ∈ rs -> h !! r = Some b -> Bone_consistent b) ->
  Chain.initX c h = Some px -> Chain.initY c h = Some py ->
  exists h1 h2,
    Chain.rotate c dA h = (Ret (), h1) /\
    Chain.rotate c (- dA) h1 = (Ret (), h2) /\
    forall r b, r ∈ rs -> h !! r = Some b ->
      exists b2, h2 !! r = Some b2 /\
        Bone.initX b2 = Bone.initX b /\ Bone.initY b2 = Bone.initY b /\
        Bone.terminalX b2 = Bone.terminalX b /\
        Bone.terminalY b2 = Bone.terminalY b /\
        Bone._angle b2 = Bone._angle b /\ Bone.length b2 = Bone.length b.
Proof.
  intros Hwf Hj Hcons HX HY.
  destruct (rotate_rigid c h rs dA px py Hwf Hj Hcons HX HY)
    as (h1 & Hrun1 & Hwf1 & Hj1 & _ & Hall1).
  destruct (chain_root c h rs px py Hwf HX HY)
    as (r0 & rest & b0 & -> & Hb0 & HX0 & HY0).
  destruct (Hall1 r0 b0 ltac:(by left) Hb0)
    as (b0' & Hb0' & HX0' & HY0' & _).
  assert (Hroot1 : Chain.initX c h1 = Some px /\ Chain.initY c h1 = Some py).
  { unfold Chain.initX, Chain.initY. rewrite (wf_root _ _ _ Hwf).
    cbn [head mbind option_bind]. rewrite Hb0'. cbn [mbind option_bind].
    rewrite HX0', HY0', HX0, HY0. unfold turnX, turnY.
    split; f_equal; ring. }
  assert (Hcons1 : forall r b, r ∈ r0 :: rest -> h1 !! r = Some b ->
            Bone_consistent b).
  { intros r b1 Hr Hb1. destruct (wf_lookup c h _ r Hwf Hr) as [b Hb].
    destruct (Hall1 r b Hr Hb) as (b' & Hb' & Ht).
    assert (b' = b1) as -> by congruence.
    by destruct Ht as (_ & _ & _ & _ & _ & _ & Hc). }
  destruct (rotate_rigid c h1 _ (- dA) px py Hwf1 Hj1 Hcons1
              (proj1 Hroot1) (proj2 Hroot1))
    as (h2 & Hrun2 & _ & _ & _ & Hall2).
  exists h1, h2. split; [done |]. split; [done |].
  intros r b Hr Hb.
  destruct (Hall1 r b Hr Hb)
    as (b1 & Hb1 & H1X & H1Y & H1tX & H1tY & H1a & H1l & _).
  destruct (Hall2 r b1 Hr Hb1)
    as (b2 & Hb2 & H2X & H2Y & H2tX & H2tY & H2a & H2l & _).
  exists b2. split; [done |].
  rewrite H2X, H2Y, H2tX, H2tY, H2a, H2l, H1X, H1Y, H1tX, H1tY, H1a, H1l.
  destruct (turn_back px py dA (Bone.initX b) (Bone.initY b)) as [-> ->].
  destruct (turn_back px py dA (Bone.terminalX b) (Bone.terminalY b))
    as [-> ->].
  repeat split; ring.
Qed.

(** The bones (0,0)-(1,0) and (1,0)-(2,0) as a chain rooted at (0,0). *)
Lemma chain2_axis :
  let h := store2 (boneAt 0 0 1 0) (boneAt 1 0 2 0) in
  Chain_wf chain2 h [0%nat; 1%nat] /\ joined h [0%nat; 1%nat] /\
  (forall r b, r ∈ [0%nat; 1%nat] -> h !! r = Some b -> Bone_consistent b) /\
  Chain.initX chain2 h = Some 0 /\ Chain.initY chain2 h = Some 0 /\
  exists b1, h !! 1%nat = Some b1 /\
    Bone.terminalX b1 = 2 /\ Bone.terminalY b1 = 0.
Proof.
  cbv zeta.
  destruct (boneAt_geometry 0 0 1 0) as (EX & EY & EtX & EtY & _).
  destruct (boneAt_geometry 1 0 2 0) as (FX & FY & FtX & FtY & _).
  destruct (chain2_root (boneAt 0 0 1 0) (boneAt 1 0 2 0)) as [HX HY].
  rewrite EX in HX. rewrite EY in HY.
  destruct (asTerminal_geometry (Some 0%nat) (boneAt 1 0 2 0))
    as (_ & _ & GtX & GtY & _).
  split; [apply chain2_wf; [apply boneAt_NEXT | apply boneAt_PREV] |].
  split; [apply store2_joined; congruence |].
  split; [| split; [exact HX | split; [exact HY |]]].
  - intros r b Hr Hb. apply elem_of_cons in Hr as [-> | Hr].
    + rewrite store2_lookup0 in Hb. injection Hb as <-.
      apply asRoot_consistent, boneAt_consistent.
    + apply list_elem_of_singleton in Hr as ->.
      rewrite store2_lookup1 in Hb. injection Hb as <-.
      apply asTerminal_consistent, boneAt_consistent.
  - eexists. split; [apply store2_lookup1 |]. split; congruence.
Qed.

(** X9 on the bones (0,0)-(1,0) and (1,0)-(2,0) moved to (5,5): the second
    bone ends at (7,5). *)
Lemma Chain_move_translates_witness :
  exists h' b',
    Chain.move chain2 5 5 (store2 (boneAt 0 0 1 0) (boneAt 1 0 2 0))
      = (Ret (), h') /\
    h' !! 1%nat = Some b' /\
    Bone.terminalX b' = 7 /\ Bone.terminalY b' = 5.
Proof.
  destruct chain2_axis as (Hwf & Hj & _ & HX & HY & b1 & Hb1 & HtX & HtY).
  destruct (Chain_move_translates chain2 _ _ 5 5 0 0 Hwf Hj HX HY)
    as (h' & Hrun & Hall).
  destruct (Hall 1%nat b1 ltac:(right; by left) Hb1)
    as (b' & Hb' & _ & _ & HtX' & HtY' & _).
  exists h', b'. split; [exact Hrun |]. split; [exact Hb' |]. split; lra.
Defined.

(** X10 on the same chain turned by a quarter: the second bone ends at
    (0,2). *)
Lemma Chain_rotate_rigid_witness :
  exists h' b',
    Chain.rotate chain2 (PI / 2) (store2 (boneAt 0 0 1 0) (boneAt 1 0 2 0))
      = (Ret (), h') /\
    h' !! 1%nat = Some b' /\
    Bone.terminalX b' = 0 /\ Bone.terminalY b' = 2.
Proof.
  destruct chain2_axis as (Hwf & Hj & Hc & HX & HY & b1 & Hb1 & HtX & HtY).
  destruct (Chain_rotate_rigid chain2 _ _ (PI / 2) 0 0 Hwf Hj Hc HX HY)
    as (h' & Hrun & Hall).
  destruct (Hall 1%nat b1 ltac:(right; by left) Hb1)
    as (b' & Hb' & _ & _ & HtX' & HtY' & _).
  exists h', b'. split; [exact Hrun |]. split; [exact Hb' |].
  rewrite HtX', HtY', HtX, HtY. unfold turnX, turnY.
  rewrite cos_PI2, sin_PI2. split; ring.
Defined.

(** X11 on the same chain turned by 1 radian and back. *)
Lemma Chain_rotate_round_trip_witness :
  exists h1 h2 b2,
    Chain.rotate chain2 1 (store2 (boneAt 0 0 1 0) (boneAt 1 0 2 0))
      = (Ret (), h1) /\
    Chain.rotate chain2 (- 1) h1 = (Ret (), h2) /\
    h2 !! 1%nat = Some b2 /\
    Bone.terminalX b2 = 2 /\ Bone.terminalY b2 = 0.
Proof.
  destruct chain2_axis as (Hwf & Hj & Hc & HX & HY & b1 & Hb1 & HtX & HtY).
  destruct (Chain_rotate_round_trip chain2 _ _ 1 0 0 Hwf Hj Hc HX HY)
    as (h1 & h2 & Hrun1 & Hrun2 & Hall).
  destruct (Hall 1%nat b1 ltac:(right; by left) Hb1)
    as (b2 & Hb2 & _ & _ & HtX' & HtY' & _).
  exists h1, h2, b2. split; [exact Hrun1 |]. split; [exact Hrun2 |].
  split; [exact Hb2 |]. split; congruence.
Defined.

(** * Building and shrinking a chain *)

Lemma linked_snoc (h h' : Bone.Store) rs t b bt B T :
  linked h rs -> last rs = Some t -> b ∉ rs -> h !! t = Some bt ->
  h' !! b = Some B -> h' !! t = Some T ->
  (forall r, r <> b -> r <> t -> h' !! r = h !! r) ->
  Bone.NEXT T = Some b -> Bone.PREV T = Bone.PREV bt ->
  Bone.NEXT B = None -> Bone.PREV B = Some t ->
  linked h' (rs ++ [b]).
Proof.
  intros [Hnd Hl] Hlast Hb Hbt HB HT Hframe HnT HpT HnB HpB.
  rewrite last_lookup in Hlast.
  assert (Hlen : (0 < List.length rs)%nat).
  { destruct rs; [done | cbn; lia]. }
  split.
  { apply NoDup_app. split; [done |]. split; [| apply NoDup_singleton].
    intros r Hr Hr'. apply list_elem_of_singleton in Hr' as ->. done. }
  intros i r Hi. destruct (decide (i < List.length rs)%nat) as [Hlt | Hge].
  - rewrite lookup_app_l in Hi by done.
    destruct (Hl i r Hi) as (b0 & Hb0 & Hn0 & Hp0).
    assert (Hrb : r <> b).
    { intros ->. apply Hb. by apply list_elem_of_lookup_2 with i. }
    assert (Hprev : match i with O => None | S j => (rs ++ [b]) !! j end
                    = match i with O => None | S j => rs !! j end).
    { destruct i as [| j]; [done |]. apply lookup_app_l. lia. }
    destruct (decide (r = t)) as [-> | Hrt].
    + assert (i = pred (List.length rs)) as ->.
      { apply (NoDup_lookup rs _ _ t Hnd Hi Hlast). }
      assert (b0 = bt) as -> by congruence.
      exists T. split; [done |]. split.
      * rewrite HnT, lookup_app_r by lia.
        replace (S (pred (List.length rs)) - List.length rs)%nat with 0%nat
          by lia.
        done.
      * rewrite HpT, Hp0. by rewrite Hprev.
    + exists b0. split; [by rewrite Hframe |]. split.
      * rewrite Hn0. symmetry. apply lookup_app_l.
        destruct (decide (S i < List.length rs)%nat); [done |].
        assert (i = pred (List.length rs)) as -> by lia. congruence.
      * by rewrite Hp0, Hprev.
  - rewrite lookup_app_r in Hi by lia.
    destruct (i - List.length rs)%nat as [| k] eqn:Hk; [| by destruct k].
    injection Hi as <-. assert (i = List.length rs) as -> by lia.
    exists B. split; [done |]. split.
    + rewrite HnB. symmetry. apply lookup_ge_None. rewrite length_app. cbn. lia.
    + rewrite HpB. destruct (List.length rs) as [| n] eqn:Hn; [lia |].
      rewrite lookup_app_l by lia. done.
Qed.

(** [addBone] on a chain that has a bone already. *)
Lemma addBone_run c (h : Bone.Store) b p bone bp :
  (0 < Chain._count c)%nat -> Chain._current c = Some p -> p <> b ->
  h !! b = Some bone -> h !! p = Some bp ->
  let B := Bone.upd_PREV (Some p)
             (Bone.upd_IS_END true
                (Bone.upd_IS_ROOT false
                   (Bone.upd_skinType (Chain._skinType c) bone))) in
  let T := Bone.upd_NEXT (Some b) (Bone.upd_IS_END false bp) in
  exists c' h',
    Chain.addBone b c h = (Ret (), c', h') /\
    Chain._bones c' = Chain.array_store (Chain._bones c) (Chain._count c) b /\
    Chain._count c' = S (Chain._count c) /\
    Chain._current c' = Some b /\ Chain._previous c' = Some p /\
    Chain._rootBone c' = Chain._rootBone c /\
    Chain._terminalBone c' = Some b /\
    h' !! b = Some B /\ h' !! p = Some T /\
    (forall r, r <> b -> r <> p -> h' !! r = h !! r).
Proof.
  intros Hcount Hcur Hne Hb Hp. cbv zeta. unfold Chain.addBone.
  rewrite (modify_Some _ _ _ bone Hb).
  cbn [Chain.upd_bones Chain.upd_previous Chain.upd_current Chain._current
       Chain._count Chain._bones Chain._skinType Chain._previous].
  erewrite modify_Some by apply lookup_insert_eq.
  destruct (decide (0 < Chain._count c)%nat); [| lia].
  destruct (decide (Chain._count c = 0%nat)); [lia |].
  rewrite Hcur.
  erewrite modify_Some
    by (rewrite !lookup_insert_ne by done; exact Hp).
  erewrite modify_Some
    by (rewrite lookup_insert_ne by done; apply lookup_insert_eq).
  eexists _, _. split; [reflexivity |].
  cbn [Chain._bones Chain._count Chain._current Chain._previous
       Chain._rootBone Chain._terminalBone Chain.upd_count
       Chain.upd_terminalBone Chain.upd_current Chain.upd_previous
       Chain.upd_bones].
  split; [done |]. split; [done |]. split; [done |]. split; [done |].
  split; [done |]. split; [done |].
  split; [rewrite lookup_insert_eq; f_equal; by rewrite bool_decide_eq_false_2 |].
  split; [rewrite lookup_insert_ne by done; apply lookup_insert_eq |].
  intros r Hrb Hrp. by rewrite !lookup_insert_ne.
Qed.

(** [addBone] on a chain without bones. *)
Lemma addBone_run0 c (h : Bone.Store) b bone :
  Chain._count c = 0%nat -> h !! b = Some bone ->
  let B := Bone.upd_IS_END true
             (Bone.upd_IS_ROOT true
                (Bone.upd_skinType (Chain._skinType c) bone)) in
  exists c' h',
    Chain.addBone b c h = (Ret (), c', h') /\
    Chain._bones c' = Chain.array_store (Chain._bones c) 0 b /\
    Chain._count c' = 1%nat /\
    Chain._current c' = Some b /\
    Chain._rootBone c' = Some b /\ Chain._terminalBone c' = Some b /\
    h' !! b = Some B /\ (forall r, r <> b -> h' !! r = h !! r).
Proof.
  intros Hcount Hb. cbv zeta. unfold Chain.addBone.
  rewrite (modify_Some _ _ _ bone Hb).
  cbn [Chain.upd_bones Chain.upd_previous Chain.upd_current Chain._current
       Chain._count Chain._bones Chain._skinType Chain._previous].
  erewrite modify_Some by apply lookup_insert_eq.
  rewrite Hcount. destruct (decide (0 < 0)%nat); [lia |].
  eexists _, _. split; [reflexivity |].
  cbn [Chain._bones Chain._count Chain._current Chain._previous
       Chain._rootBone Chain._terminalBone Chain.upd_count
       Chain.upd_terminalBone Chain.upd_rootBone Chain.upd_current
       Chain.upd_previous Chain.upd_bones].
  rewrite Hcount.
  split; [done |]. split; [done |]. split; [done |]. split; [done |].
  split; [done |].
  split; [rewrite lookup_insert_eq; f_equal; by rewrite bool_decide_eq_true_2 |].
  intros r Hrb. by rewrite !lookup_insert_ne.
Qed.

Lemma array_store_end (rs : list ref) b :
  Chain.array_store (Some <$> rs) (List.length rs) b = Some <$> (rs ++ [b]).
Proof.
  unfold Chain.array_store. rewrite length_fmap.
  destruct (decide (List.length rs < List.length rs)%nat); [lia |].
  rewrite Nat.sub_diag, fmap_app. done.
Qed.


Lemma wf_last (c : Chain.t) (h : Bone.Store) (rs : list ref) t :
  Chain_wf c h rs -> last rs = Some t ->
  exists bt, h !! t = Some bt /\ Bone.NEXT bt = None.
Proof.
  intros (_ & _ & _ & _ & Hnd & Hl) Hlast. rewrite last_lookup in Hlast.
  destruct (Hl _ _ Hlast) as (bt & Hbt & Hn & _). exists bt. split; [done |].
  rewrite Hn. apply lookup_ge_None. destruct rs; [done | cbn; lia].
Qed.

(** X12.  [addBone] extends a well-formed chain whose [_current] is its
    last bone by a stored bone that is not yet part of it and has no
    neighbours: the result is a well-formed chain with the new bone at
    the end, one bone longer, with [_current] the new bone; the new bone
    is the end bone (and the root exactly when the chain was empty), takes
    the skin type of the chain and keeps its geometry; no object outside
    the chain and the new bone is written. *)
Theorem addBone_extends c (h : Bone.Store) (rs : list ref) b bone :
  Chain_wf c h rs -> Chain._current c = last rs -> b ∉ rs ->
  h !! b = Some bone -> Bone.NEXT bone = None -> Bone.PREV bone = None ->
  exists c' h' bone',
    Chain.addBone b c h = (Ret (), c', h') /\
    Chain_wf c' h' (rs ++ [b]) /\
    Chain._current c' = last (rs ++ [b]) /\
    Chain.size c' = S (Chain.size c) /\
    h' !! b = Some bone' /\
    Bone.IS_END bone' = true /\
    Bone.IS_ROOT bone' = bool_decide (rs = []) /\
    Bone._skinType bone' = Chain._skinType c /\
    Bone.initX bone' = Bone.initX bone /\
    Bone.initY bone' = Bone.initY bone /\
    Bone.terminalX bone' = Bone.terminalX bone /\
    Bone.terminalY bone' = Bone.terminalY bone /\
    (forall r, r ∉ rs -> r <> b -> h' !! r = h !! r).
Proof.
  intros Hwf Hcur Hnew Hb Hn Hp.
  pose proof Hwf as (Hbones & Hcount & Hroot & Hterm & Hlinked).
  destruct (last rs) as [t |] eqn:Hlast.
  - assert (Hpos : (0 < Chain._count c)%nat).
    { rewrite Hcount. destruct rs; [done | cbn; lia]. }
    assert (Hrs : rs <> []) by (by intros ->).
    assert (Hin : t ∈ rs).
    { rewrite last_lookup in Hlast. by apply list_elem_of_lookup_2 in Hlast. }
    assert (Hne : t <> b) by (by intros ->).
    destruct (wf_last _ _ _ _ Hwf Hlast) as (bt & Hbt & Hnt).
    destruct (addBone_run c h b t bone bt Hpos Hcur Hne Hb Hbt)
      as (c' & h' & Hrun & Hb' & Hc' & Hcur' & _ & Hroot' & Hterm' & HB & HT
          & Hframe).
    eexists c', h', _. split; [exact Hrun |]. split.
    { split; [| split; [| split; [| split]]].
      - rewrite Hb', Hbones, Hcount. apply array_store_end.
      - rewrite Hc', Hcount, length_app. cbn. lia.
      - rewrite Hroot', Hroot. by destruct rs.
      - by rewrite Hterm', last_snoc.
      - by apply (linked_snoc h h' rs t b bt _ _ Hlinked Hlast Hnew Hbt HB HT
                    Hframe). }
    split; [by rewrite Hcur', last_snoc |].
    split; [exact Hc' |]. split; [exact HB |].
    split; [done |].
    split; [by rewrite bool_decide_eq_false_2 |].
    split; [done |]. split; [done |]. split; [done |]. split; [done |].
    split; [done |].
    intros r Hr Hrb. apply Hframe; [done |]. by intros ->.
  - assert (rs = []) as ->.
    { destruct rs as [| r rs] using rev_ind; [done |].
      by rewrite last_snoc in Hlast. }
    cbn in Hcount.
    destruct (addBone_run0 c h b bone Hcount Hb)
      as (c' & h' & Hrun & Hb' & Hc' & Hcur' & Hroot' & Hterm' & HB & Hframe).
    eexists c', h', _. split; [exact Hrun |]. split.
    { split; [| split; [| split; [| split]]].
      - rewrite Hb', Hbones. done.
      - done.
      - done.
      - done.
      - split; [apply NoDup_singleton |]. intros i r Hi.
        destruct i as [| i]; [| done]. injection Hi as <-.
        eexists. split; [exact HB |]. done. }
    split; [done |]. split; [unfold Chain.size; by rewrite Hc', Hcount |].
    split; [exact HB |].
    split; [done |]. split; [done |].
    split; [done |]. split; [done |]. split; [done |]. split; [done |].
    split; [done |].
    intros r _ Hrb. by apply Hframe.
Qed.

Lemma addBone_extends_witness :
  exists c' h' bone',
    Chain.addBone 1%nat chain1 (<[1%nat := boneAt 1 0 2 0]> (store1 (boneAt 0 0 1 0)))
      = (Ret (), c', h') /\
    Chain_wf c' h' [0%nat; 1%nat] /\
    Chain.size c' = 2%nat /\
    h' !! 1%nat = Some bone' /\ Bone.IS_END bone' = true.
Proof.
  set (b0 := boneAt 0 0 1 0). set (b1 := boneAt 1 0 2 0).
  assert (Hn1 : Bone.NEXT b1 = None) by reflexivity.
  assert (Hp1 : Bone.PREV b1 = None) by reflexivity.
  pose proof (chain1_wf b0 eq_refl) as Hwf.
  clearbody b0 b1.
  assert (Hwf' : Chain_wf chain1 (<[1%nat := b1]> (store1 b0)) [0%nat]).
  { destruct Hwf as (H1 & H2 & H3 & H4 & Hnd & Hl).
    split; [done |]. split; [done |]. split; [done |]. split; [done |].
    split; [done |]. intros i r Hi. destruct (Hl i r Hi) as (b & Hb & Hx).
    exists b. split; [| done].
    destruct i as [| i]; [| done]. injection Hi as <-.
    by rewrite lookup_insert_ne. }
  destruct (addBone_extends chain1 (<[1%nat := b1]> (store1 b0)) [0%nat]
              1%nat b1 Hwf' eq_refl)
    as (c' & h' & bone' & Hrun & Hwf2 & _ & Hsize & Hb' & Hend & _).
  - intros Hin. apply list_elem_of_singleton in Hin. discriminate.
  - apply lookup_insert_eq.
  - exact Hn1.
  - exact Hp1.
  - exists c', h', bone'. split; [exact Hrun |]. split; [exact Hwf2 |].
    split; [exact Hsize |]. split; [exact Hb' |]. exact Hend.
Defined.


(** [pop] on a chain of two bones or more. *)
Lemma pop_run c (h : Bone.Store) (rs0 : list ref) t r b bt :
  Chain._bones c = Some <$> (rs0 ++ [t; r]) -> r <> t ->
  h !! r = Some b -> h !! t = Some bt ->
  Chain.pop c h =
    (Ret (),
     Chain.upd_terminalBone (Some t)
       (Chain.upd_count (S (List.length rs0))
          (Chain.upd_bones (Some <$> (rs0 ++ [t])) c)),
     <[t := Bone.upd_NEXT None (Bone.upd_IS_END true bt)]>
       (<[r := Bone.destruct b]> h)).
Proof.
  intros Hbones Hne Hb Hbt. unfold Chain.pop.
  replace (rs0 ++ [t; r]) with ((rs0 ++ [t]) ++ [r]) in Hbones
    by (by rewrite <- app_assoc).
  rewrite Hbones, last_fmap_Some, last_snoc.
  rewrite (modify_Some _ _ _ _ Hb).
  cbn [Chain.upd_bones Chain._bones Chain.upd_count Chain._count
       Chain.upd_terminalBone Chain._terminalBone].
  rewrite removelast_fmap, removelast_snoc, length_fmap, length_app.
  cbn [List.length]. rewrite Nat.add_1_r.
  rewrite list_lookup_fmap, lookup_app_r, Nat.sub_diag by lia.
  cbn [lookup list_lookup fmap option_fmap option_map mjoin option_join mbind
       option_bind].
  erewrite modify_Some by (rewrite lookup_insert_ne by done; exact Hbt).
  erewrite modify_Some by apply lookup_insert_eq.
  rewrite insert_insert_eq. reflexivity.
Qed.

Lemma linked_unsnoc (h h' : Bone.Store) (rs : list ref) t r bt T :
  linked h (rs ++ [r]) -> last rs = Some t -> h !! t = Some bt ->
  h' !! t = Some T -> Bone.NEXT T = None -> Bone.PREV T = Bone.PREV bt ->
  (forall x, x <> r -> x <> t -> h' !! x = h !! x) ->
  linked h' rs.
Proof.
  intros [Hnd Hl] Hlast Hbt HT HnT HpT Hframe.
  apply NoDup_app in Hnd as (Hnd & Hnr & _).
  rewrite last_lookup in Hlast.
  split; [done |]. intros i x Hi.
  pose proof (lookup_lt_Some _ _ _ Hi) as Hlt.
  destruct (Hl i x) as (b0 & Hb0 & Hn0 & Hp0);
    [by rewrite lookup_app_l |].
  assert (Hxr : x <> r).
  { intros ->. apply (Hnr r); [by apply list_elem_of_lookup_2 with i |].
    by apply list_elem_of_singleton. }
  assert (Hprev : match i with O => None | S j => (rs ++ [r]) !! j end
                  = match i with O => None | S j => rs !! j end).
  { destruct i as [| j]; [done |]. apply lookup_app_l. lia. }
  destruct (decide (x = t)) as [-> | Hxt].
  - assert (i = pred (List.length rs)) as ->
      by apply (NoDup_lookup rs _ _ t Hnd Hi Hlast).
    assert (b0 = bt) as -> by congruence.
    exists T. split; [done |]. split.
    + rewrite HnT. symmetry. apply lookup_ge_None. lia.
    + by rewrite HpT, Hp0, Hprev.
  - exists b0. split; [by rewrite Hframe |]. split.
    + rewrite Hn0. apply lookup_app_l.
      destruct (decide (S i < List.length rs)%nat); [done |].
      assert (i = pred (List.length rs)) as -> by lia. congruence.
    + by rewrite Hp0, Hprev.
Qed.

Lemma linked_frame (h h' : Bone.Store) (rs : list ref) :
  linked h rs -> (forall x, x ∈ rs -> h' !! x = h !! x) -> linked h' rs.
Proof.
  intros [Hnd Hl] Hframe. split; [done |]. intros i x Hi.
  destruct (Hl i x Hi) as (b & Hb & Hx). exists b. split; [| done].
  rewrite Hframe; [done |]. by apply list_elem_of_lookup_2 with i.
Qed.

Lemma two_last {A} (rs : list A) :
  (2 <= List.length rs)%nat ->
  exists rs0 t r, rs = rs0 ++ [t; r].
Proof.
  intros Hlen.
  destruct (exists_last (l := rs)) as (rs1 & r & ->);
    [intros ->; simpl in Hlen; lia |].
  destruct (exists_last (l := rs1)) as (rs0 & t & ->).
  { intros ->. simpl in Hlen. lia. }
  exists rs0, t, r. by rewrite <- app_assoc.
Qed.

Lemma wf_two_last c (h : Bone.Store) (rs0 : list ref) t r :
  Chain_wf c h (rs0 ++ [t; r]) ->
  r <> t /\ (r ∉ rs0) /\ (t ∉ rs0) /\
  exists b bt, h !! r = Some b /\ h !! t = Some bt /\
    Bone.NEXT bt = Some r /\ Bone.NEXT b = None.
Proof.
  intros (_ & _ & _ & _ & Hnd & Hl).
  pose proof Hnd as Hnd'.
  apply NoDup_app in Hnd' as (_ & Hdis & Htr).
  apply NoDup_cons in Htr as (Htr & _).
  split; [intros ->; apply Htr; by apply list_elem_of_singleton |].
  split; [intros Hin; apply (Hdis r Hin); set_solver |].
  split; [intros Hin; apply (Hdis t Hin); set_solver |].
  destruct (Hl (S (List.length rs0)) r) as (b & Hb & Hn & _).
  { rewrite lookup_app_r by lia.
    by replace (S (List.length rs0) - List.length rs0)%nat with 1%nat by lia. }
  destruct (Hl (List.length rs0) t) as (bt & Hbt & Hnt & _).
  { by rewrite lookup_app_r, Nat.sub_diag by lia. }
  exists b, bt. split; [done |]. split; [done |]. split.
  - rewrite Hnt, lookup_app_r by lia.
    by replace (S (List.length rs0) - List.length rs0)%nat with 1%nat by lia.
  - rewrite Hn. apply lookup_ge_None. rewrite length_app. cbn. lia.
Qed.

(** X13.  On a well-formed chain of two bones or more, [pop] leaves a
    well-formed chain of the remaining bones: the popped bone is reset
    by [destruct], the new last bone only has [IS_END] set and [NEXT]
    cleared, and no other object is written.  [_current] is not
    updated: it still designates the popped bone. *)
Theorem pop_keeps_wf c (h : Bone.Store) (rs : list ref) :
  Chain_wf c h rs -> (2 <= List.length rs)%nat ->
  exists c' h' r t b bt,
    Chain.pop c h = (Ret (), c', h') /\
    last rs = Some r /\ last (removelast rs) = Some t /\
    h !! r = Some b /\ h !! t = Some bt /\
    Chain_wf c' h' (removelast rs) /\
    h' !! r = Some (Bone.destruct b) /\
    h' !! t = Some (Bone.upd_NEXT None (Bone.upd_IS_END true bt)) /\
    (forall x, x <> r -> x <> t -> h' !! x = h !! x) /\
    Chain._current c' = Chain._current c.
Proof.
  intros Hwf Hlen. destruct (two_last rs Hlen) as (rs0 & t & r & ->).
  destruct (wf_two_last _ _ _ _ _ Hwf) as (Hne & Hr0 & Ht0 & b & bt & Hb & Hbt
                                           & Hnt & Hnb).
  destruct Hwf as (Hbones & Hcount & Hroot & Hterm & Hlinked).
  pose proof (pop_run c h rs0 t r b bt Hbones Hne Hb Hbt) as Hrun.
  replace (rs0 ++ [t; r]) with ((rs0 ++ [t]) ++ [r]) in *
    by (by rewrite <- app_assoc).
  rewrite removelast_snoc, !last_snoc.
  eexists _, _, r, t, b, bt. split; [exact Hrun |].
  split; [done |]. split; [done |]. split; [done |]. split; [done |].
  assert (Hfr : forall x, x <> r -> x <> t ->
            (<[t := Bone.upd_NEXT None (Bone.upd_IS_END true bt)]>
               (<[r := Bone.destruct b]> h) : Bone.Store) !! x = h !! x).
  { intros x Hxr Hxt. by rewrite !lookup_insert_ne. }
  split.
  { split; [done |]. split; [cbn; rewrite length_app; cbn; lia |].
    split.
    { cbn [Chain._rootBone Chain.upd_terminalBone Chain.upd_count
           Chain.upd_bones]. rewrite Hroot. by destruct rs0. }
    split; [cbn; by rewrite last_snoc |].
    eapply (linked_unsnoc h _ (rs0 ++ [t]) t r bt);
      [exact Hlinked | apply last_snoc | done | apply lookup_insert_eq
      | done | done | done]. }
  split; [rewrite lookup_insert_ne by done; apply lookup_insert_eq |].
  split; [apply lookup_insert_eq |].
  split; [done |]. done.
Qed.

Lemma pop_keeps_wf_witness :
  exists c' h',
    Chain.pop chain2 (store2 (boneAt 0 0 1 0) (boneAt 1 0 2 0))
      = (Ret (), c', h') /\
    Chain_wf c' h' [0%nat].
Proof.
  set (b0 := boneAt 0 0 1 0). set (b1 := boneAt 1 0 2 0).
  pose proof (chain2_wf b0 b1 eq_refl eq_refl) as Hwf. clearbody b0 b1.
  destruct (pop_keeps_wf chain2 (store2 b0 b1) [0%nat; 1%nat] Hwf)
    as (c' & h' & r & t & b & bt & Hrun & _ & _ & _ & _ & Hwf' & _).
  - cbn. lia.
  - exists c', h'. split; [exact Hrun | exact Hwf'].
Defined.

(** X14.  [pop] followed by [addBone] links the new bone to the popped
    one, because [pop] leaves [_current] stale: the new bone is stored
    at the end of [_bones] and becomes the terminal bone, but its [PREV]
    is the popped bone, while the bone before it in [_bones] keeps
    [NEXT] null and [IS_END] true.  The chain is no longer well-formed,
    so forward kinematics from the root never reaches the new bone. *)
Theorem pop_then_addBone_mislinks c (h : Bone.Store) (rs : list ref) b bone :
  Chain_wf c h rs -> Chain._current c = last rs ->
  (2 <= List.length rs)%nat -> b ∉ rs -> h !! b = Some bone ->
  exists c1 h1 c2 h2 r t bt bb br,
    Chain.pop c h = (Ret (), c1, h1) /\
    Chain.addBone b c1 h1 = (Ret (), c2, h2) /\
    last rs = Some r /\ last (removelast rs) = Some t /\
    Chain._bones c2 = Some <$> (removelast rs ++ [b]) /\
    Chain._terminalBone c2 = Some b /\
    Chain.size c2 = List.length rs /\
    h2 !! t = Some bt /\ Bone.NEXT bt = None /\ Bone.IS_END bt = true /\
    h2 !! b = Some bb /\ Bone.PREV bb = Some r /\
    h2 !! r = Some br /\ Bone.NEXT br = Some b /\
    ~ Chain_wf c2 h2 (removelast rs ++ [b]).
Proof.
  intros Hwf Hcur Hlen Hnew Hb.
  destruct (two_last rs Hlen) as (rs0 & t & r & ->).
  destruct (wf_two_last _ _ _ _ _ Hwf) as (Hne & Hr0 & Ht0 & br & bt & Hbr & Hbt
                                           & Hnt & Hnb).
  destruct Hwf as (Hbones & Hcount & Hroot & Hterm & Hlinked).
  pose proof (pop_run c h rs0 t r br bt Hbones Hne Hbr Hbt) as Hrun.
  assert (Hrb : r <> b) by (intros ->; apply Hnew; set_solver).
  assert (Htb : t <> b) by (intros ->; apply Hnew; set_solver).
  replace (rs0 ++ [t; r]) with ((rs0 ++ [t]) ++ [r]) in *
    by (by rewrite <- app_assoc).
  rewrite last_snoc in Hcur.
  set (c1 := Chain.upd_terminalBone _ _) in Hrun.
  set (h1 := <[t := _]> _) in Hrun.
  destruct (addBone_run c1 h1 b r bone (Bone.destruct br))
    as (c2 & h2 & Hrun2 & Hb2 & Hc2 & Hcur2 & _ & Hroot2 & Hterm2 & HB & HT
        & Hframe).
  { cbn. lia. }
  { exact Hcur. }
  { exact Hrb. }
  { subst h1. by rewrite !lookup_insert_ne. }
  { subst h1. rewrite lookup_insert_ne by done. apply lookup_insert_eq. }
  rewrite removelast_snoc, !last_snoc.
  assert (Ht2 : h2 !! t
                = Some (Bone.upd_NEXT None (Bone.upd_IS_END true bt))).
  { rewrite Hframe by done. subst h1. apply lookup_insert_eq. }
  eexists c1, h1, c2, h2, r, t, _, _, _.
  split; [exact Hrun |]. split; [exact Hrun2 |].
  split; [done |]. split; [done |].
  split.
  { rewrite Hb2. subst c1.
    cbn [Chain._bones Chain._count Chain.upd_terminalBone Chain.upd_count
         Chain.upd_bones].
    replace (S (List.length rs0)) with (List.length (rs0 ++ [t]))
      by (rewrite length_app; cbn; lia).
    apply array_store_end. }
  split; [exact Hterm2 |].
  split.
  { unfold Chain.size. rewrite Hc2. subst c1. cbn. rewrite !length_app. cbn.
    lia. }
  split; [exact Ht2 |]. split; [done |]. split; [done |].
  split; [exact HB |]. split; [done |].
  split; [exact HT |]. split; [done |].
  intros (_ & _ & _ & _ & _ & Hl).
  destruct (Hl (List.length rs0) t) as (bt' & Hbt' & Hn' & _).
  { rewrite <- app_assoc. by rewrite lookup_app_r, Nat.sub_diag by lia. }
  rewrite Ht2 in Hbt'. injection Hbt' as <-.
  rewrite <- app_assoc, lookup_app_r in Hn' by lia.
  replace (S (List.length rs0) - List.length rs0)%nat with 1%nat in Hn' by lia.
  discriminate Hn'.
Qed.

Lemma pop_then_addBone_mislinks_witness :
  exists c1 h1 c2 h2 bb,
    Chain.pop chain2
      (<[2%nat := boneAt 1 0 1 1]> (store2 (boneAt 0 0 1 0) (boneAt 1 0 2 0)))
      = (Ret (), c1, h1) /\
    Chain.addBone 2%nat c1 h1 = (Ret (), c2, h2) /\
    h2 !! 2%nat = Some bb /\ Bone.PREV bb = Some 1%nat /\
    ~ Chain_wf c2 h2 [0%nat; 2%nat].
Proof.
  set (b0 := boneAt 0 0 1 0). set (b1 := boneAt 1 0 2 0).
  set (b2 := boneAt 1 0 1 1).
  pose proof (chain2_wf b0 b1 eq_refl eq_refl) as Hwf. clearbody b0 b1 b2.
  assert (Hwf' : Chain_wf chain2 (<[2%nat := b2]> (store2 b0 b1))
                   [0%nat; 1%nat]).
  { destruct Hwf as (H1 & H2 & H3 & H4 & Hl).
    split; [done |]. split; [done |]. split; [done |]. split; [done |].
    apply (linked_frame _ _ _ Hl). intros x Hx.
    apply lookup_insert_ne. intros <-. set_solver. }
  destruct (pop_then_addBone_mislinks chain2 (<[2%nat := b2]> (store2 b0 b1))
              [0%nat; 1%nat] 2%nat b2 Hwf' eq_refl)
    as (c1 & h1 & c2 & h2 & r & t & bt & bb & br & Hrun & Hrun2 & Hr & Ht & _
        & _ & _ & _ & _ & _ & Hbb & Hp & _ & _ & Hnwf).
  - cbn. lia.
  - set_solver.
  - apply lookup_insert_eq.
  - injection Hr as <-.
    exists c1, h1, c2, h2, bb. split; [exact Hrun |]. split; [exact Hrun2 |].
    split; [exact Hbb |]. split; [exact Hp |]. exact Hnwf.
Defined.

Lemma relink_last (bt : Bone.t) b :
  Bone.NEXT bt = None -> Bone.IS_END bt = true ->
  Bone.upd_NEXT None
    (Bone.upd_IS_END true (Bone.upd_NEXT (Some b) (Bone.upd_IS_END false bt)))
  = bt.
Proof. destruct bt. cbn. by intros -> ->. Qed.

(** X15.  [addBone] followed by [pop] is a round trip on a well-formed,
    non-empty chain whose last bone is marked [IS_END]: the array of
    bones, the size, the root and the terminal bone are as before, every
    object but the added bone is as before, and the chain is well-formed
    again; the added bone is left reset. *)
Theorem addBone_then_pop c (h : Bone.Store) (rs : list ref) t bt b bone :
  Chain_wf c h rs -> Chain._current c = last rs ->
  last rs = Some t -> h !! t = Some bt -> Bone.IS_END bt = true ->
  b ∉ rs -> h !! b = Some bone ->
  exists c1 h1 c2 h2 bone1,
    Chain.addBone b c h = (Ret (), c1, h1) /\
    Chain.pop c1 h1 = (Ret (), c2, h2) /\
    Chain._bones c2 = Chain._bones c /\
    Chain.size c2 = Chain.size c /\
    Chain._rootBone c2 = Chain._rootBone c /\
    Chain._terminalBone c2 = Chain._terminalBone c /\
    (forall x, x <> b -> h2 !! x = h !! x) /\
    h1 !! b = Some bone1 /\ h2 !! b = Some (Bone.destruct bone1) /\
    Chain_wf c2 h2 rs.
Proof.
  intros Hwf Hcur Hlast Hbt Hend Hnew Hb.
  destruct (wf_last _ _ _ _ Hwf Hlast) as (bt' & Hbt' & Hnt).
  assert (bt' = bt) as -> by congruence.
  pose proof Hwf as (Hbones & Hcount & Hroot & Hterm & Hlinked).
  assert (Hpos : (0 < Chain._count c)%nat).
  { rewrite Hcount. destruct rs; [done | cbn; lia]. }
  assert (Hin : t ∈ rs).
  { rewrite last_lookup in Hlast. by apply list_elem_of_lookup_2 in Hlast. }
  assert (Hne : t <> b) by (by intros ->).
  rewrite Hlast in Hcur.
  destruct (addBone_run c h b t bone bt Hpos Hcur Hne Hb Hbt)
    as (c1 & h1 & Hrun & Hb1 & Hc1 & Hcur1 & _ & Hroot1 & Hterm1 & HB & HT
        & Hframe).
  destruct (exists_last (l := rs)) as (rs0 & t' & ->); [by intros -> |].
  rewrite last_snoc in Hlast. injection Hlast as ->.
  assert (Hbones1 : Chain._bones c1 = Some <$> (rs0 ++ [t; b])).
  { rewrite Hb1, Hbones, Hcount, array_store_end. by rewrite <- app_assoc. }
  pose proof (pop_run c1 h1 rs0 t b _ _ Hbones1 (not_eq_sym Hne) HB HT) as Hrun2.
  rewrite relink_last in Hrun2 by done.
  assert (Hfr : forall x, x <> b ->
            (<[t := bt]> (<[b := Bone.destruct
               (Bone.upd_PREV (Some t)
                 (Bone.upd_IS_END true
                   (Bone.upd_IS_ROOT false
                     (Bone.upd_skinType (Chain._skinType c) bone))))]> h1)
               : Bone.Store) !! x = h !! x).
  { intros x Hxb. destruct (decide (x = t)) as [-> | Hxt].
    - by rewrite lookup_insert_eq.
    - rewrite !lookup_insert_ne by done. by apply Hframe. }
  eexists c1, h1, _, _, _. split; [exact Hrun |]. split; [exact Hrun2 |].
  unfold Chain.size.
  cbn [Chain._bones Chain._count Chain._rootBone Chain._terminalBone
       Chain.size Chain.upd_terminalBone Chain.upd_count Chain.upd_bones].
  split; [by rewrite Hbones |].
  split; [rewrite Hcount, length_app; cbn; lia |].
  split; [exact Hroot1 |].
  split; [by rewrite Hterm, last_snoc |].
  split; [exact Hfr |].
  split; [exact HB |].
  split; [rewrite lookup_insert_ne by done; apply lookup_insert_eq |].
  split; [reflexivity |].
  split; [cbn; rewrite length_app; cbn; lia |].
  split; [cbn; by rewrite Hroot1 |].
  split; [cbn; by rewrite last_snoc |].
  apply (linked_frame h _ _ Hlinked). intros x Hx. apply Hfr.
  by intros ->.
Qed.

Lemma addBone_then_pop_witness :
  exists c1 h1 c2 h2,
    Chain.addBone 1%nat chain1
      (<[1%nat := boneAt 1 0 2 0]> (store1 (boneAt 0 0 1 0))) = (Ret (), c1, h1) /\
    Chain.pop c1 h1 = (Ret (), c2, h2) /\
    Chain._bones c2 = Chain._bones chain1 /\
    Chain_wf c2 h2 [0%nat].
Proof.
  set (b0 := boneAt 0 0 1 0). set (b1 := boneAt 1 0 2 0).
  pose proof (chain1_wf b0 eq_refl) as Hwf. clearbody b0 b1.
  assert (Hwf' : Chain_wf chain1 (<[1%nat := b1]> (store1 b0)) [0%nat]).
  { destruct Hwf as (H1 & H2 & H3 & H4 & Hl).
    split; [done |]. split; [done |]. split; [done |]. split; [done |].
    apply (linked_frame _ _ _ Hl). intros x Hx.
    apply lookup_insert_ne. intros <-. set_solver. }
  destruct (addBone_then_pop chain1 (<[1%nat := b1]> (store1 b0)) [0%nat]
              0%nat (asRoot None b0) 1%nat b1 Hwf' eq_refl eq_refl)
    as (c1 & h1 & c2 & h2 & bone1 & Hrun & Hrun2 & Hbones & _ & _ & _ & _ & _
        & _ & Hwf2).
  - rewrite lookup_insert_ne by done. apply store1_lookup0.
  - reflexivity.
  - set_solver.
  - apply lookup_insert_eq.
  - exists c1, h1, c2, h2. split; [exact Hrun |]. split; [exact Hrun2 |].
    split; [exact Hbones | exact Hwf2].
Defined.


(** * Chains without bones *)

Lemma ccdBasic_no_bones x y c (h : Bone.Store) :
  Chain.size c = 0%nat -> Chain._terminalBone c = None ->
  ccdBasic x y c false h = (Ret true, h).
Proof.
  intros Hsize Hterm. unfold ccdBasic, ccdFuel. rewrite Hsize.
  change (S (S _maxCycles * (2 * 0 + 2))) with 9%nat.
  assert (Hcheck : forall s, ccdCheck x y c s h =
            if negb (bool_decide (_maxCycles <= _cycles s)%nat) then
              Continue
                {| _curTargetX := x; _curTargetY := y;
                   _termX := _termX s; _termY := _termY s;
                   _recordX := _recordX s; _recordY := _recordY s;
                   _iterations := 0; _isTarget := true;
                   _finished := bool_decide (_maxCycles <= _cycles s)%nat;
                   _deltaX := _deltaX s; _deltaY := _deltaY s;
                   _cycles := S (_cycles s) |} h
            else Return true h).
  { intros s. unfold ccdCheck, Chain.terminalX, Chain.terminalY.
    rewrite Hterm. reflexivity. }
  assert (Hbody : forall s, _iterations s = 0%nat -> ccdBody x y c s h =
            if _isTarget s then ccdTargetDone c s h else ccdCheck x y c s h).
  { intros s Hs. unfold ccdBody. rewrite Hsize, Hs.
    destruct (decide (0 < 0)%nat); [lia | done]. }
  unfold ccdInit.
  do 4 (cbn [ccdLoop _finished]; rewrite Hbody by reflexivity;
        cbn [_isTarget]; unfold ccdTargetDone; cbn [_cycles _termX _termY
          _recordX _recordY _deltaX _deltaY _curTargetX _curTargetY];
        cbn [ccdLoop _finished]; rewrite Hbody by reflexivity;
        cbn [_isTarget]; rewrite Hcheck;
        cbn [_cycles _termX _termY _recordX _recordY _deltaX _deltaY
             _curTargetX _curTargetY];
        try (rewrite bool_decide_eq_false_2 by (unfold _maxCycles; lia);
             cbn [negb])).
  rewrite bool_decide_eq_true_2 by (unfold _maxCycles; lia). reflexivity.
Qed.

(** X16.  On a chain without bones every forward-kinematics entry point
    fails: [move], [rotate], [moveAndRotate] and [pop] throw a TypeError,
    as do the getters [orientation] and [endOrientation]; the store is
    untouched, and [initX], [initY], [terminalX] and [terminalY] are
    undefined. *)
Theorem no_bones_throws c (h : Bone.Store) x y dA :
  Chain_wf c h [] ->
  Chain.move c x y h = (Throw TypeError, h) /\
  Chain.rotate c dA h = (Throw TypeError, h) /\
  Chain.moveAndRotate c x y dA h = (Throw TypeError, h) /\
  (exists c', Chain.pop c h = (Throw TypeError, c', h)) /\
  Chain_orientation c h = Throw TypeError /\
  Chain_endOrientation c h = Throw TypeError /\
  Chain.initX c h = None /\ Chain.initY c h = None /\
  Chain.terminalX c h = None /\ Chain.terminalY c h = None.
Proof.
  intros (Hbones & Hcount & Hroot & Hterm & _). cbn in Hroot, Hterm, Hbones.
  unfold Chain.move, Chain.rotate, Chain.moveAndRotate, Chain_orientation,
    Chain_endOrientation, Chain.initX, Chain.initY, Chain.terminalX,
    Chain.terminalY, Chain.pop.
  rewrite Hroot, Hterm, Hbones. cbn.
  repeat split. by eexists.
Qed.

Lemma no_bones_throws_witness :
  Chain.move Chain.new 1 2 ∅ = (Throw TypeError, ∅) /\
  Chain_endOrientation Chain.new ∅ = Throw TypeError.
Proof.
  assert (Hwf : Chain_wf Chain.new ∅ []).
  { split; [done |]. split; [done |]. split; [done |]. split; [done |].
    split; [apply NoDup_nil_2 |]. intros i r Hi. done. }
  destruct (no_bones_throws Chain.new ∅ 1 2 0 Hwf)
    as (Hm & _ & _ & _ & _ & He & _).
  split; [exact Hm | exact He].
Defined.

(** X17.  On a chain without bones the iterative solver reports
    success for every target: [ccdBasic], not pinned, returns [true]
    and writes nothing, and so does [moveEndEffector] on a chain that
    is linked to nothing and has no other solver. *)
Theorem no_bones_resolved c (h : Bone.Store) x y :
  Chain_wf c h [] ->
  Chain._linkedFrom c = None -> Chain._linkedTo c = None ->
  Chain._ikSolver c = None \/ Chain._ikSolver c = Some IK_ccdBasic ->
  ccdBasic x y c false h = (Ret true, h) /\
  exists c', Chain_moveEndEffector x y false c h = (Ret true, c', h).
Proof.
  intros (Hbones & Hcount & Hroot & Hterm & _) Hlf _ Hs.
  cbn in Hroot, Hterm, Hbones, Hcount.
  pose proof (ccdBasic_no_bones x y c h Hcount Hterm) as Hccd.
  split; [exact Hccd |].
  unfold Chain_moveEndEffector, solveAndRedraw, runSolver.
  cbn [Chain._linkedFrom Chain.upd_ikSolver Chain._ikSolver Chain._bones
       Chain.REDRAW_ON_SOLVE default].
  rewrite Hlf.
  assert (Hd : default IK_ccdBasic (Chain._ikSolver c) = IK_ccdBasic)
    by (by destruct Hs as [-> | ->]).
  rewrite Hd.
  assert (Hccd' : ccdBasic x y (Chain.upd_ikSolver (Some IK_ccdBasic) c) false h
                  = (Ret true, h)) by (by apply ccdBasic_no_bones).
  rewrite Hccd', Hbones. cbn [Chain.drawAll].
  destruct (Chain.REDRAW_ON_SOLVE c); by eexists.
Qed.

Lemma no_bones_resolved_witness :
  ccdBasic 3 4 Chain.new false ∅ = (Ret true, ∅).
Proof.
  assert (Hwf : Chain_wf Chain.new ∅ []).
  { split; [done |]. split; [done |]. split; [done |]. split; [done |].
    split; [apply NoDup_nil_2 |]. intros i r Hi. done. }
  destruct (no_bones_resolved Chain.new ∅ 3 4 Hwf eq_refl eq_refl
              (or_introl eq_refl))
    as (H & _).
  exact H.
Defined.


(** * Single bones *)

Lemma cos_sin_TWO_PI a :
  cos (a + TWO_PI) = cos a /\ sin (a + TWO_PI) = sin a.
Proof.
  unfold TWO_PI. replace (a + (PI + PI)) with (a + 2 * PI) by ring.
  rewrite cos_plus, sin_plus, cos_2PI, sin_2PI. split; ring.
Qed.

(** Angles that differ by whole turns have the same direction. *)
Lemma same_direction (k : Z) a :
  cos (a + IZR k * TWO_PI) = cos a /\ sin (a + IZR k * TWO_PI) = sin a.
Proof.
  assert (Hnat : forall n : nat,
            cos (a + INR n * TWO_PI) = cos a /\ sin (a + INR n * TWO_PI) = sin a /\
            cos (a - INR n * TWO_PI) = cos a /\ sin (a - INR n * TWO_PI) = sin a).
  { induction n as [| n (IH1 & IH2 & IH3 & IH4)].
    - cbn. rewrite Rmult_0_l, Rplus_0_r, Rminus_0_r. done.
    - rewrite S_INR.
      replace (a + (INR n + 1) * TWO_PI) with (a + INR n * TWO_PI + TWO_PI)
        by ring.
      destruct (cos_sin_TWO_PI (a + INR n * TWO_PI)) as [-> ->].
      destruct (cos_sin_TWO_PI (a - (INR n + 1) * TWO_PI)) as [E1 E2].
      replace (a - (INR n + 1) * TWO_PI + TWO_PI) with (a - INR n * TWO_PI)
        in E1, E2 by ring.
      rewrite <- E1, <- E2. done. }
  destruct (Z_le_gt_dec 0 k) as [Hk | Hk].
  - destruct (Hnat (Z.to_nat k)) as (H1 & H2 & _).
    rewrite INR_IZR_INZ, Z2Nat.id in H1, H2 by done. done.
  - destruct (Hnat (Z.to_nat (- k))) as (_ & _ & H1 & H2).
    rewrite INR_IZR_INZ, Z2Nat.id, opp_IZR in H1, H2 by lia.
    replace (a - - IZR k * TWO_PI) with (a + IZR k * TWO_PI) in H1, H2 by ring.
    done.
Qed.

Lemma same_direction_eq a b (k : Z) :
  a = b + IZR k * TWO_PI -> cos a = cos b /\ sin a = sin b.
Proof. intros ->. apply same_direction. Qed.

(** The angle that the orientation setter turns the bone by leads from
    the direction of the bone to the requested one. *)
Lemma setter_direction (theta rad : R) :
  let orient := normalize theta in
  let angle := normalize rad in
  let dA0 := angle - orient in
  let dA :=
    if Rabs dA0 >? PI then (if dA0 <? 0 then dA0 + TWO_PI else dA0 - TWO_PI)
    else dA0 in
  cos (theta + dA) = cos rad /\ sin (theta + dA) = sin rad.
Proof.
  cbv zeta. unfold normalize.
  destruct (bool_decide (theta >= 0)), (bool_decide (rad >= 0));
    repeat match goal with
           | |- context [bool_decide ?P] => destruct (bool_decide P)
           end;
    first [ apply (same_direction_eq _ _ 0); simpl; lra
          | apply (same_direction_eq _ _ 1); simpl; lra
          | apply (same_direction_eq _ _ (-1)); simpl; lra
          | apply (same_direction_eq _ _ 2); simpl; lra
          | apply (same_direction_eq _ _ (-2)); simpl; lra ].
Qed.

(** X18.  The orientation setter on an unconstrained bone at rest, with
    whatever bones follow it along [NEXT], the last of them linked to
    nothing: the bone keeps its initial point and its length and ends at
    [length] along the requested direction; [_angle] is the requested
    angle brought to a non-negative value, which the accessor returns for
    every request from -2 PI on; what is stored outside the path is
    unchanged.  (The propagation moves the object that the last bone is
    linked to, if any.) *)
Theorem set_orientation_points (h : Bone.Store) r rs b rad :
  path h (r :: rs) -> (forall t, last (r :: rs) = Some t -> unlinked h t) ->
  h !! r = Some b ->
  Bone._unconstrained b = true -> Bone_consistent b -> aligned b ->
  exists h' b',
    Bone.set_orientation r rad h = (Ret (), h') /\ h' !! r = Some b' /\
    Bone.initX b' = Bone.initX b /\ Bone.initY b' = Bone.initY b /\
    Bone.terminalX b' = Bone.initX b + Bone.length b * cos rad /\
    Bone.terminalY b' = Bone.initY b + Bone.length b * sin rad /\
    Bone.length b' = Bone.length b /\
    Bone._angle b' = normalize rad /\
    (- TWO_PI <= rad -> Bone.orientation b' = normalize rad) /\
    (forall r', r' ∉ r :: rs -> h' !! r' = h !! r').
Proof.
  intros Hpath _ Hb Hun Hcons Hal.
  unfold Bone.set_orientation, Bone.set_orientation_rec. rewrite Hb, Hun.
  cbn [negb]. unfold Bone.orientationAllowed. rewrite Hun. cbn [negb].
  change (if Bone._angle b >=? 0 then Bone._angle b else TWO_PI + Bone._angle b)
    with (Bone.orientation b).
  change (if rad >=? 0 then rad else TWO_PI + rad) with (normalize rad).
  set (dA0 := normalize rad - Bone.orientation b).
  set (dA := if Rabs dA0 >? PI then _ else dA0).
  destruct (propagate_path h r rs b
              (Bone.set_orientation_self (normalize rad) dA b) dA
              (cos dA) (sin dA) (size h) Hpath Hb)
    as (h' & Hrun & Hframe & _ & Hr' & _).
  { apply set_orientation_self_NEXT. }
  { apply path_length in Hpath. simpl in Hpath. lia. }
  exists h', (Bone.set_orientation_self (normalize rad) dA b).
  split; [exact Hrun |]. split; [exact Hr' |].
  destruct (set_orientation_self_keeps (normalize rad) dA b Hcons) as [HL _].
  pose proof Hcons as (HdX & HdY & Hlen).
  destruct (polar_cos_sin (Bone._deltaX b) (Bone._deltaY b)) as [HpX HpY].
  rewrite <- Hlen in HpX, HpY.
  set (theta := atan2 (Bone._deltaY b) (Bone._deltaX b)) in *.
  destruct (setter_direction theta rad) as [Hc Hs].
  cbv zeta in Hc, Hs. unfold aligned in Hal. fold theta in Hal.
  rewrite <- Hal in Hc, Hs. fold dA0 in Hc, Hs. fold dA in Hc, Hs.
  rewrite cos_plus in Hc. rewrite sin_plus in Hs.
  split; [reflexivity |]. split; [reflexivity |].
  split.
  { unfold Bone.terminalX, Bone.initX, Bone.length. cbn.
    rewrite <- Hc, <- HpX at 1. rewrite <- HpY at 1.
    ring. }
  split.
  { unfold Bone.terminalY, Bone.initY, Bone.length. cbn.
    rewrite <- Hs, <- HpX at 1. rewrite <- HpY at 1.
    ring. }
  split; [exact HL |]. split; [reflexivity |].
  split; [| exact Hframe].
  intros Hrad. unfold Bone.orientation. cbn.
  destruct (bool_decide_reflect (normalize rad >= 0)) as [| Hn]; [done |].
  exfalso. apply Hn. unfold normalize.
  destruct (bool_decide_reflect (rad >= 0)); lra.
Qed.


Lemma set_orientation_points_witness :
  exists h' b',
    Bone.set_orientation 0%nat (PI / 2) {[0%nat := boneAt 0 0 1 0]}
      = (Ret (), h') /\
    h' !! 0%nat = Some b' /\
    Bone.terminalX b' = Bone.initX (boneAt 0 0 1 0)
                        + Bone.length (boneAt 0 0 1 0) * cos (PI / 2).
Proof.
  pose proof (boneAt_posed 0 0 1 0) as (Hcons & Hal & _).
  assert (Hun : Bone._unconstrained (boneAt 0 0 1 0) = true) by reflexivity.
  assert (Hn : Bone.NEXT (boneAt 0 0 1 0) = None) by reflexivity.
  pose proof (boneAt_unlinked 0 0 1 0) as Hlk.
  set (b := boneAt 0 0 1 0) in *. clearbody b.
  destruct (set_orientation_points {[0%nat := b]} 0%nat [] b (PI / 2))
    as (h' & b' & Hrun & Hb' & _ & _ & HX & _).
  - split; [apply NoDup_singleton |]. intros [| i] r Hi; [| done].
    injection Hi as <-. exists b. split; [apply lookup_singleton_eq | done].
  - intros t Ht b0 Hb0. injection Ht as <-.
    rewrite lookup_singleton_eq in Hb0. by injection Hb0 as <-.
  - apply lookup_singleton_eq.
  - exact Hun.
  - exact Hcons.
  - exact Hal.
  - exists h', b'. split; [exact Hrun |]. split; [exact Hb' | exact HX].
Defined.

(** X19.  [reorient] leaves the cached deltas of the bone as they
    were, and [rotate] turns the cached deltas: a bone that is reoriented
    and then rotated by [dA] ends, from its initial point, along the
    vector it had before [reorient], turned by [dA], while [_angle] reads
    the new angle plus [dA].  With [dA = 0] the rotation makes the bone
    jump back to its former direction. *)
Theorem reorient_then_rotate (h : Bone.Store) r b toX toY angle mv rt dA :
  h !! r = Some b -> Bone.NEXT b = None -> Bone_consistent b ->
  let b1 := Bone.reorient toX toY angle mv rt b in
  exists h' b2,
    Bone.rotate r dA None None (<[r := b1]> h) = (Ret (), h') /\
    h' !! r = Some b2 /\
    Bone._angle b2 = angle + dA /\
    Bone.initX b2 = Bone.initX b1 /\ Bone.initY b2 = Bone.initY b1 /\
    Bone.terminalX b2 - Bone.initX b2
    = (Bone.terminalX b - Bone.initX b) * cos dA
      - (Bone.terminalY b - Bone.initY b) * sin dA /\
    Bone.terminalY b2 - Bone.initY b2
    = (Bone.terminalX b - Bone.initX b) * sin dA
      + (Bone.terminalY b - Bone.initY b) * cos dA /\
    (dA = 0 ->
     Bone.terminalX b2 - Bone.initX b2 = Bone.terminalX b - Bone.initX b /\
     Bone.terminalY b2 - Bone.initY b2 = Bone.terminalY b - Bone.initY b).
Proof.
  intros Hb Hn (HdX & HdY & _) b1.
  assert (Hn1 : Bone.NEXT b1 = None) by (by destruct mv).
  assert (Hd1 : Bone._deltaX b1 = Bone._deltaX b /\
                Bone._deltaY b1 = Bone._deltaY b) by (by destruct mv).
  destruct Hd1 as [HdX1 HdY1].
  unfold Bone.rotate, Bone.rotate_rec. rewrite lookup_insert_eq.
  assert (Hn2 : Bone.NEXT (Bone.rotate_self dA (cos dA) (sin dA) b1) = None)
    by exact Hn1.
  rewrite Hn2.
  eexists _, _. split; [reflexivity |].
  split; [apply lookup_insert_eq |].
  assert (Ha : Bone._angle b1 = angle) by (by destruct mv).
  unfold Bone.terminalX, Bone.terminalY, Bone.initX, Bone.initY.
  cbn [Bone.rotate_self Bone._angle Bone._x0 Bone._y0 Bone._x1 Bone._y1
       Bone.upd_deltaY Bone.upd_deltaX Bone.upd_y1 Bone.upd_x1 Bone.upd_angle
       Bone.upd_fk Bone._deltaX Bone._deltaY].
  rewrite Ha, HdX1, HdY1, HdX, HdY.
  split; [done |]. split; [done |]. split; [done |].
  split; [ring |]. split; [ring |].
  intros ->. rewrite cos_0, sin_0. split; ring.
Qed.

Lemma reorient_then_rotate_witness :
  exists h' b2,
    Bone.rotate 0%nat 0 None None
      (<[0%nat := Bone.reorient 0 0 (PI / 2) true true (boneAt 0 0 1 0)]>
         {[0%nat := boneAt 0 0 1 0]}) = (Ret (), h') /\
    h' !! 0%nat = Some b2 /\
    Bone._angle b2 = PI / 2 + 0 /\
    Bone.terminalX b2 - Bone.initX b2
    = Bone.terminalX (boneAt 0 0 1 0) - Bone.initX (boneAt 0 0 1 0).
Proof.
  pose proof (boneAt_posed 0 0 1 0) as (Hcons & _ & _).
  assert (Hn : Bone.NEXT (boneAt 0 0 1 0) = None) by reflexivity.
  set (b := boneAt 0 0 1 0) in *. clearbody b.
  destruct (reorient_then_rotate {[0%nat := b]} 0%nat b 0 0 (PI / 2) true true
              0 (lookup_singleton_eq _ _) Hn Hcons)
    as (h' & b2 & Hrun & Hb2 & Ha & _ & _ & _ & _ & H0).
  exists h', b2. split; [exact Hrun |]. split; [exact Hb2 |].
  split; [exact Ha |]. exact (proj1 (H0 eq_refl)).
Defined.

Lemma atan2_range y x : - PI < atan2 y x <= PI.
Proof.
  pose proof (atan_bound (y / x)) as Hb. pose proof PI_gt_3 as Hpi.
  unfold atan2.
  destruct (decide (0 < x)); [lra |].
  destruct (decide (x < 0)) as [Hx | Hx].
  - assert (Hinv : / x < 0) by (by apply Rinv_lt_0_compat).
    destruct (decide (0 <= y)) as [Hy | Hy].
    + assert (Hq : atan (y / x) <= 0).
      { rewrite <- atan_0. destruct (Req_dec y 0) as [-> | Hy0].
        - unfold Rdiv. rewrite Rmult_0_l. lra.
        - left. apply atan_increasing. unfold Rdiv. nra. }
      lra.
    + assert (Hq : 0 < atan (y / x)).
      { rewrite <- atan_0. apply atan_increasing. unfold Rdiv. nra. }
      lra.
  - repeat case_decide; lra.
Qed.

Lemma normalize_atan2_range y x :
  0 <= normalize (atan2 y x) < TWO_PI.
Proof.
  pose proof (atan2_range y x) as Hr. pose proof PI_gt_3 as Hpi.
  unfold normalize, TWO_PI.
  destruct (bool_decide_reflect (atan2 y x >= 0)); lra.
Qed.

(** X20.  [draw] on a standard, renderable bone that is not being drawn
    and whose own shape is drawn: the end points, the cached deltas and
    the length are kept, [_angle] becomes the direction of the cached
    deltas, so that the reported orientation is in [0, 2 PI), and the bone
    is not left in its drawing state. *)
Theorem draw_aligns b :
  Bone._drawing b = false -> Bone.RENDERABLE b = true ->
  Bone._drawType b = STANDARD ->
  Bone._skinType b = SKIN_NONE \/ Bone.SKIN_ONLY b = false ->
  Bone.initX (Bone.draw b) = Bone.initX b /\
  Bone.initY (Bone.draw b) = Bone.initY b /\
  Bone.terminalX (Bone.draw b) = Bone.terminalX b /\
  Bone.terminalY (Bone.draw b) = Bone.terminalY b /\
  Bone.length (Bone.draw b) = Bone.length b /\
  Bone._drawing (Bone.draw b) = false /\
  aligned (Bone.draw b) /\
  0 <= Bone.orientation (Bone.draw b) < TWO_PI /\
  (Bone_consistent b -> posed (Bone.draw b)).
Proof.
  intros Hd Hr Ht Hs.
  assert (Hdraw : Bone.draw b
            = Bone.upd_drawing false
                (Bone.upd_angle (atan2 (Bone._deltaY b) (Bone._deltaX b))
                   (Bone.upd_drawing true b))).
  { unfold Bone.draw. rewrite Hd, Hr.
    cbn [Bone._drawType Bone.upd_drawing]. rewrite Ht. unfold Bone.__std.
    assert (Hc : bool_decide (Bone._skinType (Bone.upd_drawing true b) = SKIN_NONE)
                 || negb (Bone.SKIN_ONLY (Bone.upd_drawing true b)) = true).
    { cbn [Bone._skinType Bone.SKIN_ONLY Bone.upd_drawing].
      destruct Hs as [-> | ->]; [done |]. by rewrite orb_true_r. }
    rewrite Hc. reflexivity. }
  rewrite Hdraw.
  assert (Hal : aligned
            (Bone.upd_drawing false
               (Bone.upd_angle (atan2 (Bone._deltaY b) (Bone._deltaX b))
                  (Bone.upd_drawing true b)))).
  { unfold aligned, Bone.orientation. cbn. reflexivity. }
  split; [done |]. split; [done |]. split; [done |]. split; [done |].
  split; [done |]. split; [done |]. split; [exact Hal |].
  split.
  { rewrite Hal. cbn. apply normalize_atan2_range. }
  intros Hc. split; [exact Hc |]. split; [exact Hal | done].
Qed.

Lemma draw_aligns_witness :
  aligned (Bone.draw (boneAt 0 0 1 0)) /\
  Bone._drawing (Bone.draw (boneAt 0 0 1 0)) = false.
Proof.
  assert (H1 : Bone._drawing (boneAt 0 0 1 0) = false) by reflexivity.
  assert (H2 : Bone.RENDERABLE (boneAt 0 0 1 0) = true) by reflexivity.
  assert (H3 : Bone._drawType (boneAt 0 0 1 0) = STANDARD) by reflexivity.
  assert (H4 : Bone._skinType (boneAt 0 0 1 0) = SKIN_NONE) by reflexivity.
  set (b := boneAt 0 0 1 0) in *. clearbody b.
  destruct (draw_aligns b H1 H2 H3 (or_introl H4))
    as (_ & _ & _ & _ & _ & Hd & Hal & _).
  split; [exact Hal | exact Hd].
Defined.

(** X21.  [setTerminal] on a bone that is not being drawn puts the
    terminal point where it is asked and brings the caches in agreement
    with the end points: the bone is at rest, its length is the distance
    between its end points, its orientation is in [0, 2 PI), and the
    terminal point is the initial point plus [length] along the
    orientation. *)
Theorem setTerminal_poses x y b :
  Bone._drawing b = false ->
  let b' := Bone.setTerminal x y b in
  Bone.initX b' = Bone.initX b /\ Bone.initY b' = Bone.initY b /\
  Bone.terminalX b' = x /\ Bone.terminalY b' = y /\
  posed b' /\
  Bone.length b' = span b' /\
  0 <= Bone.orientation b' < TWO_PI /\
  x = Bone.initX b + Bone.length b' * cos (Bone.orientation b') /\
  y = Bone.initY b + Bone.length b' * sin (Bone.orientation b').
Proof.
  intros Hd b'.
  assert (Hb' : b' = Bone.upd_angle (atan2 (y - Bone._y0 b) (x - Bone._x0 b))
                  (Bone.upd_flare
                     (Bone.ALPHA * sqrt ((x - Bone._x0 b) * (x - Bone._x0 b)
                                    + (y - Bone._y0 b) * (y - Bone._y0 b)))
                     (Bone.upd_length
                        (sqrt ((x - Bone._x0 b) * (x - Bone._x0 b)
                               + (y - Bone._y0 b) * (y - Bone._y0 b)))
                        (Bone.upd_deltaY (y - Bone._y0 b)
                           (Bone.upd_deltaX (x - Bone._x0 b)
                              (Bone.upd_y1 y (Bone.upd_x1 x b))))))).
  { subst b'. unfold Bone.setTerminal. rewrite Hd. reflexivity. }
  clearbody b'. subst b'.
  set (dx := x - Bone._x0 b). set (dy := y - Bone._y0 b).
  assert (Hor : forall bb, Bone.orientation
                  (Bone.upd_angle (atan2 dy dx) bb) = normalize (atan2 dy dx))
    by reflexivity.
  assert (Hcons : Bone_consistent
            (Bone.upd_angle (atan2 dy dx)
               (Bone.upd_flare (Bone.ALPHA * sqrt (dx * dx + dy * dy))
                  (Bone.upd_length (sqrt (dx * dx + dy * dy))
                     (Bone.upd_deltaY dy
                        (Bone.upd_deltaX dx
                           (Bone.upd_y1 y (Bone.upd_x1 x b)))))))).
  { split; [reflexivity |]. split; reflexivity. }
  split; [reflexivity |]. split; [reflexivity |]. split; [reflexivity |].
  split; [reflexivity |].
  split.
  { split; [exact Hcons |]. split; [| exact Hd]. unfold aligned.
    rewrite Hor. reflexivity. }
  split; [symmetry; by apply consistent_span |].
  rewrite Hor.
  split; [apply normalize_atan2_range |].
  destruct (polar_cos_sin dx dy) as [HpX HpY].
  assert (Hdir : cos (normalize (atan2 dy dx)) = cos (atan2 dy dx) /\
                 sin (normalize (atan2 dy dx)) = sin (atan2 dy dx)).
  { unfold normalize. destruct (bool_decide (atan2 dy dx >= 0)); [done |].
    rewrite Rplus_comm. apply cos_sin_TWO_PI. }
  destruct Hdir as [-> ->].
  unfold Bone.length, Bone.initX, Bone.initY.
  cbn [Bone._length Bone.upd_angle Bone.upd_flare Bone.upd_length].
  rewrite HpX, HpY. subst dx dy. split; ring.
Qed.

Lemma setTerminal_poses_witness :
  posed (Bone.setTerminal 3 4 Bone.new) /\
  Bone.terminalX (Bone.setTerminal 3 4 Bone.new) = 3.
Proof.
  destruct (setTerminal_poses 3 4 Bone.new eq_refl)
    as (_ & _ & HX & _ & Hp & _).
  split; [exact Hp | exact HX].
Defined.


(** * Connectors *)

Lemma move_tell toX toY c :
  exists c',
    Connector.move toX toY c = tell (moveCalls c') (Connector.Done c') /\
    c' = Connector.place toX toY
           (Connector._x0 c + (toX - Connector._pivotX c))
           (Connector._y0 c + (toY - Connector._pivotY c))
           (Connector._leftX c + (toX - Connector._pivotX c))
           (Connector._leftY c + (toY - Connector._pivotY c))
           (Connector._midX c + (toX - Connector._pivotX c))
           (Connector._midY c + (toY - Connector._pivotY c))
           (Connector._rightX c + (toX - Connector._pivotX c))
           (Connector._rightY c + (toY - Connector._pivotY c)) c.
Proof.
  eexists. split; [| reflexivity].
  unfold Connector.move, moveCalls, attached, Connector.callIf, tell.
  cbn [Connector._linkLeft Connector._linkMiddle Connector._linkRight
       Connector.place].
  destruct (Connector._linkLeft c), (Connector._linkMiddle c),
    (Connector._linkRight c); reflexivity.
Qed.

Lemma propagate_tell dA c :
  Connector.propagate dA c = tell (rotateCalls dA c) (Connector.Done c).
Proof.
  unfold Connector.propagate, rotateCalls, attached, Connector.callIf, tell.
  destruct (Connector._linkLeft c), (Connector._linkMiddle c),
    (Connector._linkRight c); reflexivity.
Qed.

Lemma place_eq pX pY x0 y0 lX lY mX mY rX rY pX' pY' x0' y0' lX' lY' mX' mY'
    rX' rY' c :
  pX = pX' -> pY = pY' -> x0 = x0' -> y0 = y0' -> lX = lX' -> lY = lY' ->
  mX = mX' -> mY = mY' -> rX = rX' -> rY = rY' ->
  Connector.place pX pY x0 y0 lX lY mX mY rX rY c
  = Connector.place pX' pY' x0' y0' lX' lY' mX' mY' rX' rY' c.
Proof. by intros -> -> -> -> -> -> -> -> -> ->. Qed.

(** X22.  [Connector.move] is a translation that takes the pivot to the
    target: the origin and the three terminators are shifted by the
    same vector, angle and length are kept, and every link is told to
    move to the new position of its terminator, left, middle, right.
    Moves compose: a second move leaves the connector where that move
    alone would have left it, with the same calls, and a move to the
    pivot the connector already has changes nothing. *)
Theorem Connector_move_rigid toX toY c :
  exists c',
    Connector.move toX toY c = tell (moveCalls c') (Connector.Done c') /\
    Connector._pivotX c' = toX /\ Connector._pivotY c' = toY /\
    Connector_shifted (toX - Connector._pivotX c) (toY - Connector._pivotY c)
      c c' /\
    Connector._angle c' = Connector._angle c /\
    Connector.length c' = Connector.length c /\
    sameLinks c c' /\
    (forall x y, Connector.move x y c' = Connector.move x y c) /\
    (toX = Connector._pivotX c -> toY = Connector._pivotY c -> c' = c).
Proof.
  destruct (move_tell toX toY c) as (c' & Hrun & ->).
  eexists. split; [exact Hrun |].
  split; [reflexivity |]. split; [reflexivity |].
  split.
  { unfold Connector_shifted. cbn. repeat split; ring. }
  split; [reflexivity |].
  split.
  { unfold Connector.length. cbn. f_equal. ring. }
  split; [by repeat split |].
  split.
  { intros x y.
    destruct (move_tell x y c) as (c2 & -> & ->).
    destruct (move_tell x y
                (Connector.place toX toY
                   (Connector._x0 c + (toX - Connector._pivotX c))
                   (Connector._y0 c + (toY - Connector._pivotY c))
                   (Connector._leftX c + (toX - Connector._pivotX c))
                   (Connector._leftY c + (toY - Connector._pivotY c))
                   (Connector._midX c + (toX - Connector._pivotX c))
                   (Connector._midY c + (toY - Connector._pivotY c))
                   (Connector._rightX c + (toX - Connector._pivotX c))
                   (Connector._rightY c + (toY - Connector._pivotY c)) c))
      as (c3 & -> & ->).
    cbn [Connector.place Connector._pivotX Connector._pivotY Connector._x0
         Connector._y0 Connector._leftX Connector._leftY Connector._midX
         Connector._midY Connector._rightX Connector._rightY].
    assert (Heq : forall a b cc d e f g i j k a' b' cc' d' e' f' g' i' j' k',
              Connector.place a b cc d e f g i j k
                (Connector.place a' b' cc' d' e' f' g' i' j' k' c)
              = Connector.place a b cc d e f g i j k c) by reflexivity.
    rewrite Heq.
    assert (Hp : Connector.place x y
              (Connector._x0 c + (toX - Connector._pivotX c) + (x - toX))
              (Connector._y0 c + (toY - Connector._pivotY c) + (y - toY))
              (Connector._leftX c + (toX - Connector._pivotX c) + (x - toX))
              (Connector._leftY c + (toY - Connector._pivotY c) + (y - toY))
              (Connector._midX c + (toX - Connector._pivotX c) + (x - toX))
              (Connector._midY c + (toY - Connector._pivotY c) + (y - toY))
              (Connector._rightX c + (toX - Connector._pivotX c) + (x - toX))
              (Connector._rightY c + (toY - Connector._pivotY c) + (y - toY)) c
            = Connector.place x y
                (Connector._x0 c + (x - Connector._pivotX c))
                (Connector._y0 c + (y - Connector._pivotY c))
                (Connector._leftX c + (x - Connector._pivotX c))
                (Connector._leftY c + (y - Connector._pivotY c))
                (Connector._midX c + (x - Connector._pivotX c))
                (Connector._midY c + (y - Connector._pivotY c))
                (Connector._rightX c + (x - Connector._pivotX c))
                (Connector._rightY c + (y - Connector._pivotY c)) c)
      by (apply place_eq; ring).
    by rewrite Hp. }
  intros -> ->. destruct c. unfold Connector.place. cbn. f_equal; ring.
Qed.


Lemma wrap_cases a :
  Connector.wrap a = a \/ Connector.wrap a = a - Connector.TWO_PI \/
  Connector.wrap a = a + Connector.TWO_PI.
Proof.
  unfold Connector.wrap. pose proof PI_gt_3 as Hpi.
  destruct (bool_decide_reflect (a > Connector.TWO_PI)) as [Hgt | Hle].
  - destruct (bool_decide_reflect (a - Connector.TWO_PI < - Connector.TWO_PI));
      [unfold Connector.TWO_PI in *; lra | auto].
  - destruct (bool_decide_reflect (a < - Connector.TWO_PI)); auto.
Qed.

Lemma Rabs_between a b : Rabs a <= b -> - b <= a <= b.
Proof. unfold Rabs. destruct (Rcase_abs a); lra. Qed.

Lemma wrap_bound a dA :
  Rabs a <= Connector.TWO_PI -> Rabs dA <= Connector.TWO_PI ->
  Rabs (Connector.wrap (a + dA)) <= Connector.TWO_PI.
Proof.
  intros Ha Hd. apply Rabs_le. apply Rabs_between in Ha, Hd.
  unfold Connector.wrap. pose proof PI_gt_3 as Hpi.
  unfold Connector.TWO_PI in *.
  destruct (bool_decide_reflect (a + dA > PI + PI)) as [Hgt | Hle].
  - destruct (bool_decide_reflect (a + dA - (PI + PI) < - (PI + PI))); lra.
  - destruct (bool_decide_reflect (a + dA < - (PI + PI))); lra.
Qed.

Lemma Connector_orientation_range c :
  Rabs (Connector._angle c) <= Connector.TWO_PI ->
  0 <= Connector.orientation c <= Connector.TWO_PI.
Proof.
  intros Ha. apply Rabs_between in Ha. unfold Connector.orientation.
  destruct (bool_decide_reflect (Connector._angle c >= 0)); lra.
Qed.

(** [offsetOrientation] when the rotation is not refused. *)
Lemma offsetOrientation_run dA c :
  Connector.refused dA c = false ->
  exists c',
    Connector.offsetOrientation dA c
    = tell (rotateCalls dA c') (Connector.Done c') /\
    Connector._pivotX c' = Connector._pivotX c /\
    Connector._pivotY c' = Connector._pivotY c /\
    Connector._x0 c' = turnX (Connector._pivotX c) (Connector._pivotY c) dA
                         (Connector._x0 c) (Connector._y0 c) /\
    Connector._y0 c' = turnY (Connector._pivotX c) (Connector._pivotY c) dA
                         (Connector._x0 c) (Connector._y0 c) /\
    terminatorsTurned (Connector._pivotX c) (Connector._pivotY c) dA c c' /\
    Connector._angle c' = Connector.wrap (Connector._angle c + dA) /\
    sameLinks c c'.
Proof.
  intros Hgo. unfold Connector.offsetOrientation. rewrite Hgo.
  cbv zeta. rewrite propagate_tell. eexists. split; [reflexivity |].
  unfold terminatorsTurned, turnX, turnY, sameLinks. cbn.
  repeat split; ring.
Qed.

Lemma turn_norm px py a x y :
  (turnX px py a x y - px) * (turnX px py a x y - px)
  + (turnY px py a x y - py) * (turnY px py a x y - py)
  = (x - px) * (x - px) + (y - py) * (y - py).
Proof.
  unfold turnX, turnY.
  rewrite <- (rotation_norm (x - px) (y - py) a). ring.
Qed.

(** X23.  [Connector.offsetOrientation], on a connector that is
    unconstrained or has no parent link, turns the origin and the three
    terminators about the pivot by the given angle: the pivot stays, the
    length is kept, and every link is told to move to the new position of
    its terminator and to turn by the same angle.  [_angle] changes by
    the angle up to one turn, and it stays within 2 PI of zero when it
    was and the angle given is: the reported orientation is then in
    [0, 2 PI]. *)
Theorem Connector_offsetOrientation_turns dA c :
  Connector._unconstrained c = true \/ Connector._linkedTo c = None ->
  exists c',
    Connector.offsetOrientation dA c
    = tell (rotateCalls dA c') (Connector.Done c') /\
    Connector._pivotX c' = Connector._pivotX c /\
    Connector._pivotY c' = Connector._pivotY c /\
    Connector._x0 c' = turnX (Connector._pivotX c) (Connector._pivotY c) dA
                         (Connector._x0 c) (Connector._y0 c) /\
    Connector._y0 c' = turnY (Connector._pivotX c) (Connector._pivotY c) dA
                         (Connector._x0 c) (Connector._y0 c) /\
    terminatorsTurned (Connector._pivotX c) (Connector._pivotY c) dA c c' /\
    Connector.length c' = Connector.length c /\
    sameLinks c c' /\
    (Connector._angle c' = Connector._angle c + dA \/
     Connector._angle c' = Connector._angle c + dA - Connector.TWO_PI \/
     Connector._angle c' = Connector._angle c + dA + Connector.TWO_PI) /\
    (Rabs (Connector._angle c) <= Connector.TWO_PI ->
     Rabs dA <= Connector.TWO_PI ->
     Rabs (Connector._angle c') <= Connector.TWO_PI /\
     0 <= Connector.orientation c' <= Connector.TWO_PI).
Proof.
  intros Hfree.
  assert (Hgo : Connector.refused dA c = false).
  { unfold Connector.refused. destruct Hfree as [-> | ->]; [done |].
    by destruct (negb _). }
  destruct (offsetOrientation_run dA c Hgo)
    as (c' & Hrun & HpX & HpY & HoX & HoY & Ht & Ha & Hl).
  exists c'. split; [exact Hrun |].
  split; [exact HpX |]. split; [exact HpY |]. split; [exact HoX |].
  split; [exact HoY |]. split; [exact Ht |].
  split.
  { destruct Ht as (_ & _ & HmX & HmY & _). unfold Connector.length.
    rewrite HpX, HpY, HmX, HmY. f_equal. apply turn_norm. }
  split; [exact Hl |].
  split; [rewrite Ha; apply wrap_cases |].
  intros Hb Hd.
  assert (Hb' : Rabs (Connector._angle c') <= Connector.TWO_PI)
    by (rewrite Ha; by apply wrap_bound).
  split; [exact Hb' |]. by apply Connector_orientation_range.
Qed.

Lemma Connector_offsetOrientation_turns_witness :
  exists c',
    Connector.offsetOrientation (PI / 2) tee
    = tell (rotateCalls (PI / 2) c') (Connector.Done c') /\
    Connector.length c' = Connector.length tee.
Proof.
  destruct (Connector_offsetOrientation_turns (PI / 2) tee (or_introl eq_refl))
    as (c' & Hrun & _ & _ & _ & _ & _ & HL & _).
  exists c'. split; [exact Hrun | exact HL].
Defined.

Lemma rotateCalls_ext dA c c' :
  sameTerminators c c' ->
  Connector._linkLeft c' = Connector._linkLeft c ->
  Connector._linkMiddle c' = Connector._linkMiddle c ->
  Connector._linkRight c' = Connector._linkRight c ->
  rotateCalls dA c' = rotateCalls dA c.
Proof.
  intros (H1 & H2 & H3 & H4 & H5 & H6) H7 H8 H9.
  unfold rotateCalls, attached.
  by rewrite H1, H2, H3, H4, H5, H6, H7, H8, H9.
Qed.

(** X24.  [Connector.moveAndRotate] takes the pivot to the target and
    turns the three terminators about the new pivot, but the origin is
    only shifted, not turned.  Called with the pivot the connector
    has, it makes the calls of [offsetOrientation] and leaves the same
    pivot, terminators and angle, but not the same origin: the one
    leaves it in place, the other turns it about the pivot. *)
Theorem Connector_moveAndRotate_origin toX toY dA c :
  exists c',
    Connector.moveAndRotate toX toY dA c
    = tell (rotateCalls dA c') (Connector.Done c') /\
    Connector._pivotX c' = toX /\ Connector._pivotY c' = toY /\
    Connector._x0 c' = Connector._x0 c + (toX - Connector._pivotX c) /\
    Connector._y0 c' = Connector._y0 c + (toY - Connector._pivotY c) /\
    (exists c1,
       Connector_shifted (toX - Connector._pivotX c)
         (toY - Connector._pivotY c) c c1 /\
       terminatorsTurned toX toY dA c1 c') /\
    Connector._angle c' = Connector.wrap (Connector._angle c + dA) /\
    Connector.length c' = Connector.length c /\
    sameLinks c c' /\
    (toX = Connector._pivotX c -> toY = Connector._pivotY c ->
     Connector.refused dA c = false ->
     exists c2,
       Connector.offsetOrientation dA c
       = tell (rotateCalls dA c') (Connector.Done c2) /\
       sameTerminators c2 c' /\
       Connector._angle c2 = Connector._angle c' /\
       Connector._x0 c' = Connector._x0 c /\ Connector._y0 c' = Connector._y0 c /\
       Connector._x0 c2 = turnX toX toY dA (Connector._x0 c) (Connector._y0 c) /\
       Connector._y0 c2 = turnY toX toY dA (Connector._x0 c) (Connector._y0 c)).
Proof.
  unfold Connector.moveAndRotate. cbv zeta. rewrite propagate_tell.
  eexists. split; [reflexivity |].
  split; [reflexivity |]. split; [reflexivity |].
  split; [reflexivity |]. split; [reflexivity |].
  split.
  { exists (Connector.place toX toY
              (Connector._x0 c + (toX - Connector._pivotX c))
              (Connector._y0 c + (toY - Connector._pivotY c))
              (Connector._leftX c + (toX - Connector._pivotX c))
              (Connector._leftY c + (toY - Connector._pivotY c))
              (Connector._midX c + (toX - Connector._pivotX c))
              (Connector._midY c + (toY - Connector._pivotY c))
              (Connector._rightX c + (toX - Connector._pivotX c))
              (Connector._rightY c + (toY - Connector._pivotY c)) c).
    split.
    - unfold Connector_shifted. cbn. repeat split; ring.
    - unfold terminatorsTurned, turnX, turnY. cbn. repeat split; ring. }
  split; [reflexivity |].
  split.
  { unfold Connector.length. cbn. f_equal.
    rewrite <- (rotation_norm (Connector._midX c - Connector._pivotX c)
                  (Connector._midY c - Connector._pivotY c) dA).
    ring. }
  split; [by repeat split |].
  intros -> -> Hgo.
  destruct (offsetOrientation_run dA c Hgo)
    as (c2 & Hrun & HpX & HpY & HoX & HoY & Ht & Ha & Hl).
  exists c2.
  match goal with
  | |- _ = tell (rotateCalls dA ?c') _ /\ _ =>
    assert (Hsame : sameTerminators c2 c')
  end.
  { destruct Ht as (H1 & H2 & H3 & H4 & H5 & H6).
    unfold sameTerminators. rewrite H1, H2, H3, H4, H5, H6.
    unfold turnX, turnY. cbn. repeat split; ring. }
  split.
  { rewrite Hrun. f_equal. symmetry.
    destruct Hl as (H1 & H2 & H3).
    apply rotateCalls_ext; [exact Hsame | by rewrite H1 | by rewrite H2
                           | by rewrite H3]. }
  split; [exact Hsame |].
  split; [by rewrite Ha |].
  split; [cbn; ring |]. split; [cbn; ring |].
  split; [exact HoX | exact HoY].
Qed.


(** X25.  [__onFKEnd] on a move only ever moves the left link, to the
    left terminator: with a left and a right link the left link is moved
    twice and the right link is not moved; with a right link only, the
    call on the missing left link is a TypeError; the middle link is
    never moved. *)
Theorem Connector_onFKEnd_move c :
  (exists cs,
     (Connector.__onFKEnd FK_MOVE c = tell cs (Connector.Done c) \/
      Connector.__onFKEnd FK_MOVE c = tell cs (Connector.Fail TypeError)) /\
     forall call, call ∈ cs ->
       exists l, Connector._linkLeft c = Some l /\
         call = Connector.Call_move l (Connector._leftX c) (Connector._leftY c)) /\
  (forall l r,
     Connector._linkLeft c = Some l -> Connector._linkRight c = Some r ->
     Connector.__onFKEnd FK_MOVE c
     = tell [Connector.Call_move l (Connector._leftX c) (Connector._leftY c);
             Connector.Call_move l (Connector._leftX c) (Connector._leftY c)]
         (Connector.Done c)) /\
  (forall r,
     Connector._linkLeft c = None -> Connector._linkRight c = Some r ->
     Connector.__onFKEnd FK_MOVE c = Connector.Fail TypeError) /\
  (forall l,
     Connector._linkLeft c = Some l -> Connector._linkRight c = None ->
     Connector.__onFKEnd FK_MOVE c
     = tell [Connector.Call_move l (Connector._leftX c) (Connector._leftY c)]
         (Connector.Done c)).
Proof.
  unfold Connector.__onFKEnd, Connector.callIf.
  split; [| split; [| split]].
  - destruct (Connector._linkLeft c) as [l |], (Connector._linkRight c) as [r |].
    + eexists [_; _]. split; [left; reflexivity |].
      intros call Hc. exists l. split; [done |]. set_solver.
    + eexists [_]. split; [left; reflexivity |].
      intros call Hc. exists l. split; [done |]. set_solver.
    + exists []. split; [right; reflexivity |]. intros call Hc. set_solver.
    + exists []. split; [left; reflexivity |]. intros call Hc. set_solver.
  - by intros l r -> ->.
  - by intros r -> ->.
  - by intros l -> ->.
Qed.

(** X26.  [link(c, terminator, false)] tells the object that it is
    linked, moves it to the terminator and registers it there, leaving
    the connector where it is and its other links as they are; from then
    on every move of the connector moves the object to the new position
    of the terminator, until [unlink], after which a move calls nothing.
    With a terminator name that is none of the three the object is told
    that it is linked, and nothing else happens. *)
Theorem Connector_link_registers l t c x y :
  terminatorAt t c = Some (x, y) ->
  (exists c1,
     Connector.link (Some l) t false c
     = tell [Connector.Call_set_linkedTo l; Connector.Call_move l x y]
         (Connector.Done c1) /\
     linkAt t c1 = Some l /\
     (forall t', t' <> t -> linkAt t' c1 = linkAt t' c) /\
     Connector_shifted 0 0 c c1 /\
     (forall toX toY, exists c2,
        Connector.move toX toY c1 = tell (moveCalls c2) (Connector.Done c2) /\
        Connector.Call_move l (x + (toX - Connector._pivotX c))
          (y + (toY - Connector._pivotY c)) ∈ moveCalls c2) /\
     (forall toX toY, exists c3,
        Connector.move toX toY (Connector.unlink c1) = Connector.Done c3)) /\
  (forall orient,
     Connector.link (Some l) Connector.OTHER orient c
     = tell [Connector.Call_set_linkedTo l] (Connector.Done c)) /\
  (forall orient, Connector.link None t orient c = Connector.Done c).
Proof.
  intros Ht. split; [| split; [reflexivity | reflexivity]].
  assert (Hsh : forall l1 l2 l3, Connector_shifted 0 0 c
                  (Connector.upd_links l1 l2 l3 c)).
  { intros. unfold Connector_shifted. cbn. repeat split; ring. }
  destruct t; cbn in Ht; simplify_eq; eexists;
    (split; [reflexivity |]);
    (split; [reflexivity |]);
    (split; [intros t' Hne; by destruct t' |]);
    (split; [apply Hsh |]);
    (split; [| intros toX toY; eexists; reflexivity]);
    intros toX toY;
    match goal with
    | |- exists c2, Connector.move _ _ ?c1 = _ /\ _ =>
      destruct (move_tell toX toY c1) as (c2 & Hrun & ->)
    end;
    (eexists; split; [exact Hrun |]);
    unfold moveCalls, attached; cbn;
    destruct (Connector._linkLeft c), (Connector._linkMiddle c),
      (Connector._linkRight c); cbn; set_solver.
Qed.

Lemma Connector_link_registers_witness :
  exists c1,
    Connector.link (Some 5%nat) Connector.LEFT false tee
    = tell [Connector.Call_set_linkedTo 5%nat; Connector.Call_move 5%nat (-1) 1]
        (Connector.Done c1) /\
    linkAt Connector.LEFT c1 = Some 5%nat.
Proof.
  destruct (Connector_link_registers 5%nat Connector.LEFT tee (-1) 1 eq_refl)
    as ((c1 & Hrun & Hl & _) & _).
  exists c1. split; [exact Hrun | exact Hl].
Defined.


(** * Templates and limbs *)

Lemma packed_snoc ps p : packed (ps ++ [p]) = packed ps ++ [Some p.1; Some p.2].
Proof. unfold packed. rewrite bind_app. reflexivity. Qed.

Lemma packed_length ps : List.length (packed ps) = (2 * List.length ps)%nat.
Proof.
  induction ps as [| p ps IH]; [done |].
  change (packed (p :: ps)) with ([Some p.1; Some p.2] ++ packed ps).
  rewrite length_app, IH. cbn. lia.
Qed.

Lemma packed_no_holes ps : omap (fun v : option R => v) (packed ps) = ps ≫= (fun p => [p.1; p.2]).
Proof.
  induction ps as [| p ps IH]; [done |].
  change (p.1 :: p.2 :: omap (fun v : option R => v) (packed ps)
          = p.1 :: p.2 :: (ps ≫= (fun p => [p.1; p.2]))).
  by rewrite IH.
Qed.

Lemma packed_again ps :
  Some <$> (ps ≫= (fun p => [p.1; p.2])) = packed ps.
Proof.
  induction ps as [| p ps IH]; [done |].
  change (Some p.1 :: Some p.2 :: (Some <$> (ps ≫= (fun p => [p.1; p.2])))
          = Some p.1 :: Some p.2 :: packed ps).
  by rewrite IH.
Qed.

Lemma store_end (a : list (option R)) v :
  BoneTemplate.store a (Z.of_nat (List.length a)) v = a ++ [Some v].
Proof.
  unfold BoneTemplate.store, Chain.array_store.
  destruct (decide (0 <= Z.of_nat (List.length a))%Z); [| lia].
  rewrite Nat2Z.id.
  destruct (decide (List.length a < List.length a)%nat); [lia |].
  by rewrite Nat.sub_diag.
Qed.

Lemma filled_snoc ps p :
  filled (ps ++ [p]) = BoneTemplate.insert p.1 p.2 (filled ps).
Proof. unfold filled. by rewrite foldl_app. Qed.

(** What a sequence of [insert] leaves in a new template. *)
Lemma filled_spec ps :
  BoneTemplate.points (filled ps) = packed ps /\
  BoneTemplate._index (filled ps) = (2 * Z.of_nat (List.length ps))%Z /\
  BoneTemplate.count (filled ps) = (2 + Z.of_nat (List.length ps))%Z /\
  BoneTemplate.max (filled ps) = match ps with [] => Undefined | _ => NaN end.
Proof.
  induction ps as [| p ps (Hp & Hi & Hc & Hm)] using rev_ind; [done |].
  rewrite filled_snoc. unfold BoneTemplate.points, BoneTemplate.count,
    BoneTemplate.max in *.
  cbn [BoneTemplate.insert BoneTemplate._points BoneTemplate._index
       BoneTemplate._count BoneTemplate._max].
  rewrite Hp, Hi, Hc, Hm, packed_snoc, length_app. cbn [List.length].
  split.
  { replace (2 * Z.of_nat (List.length ps))%Z
      with (Z.of_nat (List.length (packed ps)))
      by (rewrite packed_length; lia).
    rewrite store_end.
    replace (Z.of_nat (List.length (packed ps)) + 1)%Z
      with (Z.of_nat (List.length (packed ps ++ [Some p.1])))
      by (rewrite length_app; cbn; lia).
    rewrite store_end. by rewrite <- app_assoc. }
  split; [lia |]. split; [lia |].
  destruct ps as [| q ps]; cbn; [done |]. by destruct (ps ++ [p]).
Qed.

(** X27.  A template filled by [insert] holds the points in order,
    packed, and counts two more than it holds; its [max] is never a
    number: undefined before the first [insert], NaN after it.  [insert]
    appends.  A copy made by [from] has the same points and the same
    count, but its next [insert] does not append: for a template of two
    points or more it overwrites two entries in the middle of the array
    and leaves the array as long as it was, while the count goes up. *)
Theorem BoneTemplate_filled ps :
  let t := filled ps in
  let copy := BoneTemplate.from t BoneTemplate.new in
  BoneTemplate.points t = packed ps /\
  BoneTemplate.count t = (2 + Z.of_nat (List.length ps))%Z /\
  ~ isNumber (BoneTemplate.max t) /\
  (forall x y, BoneTemplate.points (BoneTemplate.insert x y t)
               = packed (ps ++ [(x, y)])) /\
  BoneTemplate.points copy = packed ps /\
  BoneTemplate.count copy = BoneTemplate.count t /\
  ~ isNumber (BoneTemplate.max copy) /\
  (forall x y, (2 <= List.length ps)%nat ->
     let t' := BoneTemplate.insert x y copy in
     List.length (BoneTemplate.points t') = List.length (packed ps) /\
     BoneTemplate.points t' !! List.length ps = Some (Some x) /\
     BoneTemplate.points t' !! S (List.length ps) = Some (Some y) /\
     BoneTemplate.count t' = (BoneTemplate.count t + 1)%Z).
Proof.
  intros t copy. destruct (filled_spec ps) as (Hp & Hi & Hc & Hm).
  fold t in Hp, Hi, Hc, Hm.
  assert (Hcopy : BoneTemplate.points copy = packed ps).
  { subst copy t. unfold BoneTemplate.points in *. cbn.
    unfold BoneTemplate.points. rewrite Hp, packed_no_holes.
    apply packed_again. }
  split; [exact Hp |]. split; [exact Hc |].
  split; [rewrite Hm; clear; destruct ps; intros [] |].
  split.
  { intros x y. change (BoneTemplate.insert x y t)
      with (BoneTemplate.insert (x, y).1 (x, y).2 (filled ps)).
    rewrite <- filled_snoc. apply filled_spec. }
  split; [exact Hcopy |]. split; [reflexivity |].
  split; [intros []|].
  intros x y Hlen t'.
  assert (Ht' : BoneTemplate.points t'
                = <[S (List.length ps) := Some y]>
                    (<[List.length ps := Some x]> (packed ps))).
  { subst t'. unfold BoneTemplate.points in *.
    cbn [BoneTemplate.insert BoneTemplate._points]. rewrite Hcopy.
    subst copy.
    cbn [BoneTemplate.from BoneTemplate._index].
    rewrite Hc.
    replace (2 + Z.of_nat (List.length ps) - 2)%Z
      with (Z.of_nat (List.length ps)) by lia.
    unfold BoneTemplate.store, Chain.array_store.
    destruct (decide (0 <= Z.of_nat (List.length ps))%Z); [| lia].
    destruct (decide (0 <= Z.of_nat (List.length ps) + 1)%Z); [| lia].
    rewrite Nat2Z.id.
    replace (Z.to_nat (Z.of_nat (List.length ps) + 1)) with (S (List.length ps))
      by lia.
    destruct (decide (List.length ps < List.length (packed ps))%nat) as [| Hn];
      [| rewrite packed_length in Hn; lia].
    rewrite length_insert.
    destruct (decide (S (List.length ps) < List.length (packed ps))%nat)
      as [| Hn]; [done | rewrite packed_length in Hn; lia]. }
  rewrite Ht', !length_insert.
  split; [done |].
  split.
  { rewrite list_lookup_insert_ne by lia. apply list_lookup_insert_eq.
    rewrite packed_length. lia. }
  split.
  { apply list_lookup_insert_eq. rewrite length_insert, packed_length. lia. }
  subst t'. unfold BoneTemplate.count. cbn. reflexivity.
Qed.




(** Two calls of [addBone] on a new chain. *)
Lemma addBone_twice r1 r2 b1 b2 (hp : Bone.Store) :
  r1 <> r2 ->
  Bone.NEXT b1 = None -> Bone.PREV b1 = None ->
  Bone.NEXT b2 = None -> Bone.PREV b2 = None ->
  exists c1 h1 c2 h2 b1' b2',
    Chain.addBone r1 Chain.new (<[r1 := b1]> hp) = (Ret (), c1, h1) /\
    Chain.addBone r2 c1 (<[r2 := b2]> h1) = (Ret (), c2, h2) /\
    Chain_wf c2 h2 [r1; r2] /\
    h2 !! r1 = Some b1' /\ h2 !! r2 = Some b2' /\
    (samePose b1 b1' /\ Bone.length b1' = Bone.length b1 /\
     Bone.RENDERABLE b1' = Bone.RENDERABLE b1 /\
     Bone._drawType b1' = Bone._drawType b1) /\
    (samePose b2 b2' /\ Bone.length b2' = Bone.length b2 /\
     Bone.RENDERABLE b2' = Bone.RENDERABLE b2 /\
     Bone._drawType b2' = Bone._drawType b2) /\
    (forall r, r <> r1 -> r <> r2 -> h2 !! r = hp !! r).
Proof.
  intros Hne Hn1 Hp1 Hn2 Hp2.
  destruct (addBone_run0 Chain.new (<[r1 := b1]> hp) r1 b1 eq_refl
              (lookup_insert_eq _ _ _))
    as (c1 & h1 & Hrun1 & Hb1 & Hc1 & Hcur1 & Hroot1 & Hterm1 & HB1 & Hfr1).
  destruct (addBone_run c1 (<[r2 := b2]> h1) r2 r1 b2
              (Bone.upd_IS_END true
                 (Bone.upd_IS_ROOT true
                    (Bone.upd_skinType (Chain._skinType Chain.new) b1))))
    as (c2 & h2 & Hrun2 & Hb2 & Hc2 & Hcur2 & _ & Hroot2 & Hterm2 & HB2 & HT2
        & Hfr2).
  { rewrite Hc1. lia. }
  { exact Hcur1. }
  { exact Hne. }
  { apply lookup_insert_eq. }
  { rewrite lookup_insert_ne by done. exact HB1. }
  eexists c1, h1, c2, h2, _, _.
  split; [exact Hrun1 |]. split; [exact Hrun2 |].
  split.
  { split; [| split; [| split; [| split]]].
    - rewrite Hb2, Hb1, Hc1. reflexivity.
    - rewrite Hc2, Hc1. reflexivity.
    - rewrite Hroot2, Hroot1. reflexivity.
    - rewrite Hterm2. reflexivity.
    - split.
      { apply NoDup_cons. split; [| apply NoDup_singleton].
        intros Hin. apply list_elem_of_singleton in Hin. done. }
      intros [| [| i]] r Hi; simplify_eq/=.
      + eexists. split; [exact HT2 |]. split; [reflexivity |]. exact Hp1.
      + eexists. split; [exact HB2 |]. split; [exact Hn2 | reflexivity]. }
  split; [exact HT2 |]. split; [exact HB2 |].
  split; [by repeat split |]. split; [by repeat split |].
  intros r Hr1 Hr2. rewrite Hfr2 by done.
  rewrite lookup_insert_ne by done. rewrite Hfr1 by done.
  by rewrite lookup_insert_ne.
Qed.

Lemma fresh_bone_placed x0 y0 x1 y1 rend type :
  let b := Bone.setTerminal x1 y1
             (Bone.setInitial x0 y0 true
                (Bone.upd_RENDERABLE rend (Bone.upd_drawType type Bone.new))) in
  Bone.NEXT b = None /\ Bone.PREV b = None /\
  Bone.initX b = x0 /\ Bone.initY b = y0 /\
  Bone.terminalX b = x1 /\ Bone.terminalY b = y1 /\
  Bone.length b = sqrt ((x1 - x0) * (x1 - x0) + (y1 - y0) * (y1 - y0)) /\
  Bone.RENDERABLE b = rend /\ Bone._drawType b = type.
Proof.
  cbv zeta. unfold Bone.setTerminal, Bone.setInitial, Bone.initX, Bone.initY,
    Bone.terminalX, Bone.terminalY, Bone.length.
  cbn. repeat split.
Qed.

Lemma scaled_norm k a b :
  0 <= k -> sqrt (k * a * (k * a) + k * b * (k * b)) = k * sqrt (a * a + b * b).
Proof.
  intros Hk.
  replace (k * a * (k * a) + k * b * (k * b)) with (k * k * (a * a + b * b))
    by ring.
  rewrite sqrt_mult; [| nra | nra]. by rewrite sqrt_square.
Qed.

(** X28.  A leg built without templates in a bounding box that is not
    reduced to a point is a well-formed, continuous chain of two bones
    that are not renderable, from an upper corner of the box to the
    opposite lower corner; the upper bone has 49 percent of the length
    of the diagonal, the lower bone the rest. *)
Theorem Leg_new_geometry g1 g2 x y w h isLeft r1 r2 (hp : Bone.Store) :
  r1 <> r2 -> w <> 0 \/ h <> 0 ->
  exists c hp' b1 b2,
    Leg.new (Some g1) (Some g2) x y w h isLeft None None r1 r2 hp
    = (Ret (), c, hp') /\
    Chain_wf c hp' [r1; r2] /\ joined hp' [r1; r2] /\
    hp' !! r1 = Some b1 /\ hp' !! r2 = Some b2 /\
    Bone.initX b1 = (if isLeft then x else x + w) /\ Bone.initY b1 = y /\
    Bone.terminalX b2 = (if isLeft then x + w else x) /\
    Bone.terminalY b2 = y + h /\
    Bone.length b1 = 49 / 100 * sqrt (w * w + h * h) /\
    Bone.length b2 = 51 / 100 * sqrt (w * w + h * h) /\
    Bone.RENDERABLE b1 = false /\ Bone.RENDERABLE b2 = false /\
    (forall r, r <> r1 -> r <> r2 -> hp' !! r = hp !! r).
Proof.
  intros Hne Hbox.
  set (d := sqrt (w * w + h * h)).
  assert (Hd : 0 < d).
  { apply sqrt_lt_R0. destruct Hbox; nra. }
  unfold Leg.new, Leg.__create. fold d.
  unfold quotient. destruct (decide (d = 0)) as [Hd0 | _]; [lra |].
  set (rootX := if isLeft then x else x + w).
  set (endX := if isLeft then x + w else x).
  set (sw := if isLeft then w else - w).
  assert (HuX : (if isLeft then Some (w / d) else Some (- w / d))
                = Some (sw / d)) by (by destruct isLeft).
  rewrite HuX. cbn [fmap option_fmap option_map].
  set (upperX := Leg.UPPER_FRAC * d * (sw / d) + rootX).
  set (upperY := Leg.UPPER_FRAC * d * (h / d) + y).
  unfold Chain_addBoneAt, Bone_create.
  cbn [andb bool_decide decide_rel].
  rewrite (bool_decide_eq_false_2 (@None BoneTemplate.t <> None))
    by (intros H; by apply H).
  rewrite andb_false_r.
  destruct (fresh_bone_placed rootX y upperX upperY false CUSTOM)
    as (Hn1 & Hp1 & HiX1 & HiY1 & HtX1 & HtY1 & HL1 & Hr1 & _).
  destruct (fresh_bone_placed upperX upperY endX (y + h) false CUSTOM)
    as (Hn2 & Hp2 & HiX2 & HiY2 & HtX2 & HtY2 & HL2 & Hr2 & _).
  cbv zeta in Hn1, Hp1, HiX1, HiY1, HtX1, HtY1, HL1, Hr1,
    Hn2, Hp2, HiX2, HiY2, HtX2, HtY2, HL2, Hr2.
  set (b1 := Bone.setTerminal upperX upperY _) in *.
  set (b2 := Bone.setTerminal endX (y + h) _) in *.
  clearbody b1 b2.
  destruct (addBone_twice r1 r2 b1 b2 hp Hne Hn1 Hp1 Hn2 Hp2)
    as (c1 & h1 & c2 & h2 & b1' & b2' & Hrun1 & Hrun2 & Hwf & Hb1' & Hb2'
        & (Hs1 & HL1' & HR1 & _) & (Hs2 & HL2' & HR2 & _) & Hframe).
  rewrite Hrun1, Hrun2.
  destruct Hs1 as (E1 & E2 & E3 & E4 & _).
  destruct Hs2 as (F1 & F2 & F3 & F4 & _).
  exists c2, h2, b1', b2'. split; [reflexivity |]. split; [exact Hwf |].
  split.
  { intros [| [| i]] ra rb ba bb Ha Hb Hba Hbb; simplify_eq/=.
    rewrite E3, E4, F1, F2, HtX1, HtY1, HiX2, HiY2. done. }
  split; [exact Hb1' |]. split; [exact Hb2' |].
  split; [by rewrite E1, HiX1 |]. split; [by rewrite E2, HiY1 |].
  split; [by rewrite F3, HtX2 |]. split; [by rewrite F4, HtY2 |].
  assert (Hsw : sw * sw = w * w) by (subst sw; destruct isLeft; ring).
  split.
  { rewrite HL1', HL1.
    replace (upperX - rootX) with (49 / 100 * sw)
      by (subst upperX; unfold Leg.UPPER_FRAC; field; lra).
    replace (upperY - y) with (49 / 100 * h)
      by (subst upperY; unfold Leg.UPPER_FRAC; field; lra).
    rewrite scaled_norm by lra. rewrite Hsw. reflexivity. }
  split.
  { rewrite HL2', HL2.
    replace (endX - upperX) with (51 / 100 * sw)
      by (subst upperX endX rootX sw; unfold Leg.UPPER_FRAC;
          destruct isLeft; field; lra).
    replace (y + h - upperY) with (51 / 100 * h)
      by (subst upperY; unfold Leg.UPPER_FRAC; field; lra).
    rewrite scaled_norm by lra. rewrite Hsw. reflexivity. }
  split; [by rewrite HR1 |]. split; [by rewrite HR2 |].
  exact Hframe.
Qed.

Lemma Leg_new_geometry_witness :
  exists c hp' b1 b2,
    Leg.new (Some Graphics) (Some Graphics) 0 0 3 4 true None None
      0%nat 1%nat ∅ = (Ret (), c, hp') /\
    Chain_wf c hp' [0%nat; 1%nat] /\
    hp' !! 0%nat = Some b1 /\ hp' !! 1%nat = Some b2 /\
    Bone.length b1 = 49 / 100 * sqrt (3 * 3 + 4 * 4) /\
    Bone.terminalX b2 = 0 + 3.
Proof.
  destruct (Leg_new_geometry Graphics Graphics 0 0 3 4 true 0%nat 1%nat ∅)
    as (c & hp' & b1 & b2 & Hrun & Hwf & _ & Hb1 & Hb2 & _ & _ & HtX & _ & HL
        & _).
  - done.
  - left. lra.
  - exists c, hp', b1, b2. split; [exact Hrun |]. split; [exact Hwf |].
    split; [exact Hb1 |]. split; [exact Hb2 |]. split; [exact HL | exact HtX].
Defined.


(** X29.  The constructor of [Arm] creates its bones before it stores
    the graphics contexts it was given: the first bone is created with
    an undefined context, and the constructor throws a TypeError,
    whatever its arguments; no bone is stored.  The order alone is at
    fault: with the contexts in place, [__create] builds a well-formed,
    continuous chain of two bones in every bounding box that is not
    reduced to a point. *)
Theorem Arm_new_throws g1 g2 x y w h isLeft uArm fArm r1 r2 (hp : Bone.Store) :
  Arm.new g1 g2 x y w h isLeft uArm fArm r1 r2 hp
  = (Throw TypeError, Chain.new, hp) /\
  (r1 <> r2 -> w <> 0 \/ h <> 0 ->
   forall g g', exists c hp',
     Arm.__create (Some g) (Some g') x y w h isLeft None None r1 r2
       Chain.new hp = (Ret (), c, hp') /\
     Chain_wf c hp' [r1; r2] /\ joined hp' [r1; r2] /\
     (forall r, r <> r1 -> r <> r2 -> hp' !! r = hp !! r)).
Proof.
  split; [reflexivity |].
  intros Hne Hbox g g'.
  set (d := sqrt (w * w + h * h)).
  assert (Hd : 0 < d).
  { apply sqrt_lt_R0. destruct Hbox; nra. }
  unfold Arm.__create. fold d.
  unfold quotient. destruct (decide (d = 0)) as [Hd0 | _]; [lra |].
  set (rootX := if isLeft then x else x + w).
  set (endX := if isLeft then x + w else x).
  set (sw := if isLeft then w else - w).
  assert (HuX : (if isLeft then Some (w / d) else Some (- w / d))
                = Some (sw / d)) by (by destruct isLeft).
  rewrite HuX. cbn [fmap option_fmap option_map].
  set (upperX := Arm.UPPER_FRAC * d * (sw / d) + rootX).
  set (upperY := Arm.UPPER_FRAC * d * (h / d) + y).
  unfold Chain_addBoneAt, Bone_create.
  cbn [andb bool_decide decide_rel].
  rewrite (bool_decide_eq_false_2 (@None BoneTemplate.t <> None))
    by (intros H; by apply H).
  rewrite andb_false_r.
  destruct (fresh_bone_placed rootX y upperX upperY false CUSTOM)
    as (Hn1 & Hp1 & _ & _ & HtX1 & HtY1 & _).
  destruct (fresh_bone_placed upperX upperY endX (y + h) false CUSTOM)
    as (Hn2 & Hp2 & HiX2 & HiY2 & _).
  cbv zeta in Hn1, Hp1, HtX1, HtY1, Hn2, Hp2, HiX2, HiY2.
  set (b1 := Bone.setTerminal upperX upperY _) in *.
  set (b2 := Bone.setTerminal endX (y + h) _) in *.
  clearbody b1 b2.
  destruct (addBone_twice r1 r2 b1 b2 hp Hne Hn1 Hp1 Hn2 Hp2)
    as (c1 & h1 & c2 & h2 & b1' & b2' & Hrun1 & Hrun2 & Hwf & Hb1' & Hb2'
        & (Hs1 & _) & (Hs2 & _) & Hframe).
  rewrite Hrun1, Hrun2.
  destruct Hs1 as (_ & _ & E3 & E4 & _).
  destruct Hs2 as (F1 & F2 & _).
  exists c2, h2. split; [reflexivity |]. split; [exact Hwf |].
  split; [| exact Hframe].
  intros [| [| i]] ra rb ba bb Ha Hb Hba Hbb; simplify_eq/=.
  rewrite E3, E4, F1, F2, HtX1, HtY1, HiX2, HiY2. done.
Qed.

Lemma from_filled_points ps :
  BoneTemplate.points (BoneTemplate.from (filled ps) BoneTemplate.new)
  = packed ps.
Proof.
  destruct (filled_spec ps) as (Hp & _).
  unfold BoneTemplate.points in *. cbn. unfold BoneTemplate.points.
  rewrite Hp, packed_no_holes. apply packed_again.
Qed.

(** The template setter takes the first and the last point of a filled
    template. *)
Lemma set_template_filled us u0 u1 b :
  head us = Some u0 -> last us = Some u1 ->
  Bone_set_template (Some (filled us)) b
  = Ret (Bone.setTerminal u1.1 u1.2 (Bone.setInitial u0.1 u0.2 true b)).
Proof.
  intros Hhead Hlast. unfold Bone_set_template.
  rewrite from_filled_points, packed_length.
  destruct (decide (0 <= 0)%Z); [| lia].
  destruct (decide (0 <= 1)%Z); [| lia].
  assert (Hlen : (0 < List.length us)%nat).
  { destruct us; [done | cbn; lia]. }
  destruct (decide (0 <= Z.of_nat (2 * List.length us) - 2)%Z); [| lia].
  destruct (decide (0 <= Z.of_nat (2 * List.length us) - 1)%Z); [| lia].
  assert (H0 : packed us !! Z.to_nat 0 = Some (Some u0.1) /\
               packed us !! Z.to_nat 1 = Some (Some u0.2)).
  { destruct us as [| u us]; [done |]. by injection Hhead as ->. }
  destruct H0 as [-> ->].
  assert (H1 : packed us !! Z.to_nat (Z.of_nat (2 * List.length us) - 2)
               = Some (Some u1.1) /\
               packed us !! Z.to_nat (Z.of_nat (2 * List.length us) - 1)
               = Some (Some u1.2)).
  { destruct us as [| u us _] using rev_ind; [done |].
    rewrite last_snoc in Hlast. injection Hlast as ->.
    rewrite packed_snoc, length_app. cbn [List.length].
    replace (Z.to_nat (Z.of_nat (2 * (List.length us + 1)) - 2))
      with (List.length (packed us) + 0)%nat by (rewrite packed_length; lia).
    replace (Z.to_nat (Z.of_nat (2 * (List.length us + 1)) - 1))
      with (List.length (packed us) + 1)%nat by (rewrite packed_length; lia).
    by rewrite !lookup_app_r, !Nat.add_sub' by lia. }
  destruct H1 as [-> ->]. reflexivity.
Qed.

(** X30.  [addBoneAt] with the draw type CUSTOM and a template takes
    the end points of the bone from the template and ignores the
    coordinates it is given.  A leg built with templates is therefore a
    well-formed chain of two bones, each from the first to the last point
    of its template, wherever and however large the bounding box is, even
    reduced to a point; the chain is continuous only if the upper
    template ends where the lower one starts. *)
Theorem Leg_new_templates g1 g2 x y w h isLeft us ls u0 u1 l0 l1 r1 r2
    (hp : Bone.Store) :
  r1 <> r2 ->
  head us = Some u0 -> last us = Some u1 ->
  head ls = Some l0 -> last ls = Some l1 ->
  exists c hp' b1 b2,
    Leg.new (Some g1) (Some g2) x y w h isLeft
      (Some (filled us)) (Some (filled ls)) r1 r2 hp = (Ret (), c, hp') /\
    Chain_wf c hp' [r1; r2] /\
    hp' !! r1 = Some b1 /\ hp' !! r2 = Some b2 /\
    (Bone.initX b1, Bone.initY b1) = u0 /\
    (Bone.terminalX b1, Bone.terminalY b1) = u1 /\
    (Bone.initX b2, Bone.initY b2) = l0 /\
    (Bone.terminalX b2, Bone.terminalY b2) = l1 /\
    (joined hp' [r1; r2] <-> u1 = l0) /\
    (forall r, r <> r1 -> r <> r2 -> hp' !! r = hp !! r).
Proof.
  intros Hne Hu0 Hu1 Hl0 Hl1.
  unfold Leg.new, Leg.__create, Chain_addBoneAt, Bone_create.
  cbn [andb bool_decide decide_rel].
  rewrite (bool_decide_eq_true_2 (Some (filled us) <> None)) by done.
  rewrite (bool_decide_eq_true_2 (Some (filled ls) <> None)) by done.
  rewrite (bool_decide_eq_true_2 (CUSTOM = CUSTOM)) by done.
  cbn [andb].
  rewrite (set_template_filled us u0 u1 _ Hu0 Hu1).
  rewrite (set_template_filled ls l0 l1 _ Hl0 Hl1).
  destruct (fresh_bone_placed u0.1 u0.2 u1.1 u1.2 false CUSTOM)
    as (Hn1 & Hp1 & HiX1 & HiY1 & HtX1 & HtY1 & _).
  destruct (fresh_bone_placed l0.1 l0.2 l1.1 l1.2 false CUSTOM)
    as (Hn2 & Hp2 & HiX2 & HiY2 & HtX2 & HtY2 & _).
  cbv zeta in Hn1, Hp1, HiX1, HiY1, HtX1, HtY1, Hn2, Hp2, HiX2, HiY2, HtX2,
    HtY2.
  set (b1 := Bone.setTerminal u1.1 u1.2 _) in *.
  set (b2 := Bone.setTerminal l1.1 l1.2 _) in *.
  clearbody b1 b2.
  destruct (addBone_twice r1 r2 b1 b2 hp Hne Hn1 Hp1 Hn2 Hp2)
    as (c1 & h1 & c2 & h2 & b1' & b2' & Hrun1 & Hrun2 & Hwf & Hb1' & Hb2'
        & (Hs1 & _) & (Hs2 & _) & Hframe).
  rewrite Hrun1, Hrun2.
  destruct Hs1 as (E1 & E2 & E3 & E4 & _).
  destruct Hs2 as (F1 & F2 & F3 & F4 & _).
  exists c2, h2, b1', b2'. split; [reflexivity |]. split; [exact Hwf |].
  split; [exact Hb1' |]. split; [exact Hb2' |].
  split; [rewrite E1, E2, HiX1, HiY1; by destruct u0 |].
  split; [rewrite E3, E4, HtX1, HtY1; by destruct u1 |].
  split; [rewrite F1, F2, HiX2, HiY2; by destruct l0 |].
  split; [rewrite F3, F4, HtX2, HtY2; by destruct l1 |].
  split; [| exact Hframe].
  split.
  - intros Hj.
    destruct (Hj 0%nat r1 r2 b1' b2' eq_refl eq_refl Hb1' Hb2') as [HX HY].
    rewrite E3, F1, HtX1, HiX2 in HX. rewrite E4, F2, HtY1, HiY2 in HY.
    destruct u1, l0. cbn in HX, HY. by subst.
  - intros -> [| [| i]] ra rb ba bb Ha Hb Hba Hbb; simplify_eq/=.
    rewrite E3, E4, F1, F2, HtX1, HtY1, HiX2, HiY2. done.
Qed.

Lemma Leg_new_templates_witness :
  exists c hp' b1 b2,
    Leg.new (Some Graphics) (Some Graphics) 10 20 3 4 true
      (Some (filled [(0, 0); (100, 0)])) (Some (filled [(0, 0); (100, 0)]))
      0%nat 1%nat ∅ = (Ret (), c, hp') /\
    hp' !! 0%nat = Some b1 /\ hp' !! 1%nat = Some b2 /\
    (Bone.initX b1, Bone.initY b1) = (0, 0) /\
    (Bone.initX b2, Bone.initY b2) = (0, 0).
Proof.
  destruct (Leg_new_templates Graphics Graphics 10 20 3 4 true
              [(0, 0); (100, 0)] [(0, 0); (100, 0)] (0, 0) (100, 0) (0, 0)
              (100, 0) 0%nat 1%nat ∅)
    as (c & hp' & b1 & b2 & Hrun & _ & Hb1 & Hb2 & H1 & _ & H2 & _).
  - done.
  - reflexivity.
  - reflexivity.
  - reflexivity.
  - reflexivity.
  - exists c, hp', b1, b2. split; [exact Hrun |]. split; [exact Hb1 |].
    split; [exact Hb2 |]. split; [exact H1 | exact H2].
Defined.

(** * A second call of [moveEndEffector] *)

(** ** A redraw after the solve *)

(** What [draw()] leaves of a bone: everything but [_angle] and
    [_drawing]. *)
Lemma draw_links b :
  Bone.NEXT (Bone.draw b) = Bone.NEXT b /\ Bone.PREV (Bone.draw b) = Bone.PREV b.
Proof.
  unfold Bone.draw, Bone.__std, Bone.__drawCustom.
  repeat case_match; done.
Qed.

Lemma draw_shape b :
  Bone.initX (Bone.draw b) = Bone.initX b /\
  Bone.initY (Bone.draw b) = Bone.initY b /\
  Bone.terminalX (Bone.draw b) = Bone.terminalX b /\
  Bone.terminalY (Bone.draw b) = Bone.terminalY b /\
  Bone.length (Bone.draw b) = Bone.length b.
Proof.
  unfold Bone.draw, Bone.__std, Bone.__drawCustom.
  repeat case_match; done.
Qed.

(** [draw()] on a bone whose reported orientation is the direction of its
    cached deltas. *)
Lemma draw_samePose b : aligned b -> samePose b (Bone.draw b).
Proof.
  intros Hal. destruct (draw_shape b) as (HX & HY & HtX & HtY & _).
  split; [done |]. split; [done |]. split; [done |]. split; [done |].
  unfold Bone.draw, Bone.__std, Bone.__drawCustom.
  destruct (Bone._drawing b); [done |].
  destruct (Bone.RENDERABLE b); [| done].
  destruct (Bone._drawType (Bone.upd_drawing true b)); [| done].
  destruct (_ || _); [| done].
  rewrite Hal. reflexivity.
Qed.

Lemma samePose_trans b1 b2 b3 : samePose b1 b2 -> samePose b2 b3 -> samePose b1 b3.
Proof.
  intros (? & ? & ? & ? & ?) (? & ? & ? & ? & ?). repeat split; congruence.
Qed.

(** The bones of a list after [drawAll]. *)
Lemma drawAll_stored :
  forall (rs : list ref) (h : Bone.Store) (bs : list Bone.t),
    NoDup rs -> stored h rs bs ->
    exists h',
      Chain.drawAll (Some <$> rs) h = (Ret (), h') /\
      stored h' rs (Bone.draw <$> bs) /\
      (forall r, r ∉ rs -> h' !! r = h !! r).
Proof.
  induction rs as [| r rs IH]; intros h bs Hnd Hst.
  - apply Forall2_nil_inv_l in Hst as ->. exists h. split; [done |].
    split; [constructor | done].
  - apply Forall2_cons_inv_l in Hst as (b & bs' & Hb & Hst & ->).
    apply NoDup_cons in Hnd as [Hnot Hnd].
    cbn [fmap list_fmap Chain.drawAll]. rewrite (modify_Some _ _ _ _ Hb).
    destruct (IH (<[r := Bone.draw b]> h) bs' Hnd) as (h' & Hrun & Hst' & Hfr).
    { apply Forall2_same_length_lookup_2; [by apply Forall2_length in Hst |].
      intros i r' b' Hr' Hb'. rewrite lookup_insert_ne.
      - by apply (Forall2_lookup_lr _ _ _ _ _ _ Hst Hr' Hb').
      - intros <-. apply Hnot. by apply list_elem_of_lookup_2 with i. }
    exists h'. split; [exact Hrun |]. split.
    + constructor; [| exact Hst'].
      rewrite Hfr by done. apply lookup_insert_eq.
    + intros r' Hr'. apply not_elem_of_cons in Hr' as [Hne Hr'].
      rewrite Hfr by done. by rewrite lookup_insert_ne.
Qed.

(** The cached deltas of a bone that is set to the pose it has. *)
Lemma setTerminal_deltas b :
  posed b ->
  Bone._deltaX (Bone.setTerminal (Bone.terminalX b) (Bone.terminalY b) b)
    = Bone._deltaX b /\
  Bone._deltaY (Bone.setTerminal (Bone.terminalX b) (Bone.terminalY b) b)
    = Bone._deltaY b.
Proof.
  intros ((HdX & HdY & _) & _ & Hd).
  unfold Bone.setTerminal. rewrite Hd. cbn [negb].
  unfold Bone.terminalX, Bone.terminalY.
  cbn [Bone._x0 Bone._y0 Bone._x1 Bone._y1 Bone._deltaX Bone._deltaY
       Bone._length Bone._angle Bone.upd_angle Bone.upd_flare
       Bone.upd_length Bone.upd_deltaY Bone.upd_deltaX Bone.upd_y1
       Bone.upd_x1].
  by rewrite HdX, HdY.
Qed.

Lemma orient_self_deltas p0 b :
  posed b ->
  Bone._deltaX (orient_self p0 (atan2 (Bone._deltaY b) (Bone._deltaX b)) b)
    = Bone._deltaX b /\
  Bone._deltaY (orient_self p0 (atan2 (Bone._deltaY b) (Bone._deltaX b)) b)
    = Bone._deltaY b.
Proof.
  intros ((HdX & HdY & _) & Hal & Hd).
  pose proof PI_gt_3 as Hpi.
  unfold orient_self. rewrite Hal, Rminus_diag, Rabs_R0.
  destruct (bool_decide_reflect (0 > PI)) as [? | _]; [lra |].
  destruct (Bone.orientationAllowed _ _ b); [| done].
  unfold Bone.set_orientation_self.
  cbn [Bone._x0 Bone._y0 Bone._x1 Bone._y1 Bone._deltaX Bone._deltaY
       Bone._length Bone._angle Bone.upd_angle Bone.upd_flare
       Bone.upd_length Bone.upd_deltaY Bone.upd_deltaX Bone.upd_y1
       Bone.upd_x1 Bone.upd_fk Bone.upd_deltaAngle].
  rewrite cos_0, sin_0. split; lra.
Qed.

(** One position phase on a chain that has reached its target leaves the
    cached deltas of every bone as they were. *)
Lemma placed_deltas bs T i b :
  (forall b, b ∈ bs -> posed b) -> joinedL bs -> reached bs T ->
  (2 <= List.length bs)%nat -> bs !! i = Some b ->
  Bone._deltaX (placed bs T i b) = Bone._deltaX b /\
  Bone._deltaY (placed bs T i b) = Bone._deltaY b.
Proof.
  intros Hp Hj Hr Hlen Hb.
  assert (Hc : forall b, b ∈ bs -> Bone_consistent b)
    by (intros b0 Hb0; apply (Hp b0 Hb0)).
  assert (Hpb : posed b) by (apply Hp; by apply list_elem_of_lookup_2 with i).
  pose proof (lookup_lt_Some _ _ _ Hb) as Hi.
  assert (Hprev : forall j, i = S j ->
            termAt bs T j = (Bone.initX b, Bone.initY b)).
  { intros j ->.
    destruct (lookup_lt_is_Some_2 bs j ltac:(lia)) as [bp Hbp].
    rewrite (termAt_reached bs T j bp Hc Hj Hr Hbp) by lia.
    by destruct (Hj j bp b Hbp Hb) as [-> ->]. }
  destruct (decide (i < List.length bs - 1)%nat) as [Hin | Hlast].
  - rewrite placed_inner by done. unfold placedInner.
    destruct (decide (i = 0%nat)) as [-> | Hne].
    + rewrite (termAt_reached bs T 0 b Hc Hj Hr Hb) by lia. cbn [fst snd].
      by apply setTerminal_deltas.
    + rewrite (termAt_reached bs T i b Hc Hj Hr Hb) by lia.
      rewrite (Hprev (i - 1)%nat) by lia. cbn [fst snd].
      rewrite setInitial_same. by apply setTerminal_deltas.
  - unfold placed. destruct (decide (i = 0%nat)); [lia |].
    destruct (decide (i < List.length bs - 1)%nat); [lia |].
    cbv zeta. rewrite (Hprev (i - 1)%nat) by lia. cbn [fst snd].
    rewrite setInitial_same.
    destruct Hr as (bl & Hbl & HX & HY).
    rewrite last_lookup_minus in Hbl.
    replace (List.length bs - 1)%nat with i in Hbl by lia.
    assert (bl = b) as -> by congruence.
    destruct Hpb as ((HdX & HdY & HL) & Hrest).
    unfold Bone.terminalX, Bone.terminalY in HX, HY.
    unfold Bone.initX, Bone.initY.
    rewrite <- HX, <- HY, <- HdX, <- HdY.
    apply orient_self_deltas. done.
Qed.

(** ... and a redraw then leaves every bone in its pose. *)
Lemma positions_draw_samePose bs T :
  (forall b, b ∈ bs -> posed b) -> joinedL bs -> reached bs T ->
  (2 <= List.length bs)%nat ->
  Forall2 samePose bs (Bone.draw <$> positions bs T).
Proof.
  intros Hp Hj Hr Hlen.
  apply Forall2_same_length_lookup_2;
    [by rewrite length_fmap, positions_length |].
  intros i b b' Hb Hb'.
  rewrite list_lookup_fmap, positions_lookup, Hb in Hb'.
  injection Hb' as <-.
  pose proof (placed_samePose bs T i b Hp Hj Hr Hlen Hb) as Hsame.
  destruct (placed_deltas bs T i b Hp Hj Hr Hlen Hb) as [HdX HdY].
  apply samePose_trans with (placed bs T i b); [exact Hsame |].
  apply draw_samePose. unfold aligned. rewrite HdX, HdY.
  destruct Hsame as (_ & _ & _ & _ & ->).
  apply (Hp b). by apply list_elem_of_lookup_2 with i.
Qed.

(** ** The two-bone solver, called again *)

(** Both runs of [limbSolver] on two stores that agree on the lengths of
    the two bones and on the initial point of the root bone: the same
    case, with the same angles. *)
Lemma limbSolver_both (P : Outcome bool * Bone.Store ->
                           Outcome bool * Bone.Store -> Prop)
    x y c isPinned params h h' r1 r2 b1 b2 b1' b2' :
  Chain.getBone c 0 = Some r1 -> Chain.getBone c 1 = Some r2 ->
  Chain._rootBone c = Some r1 ->
  h !! r1 = Some b1 -> h !! r2 = Some b2 ->
  h' !! r1 = Some b1' -> h' !! r2 = Some b2' ->
  Bone.length b1' = Bone.length b1 -> Bone.length b2' = Bone.length b2 ->
  Bone.initX b1' = Bone.initX b1 -> Bone.initY b1' = Bone.initY b1 ->
  P (Throw NotReal, h) (Throw NotReal, h') ->
  (forall theta1 theta2 (limit res : bool),
     P (match limbApply r1 r2 theta1 theta2 h with
        | (Throw e, h) => (Throw e, h)
        | (Ret _, h) =>
          match Chain.invalidate c h with
          | (Throw e, h) => (Throw e, h)
          | (Ret _, h) => if limit then (Ret false, h) else (Ret res, h)
          end
        end)
       (match limbApply r1 r2 theta1 theta2 h' with
        | (Throw e, h) => (Throw e, h)
        | (Ret _, h) =>
          match Chain.invalidate c h with
          | (Throw e, h) => (Throw e, h)
          | (Ret _, h) => if limit then (Ret false, h) else (Ret res, h)
          end
        end)) ->
  P (limbSolver x y c isPinned params h) (limbSolver x y c isPinned params h').
Proof.
  intros Hg1 Hg2 Hroot Hb1 Hb2 Hb1' Hb2' HL1 HL2 HX HY HN HF.
  unfold limbSolver, Chain.initX, Chain.initY.
  rewrite Hg1, Hg2, Hb1, Hb2, Hb1', Hb2', Hroot. cbn [mbind option_bind].
  rewrite Hb1, Hb1'. cbn [mbind option_bind]. rewrite HL1, HL2, HX, HY.
  cbv zeta.
  set (l1 := Bone.length b1) in *. set (l2 := Bone.length b2) in *.
  destruct (bool_decide (_ > (l1 + l2) * (l1 + l2))).
  - destruct (bool_decide (_ < _)); cbv beta iota zeta;
      destruct (bool_decide (_ > _)); cbv beta iota zeta;
      first [ exact (HF _ _ true true) | exact (HF _ _ false _) ].
  - destruct (decide (2 * l1 * l2 = 0)) as [H0 | _].
    + destruct (decide (_ = 0)); [exact HN | exact (HF _ _ false _)].
    + destruct (_ || _).
      * exact (HF _ _ false _).
      * destruct (bool_decide (_ < _)); cbv beta iota zeta;
          [exact (HF _ _ true true) |].
        destruct (bool_decide (_ > _)); cbv beta iota zeta;
          first [ exact (HF _ _ true true) | exact (HF _ _ false _) ].
Qed.

(** [reorient] and [draw()], done again with the same values. *)
Lemma reorient_again tx ty a mv b :
  Bone.reorient tx ty a mv true (Bone.reorient tx ty a mv true b)
  = Bone.reorient tx ty a mv true b.
Proof. destruct b, mv; reflexivity. Qed.

Lemma draw_again b : Bone.draw (Bone.draw b) = Bone.draw b.
Proof.
  destruct b as [? ? ? ? ? ? ? ? ? ? drawing ? ? ? ? ? renderable skinOnly
                 drawType skinType ? ? ? ?].
  destruct drawing, renderable, drawType, skinOnly, skinType; reflexivity.
Qed.

Lemma redraw_again tx ty a mv b :
  Bone.draw (Bone.reorient tx ty a mv true
               (Bone.draw (Bone.reorient tx ty a mv true b)))
  = Bone.draw (Bone.reorient tx ty a mv true b).
Proof.
  destruct b as [? ? ? ? ? ? ? ? ? ? drawing ? ? ? ? ? renderable skinOnly
                 drawType skinType ? ? ? ?].
  destruct mv, drawing, renderable, drawType, skinOnly, skinType;
    reflexivity.
Qed.

Lemma redrawn_links c b :
  Bone.NEXT (redrawn c b) = Bone.NEXT b /\ Bone.PREV (redrawn c b) = Bone.PREV b.
Proof.
  unfold redrawn. destruct (Chain.REDRAW_ON_SOLVE c); [apply draw_links | done].
Qed.

Lemma redrawn_shape c b :
  Bone.initX (redrawn c b) = Bone.initX b /\
  Bone.initY (redrawn c b) = Bone.initY b /\
  Bone.terminalX (redrawn c b) = Bone.terminalX b /\
  Bone.terminalY (redrawn c b) = Bone.terminalY b /\
  Bone.length (redrawn c b) = Bone.length b.
Proof.
  unfold redrawn. destruct (Chain.REDRAW_ON_SOLVE c); [apply draw_shape | done].
Qed.

Lemma redrawn_again c tx ty a mv b :
  redrawn c (Bone.reorient tx ty a mv true
               (redrawn c (Bone.reorient tx ty a mv true b)))
  = redrawn c (Bone.reorient tx ty a mv true b).
Proof.
  unfold redrawn. destruct (Chain.REDRAW_ON_SOLVE c);
    [apply redraw_again | apply reorient_again].
Qed.

Lemma redrawn_twice c b : redrawn c (redrawn c b) = redrawn c b.
Proof.
  unfold redrawn. destruct (Chain.REDRAW_ON_SOLVE c); [apply draw_again | done].
Qed.

(** The redraw that ends [moveEndEffector], on the bones of the chain. *)
Lemma redraw_stored c h rs bs :
  Chain._bones c = Some <$> rs -> NoDup rs -> stored h rs bs ->
  exists h',
    (forall resolved : bool,
       (if Chain.REDRAW_ON_SOLVE c then
          match Chain.drawAll (Chain._bones c) h with
          | (Throw e, h) => (Throw e, h)
          | (Ret _, h) => (Ret resolved, h)
          end
        else (Ret resolved, h)) = (Ret resolved, h')) /\
    stored h' rs (redrawn c <$> bs) /\
    (forall r, r ∉ rs -> h' !! r = h !! r).
Proof.
  intros Hbones Hnd Hst. unfold redrawn.
  destruct (Chain.REDRAW_ON_SOLVE c).
  - destruct (drawAll_stored rs h bs Hnd Hst) as (h' & Hrun & Hst' & Hfr).
    exists h'. rewrite Hbones, Hrun. done.
  - exists h. split; [done |]. split; [| done]. by rewrite list_fmap_id.
Qed.

Lemma wf_same_links c h h' rs bs bs' :
  Chain_wf c h rs -> stored h rs bs -> stored h' rs bs' ->
  Forall2 (fun b b' => Bone.NEXT b' = Bone.NEXT b /\ Bone.PREV b' = Bone.PREV b)
    bs bs' ->
  Chain_wf c h' rs.
Proof.
  intros (Hbones & Hcount & Hroot & Hterm & Hnd & Hlinks) Hst Hst' Hrel.
  split; [done |]. split; [done |]. split; [done |]. split; [done |].
  split; [done |]. intros i r Hr.
  destruct (Hlinks i r Hr) as (b & Hb & Hnext & Hprev).
  destruct (Forall2_lookup_l _ _ _ _ _ Hst Hr) as (b0 & Hb0 & Hh).
  assert (b0 = b) as -> by congruence.
  destruct (Forall2_lookup_l _ _ _ _ _ Hrel Hb0) as (b' & Hb' & Hn' & Hp').
  exists b'. split; [| by rewrite Hn', Hp'].
  by apply (Forall2_lookup_lr _ _ _ _ _ _ Hst' Hr Hb').
Qed.

Lemma stored_insert2 (h : Bone.Store) r1 r2 rest b1 b2 bs b1' b2' :
  NoDup (r1 :: r2 :: rest) ->
  stored h (r1 :: r2 :: rest) (b1 :: b2 :: bs) ->
  stored (<[r2 := b2']> (<[r1 := b1']> h)) (r1 :: r2 :: rest)
    (b1' :: b2' :: bs).
Proof.
  intros Hnd Hst.
  apply NoDup_cons in Hnd as [Hn1 Hnd]. apply NoDup_cons in Hnd as [Hn2 _].
  apply Forall2_cons_1 in Hst as [_ Hst]. apply Forall2_cons_1 in Hst as [_ Hst].
  constructor.
  { rewrite lookup_insert_ne; [apply lookup_insert_eq |].
    intros ->. apply Hn1. by left. }
  constructor; [apply lookup_insert_eq |].
  apply Forall2_same_length_lookup_2; [by apply Forall2_length in Hst |].
  intros i r b Hr Hb.
  assert (Hin : r ∈ rest) by (by apply list_elem_of_lookup_2 with i).
  rewrite !lookup_insert_ne.
  - by apply (Forall2_lookup_lr _ _ _ _ _ _ Hst Hr Hb).
  - intros ->. apply Hn1. by right.
  - by intros ->.
Qed.

Lemma stored_agree (h h' : Bone.Store) rs bs :
  stored h rs bs -> stored h' rs bs ->
  forall r, r ∈ rs -> h' !! r = h !! r.
Proof.
  intros Hst Hst' r Hr. apply list_elem_of_lookup in Hr as [i Hi].
  destruct (Forall2_lookup_l _ _ _ _ _ Hst Hi) as (b & Hb & ->).
  by apply (Forall2_lookup_lr _ _ _ _ _ _ Hst' Hi Hb).
Qed.

(** The root bone ends where its initial point, its length and the angle
    put it. *)
Lemma reorient_terminal a b b' :
  Bone.initX b' = Bone.initX b -> Bone.initY b' = Bone.initY b ->
  Bone.length b' = Bone.length b ->
  Bone.terminalX (Bone.reorient 0 0 a false true b')
    = Bone.terminalX (Bone.reorient 0 0 a false true b) /\
  Bone.terminalY (Bone.reorient 0 0 a false true b')
    = Bone.terminalY (Bone.reorient 0 0 a false true b).
Proof.
  unfold Bone.initX, Bone.initY, Bone.length, Bone.terminalX, Bone.terminalY.
  intros HX HY HL. unfold Bone.reorient. cbn. by rewrite HX, HY, HL.
Qed.

(** The solve and redraw of [moveEndEffector] with the two-bone solver,
    done again on the store that it leaves: the bones of the chain stay
    as they are. *)
Lemma solve_limb_again x y c h r1 r2 rest ok h1 :
  Chain_wf c h (r1 :: r2 :: rest) ->
  Chain._ikSolver c = Some IK_limbSolver ->
  solveAndRedraw x y false c h = (Ret ok, h1) ->
  exists h2,
    solveAndRedraw x y false c h1 = (Ret ok, h2) /\
    forall r, r ∈ r1 :: r2 :: rest -> h2 !! r = h1 !! r.
Proof.
  intros Hwf Hsolver Hrun.
  destruct (wf_two _ _ _ _ _ Hwf) as (Hg1 & Hg2 & Hne & Hroot).
  pose proof (wf_NoDup _ _ _ Hwf) as Hnd.
  assert (Hbones : Chain._bones c = Some <$> r1 :: r2 :: rest) by apply Hwf.
  assert (Hr1 : r1 ∈ r1 :: r2 :: rest) by (by left).
  assert (Hr2 : r2 ∈ r1 :: r2 :: rest) by (right; by left).
  destruct (wf_stored _ _ _ Hwf) as [bs Hst].
  pose proof Hst as Hst0.
  apply Forall2_cons_inv_l in Hst0 as (b1 & bs1 & Hb1 & Hst0 & ->).
  apply Forall2_cons_inv_l in Hst0 as (b2 & bs' & Hb2 & _ & ->).
  unfold solveAndRedraw in Hrun |- *. rewrite Hsolver in Hrun |- *.
  cbn [default from_option runSolver] in Hrun |- *. cbv [Datatypes.id] in Hrun |- *.
  change (runSolver IK_limbSolver x y c false ?s)
    with (limbSolver x y c false None s) in Hrun |- *.
  destruct (limbSolver x y c false None h) as [[ok' | e] hL] eqn:HL;
    [| destruct (Chain.REDRAW_ON_SOLVE c); discriminate Hrun].
  (* the first run *)
  assert (Hshape : exists theta1 theta2,
    hL = <[r2 := Bone.reorient
                   (Bone.terminalX (Bone.reorient 0 0 theta1 false true b1))
                   (Bone.terminalY (Bone.reorient 0 0 theta1 false true b1))
                   (theta2
                      (Bone.terminalX (Bone.reorient 0 0 theta1 false true b1))
                      (Bone.terminalY (Bone.reorient 0 0 theta1 false true b1)))
                   true true b2]>
           (<[r1 := Bone.reorient 0 0 theta1 false true b1]> h)).
  { revert HL.
    apply (limbSolver_both
             (fun o _ => o = (Ret ok', hL) -> exists theta1 theta2, hL = _)
             x y c false None h h r1 r2 b1 b2 b1 b2); try done.
    intros theta1 theta2 limit res.
    rewrite (limb_finish c h _ r1 r2 b1 b2 theta1 theta2 limit res
               Hwf Hr1 Hr2 Hne Hb1 Hb2).
    intros Heq. injection Heq as _ <-. by exists theta1, theta2. }
  destruct Hshape as (theta1 & theta2 & HhL).
  set (c1 := Bone.reorient 0 0 theta1 false true b1) in *.
  set (X := Bone.terminalX c1) in *. set (Y := Bone.terminalY c1) in *.
  set (c2 := Bone.reorient X Y (theta2 X Y) true true b2) in *.
  assert (HstL : stored hL (r1 :: r2 :: rest) (c1 :: c2 :: bs'))
    by (rewrite HhL; by apply (stored_insert2 h _ _ _ b1 b2)).
  destruct (redraw_stored c hL _ _ Hbones Hnd HstL) as (h1' & Hdraw & Hst1 & _).
  rewrite (Hdraw ok') in Hrun. injection Hrun as -> ->.
  rewrite !fmap_cons in Hst1.
  pose proof Hst1 as Hst1'.
  apply Forall2_cons_1 in Hst1' as [Hd1 Hst1'].
  apply Forall2_cons_1 in Hst1' as [Hd2 _].
  destruct (reorient_pair theta1 (theta2 X Y) b1 b2)
    as (_ & _ & HL1 & HL2 & HX1 & HY1 & _).
  cbv zeta in HL1, HL2, HX1, HY1. fold c1 in HL1, HL2, HX1, HY1.
  fold X Y c2 in HL2.
  destruct (redrawn_shape c c1) as (EX1 & EY1 & _ & _ & EL1).
  destruct (redrawn_shape c c2) as (_ & _ & _ & _ & EL2).
  assert (Hwf1 : Chain_wf c h1 (r1 :: r2 :: rest)).
  { apply (wf_same_links c h h1 _ _ _ Hwf Hst Hst1).
    constructor.
    { destruct (redrawn_links c c1) as [-> ->]. by destruct b1. }
    constructor.
    { destruct (redrawn_links c c2) as [-> ->]. by destruct b2. }
    apply Forall2_fmap_r, Forall_Forall2_diag, Forall_forall.
    intros b _. apply redrawn_links. }
  (* the second run *)
  assert (Hsecond : exists theta1' theta2',
    limbSolver x y c false None h1 =
      (Ret ok,
       <[r2 := Bone.reorient
                 (Bone.terminalX
                    (Bone.reorient 0 0 theta1' false true (redrawn c c1)))
                 (Bone.terminalY
                    (Bone.reorient 0 0 theta1' false true (redrawn c c1)))
                 (theta2'
                    (Bone.terminalX
                       (Bone.reorient 0 0 theta1' false true (redrawn c c1)))
                    (Bone.terminalY
                       (Bone.reorient 0 0 theta1' false true (redrawn c c1))))
                 true true (redrawn c c2)]>
         (<[r1 := Bone.reorient 0 0 theta1' false true (redrawn c c1)]> h1)) /\
    Bone.reorient 0 0 theta1' false true b1 = c1 /\
    Bone.reorient
      (Bone.terminalX (Bone.reorient 0 0 theta1' false true b1))
      (Bone.terminalY (Bone.reorient 0 0 theta1' false true b1))
      (theta2' (Bone.terminalX (Bone.reorient 0 0 theta1' false true b1))
               (Bone.terminalY (Bone.reorient 0 0 theta1' false true b1)))
      true true b2 = c2).
  { revert HL.
    apply (limbSolver_both
             (fun o o' => o = (Ret ok, hL) -> exists theta1' theta2', o' = _ /\ _)
             x y c false None h h1 r1 r2 b1 b2 (redrawn c c1) (redrawn c c2));
      try done; try congruence.
    intros theta1' theta2' limit res.
    rewrite (limb_finish c h _ r1 r2 b1 b2 theta1' theta2' limit res
               Hwf Hr1 Hr2 Hne Hb1 Hb2).
    rewrite (limb_finish c h1 _ r1 r2 _ _ theta1' theta2' limit res
               Hwf1 Hr1 Hr2 Hne Hd1 Hd2).
    intros Heq. injection Heq as Hok HhL'.
    exists theta1', theta2'. split; [by rewrite Hok |].
    assert (E1 : hL !! r1 = Some c1).
    { rewrite HhL, lookup_insert_ne by done. apply lookup_insert_eq. }
    assert (E2 : hL !! r2 = Some c2) by (rewrite HhL; apply lookup_insert_eq).
    rewrite <- HhL', lookup_insert_ne, lookup_insert_eq in E1 by done.
    rewrite <- HhL', lookup_insert_eq in E2.
    split; [exact (inj Some _ _ E1) | exact (inj Some _ _ E2)]. }
  destruct Hsecond as (theta1' & theta2' & Hrun2 & E1 & E2).
  assert (Ht1 : theta1' = theta1).
  { apply (f_equal Bone._angle) in E1. exact E1. }
  subst theta1'. fold c1 X Y in E2.
  assert (Ht2 : theta2' X Y = theta2 X Y).
  { apply (f_equal Bone._angle) in E2. exact E2. }
  destruct (reorient_terminal theta1 c1 (redrawn c c1) EX1 EY1 EL1)
    as [HtX HtY].
  assert (Hc1 : Bone.reorient 0 0 theta1 false true c1 = c1)
    by apply reorient_again.
  rewrite Hc1 in HtX, HtY. fold X in HtX. fold Y in HtY.
  rewrite HtX, HtY, Ht2 in Hrun2. rewrite Hrun2.
  match type of Hrun2 with _ = (_, ?s) => set (hL2 := s) in * end.
  assert (HstL2 : stored hL2 (r1 :: r2 :: rest)
                    (Bone.reorient 0 0 theta1 false true (redrawn c c1)
                     :: Bone.reorient X Y (theta2 X Y) true true (redrawn c c2)
                     :: (redrawn c <$> bs')))
    by (by apply (stored_insert2 h1 _ _ _ (redrawn c c1) (redrawn c c2))).
  destruct (redraw_stored c hL2 _ _ Hbones Hnd HstL2) as (h2 & Hdraw2 & Hst2 & _).
  exists h2. split; [apply Hdraw2 |].
  apply (stored_agree h1 h2 _ _ Hst1).
  rewrite !fmap_cons in Hst2.
  unfold c1 in Hst2 at 1. rewrite (redrawn_again c 0 0 theta1 false b1) in Hst2.
  unfold c2 in Hst2 at 1.
  rewrite (redrawn_again c X Y (theta2 X Y) true b2) in Hst2.
  rewrite <- list_fmap_compose in Hst2.
  rewrite (list_fmap_ext _ (redrawn c) bs') in Hst2
    by (intros i b _; apply redrawn_twice).
  exact Hst2.
Qed.

(** [moveEndEffector], not pinned, with the iterative solver or none: the
    cycles of the solver on the bones of the chain, and the redraw. *)
Lemma moveEndEffector_redraw x y c h rs bs :
  Chain_wf c h rs -> stored h rs bs ->
  Chain._ikSolver c <> Some IK_limbSolver ->
  exists h',
    Chain_moveEndEffector x y false c h
      = (Ret true, Chain.upd_ikSolver (Some IK_ccdBasic) c, h') /\
    stored h' rs (redrawn c <$> ccdCycles _maxCycles 0 bs (x, y)).
Proof.
  intros Hwf Hst Hs.
  destruct (ccdBasic_phases x y (Chain.upd_ikSolver (Some IK_ccdBasic) c)
              h rs bs (Chain_wf_upd_ikSolver _ _ _ _ Hwf) Hst)
    as (h1 & Hrun & Hst1 & Hwf1 & _).
  assert (Hdef : default IK_ccdBasic (Chain._ikSolver c) = IK_ccdBasic).
  { destruct (Chain._ikSolver c) as [[] |]; done. }
  assert (Hcall : Chain_moveEndEffector x y false c h =
            (let '(o, h') :=
               solveAndRedraw x y false
                 (Chain.upd_ikSolver (Some IK_ccdBasic) c) h in
             (o, Chain.upd_ikSolver (Some IK_ccdBasic) c, h'))).
  { unfold Chain_moveEndEffector. rewrite Hdef.
    cbn [Chain._linkedFrom Chain.upd_ikSolver].
    by destruct (Chain._linkedFrom c). }
  rewrite Hcall. unfold solveAndRedraw.
  cbn [default from_option Chain._ikSolver Chain.upd_ikSolver
       Chain.REDRAW_ON_SOLVE Chain._bones runSolver].
  cbv [Datatypes.id].
  change (runSolver IK_ccdBasic x y ?c1 false h) with (ccdBasic x y c1 false h).
  rewrite Hrun.
  destruct (redraw_stored c h1 _ _ (proj1 Hwf) (wf_NoDup _ _ _ Hwf) Hst1)
    as (h2 & Hdraw & Hst2 & _).
  exists h2. by rewrite (Hdraw true).
Qed.

(** [moveEndEffector], not pinned: the solver is assigned, then the solve
    and the redraw. *)
Lemma moveEndEffector_solve x y c h :
  Chain_moveEndEffector x y false c h =
  (let c1 := Chain.upd_ikSolver
               (Some (default IK_ccdBasic (Chain._ikSolver c))) c in
   let '(o, h') := solveAndRedraw x y false c1 h in (o, c1, h')).
Proof.
  unfold Chain_moveEndEffector.
  cbn [Chain._linkedFrom Chain.upd_ikSolver negb].
  by destruct (Chain._linkedFrom c).
Qed.

(** [limbSolver] returns normally on two bones of positive length. *)
Lemma limbSolver_returns x y c isPinned params h r1 r2 rest b1 b2 :
  Chain_wf c h (r1 :: r2 :: rest) ->
  h !! r1 = Some b1 -> h !! r2 = Some b2 ->
  0 < Bone.length b1 -> 0 < Bone.length b2 ->
  exists ok h', limbSolver x y c isPinned params h = (Ret ok, h').
Proof.
  intros Hwf Hb1 Hb2 Hl1 Hl2.
  destruct (wf_two _ _ _ _ _ Hwf) as (Hg1 & Hg2 & Hne & Hroot).
  assert (Hr1 : r1 ∈ r1 :: r2 :: rest) by (by left).
  assert (Hr2 : r2 ∈ r1 :: r2 :: rest) by (right; by left).
  assert (Hfin : forall theta1 theta2 (limit res : bool),
    exists ok h',
      match limbApply r1 r2 theta1 theta2 h with
      | (Throw e, h) => (Throw e, h)
      | (Ret _, h) =>
        match Chain.invalidate c h with
        | (Throw e, h) => (Throw e, h)
        | (Ret _, h) => if limit then (Ret false, h) else (Ret res, h)
        end
      end = (Ret ok, h')).
  { intros theta1 theta2 limit res.
    rewrite (limb_finish c h _ r1 r2 b1 b2 theta1 theta2 limit res
               Hwf Hr1 Hr2 Hne Hb1 Hb2).
    eauto. }
  unfold limbSolver, Chain.initX, Chain.initY.
  rewrite Hg1, Hg2, Hb1, Hb2, Hroot. cbn [mbind option_bind]. rewrite Hb1.
  cbn [mbind option_bind]. cbv zeta.
  set (l1 := Bone.length b1) in *. set (l2 := Bone.length b2) in *.
  destruct (bool_decide (_ > (l1 + l2) * (l1 + l2))).
  - destruct (bool_decide (_ < _)); cbv beta iota zeta;
      destruct (bool_decide (_ > _)); cbv beta iota zeta;
      first [ exact (Hfin _ _ true true) | exact (Hfin _ _ false _) ].
  - destruct (decide (2 * l1 * l2 = 0)) as [H0 | _]; [nra |].
    destruct (_ || _).
    + exact (Hfin _ _ false _).
    + destruct (bool_decide (_ < _)); cbv beta iota zeta;
        [exact (Hfin _ _ true true) |].
      destruct (bool_decide (_ > _)); cbv beta iota zeta;
        first [ exact (Hfin _ _ true true) | exact (Hfin _ _ false _) ].
Qed.

(** [moveEndEffector] with the two-bone solver returns normally on a chain
    whose first two bones have a positive length. *)
Lemma moveEndEffector_limb_returns x y c h r1 r2 rest b1 b2 :
  Chain_wf c h (r1 :: r2 :: rest) ->
  Chain._ikSolver c = Some IK_limbSolver ->
  h !! r1 = Some b1 -> h !! r2 = Some b2 ->
  0 < Bone.length b1 -> 0 < Bone.length b2 ->
  exists ok h1,
    Chain_moveEndEffector x y false c h
      = (Ret ok, Chain.upd_ikSolver (Some IK_limbSolver) c, h1).
Proof.
  intros Hwf Hsolver Hb1 Hb2 Hl1 Hl2.
  rewrite moveEndEffector_solve, Hsolver. cbn [default from_option]. cbv zeta.
  cbv [Datatypes.id].
  set (c1 := Chain.upd_ikSolver (Some IK_limbSolver) c).
  pose proof (Chain_wf_upd_ikSolver (Some IK_limbSolver) _ _ _ Hwf) as Hwf1.
  fold c1 in Hwf1.
  destruct (limbSolver_returns x y c1 false None h r1 r2 rest b1 b2
              Hwf1 Hb1 Hb2 Hl1 Hl2) as (ok & hL & HL).
  destruct (wf_stored _ _ _ Hwf1) as [bs Hst].
  unfold solveAndRedraw.
  replace (default IK_ccdBasic (Chain._ikSolver c1)) with IK_limbSolver
    by reflexivity.
  change (runSolver IK_limbSolver x y c1 false h)
    with (limbSolver x y c1 false None h).
  rewrite HL.
  assert (HwfL : Chain_wf c1 hL (r1 :: r2 :: rest)).
  { destruct (wf_two _ _ _ _ _ Hwf1) as (_ & _ & Hne & _).
    revert HL.
    apply (limbSolver_both
             (fun o _ => o = (Ret ok, hL) -> Chain_wf c1 hL _)
             x y c1 false None h h r1 r2 b1 b2 b1 b2); try done;
      try apply (wf_two _ _ _ _ _ Hwf1).
    intros theta1 theta2 limit res.
    rewrite (limb_finish c1 h _ r1 r2 b1 b2 theta1 theta2 limit res Hwf1);
      [| by left | right; by left | done | done | done].
    intros Heq. injection Heq as _ <-.
    pose proof Hst as Hst0.
    apply Forall2_cons_inv_l in Hst0 as (b1' & bs1 & Hb1' & Hst0 & ->).
    apply Forall2_cons_inv_l in Hst0 as (b2' & bs' & Hb2' & _ & ->).
    assert (b1' = b1) as -> by congruence.
    assert (b2' = b2) as -> by congruence.
    apply (wf_same_links c1 h _ _ _ _ Hwf1 Hst
             (stored_insert2 h r1 r2 rest b1 b2 bs' _ _
                (wf_NoDup _ _ _ Hwf1) Hst)).
    constructor; [by destruct b1 |]. constructor; [by destruct b2 |].
    apply Forall_Forall2_diag, Forall_forall. done. }
  destruct (wf_stored _ _ _ HwfL) as [bsL HstL].
  destruct (redraw_stored c1 hL _ _ (proj1 HwfL) (wf_NoDup _ _ _ HwfL) HstL)
    as (h1 & Hdraw & _).
  exists ok, h1. by rewrite (Hdraw ok).
Qed.

(** C9, amended.  On a well-formed chain of two bones or more, redrawn on
    solve or not.  With the two-bone solver assigned: once a call of
    [moveEndEffector(x, y, false)] has returned, a second call with the
    same target returns the same result and leaves every bone of the
    chain as the first call left it.  With the iterative solver assigned
    or none: when the bones are joined, with caches and reported
    orientation in agreement with their end points, none being drawn, and
    the terminal point of the chain is the target, the call returns
    [true] and leaves every bone with the end points and the orientation
    it had. *)
Theorem moveEndEffector_again x y c h rs bs :
  Chain_wf c h rs -> stored h rs bs -> (2 <= List.length bs)%nat ->
  (Chain._ikSolver c = Some IK_limbSolver ->
   forall ok c1 h1,
     Chain_moveEndEffector x y false c h = (Ret ok, c1, h1) ->
     exists h2,
       Chain_moveEndEffector x y false c1 h1 = (Ret ok, c1, h2) /\
       forall r, r ∈ rs -> h2 !! r = h1 !! r) /\
  (Chain._ikSolver c <> Some IK_limbSolver ->
   (forall b, b ∈ bs -> posed b) -> joinedL bs -> reached bs (x, y) ->
   exists c' h' bs',
     Chain_moveEndEffector x y false c h = (Ret true, c', h') /\
     stored h' rs bs' /\ Forall2 samePose bs bs').
Proof.
  intros Hwf Hst Hlen. split.
  - intros Hsolver ok c1 h1 Hrun.
    destruct rs as [| r1 [| r2 rest]];
      try (apply Forall2_length in Hst; cbn [List.length] in Hst; lia).
    rewrite moveEndEffector_solve, Hsolver in Hrun.
    cbn [default from_option] in Hrun. cbv zeta in Hrun.
    cbv [Datatypes.id] in Hrun.
    destruct (solveAndRedraw x y false _ h) as [o hR] eqn:Hsolve.
    injection Hrun as -> <- ->.
    pose proof (Chain_wf_upd_ikSolver (Some IK_limbSolver) _ _ _ Hwf) as Hwf1.
    destruct (solve_limb_again x y _ h r1 r2 rest ok h1 Hwf1 eq_refl Hsolve)
      as (h2 & Hrun2 & Hsame).
    exists h2. split; [| exact Hsame].
    rewrite moveEndEffector_solve. cbv zeta.
    replace (Chain.upd_ikSolver
               (Some (default IK_ccdBasic
                        (Chain._ikSolver
                           (Chain.upd_ikSolver (Some IK_limbSolver) c))))
               (Chain.upd_ikSolver (Some IK_limbSolver) c))
      with (Chain.upd_ikSolver (Some IK_limbSolver) c) by reflexivity.
    by rewrite Hrun2.
  - intros Hs Hp Hj Hreach.
    destruct (moveEndEffector_redraw x y c h rs bs Hwf Hst Hs)
      as (h' & Hrun & Hst').
    pose proof (positions_samePose bs (x, y) Hp Hj Hreach Hlen) as Hsame.
    rewrite ccdCycles_finished in Hst'
      by (apply reached_finished, (samePose_reached bs); done).
    exists (Chain.upd_ikSolver (Some IK_ccdBasic) c), h'.
    unfold redrawn in Hst'. destruct (Chain.REDRAW_ON_SOLVE c).
    + exists (Bone.draw <$> positions bs (x, y)). split; [done |].
      split; [done |]. by apply positions_draw_samePose.
    + exists (positions bs (x, y)). by rewrite list_fmap_id in Hst'.
Qed.

(** C9, amended, on the chain of the bones (0,0)-(1,0) and (1,0)-(2,0):
    two calls towards (1,1) with the two-bone solver assigned, and a call
    towards (2,0), where the chain ends, with the iterative solver. *)
Lemma moveEndEffector_again_witness :
  (exists ok c1 h1 h2,
     Chain_moveEndEffector 1 1 false
       (Chain.upd_ikSolver (Some IK_limbSolver) chain2)
       (store2 (boneAt 0 0 1 0) (boneAt 1 0 2 0)) = (Ret ok, c1, h1) /\
     Chain_moveEndEffector 1 1 false c1 h1 = (Ret ok, c1, h2) /\
     forall r, r ∈ [0%nat; 1%nat] -> h2 !! r = h1 !! r) /\
  (exists c' h' bs',
     Chain_moveEndEffector 2 0 false chain2
       (store2 (boneAt 0 0 1 0) (boneAt 1 0 2 0)) = (Ret true, c', h') /\
     stored h' [0%nat; 1%nat] bs' /\
     Forall2 samePose
       [asRoot (Some 1%nat) (boneAt 0 0 1 0);
        asTerminal (Some 0%nat) (boneAt 1 0 2 0)] bs').
Proof.
  pose proof (chain2_wf _ _ (boneAt_NEXT 1 0 2 0) (boneAt_PREV 0 0 1 0))
    as Hwf.
  pose proof (store2_stored (boneAt 0 0 1 0) (boneAt 1 0 2 0)) as Hst.
  assert (Hlen : (2 <= List.length
                         [asRoot (Some 1%nat) (boneAt 0 0 1 0);
                          asTerminal (Some 0%nat) (boneAt 1 0 2 0)])%nat)
    by (cbn [List.length]; lia).
  split.
  - assert (EL1 : 0 < Bone.length (asRoot (Some 1%nat) (boneAt 0 0 1 0)))
      by (rewrite asRoot_length, boneAt_axis_length by lra; lra).
    assert (EL2 : 0 < Bone.length (asTerminal (Some 0%nat) (boneAt 1 0 2 0)))
      by (rewrite asTerminal_length, boneAt_axis_length by lra; lra).
    pose proof (Chain_wf_upd_ikSolver (Some IK_limbSolver) _ _ _ Hwf) as HwfL.
    destruct (moveEndEffector_limb_returns 1 1 _ _ 0%nat 1%nat [] _ _
                HwfL eq_refl (store2_lookup0 _ _) (store2_lookup1 _ _)
                EL1 EL2) as (ok & h1 & Hrun).
    destruct (moveEndEffector_again 1 1 _ _ _ _ HwfL Hst Hlen) as [Hlimb _].
    destruct (Hlimb eq_refl ok _ h1 Hrun) as (h2 & Hrun2 & Hsame).
    exists ok,
      (Chain.upd_ikSolver (Some IK_limbSolver)
         (Chain.upd_ikSolver (Some IK_limbSolver) chain2)), h1, h2.
    split; [exact Hrun |]. split; [exact Hrun2 |].
    exact Hsame.
  - destruct (asRoot_geometry (Some 1%nat) (boneAt 0 0 1 0))
      as (_ & _ & EtX & EtY & _).
    destruct (asTerminal_geometry (Some 0%nat) (boneAt 1 0 2 0))
      as (EX & EY & FtX & FtY & _).
    destruct (boneAt_geometry 0 0 1 0) as (_ & _ & HtX0 & HtY0 & _).
    destruct (boneAt_geometry 1 0 2 0) as (HX1 & HY1 & HtX1 & HtY1 & _).
    destruct (moveEndEffector_again 2 0 chain2 _ _ _ Hwf Hst Hlen)
      as [_ Hccd].
    apply Hccd.
    + unfold chain2. cbn [Chain._ikSolver]. discriminate.
    + intros b Hb. apply elem_of_cons in Hb as [-> | Hb].
      * apply asRoot_posed, boneAt_posed.
      * apply list_elem_of_singleton in Hb as ->.
        apply asTerminal_posed, boneAt_posed.
    + apply joinedL_pair; congruence.
    + eexists. split; [reflexivity |]. cbn [fst snd]. split; congruence.
Defined.
